(** * SatSolver: a shallow embedding of the DPLL solver and of the DIMACS parser

    The development follows the C sources:
    - [include/structures.h], [src/structures.c]: literals, clauses, the CNF
      formula, the assignment stack;
    - [src/solver.c]: unit propagation, pure-literal elimination, the branching
      heuristics, backtracking, restarts, preprocessing, the DPLL driver and
      the validation of a solution;
    - [src/utils.c]: the string helpers, integer parsing, literal validation
      and the random generator;
    - [src/parser.c]: the problem line, the clause lines, the stream parser
      and the writer;
    - [src/main.c]: the path from the input text to the exit status.

    Conventions of the embedding.
    - [int32_t] literals and variables are integers of [Z]; the parser only
      lets values of the [int32_t] range through ([parse_int]).
    - [size_t] and [uint64_t] counters are integers of [Z] whose increment
      wraps at [2^64] (LP64 data model).
    - A C array is a list read with [!!!] and written with [<[ _ := _ ]>];
      the live part of the assignment stack is the list of its entries in
      index order (bottom first), its [size] field is the length of that list.
    - [NULL] arguments and allocation failures are outside the model: every
      [malloc]/[realloc] succeeds, so [assignment_stack_push] always returns
      [true].
    - Logging has no effect on the state and is left out.
    - [double] values: the Jeroslow-Wang scores, which are summed, are
      binary64 numbers ([SpecFloat]); the timeout and the readings of the
      processor clock, which are only compared, are rationals of [Q], and the
      readings are an explicit argument.
    - A C string is a [string]; a stream is the text it holds, read line by
      line as [fgets] does; [strtol], [sscanf] and [fprintf] are embedded for
      the formats that the sources use. *)

From Stdlib Require Import ZArith QArith Ascii String Lia SpecFloat.
From Stdlib Require Import DecimalString DecimalZ DecimalPos.
From stdpp Require Import base decidable option list numbers.

Local Open Scope Z_scope.

(** ** Basic types ([structures.h]) *)

Definition variable_t := Z.
Definition literal_t := Z.

Inductive var_assignment_t : Set :=
| VAR_UNASSIGNED
| VAR_TRUE
| VAR_FALSE.

#[global] Instance var_assignment_eq_dec : EqDecision var_assignment_t.
Proof. solve_decision. Defined.

(** A fresh array comes from [calloc], i.e. it is filled with
    [VAR_UNASSIGNED = 0]; reading outside the list yields that value too (C
    leaves such a read undefined; callers keep every index in range). *)
#[global] Instance var_assignment_inhabited : Inhabited var_assignment_t :=
  populate VAR_UNASSIGNED.

Definition make_literal (var : variable_t) (positive : bool) : literal_t :=
  if positive then var else - var.

Definition literal_variable (lit : literal_t) : variable_t :=
  if 0 <? lit then lit else - lit.

Definition literal_is_positive (lit : literal_t) : bool := 0 <? lit.

Definition literal_negate (lit : literal_t) : literal_t := - lit.

(** A clause is the sequence [literals[0 .. size)].  The cache fields
    [is_satisfied], [is_unit] and [unit_literal] of [clause_t] are written by
    [cnf_update_caches] only, which the solver never calls. *)
Definition clause_t := list literal_t.

(** [assignment[var]]. *)
Definition read_assignment (assignment : list var_assignment_t)
    (var : variable_t) : var_assignment_t :=
  assignment !!! Z.to_nat var.

(** ** Clause evaluation ([structures.c]) *)

(** The test shared by the three evaluation loops:
    [(is_positive && var_value == VAR_TRUE) ||
     (!is_positive && var_value == VAR_FALSE)]. *)
Definition literal_holds (is_positive : bool) (var_value : var_assignment_t) : bool :=
  (is_positive && bool_decide (var_value = VAR_TRUE))
  || (negb is_positive && bool_decide (var_value = VAR_FALSE)).

Fixpoint clause_is_satisfied (clause : clause_t)
    (assignment : list var_assignment_t) : bool :=
  match clause with
  | [] => false
  | lit :: rest =>
      let var := literal_variable lit in
      let is_positive := literal_is_positive lit in
      let var_value := read_assignment assignment var in
      if literal_holds is_positive var_value then true
      else clause_is_satisfied rest assignment
  end.

(** The loop of [clause_is_unit], with its two locals.  [None] is the C
    [false]; [Some l] is [true] with [*unit_literal = l]. *)
Fixpoint clause_is_unit_loop (lits : list literal_t)
    (assignment : list var_assignment_t)
    (unassigned_literal : literal_t) (unassigned_count : Z) : option literal_t :=
  match lits with
  | [] => if unassigned_count =? 1 then Some unassigned_literal else None
  | lit :: rest =>
      let var := literal_variable lit in
      let is_positive := literal_is_positive lit in
      let var_value := read_assignment assignment var in
      if literal_holds is_positive var_value then None
      else if bool_decide (var_value = VAR_UNASSIGNED) then
        if 1 <? unassigned_count + 1 then None
        else clause_is_unit_loop rest assignment lit (unassigned_count + 1)
      else clause_is_unit_loop rest assignment unassigned_literal unassigned_count
  end.

Definition clause_is_unit (clause : clause_t)
    (assignment : list var_assignment_t) : option literal_t :=
  clause_is_unit_loop clause assignment 0 0.

Fixpoint clause_is_conflicting (clause : clause_t)
    (assignment : list var_assignment_t) : bool :=
  match clause with
  | [] => true
  | lit :: rest =>
      let var := literal_variable lit in
      let is_positive := literal_is_positive lit in
      let var_value := read_assignment assignment var in
      if bool_decide (var_value = VAR_UNASSIGNED) || literal_holds is_positive var_value
      then false
      else clause_is_conflicting rest assignment
  end.

(** [clause_add_literal]: literal [0] is refused, an exact duplicate is
    accepted without being stored again. *)
Fixpoint clause_has_literal (clause : clause_t) (literal : literal_t) : bool :=
  match clause with
  | [] => false
  | l :: rest => if l =? literal then true else clause_has_literal rest literal
  end.

Definition clause_add_literal (clause : clause_t) (literal : literal_t)
    : bool * clause_t :=
  if literal =? 0 then (false, clause)
  else if clause_has_literal clause literal then (true, clause)
  else (true, clause ++ [literal]).

(** [clause_is_tautology]: the inner loop over [j > i], then the outer one. *)
Fixpoint tautology_with (vi : variable_t) (pi : bool) (later : list literal_t) : bool :=
  match later with
  | [] => false
  | lj :: rest =>
      if (vi =? literal_variable lj) && negb (eqb pi (literal_is_positive lj))
      then true
      else tautology_with vi pi rest
  end.

Fixpoint clause_is_tautology (clause : clause_t) : bool :=
  match clause with
  | [] => false
  | li :: rest =>
      if tautology_with (literal_variable li) (literal_is_positive li) rest
      then true
      else clause_is_tautology rest
  end.

(** ** The CNF formula ([structures.c]) *)

(** [satisfied_clauses] is a cache of [cnf_update_caches]; the occurrence
    lists stay [NULL].  Neither is read by the code embedded here. *)
Record cnf_formula_t : Set := mk_cnf {
  clauses : list clause_t;
  num_variables : variable_t;
  assignment : list var_assignment_t;
  variable_used : list bool
}.

Definition set_assignment (cnf : cnf_formula_t)
    (a : list var_assignment_t) : cnf_formula_t :=
  mk_cnf (clauses cnf) (num_variables cnf) a (variable_used cnf).

(** [cnf_create]: [None] is the [NULL] returned for [num_variables <= 0];
    both arrays have [num_variables + 1] zeroed cells. *)
Definition cnf_create (num_variables : variable_t) : option cnf_formula_t :=
  if num_variables <=? 0 then None
  else Some (mk_cnf [] num_variables
               (replicate (Z.to_nat (num_variables + 1)) VAR_UNASSIGNED)
               (replicate (Z.to_nat (num_variables + 1)) false)).

Fixpoint mark_variables_used (lits : list literal_t) (n : variable_t)
    (used : list bool) : list bool :=
  match lits with
  | [] => used
  | lit :: rest =>
      let var := literal_variable lit in
      mark_variables_used rest n
        (if var <=? n then <[Z.to_nat var := true]> used else used)
  end.

Definition cnf_add_clause (cnf : cnf_formula_t) (clause : clause_t)
    : bool * cnf_formula_t :=
  (true, mk_cnf (clauses cnf ++ [clause]) (num_variables cnf) (assignment cnf)
           (mark_variables_used clause (num_variables cnf) (variable_used cnf))).

Fixpoint all_clauses_satisfied (cls : list clause_t)
    (a : list var_assignment_t) : bool :=
  match cls with
  | [] => true
  | c :: rest =>
      if negb (clause_is_satisfied c a) then false
      else all_clauses_satisfied rest a
  end.

Definition cnf_is_satisfied (cnf : cnf_formula_t) : bool :=
  all_clauses_satisfied (clauses cnf) (assignment cnf).

Fixpoint some_clause_conflicting (cls : list clause_t)
    (a : list var_assignment_t) : bool :=
  match cls with
  | [] => false
  | c :: rest =>
      if clause_is_conflicting c a then true
      else some_clause_conflicting rest a
  end.

Definition cnf_has_conflict (cnf : cnf_formula_t) : bool :=
  some_clause_conflicting (clauses cnf) (assignment cnf).

(** ** The assignment stack ([structures.c]) *)

Definition SIZE_MODULUS : Z := 2 ^ 64.

(** [x++] and [x--] on a [size_t] or [uint64_t]. *)
Definition size_incr (x : Z) : Z := (x + 1) mod SIZE_MODULUS.
Definition size_decr (x : Z) : Z := (x - 1) mod SIZE_MODULUS.

Record assignment_entry_t : Set := mk_entry {
  variable : variable_t;
  value : var_assignment_t;
  entry_decision_level : Z;
  is_decision : bool
}.

(** [stack] holds the entries [stack[0 .. size)]. *)
Record assignment_stack_t : Set := mk_stack {
  stack : list assignment_entry_t;
  decision_level : Z
}.

Definition stack_size (st : assignment_stack_t) : nat := length (stack st).

(** [stack[size - 1]], when [size > 0]. *)
Definition stack_top (st : assignment_stack_t) : option assignment_entry_t :=
  stack st !! (stack_size st - 1)%nat.

Definition assignment_stack_create : assignment_stack_t := mk_stack [] 0.

Definition assignment_stack_push (st : assignment_stack_t) (var : variable_t)
    (value : var_assignment_t) (is_decision : bool) : assignment_stack_t :=
  let level := if is_decision then size_incr (decision_level st)
               else decision_level st in
  mk_stack (stack st ++ [mk_entry var value level is_decision]) level.

(** [assignment_stack_pop]: [None] is the C [false] on an empty stack. *)
Definition assignment_stack_pop (st : assignment_stack_t)
    : option (assignment_entry_t * assignment_stack_t) :=
  match stack_top st with
  | None => None
  | Some top =>
      let level := if is_decision top && (0 <? decision_level st)
                   then size_decr (decision_level st)
                   else decision_level st in
      Some (top, mk_stack (take (stack_size st - 1) (stack st)) level)
  end.

(** The [while] loop of [assignment_stack_backtrack_to_level]; it pops at
    most [size] entries. *)
Fixpoint backtrack_to_level_loop (fuel : nat) (st : assignment_stack_t)
    (level : Z) : assignment_stack_t :=
  match fuel with
  | O => st
  | S fuel' =>
      match stack_top st with
      | Some top =>
          if level <? entry_decision_level top then
            match assignment_stack_pop st with
            | Some (_, st') => backtrack_to_level_loop fuel' st' level
            | None => st
            end
          else st
      | None => st
      end
  end.

Definition assignment_stack_backtrack_to_level (st : assignment_stack_t)
    (level : Z) : assignment_stack_t :=
  mk_stack (stack (backtrack_to_level_loop (stack_size st) st level)) level.

Definition assignment_stack_clear (st : assignment_stack_t) : assignment_stack_t :=
  mk_stack [] 0.

(** ** The solver state ([solver.h]) *)

Inductive solver_result_t : Set :=
| SOLVER_SATISFIABLE
| SOLVER_UNSATISFIABLE
| SOLVER_UNKNOWN
| SOLVER_TIMEOUT
| SOLVER_MEMORY_ERROR
| SOLVER_ERROR.

#[global] Instance solver_result_eq_dec : EqDecision solver_result_t.
Proof. solve_decision. Defined.

Inductive decision_strategy_t : Set :=
| DECISION_FIRST_UNASSIGNED
| DECISION_MOST_FREQUENT
| DECISION_JEROSLOW_WANG
| DECISION_RANDOM.

Record solver_config_t : Set := mk_config {
  decision_strategy : decision_strategy_t;
  enable_pure_literal : bool;
  enable_unit_propagation : bool;
  enable_preprocessing : bool;
  enable_restarts : bool;
  max_decisions : Z;
  timeout_seconds : Q;
  restart_threshold : Z;
  verbose : bool
}.

Definition DEFAULT_SOLVER_CONFIG : solver_config_t :=
  mk_config DECISION_JEROSLOW_WANG true true true false 0 0%Q 1000 false.

(** The counters of [solver_stats_t] that the solver updates. *)
Record solver_stats_t : Set := mk_stats {
  decisions : Z;
  propagations : Z;
  conflicts : Z;
  restarts : Z
}.

Definition stats_init : solver_stats_t := mk_stats 0 0 0 0.

(** [unit_clauses] and [unit_clauses_count] are allocated and never used.
    [random_state] is the process-wide generator state of [utils.c], which
    [decision_random] advances; it travels with the solver state here. *)
Record dpll_solver_t : Set := mk_solver {
  formula : cnf_formula_t;
  assignments : assignment_stack_t;
  stats : solver_stats_t;
  config : solver_config_t;
  pure_literals : list bool;
  formula_modified : bool;
  conflicts_since_restart : Z;
  random_state : Z
}.

Definition set_formula (s : dpll_solver_t) (f : cnf_formula_t) : dpll_solver_t :=
  mk_solver f (assignments s) (stats s) (config s) (pure_literals s)
    (formula_modified s) (conflicts_since_restart s) (random_state s).

Definition set_assignments (s : dpll_solver_t) (st : assignment_stack_t)
    : dpll_solver_t :=
  mk_solver (formula s) st (stats s) (config s) (pure_literals s)
    (formula_modified s) (conflicts_since_restart s) (random_state s).

Definition set_stats (s : dpll_solver_t) (x : solver_stats_t) : dpll_solver_t :=
  mk_solver (formula s) (assignments s) x (config s) (pure_literals s)
    (formula_modified s) (conflicts_since_restart s) (random_state s).

Definition set_config (s : dpll_solver_t) (c : solver_config_t) : dpll_solver_t :=
  mk_solver (formula s) (assignments s) (stats s) c (pure_literals s)
    (formula_modified s) (conflicts_since_restart s) (random_state s).

Definition set_pure_literals (s : dpll_solver_t) (p : list bool) : dpll_solver_t :=
  mk_solver (formula s) (assignments s) (stats s) (config s) p
    (formula_modified s) (conflicts_since_restart s) (random_state s).

Definition set_formula_modified (s : dpll_solver_t) (b : bool) : dpll_solver_t :=
  mk_solver (formula s) (assignments s) (stats s) (config s) (pure_literals s)
    b (conflicts_since_restart s) (random_state s).

Definition set_conflicts_since_restart (s : dpll_solver_t) (n : Z) : dpll_solver_t :=
  mk_solver (formula s) (assignments s) (stats s) (config s) (pure_literals s)
    (formula_modified s) n (random_state s).

Definition set_random_state (s : dpll_solver_t) (r : Z) : dpll_solver_t :=
  mk_solver (formula s) (assignments s) (stats s) (config s) (pure_literals s)
    (formula_modified s) (conflicts_since_restart s) r.

(** [SOLVER_STATS_INCREMENT (solver, field)], one per counter. *)
Definition incr_decisions (s : dpll_solver_t) : dpll_solver_t :=
  set_stats s (mk_stats (size_incr (decisions (stats s))) (propagations (stats s))
                 (conflicts (stats s)) (restarts (stats s))).

Definition incr_propagations (s : dpll_solver_t) : dpll_solver_t :=
  set_stats s (mk_stats (decisions (stats s)) (size_incr (propagations (stats s)))
                 (conflicts (stats s)) (restarts (stats s))).

Definition incr_conflicts (s : dpll_solver_t) : dpll_solver_t :=
  set_stats s (mk_stats (decisions (stats s)) (propagations (stats s))
                 (size_incr (conflicts (stats s))) (restarts (stats s))).

Definition incr_restarts (s : dpll_solver_t) : dpll_solver_t :=
  set_stats s (mk_stats (decisions (stats s)) (propagations (stats s))
                 (conflicts (stats s)) (size_incr (restarts (stats s)))).

(** [solver_create_with_config]; the caller hands over the formula. *)
Definition solver_create_with_config (f : cnf_formula_t) (c : solver_config_t)
    (seed : Z) : dpll_solver_t :=
  mk_solver f assignment_stack_create stats_init c
    (replicate (Z.to_nat (num_variables f + 1)) false) false 0 seed.

Definition solver_create (f : cnf_formula_t) (seed : Z) : dpll_solver_t :=
  solver_create_with_config f DEFAULT_SOLVER_CONFIG seed.

(** [IS_VARIABLE_ASSIGNED (solver, var)]. *)
Definition IS_VARIABLE_ASSIGNED (s : dpll_solver_t) (var : variable_t) : bool :=
  negb (bool_decide (read_assignment (assignment (formula s)) var = VAR_UNASSIGNED)).

(** [assign_variable].  The guard lets a negative [var] through (C would then
    write before the array); no caller passes one. *)
Definition assign_variable (s : dpll_solver_t) (var : variable_t)
    (value : var_assignment_t) (is_decision : bool) : bool * dpll_solver_t :=
  if (var =? 0) || (num_variables (formula s) <? var) then (false, s)
  else
    let f := set_assignment (formula s)
               (<[Z.to_nat var := value]> (assignment (formula s))) in
    let st := assignment_stack_push (assignments s) var value is_decision in
    (true, set_assignments (set_formula s f) st).

Definition has_conflict (s : dpll_solver_t) : bool :=
  some_clause_conflicting (clauses (formula s)) (assignment (formula s)).

Definition is_formula_satisfied (s : dpll_solver_t) : bool :=
  cnf_is_satisfied (formula s).

(** ** Unit propagation ([solver.c]) *)

(** One execution of the [for] loop over the clauses.  The first component is
    the result of an early [return] inside the loop, if any; the second is the
    local [propagated]. *)
Fixpoint unit_propagation_pass (cls : list clause_t) (s : dpll_solver_t)
    (propagated : bool) : option solver_result_t * bool * dpll_solver_t :=
  match cls with
  | [] => (None, propagated, s)
  | clause :: rest =>
      if clause_is_satisfied clause (assignment (formula s)) then
        unit_propagation_pass rest s propagated
      else
        match clause_is_unit clause (assignment (formula s)) with
        | Some unit_literal =>
            let var := literal_variable unit_literal in
            let value := if literal_is_positive unit_literal
                         then VAR_TRUE else VAR_FALSE in
            if IS_VARIABLE_ASSIGNED s var then
              if negb (bool_decide
                         (read_assignment (assignment (formula s)) var = value))
              then
                (Some SOLVER_UNKNOWN, propagated,
                 incr_conflicts
                   (set_conflicts_since_restart s
                      (size_incr (conflicts_since_restart s))))
              else unit_propagation_pass rest s propagated
            else
              match assign_variable s var value false with
              | (false, s') => (Some SOLVER_MEMORY_ERROR, propagated, s')
              | (true, s') =>
                  unit_propagation_pass rest
                    (set_formula_modified (incr_propagations s') true) true
              end
        | None => unit_propagation_pass rest s propagated
        end
  end.

(** The [do ... while (propagated)] loop.  The C loop carries no bound; the
    embedding counts the passes down from [fuel] and answers [None] when the
    count is used up. *)
Fixpoint unit_propagation_loop (fuel : nat) (s : dpll_solver_t)
    : option (solver_result_t * dpll_solver_t) :=
  match fuel with
  | O => None
  | S fuel' =>
      match unit_propagation_pass (clauses (formula s)) s false with
      | (Some r, _, s') => Some (r, s')
      | (None, true, s') => unit_propagation_loop fuel' s'
      | (None, false, s') =>
          Some (if cnf_is_satisfied (formula s') then SOLVER_SATISFIABLE
                else SOLVER_UNKNOWN, s')
      end
  end.

(** [num_variables + 1] passes are enough (lemma [unit_propagation_total]). *)
Definition pass_budget (s : dpll_solver_t) : nat :=
  S (Z.to_nat (num_variables (formula s))).

Definition unit_propagation (s : dpll_solver_t)
    : option (solver_result_t * dpll_solver_t) :=
  unit_propagation_loop (pass_budget s) s.

(** ** Pure-literal elimination ([solver.c]) *)

(** The loop over the literals of one live clause; it stops as soon as both
    polarities have been seen. *)
Fixpoint scan_clause_polarity (var : variable_t) (lits : list literal_t)
    (appears_positive appears_negative : bool) : bool * bool :=
  match lits with
  | [] => (appears_positive, appears_negative)
  | lit :: rest =>
      if literal_variable lit =? var then
        let appears_positive :=
          if literal_is_positive lit then true else appears_positive in
        let appears_negative :=
          if literal_is_positive lit then appears_negative else true in
        if appears_positive && appears_negative
        then (appears_positive, appears_negative)
        else scan_clause_polarity var rest appears_positive appears_negative
      else scan_clause_polarity var rest appears_positive appears_negative
  end.

(** The loop over the clauses, skipping the satisfied ones. *)
Fixpoint scan_polarity (var : variable_t) (cls : list clause_t)
    (a : list var_assignment_t)
    (appears_positive appears_negative : bool) : bool * bool :=
  match cls with
  | [] => (appears_positive, appears_negative)
  | clause :: rest =>
      if clause_is_satisfied clause a then
        scan_polarity var rest a appears_positive appears_negative
      else
        let '(appears_positive, appears_negative) :=
          scan_clause_polarity var clause appears_positive appears_negative in
        if appears_positive && appears_negative
        then (appears_positive, appears_negative)
        else scan_polarity var rest a appears_positive appears_negative
  end.

(** The loop [for (var = 1; var <= num_variables; var++)]; [count] is the
    number of iterations left. *)
Fixpoint pure_literal_loop (count : nat) (var : variable_t) (s : dpll_solver_t)
    (changed : bool) : bool * dpll_solver_t :=
  match count with
  | O => (changed, s)
  | S count' =>
      if IS_VARIABLE_ASSIGNED s var then
        pure_literal_loop count' (var + 1)
          (set_pure_literals s (<[Z.to_nat var := false]> (pure_literals s)))
          changed
      else
        let '(appears_positive, appears_negative) :=
          scan_polarity var (clauses (formula s)) (assignment (formula s))
            false false in
        if appears_positive && negb appears_negative then
          let s' := snd (assign_variable s var VAR_TRUE false) in
          pure_literal_loop count' (var + 1) (set_formula_modified s' true) true
        else if appears_negative && negb appears_positive then
          let s' := snd (assign_variable s var VAR_FALSE false) in
          pure_literal_loop count' (var + 1) (set_formula_modified s' true) true
        else pure_literal_loop count' (var + 1) s changed
  end.

Definition pure_literal_elimination (s : dpll_solver_t) : bool * dpll_solver_t :=
  pure_literal_loop (Z.to_nat (num_variables (formula s))) 1 s false.

(** ** Branching heuristics ([solver.c]) *)

Fixpoint first_unassigned_loop (count : nat) (var : variable_t)
    (s : dpll_solver_t) : variable_t :=
  match count with
  | O => 0
  | S count' =>
      if negb (IS_VARIABLE_ASSIGNED s var) then var
      else first_unassigned_loop count' (var + 1) s
  end.

Definition decision_first_unassigned (s : dpll_solver_t) : variable_t :=
  first_unassigned_loop (Z.to_nat (num_variables (formula s))) 1 s.

(** The clause loop of [calculate_literal_frequency]; its inner loop is the
    membership scan [clause_has_literal]. *)
Fixpoint literal_frequency_loop (cls : list clause_t)
    (a : list var_assignment_t) (literal : literal_t) (frequency : Z) : Z :=
  match cls with
  | [] => frequency
  | clause :: rest =>
      if clause_is_satisfied clause a then
        literal_frequency_loop rest a literal frequency
      else if clause_has_literal clause literal then
        literal_frequency_loop rest a literal (size_incr frequency)
      else literal_frequency_loop rest a literal frequency
  end.

Definition calculate_literal_frequency (s : dpll_solver_t)
    (literal : literal_t) : Z :=
  literal_frequency_loop (clauses (formula s)) (assignment (formula s)) literal 0.

Fixpoint most_frequent_loop (count : nat) (var : variable_t) (s : dpll_solver_t)
    (best_var : variable_t) (max_frequency : Z) : variable_t :=
  match count with
  | O => best_var
  | S count' =>
      if IS_VARIABLE_ASSIGNED s var then
        most_frequent_loop count' (var + 1) s best_var max_frequency
      else
        let pos_freq := calculate_literal_frequency s var in
        let neg_freq := calculate_literal_frequency s (- var) in
        let total_freq := (pos_freq + neg_freq) mod SIZE_MODULUS in
        if max_frequency <? total_freq then
          most_frequent_loop count' (var + 1) s var total_freq
        else most_frequent_loop count' (var + 1) s best_var max_frequency
  end.

Definition decision_most_frequent (s : dpll_solver_t) : variable_t :=
  most_frequent_loop (Z.to_nat (num_variables (formula s))) 1 s 0 0.

Fixpoint clause_contains_variable (lits : list literal_t) (var : variable_t) : bool :=
  match lits with
  | [] => false
  | lit :: rest =>
      if literal_variable lit =? var then true
      else clause_contains_variable rest var
  end.

(** The scores of the Jeroslow-Wang heuristic are [double] values: binary64
    numbers, here the ones of the Standard Library's [SpecFloat].  A sum
    rounds to nearest, ties to even. *)
Definition double : Set := spec_float.

Definition double_add (x y : double) : double := SFadd 53 1024 x y.

(** [x > y]. *)
Definition double_gt (x y : double) : bool := SFltb y x.

(** [pow (2.0, -(double) n)]: the power of two where binary64 holds it, down
    to [2^-1074], and [0.0] below. *)
Definition double_pow2_neg (n : Z) : double :=
  binary_normalize 53 1024 1 (- n) false.

(** [0.0] and [-1.0]. *)
Definition double_zero : double := S754_zero false.
Definition double_minus_one : double := S754_finite true (2 ^ 52) (-52).

(** [pow (2.0, -(double) clause->size)]. *)
Definition jw_weight (clause : clause_t) : double :=
  double_pow2_neg (Z.of_nat (length clause)).

Fixpoint jeroslow_wang_loop (cls : list clause_t) (a : list var_assignment_t)
    (var : variable_t) (score : double) : double :=
  match cls with
  | [] => score
  | clause :: rest =>
      if clause_is_satisfied clause a then jeroslow_wang_loop rest a var score
      else if clause_contains_variable clause var then
        jeroslow_wang_loop rest a var (double_add score (jw_weight clause))
      else jeroslow_wang_loop rest a var score
  end.

Definition calculate_jeroslow_wang_score (s : dpll_solver_t)
    (var : variable_t) : double :=
  if var =? 0 then double_zero
  else jeroslow_wang_loop (clauses (formula s)) (assignment (formula s)) var
         double_zero.

Fixpoint jeroslow_wang_var_loop (count : nat) (var : variable_t)
    (s : dpll_solver_t) (best_var : variable_t) (max_score : double)
    : variable_t :=
  match count with
  | O => best_var
  | S count' =>
      if IS_VARIABLE_ASSIGNED s var then
        jeroslow_wang_var_loop count' (var + 1) s best_var max_score
      else
        let score := calculate_jeroslow_wang_score s var in
        if double_gt score max_score then
          jeroslow_wang_var_loop count' (var + 1) s var score
        else jeroslow_wang_var_loop count' (var + 1) s best_var max_score
  end.

Definition decision_jeroslow_wang (s : dpll_solver_t) : variable_t :=
  jeroslow_wang_var_loop (Z.to_nat (num_variables (formula s))) 1 s 0
    double_minus_one.

Definition UINT_MODULUS : Z := 2 ^ 32.

(** [random_int] of [utils.c]: a 32-bit linear congruential step; the result
    comes with the new generator state. *)
Definition random_int (state : Z) (min max : Z) : Z * Z :=
  let '(min, max) := if max <? min then (max, min) else (min, max) in
  let state := (state * 1103515245 + 12345) mod UINT_MODULUS in
  (min + (state / 65536) mod ((max - min + 1) mod UINT_MODULUS), state).

Fixpoint collect_unassigned (count : nat) (var : variable_t) (s : dpll_solver_t)
    (unassigned_vars : list variable_t) : list variable_t :=
  match count with
  | O => unassigned_vars
  | S count' =>
      if negb (IS_VARIABLE_ASSIGNED s var) then
        collect_unassigned count' (var + 1) s (unassigned_vars ++ [var])
      else collect_unassigned count' (var + 1) s unassigned_vars
  end.

(** [decision_random]; the index drawn is below [unassigned_count] (as long as
    the count fits 32 bits, which [int32_t] variables ensure), so the
    alternative [0] of the array read is never taken. *)
Definition decision_random (s : dpll_solver_t) : variable_t * dpll_solver_t :=
  let unassigned_vars :=
    collect_unassigned (Z.to_nat (num_variables (formula s))) 1 s [] in
  let unassigned_count := Z.of_nat (length unassigned_vars) in
  if unassigned_count =? 0 then (0, s)
  else
    let '(random_index, state) :=
      random_int (random_state s) 0 (unassigned_count - 1) in
    (default 0 (unassigned_vars !! Z.to_nat random_index),
     set_random_state s state).

Definition choose_decision_variable (s : dpll_solver_t)
    : variable_t * dpll_solver_t :=
  match decision_strategy (config s) with
  | DECISION_FIRST_UNASSIGNED => (decision_first_unassigned s, s)
  | DECISION_MOST_FREQUENT => (decision_most_frequent s, s)
  | DECISION_JEROSLOW_WANG => (decision_jeroslow_wang s, s)
  | DECISION_RANDOM => decision_random s
  end.

Definition choose_decision_value (s : dpll_solver_t) (var : variable_t)
    : var_assignment_t :=
  if var =? 0 then VAR_UNASSIGNED else VAR_TRUE.

(** ** Backtracking ([solver.c]) *)

(** The reverse scan [for (i = size - 1; i >= 0; --i)]; the first argument is
    [i + 1].  [None] is the C [last_decision_idx == -1]. *)
Fixpoint find_last_decision (upto : nat) (entries : list assignment_entry_t)
    : option nat :=
  match upto with
  | O => None
  | S i =>
      match entries !! i with
      | Some e => if is_decision e then Some i else find_last_decision i entries
      | None => find_last_decision i entries
      end
  end.

(** The three statements that unwind the top entry by hand:
    [entry = stack[size - 1]; assignment[entry.variable] = VAR_UNASSIGNED;
    size--].  The level of the stack is not touched. *)
Definition unwind_top (s : dpll_solver_t) : dpll_solver_t :=
  match stack_top (assignments s) with
  | Some entry =>
      let f := set_assignment (formula s)
                 (<[Z.to_nat (variable entry) := VAR_UNASSIGNED]>
                    (assignment (formula s))) in
      let st := mk_stack (take (stack_size (assignments s) - 1)
                            (stack (assignments s)))
                  (decision_level (assignments s)) in
      set_assignments (set_formula s f) st
  | None => s
  end.

(** [for (i = cur_size; i > last_decision_idx + 1; --i)]. *)
Fixpoint unwind_above (count : nat) (s : dpll_solver_t) : dpll_solver_t :=
  match count with
  | O => s
  | S count' => unwind_above count' (unwind_top s)
  end.

Definition backtrack (s : dpll_solver_t) : bool * dpll_solver_t :=
  if (stack_size (assignments s) =? 0)%nat then (false, s)
  else
    match find_last_decision (stack_size (assignments s))
            (stack (assignments s)) with
    | None => (false, s)
    | Some last_decision_idx =>
        let cur_size := stack_size (assignments s) in
        let s1 := unwind_above (cur_size - (last_decision_idx + 1)) s in
        match stack_top (assignments s1) with
        | Some decision_entry =>
            let s2 := unwind_top s1 in
            let opposite_value :=
              if bool_decide (value decision_entry = VAR_TRUE)
              then VAR_FALSE else VAR_TRUE in
            assign_variable s2 (variable decision_entry) opposite_value true
        | None => (false, s1)
        end
    end.

(** ** Restarts ([solver.c]) *)

Definition should_restart (s : dpll_solver_t) : bool :=
  restart_threshold (config s) <=? conflicts_since_restart s.

Fixpoint clear_assignment_loop (count : nat) (var : variable_t)
    (a : list var_assignment_t) : list var_assignment_t :=
  match count with
  | O => a
  | S count' =>
      clear_assignment_loop count' (var + 1) (<[Z.to_nat var := VAR_UNASSIGNED]> a)
  end.

Fixpoint reapply_entries (entries : list assignment_entry_t)
    (a : list var_assignment_t) : list var_assignment_t :=
  match entries with
  | [] => a
  | entry :: rest =>
      reapply_entries rest (<[Z.to_nat (variable entry) := value entry]> a)
  end.

Definition unassign_until_level (s : dpll_solver_t) (level : Z) : dpll_solver_t :=
  let st := assignment_stack_backtrack_to_level (assignments s) level in
  let a := clear_assignment_loop (Z.to_nat (num_variables (formula s))) 1
             (assignment (formula s)) in
  let a := reapply_entries (stack st) a in
  set_assignments (set_formula s (set_assignment (formula s) a)) st.

Definition perform_restart (s : dpll_solver_t) : dpll_solver_t :=
  incr_restarts (unassign_until_level s 0).

(** ** Preprocessing ([solver.c]) *)

(** The [do ... while (changed)] loop of [preprocess_formula], counted down
    like [unit_propagation_loop]. *)
Fixpoint preprocess_loop (fuel : nat) (s : dpll_solver_t)
    : option (bool * dpll_solver_t) :=
  match fuel with
  | O => None
  | S fuel' =>
      let before := stack_size (assignments s) in
      let '(eliminated, s1) := pure_literal_elimination s in
      '(_, s2) ← unit_propagation s1;
      let changed :=
        eliminated || negb (stack_size (assignments s2) =? before)%nat in
      if has_conflict s2 then Some (true, s2)
      else if changed then preprocess_loop fuel' s2
      else Some (true, s2)
  end.

Definition preprocess_formula (s : dpll_solver_t)
    : option (bool * dpll_solver_t) :=
  preprocess_loop (pass_budget s) s.

(** ** The DPLL driver ([solver.c]) *)

(** [solver_is_timeout]; [elapsed] is the reading
    [get_current_time () - total_timer.start_time]. *)
Definition solver_is_timeout (s : dpll_solver_t) (elapsed : Q) : bool :=
  if Qle_bool (timeout_seconds (config s)) 0 then false
  else Qle_bool (timeout_seconds (config s)) elapsed.

(** [if (!backtrack (solver)) return SOLVER_UNSATISFIABLE; continue;] *)
Definition backtrack_or_unsat (s : dpll_solver_t)
    : option solver_result_t * dpll_solver_t :=
  match backtrack s with
  | (false, s') => (Some SOLVER_UNSATISFIABLE, s')
  | (true, s') => (None, s')
  end.

(** Steps 5 and 6 of an iteration and its tail: the choice of a decision, the
    decision cap, the restart and the progress guard.  The first component of
    the result is the value returned from the loop, if any. *)
Definition dpll_decide (s : dpll_solver_t) (progress_made : bool)
    : option solver_result_t * dpll_solver_t :=
  let '(decision_var, s) := choose_decision_variable s in
  if decision_var =? 0 then
    (Some (if is_formula_satisfied s then SOLVER_SATISFIABLE
           else SOLVER_UNSATISFIABLE), s)
  else
    let decision_value := choose_decision_value s decision_var in
    match assign_variable s decision_var decision_value true with
    | (false, s) => (Some SOLVER_ERROR, s)
    | (true, s) =>
        let progress_made := true in
        let s := incr_decisions s in
        if (0 <? max_decisions (config s))
           && (max_decisions (config s) <=? decisions (stats s))
        then (Some SOLVER_UNKNOWN, s)
        else
          let '(s, progress_made) :=
            if enable_restarts (config s) && should_restart s
            then (set_conflicts_since_restart (perform_restart s) 0, true)
            else (s, progress_made) in
          if negb progress_made then (Some SOLVER_UNKNOWN, s) else (None, s)
    end.

(** Step 2 of an iteration (pure literals), then [dpll_decide]. *)
Definition dpll_pure_stage (s : dpll_solver_t) (progress_made : bool)
    : option solver_result_t * dpll_solver_t :=
  if enable_pure_literal (config s) then
    let '(eliminated, s) := pure_literal_elimination s in
    let progress_made := eliminated || progress_made in
    if has_conflict s then backtrack_or_unsat s
    else dpll_decide s progress_made
  else dpll_decide s progress_made.

(** The body of the [while] loop after the timeout check. *)
Definition dpll_iteration (s : dpll_solver_t)
    : option (option solver_result_t * dpll_solver_t) :=
  let progress_made := false in
  let prev_assign_count := stack_size (assignments s) in
  if is_formula_satisfied s then Some (Some SOLVER_SATISFIABLE, s)
  else if has_conflict s then Some (backtrack_or_unsat s)
  else if enable_unit_propagation (config s) then
    '(_, s) ← unit_propagation s;
    let progress_made :=
      (prev_assign_count <? stack_size (assignments s))%nat || progress_made in
    if has_conflict s then Some (backtrack_or_unsat s)
    else Some (dpll_pure_stage s progress_made)
  else Some (dpll_pure_stage s progress_made).

(** [while (iterations < max_iterations)]: [remaining] is
    [max_iterations - iterations]; [clock n] is the elapsed time read by the
    timeout check of iteration [n]. *)
Fixpoint dpll_loop (remaining : nat) (iterations : nat) (clock : nat → Q)
    (s : dpll_solver_t) : option (solver_result_t * dpll_solver_t) :=
  match remaining with
  | O => Some (SOLVER_TIMEOUT, s)
  | S remaining' =>
      let iterations := S iterations in
      if solver_is_timeout s (clock iterations) then Some (SOLVER_TIMEOUT, s)
      else
        '(r, s) ← dpll_iteration s;
        match r with
        | Some result => Some (result, s)
        | None => dpll_loop remaining' iterations clock s
        end
  end.

Definition max_iterations : nat := 1000.

Definition dpll_algorithm (clock : nat → Q) (s : dpll_solver_t)
    : option (solver_result_t * dpll_solver_t) :=
  dpll_loop max_iterations 0 clock s.

(** The limits that [solver_solve] installs before the search. *)
Definition install_limits (c : solver_config_t) : solver_config_t :=
  let timeout := if Qeq_bool (timeout_seconds c) 0 then 5%Q
                 else timeout_seconds c in
  let cap := if max_decisions c =? 0 then 1000 else max_decisions c in
  mk_config (decision_strategy c) (enable_pure_literal c)
    (enable_unit_propagation c) (enable_preprocessing c) (enable_restarts c)
    cap timeout (restart_threshold c) (verbose c).

Definition solver_solve (clock : nat → Q) (s : dpll_solver_t)
    : option (solver_result_t * dpll_solver_t) :=
  let search (s : dpll_solver_t) :=
    dpll_algorithm clock (set_config s (install_limits (config s))) in
  if enable_preprocessing (config s) then
    '(ok, s) ← preprocess_formula s;
    if negb ok then Some (SOLVER_MEMORY_ERROR, s)
    else if (length (clauses (formula s)) =? 0)%nat
    then Some (SOLVER_SATISFIABLE, s)
    else if has_conflict s then Some (SOLVER_UNSATISFIABLE, s)
    else search s
  else search s.

(** [print_class_model_line] of [main.c]: the bit printed for a variable;
    an unassigned variable is reported as [0]. *)
Definition model_bit (cnf : cnf_formula_t) (var : variable_t) : bool :=
  bool_decide (read_assignment (assignment cnf) var = VAR_TRUE).

(** ** Integer parsing and literal validation ([utils.c]) *)

(** [isspace] and [isdigit] in the C locale. *)
Definition isspace (c : ascii) : bool :=
  let n := nat_of_ascii c in
  ((n =? 32) || ((9 <=? n) && (n <=? 13)))%nat.

Definition isdigit (c : ascii) : bool :=
  let n := nat_of_ascii c in
  ((48 <=? n) && (n <=? 57))%nat.

Definition digit_value (c : ascii) : Z := Z.of_nat (nat_of_ascii c) - 48.

Fixpoint skip_spaces (s : string) : string :=
  match s with
  | String c rest => if isspace c then skip_spaces rest else s
  | EmptyString => s
  end.

(** The digits at the head of [s]: their value, whether there was at least
    one, and what follows them. *)
Fixpoint read_digits (s : string) (acc : Z) (any : bool) : Z * bool * string :=
  match s with
  | String c rest =>
      if isdigit c then read_digits rest (acc * 10 + digit_value c) true
      else (acc, any, s)
  | EmptyString => (acc, any, s)
  end.

Definition LONG_MAX : Z := 2 ^ 63 - 1.
Definition LONG_MIN : Z := - 2 ^ 63.
Definition INT32_MAX : Z := 2 ^ 31 - 1.
Definition INT32_MIN : Z := - 2 ^ 31.

(** [strtol (str, &endptr, 10)] with a 64-bit [long]: the value, clamped to
    the range of [long], and the text at [endptr]; [None] stands for
    [endptr == str] (no digits, nothing converted). *)
Definition strtol (str : string) : Z * option string :=
  let s := skip_spaces str in
  let '(negative, s) :=
    match s with
    | String "-"%char rest => (true, rest)
    | String "+"%char rest => (false, rest)
    | _ => (false, s)
    end in
  let '(magnitude, any, rest) := read_digits s 0 false in
  if any then
    let v := if negative then - magnitude else magnitude in
    (Z.max LONG_MIN (Z.min LONG_MAX v), Some rest)
  else (0, None).

(** [parse_int]: [None] is the C [false]. *)
Definition parse_int (str : string) : option Z :=
  match strtol str with
  | (_, None) => None
  | (value, Some EmptyString) =>
      if (value <? INT32_MIN) || (INT32_MAX <? value) then None else Some value
  | (_, Some (String _ _)) => None
  end.

Definition is_valid_variable (var max_variables : Z) : bool :=
  (1 <=? var) && (var <=? max_variables).

Definition is_valid_literal (lit max_variables : Z) : bool :=
  if lit =? 0 then false
  else
    let var := if 0 <? lit then lit else - lit in
    is_valid_variable var max_variables.

(** ** Parsing one clause line ([parser.c]) *)

Inductive parse_result_t : Set :=
| PARSE_OK
| PARSE_ERROR_FILE_NOT_FOUND
| PARSE_ERROR_INVALID_FORMAT
| PARSE_ERROR_MEMORY
| PARSE_ERROR_NO_PROBLEM_LINE
| PARSE_ERROR_INVALID_PROBLEM_LINE
| PARSE_ERROR_INVALID_CLAUSE
| PARSE_ERROR_VARIABLE_OUT_OF_RANGE
| PARSE_ERROR_CLAUSE_NOT_TERMINATED
| PARSE_ERROR_EMPTY_FILE.

#[global] Instance parse_result_eq_dec : EqDecision parse_result_t.
Proof. solve_decision. Defined.

(** The delimiters given to [strtok]: space and tab. *)
Definition is_delimiter (c : ascii) : bool :=
  let n := nat_of_ascii c in
  ((n =? 32) || (n =? 9))%nat.

Definition string_is_empty (s : string) : bool :=
  match s with
  | EmptyString => true
  | String _ _ => false
  end.

(** The successive results of [strtok (line_copy, " \t")] and
    [strtok (NULL, " \t")]: the maximal runs of non-delimiters.  [token] is the
    run being read. *)
Fixpoint strtok_loop (s : string) (token : string) : list string :=
  match s with
  | EmptyString => if string_is_empty token then [] else [token]
  | String c rest =>
      if is_delimiter c then
        if string_is_empty token then strtok_loop rest EmptyString
        else token :: strtok_loop rest EmptyString
      else strtok_loop rest (token ++ String c EmptyString)%string
  end.

Definition strtok_tokens (line : string) : list string :=
  strtok_loop line EmptyString.

(** The [while (token)] loop of [parse_clause_line]; running out of tokens
    leaves [terminated] false. *)
Fixpoint parse_clause_tokens (tokens : list string) (clause : clause_t)
    (max_variables : Z) : parse_result_t * clause_t :=
  match tokens with
  | [] => (PARSE_ERROR_CLAUSE_NOT_TERMINATED, clause)
  | token :: rest =>
      match parse_int token with
      | None => (PARSE_ERROR_INVALID_CLAUSE, clause)
      | Some literal =>
          if literal =? 0 then (PARSE_OK, clause)
          else if negb (is_valid_literal literal max_variables)
          then (PARSE_ERROR_VARIABLE_OUT_OF_RANGE, clause)
          else
            match clause_add_literal clause literal with
            | (false, clause) => (PARSE_ERROR_MEMORY, clause)
            | (true, clause) => parse_clause_tokens rest clause max_variables
            end
      end
  end.

Definition parse_clause_line (line : string) (clause : clause_t)
    (max_variables : Z) : parse_result_t * clause_t :=
  parse_clause_tokens (strtok_tokens line) clause max_variables.

(** The fields of [parser_info_t] and [cnf_parser_t] other than the error
    text and the logging switch. *)
Record parser_info_t : Set := mk_info {
  line_number : Z;
  expected_clauses : Z;
  parsed_clauses : Z;
  max_variables : Z
}.

Record cnf_parser_t : Set := mk_parser {
  info : parser_info_t;
  parser_formula : option cnf_formula_t;
  strict_mode : bool
}.

(** The part of the loop body of [parser_parse_stream] that handles a line
    which is neither empty, a comment nor a problem line.  The first component
    is the value returned from [parser_parse_stream], if the function returns
    at this line; otherwise the loop goes on with the next line. *)
Definition parse_stream_clause_line (p : cnf_parser_t)
    (problem_line_found : bool) (trimmed_line : string)
    : option parse_result_t * cnf_parser_t :=
  if negb problem_line_found then (Some PARSE_ERROR_NO_PROBLEM_LINE, p)
  else
    let '(result, clause) :=
      parse_clause_line trimmed_line [] (max_variables (info p)) in
    if negb (bool_decide (result = PARSE_OK)) then (Some result, p)
    else if (length clause =? 0)%nat then
      if strict_mode p then (Some PARSE_ERROR_INVALID_CLAUSE, p) else (None, p)
    else if clause_is_tautology clause then (None, p)
    else
      match parser_formula p with
      | None => (Some PARSE_ERROR_MEMORY, p)
      | Some f =>
          match cnf_add_clause f clause with
          | (false, _) => (Some PARSE_ERROR_MEMORY, p)
          | (true, f') =>
              (None,
               mk_parser
                 (mk_info (line_number (info p)) (expected_clauses (info p))
                    (parsed_clauses (info p) + 1) (max_variables (info p)))
                 (Some f') (strict_mode p))
          end
      end.

(** ** Vocabulary of the statements *)

(** The representation invariant set up by [cnf_create]: the assignment array
    has [num_variables + 1] cells. *)
Definition cnf_allocated (cnf : cnf_formula_t) : Prop :=
  length (assignment cnf) = Z.to_nat (num_variables cnf + 1).

(** The invariant of the formula: every literal of every clause names a
    variable of [1 .. num_variables]. *)
Definition literals_in_range (cnf : cnf_formula_t) : Prop :=
  Forall (Forall (λ lit, 1 <= literal_variable lit <= num_variables cnf))
    (clauses cnf).

Definition count_unassigned (a : list var_assignment_t) : nat :=
  length (filter (λ v, v = VAR_UNASSIGNED) a).

(** The number of unassigned variables (cell [0] of the array is unused). *)
Definition unassigned_count (cnf : cnf_formula_t) : nat :=
  count_unassigned (drop 1 (assignment cnf)).

(** What the operations of the solver leave alone: the clauses, the number of
    variables and the size of the assignment array. *)
Definition same_shape (s s' : dpll_solver_t) : Prop :=
  clauses (formula s') = clauses (formula s)
  ∧ num_variables (formula s') = num_variables (formula s)
  ∧ length (assignment (formula s')) = length (assignment (formula s)).

(** The number of passes of [unit_propagation_loop] in which a propagation
    took place. *)
Fixpoint propagating_passes (fuel : nat) (s : dpll_solver_t) : nat :=
  match fuel with
  | O => O
  | S fuel' =>
      match unit_propagation_pass (clauses (formula s)) s false with
      | (Some _, propagated, _) => if propagated then 1%nat else O
      | (None, true, s') => S (propagating_passes fuel' s')
      | (None, false, _) => O
      end
  end.

(** What unit propagation and pure-literal elimination do to the state: the
    shape and the conflict counters stay, the stack only grows, and every new
    entry pays for itself with one unassigned variable. *)
Definition propagation_frame (s s' : dpll_solver_t) : Prop :=
  same_shape s s'
  ∧ conflicts_since_restart s' = conflicts_since_restart s
  ∧ conflicts (stats s') = conflicts (stats s)
  ∧ (stack_size (assignments s) ≤ stack_size (assignments s'))%nat
  ∧ (cnf_allocated (formula s) →
     (unassigned_count (formula s') + stack_size (assignments s')
      = unassigned_count (formula s) + stack_size (assignments s))%nat).

(** The invariants of the decision stack: the variables of its entries lie in
    [1 .. num_variables] and are pairwise distinct, and the assignment array
    holds the value of every entry. *)
Definition stack_variables_in_range (s : dpll_solver_t) : Prop :=
  Forall (λ e, 1 <= variable e <= num_variables (formula s))
    (stack (assignments s)).

Definition stack_agrees (s : dpll_solver_t) : Prop :=
  Forall (λ e, read_assignment (assignment (formula s)) (variable e) = value e)
    (stack (assignments s)).

Definition stack_invariant (s : dpll_solver_t) : Prop :=
  cnf_allocated (formula s)
  ∧ stack_variables_in_range s
  ∧ NoDup (variable <$> stack (assignments s))
  ∧ stack_agrees s.

(** The invariant of the search: the stack invariants, and every entry
    carries a definite value. *)
Definition search_invariant (s : dpll_solver_t) : Prop :=
  stack_invariant s
  ∧ Forall (λ e, value e ≠ VAR_UNASSIGNED) (stack (assignments s)).

(** The assignment array after the entries [es] have been unwound by hand,
    the last one first. *)
Definition unassign_entries (es : list assignment_entry_t)
    (a : list var_assignment_t) : list var_assignment_t :=
  foldr (λ e acc, <[Z.to_nat (variable e) := VAR_UNASSIGNED]> acc) a es.

(** The number of decision entries on the stack, and the bookkeeping
    invariant of the level. *)
Definition count_decisions (st : assignment_stack_t) : Z :=
  Z.of_nat (length (filter (λ e, is_decision e = true) (stack st))).

Definition level_counts_decisions (st : assignment_stack_t) : Prop :=
  decision_level st = count_decisions st.

(** The truth value of a literal, of a clause and of a formula under a total
    assignment [m] of the variables. *)
Definition literal_true (m : variable_t → bool) (lit : literal_t) : bool :=
  if literal_is_positive lit then m (literal_variable lit)
  else negb (m (literal_variable lit)).

Definition clause_true (m : variable_t → bool) (clause : clause_t) : bool :=
  existsb (literal_true m) clause.

Definition formula_true (m : variable_t → bool) (cnf : cnf_formula_t) : bool :=
  forallb (clause_true m) (clauses cnf).

(** The total frequency that [decision_most_frequent] compares. *)
Definition total_frequency (s : dpll_solver_t) (var : variable_t) : Z :=
  (calculate_literal_frequency s var + calculate_literal_frequency s (- var))
  mod SIZE_MODULUS.

(** The integer that a token denotes as a decimal numeral, read as the input
    format describes it and not as the parser does: an optional sign, then
    digits and nothing else.  The integer may or may not fit [int]. *)
Fixpoint digits_value (s : string) (acc : Z) : option Z :=
  match s with
  | EmptyString => Some acc
  | String c rest =>
      if isdigit c then digits_value rest (acc * 10 + digit_value c) else None
  end.

Definition numeral_value (token : string) : option Z :=
  match token with
  | EmptyString => None
  | String c rest =>
      if Ascii.eqb c "-" then
        if string_is_empty rest then None else Z.opp <$> digits_value rest 0
      else if Ascii.eqb c "+" then
        if string_is_empty rest then None else digits_value rest 0
      else digits_value token 0
  end.

(** A token that denotes a non-zero literal of a variable of [1 .. n], and one
    that denotes a non-zero literal of a variable beyond [n] that is still an
    [int]; the variable of the literal [INT32_MIN] is none. *)
Definition token_in_range (n : Z) (token : string) : bool :=
  match numeral_value token with
  | Some l => negb (l =? 0) && (Z.abs l <=? n)
  | None => false
  end.

Definition token_out_of_range (n : Z) (token : string) : bool :=
  match numeral_value token with
  | Some l => negb (l =? 0) && (n <? Z.abs l) && (Z.abs l <=? INT32_MAX)
  | None => false
  end.

(** A token that denotes an integer outside the range of [int]. *)
Definition token_beyond_int (token : string) : bool :=
  match numeral_value token with
  | Some l => (l <? INT32_MIN) || (INT32_MAX <? l)
  | None => false
  end.

(** What [parser_parse_stream] maintains once the problem line has been read:
    the formula was created for [max_variables] variables, is allocated and
    keeps its literals in range. *)
Definition parser_invariant (p : cnf_parser_t) : Prop :=
  match parser_formula p with
  | Some cnf =>
      num_variables cnf = max_variables (info p)
      ∧ cnf_allocated cnf
      ∧ literals_in_range cnf
  | None => False
  end.

(** ** Example inputs *)

(** The formula that [cnf_create] and one [cnf_add_clause] per clause build. *)
Definition formula_of (n : variable_t) (cls : list clause_t) : cnf_formula_t :=
  match cnf_create n with
  | Some cnf => foldl (λ cnf clause, snd (cnf_add_clause cnf clause)) cnf cls
  | None => mk_cnf [] n [] []
  end.

(** The configuration that [main.c] hands to the solver when no option is
    given: the default one with the first-unassigned strategy. *)
Definition cli_config (strategy : decision_strategy_t) : solver_config_t :=
  mk_config strategy true true true false 0 0%Q 1000 false.

(** [p cnf 3 3], clauses [1 2 0], [-1 3 0], [-2 -3 0]. *)
Definition satisfiable_example : dpll_solver_t :=
  solver_create_with_config (formula_of 3 [[1; 2]; [-1; 3]; [-2; -3]])
    (cli_config DECISION_FIRST_UNASSIGNED) 1.

(** [p cnf 3 4], clauses [1 2 0], [1 -2 0], [-1 2 0], [-1 -2 0]. *)
Definition unsatisfiable_example : dpll_solver_t :=
  solver_create_with_config
    (formula_of 3 [[1; 2]; [1; -2]; [-1; 2]; [-1; -2]])
    (cli_config DECISION_FIRST_UNASSIGNED) 1.

(** [p cnf 2 2], clauses [1 0], [-1 2 0]. *)
Definition unit_chain_example : dpll_solver_t :=
  solver_create_with_config (formula_of 2 [[1]; [-1; 2]])
    (cli_config DECISION_FIRST_UNASSIGNED) 1.

(** [p cnf 3 2], clauses [1 2 0], [-1 -2 0], with the most-frequent strategy,
    and the state in which the driver calls [choose_decision_variable] in its
    second iteration on it: after the decision [x1 = TRUE] and the propagation
    [x2 = FALSE] both clauses are satisfied, variable 3 is free and occurs in
    no clause. *)
Definition idle_variable_start : dpll_solver_t :=
  solver_create_with_config (formula_of 3 [[1; 2]; [-1; -2]])
    (cli_config DECISION_MOST_FREQUENT) 1.

Definition idle_variable_example : dpll_solver_t :=
  snd (assign_variable
         (snd (assign_variable idle_variable_start 1 VAR_TRUE true))
         2 VAR_FALSE false).

(** A clock that never reaches the timeout. *)
Definition still_clock : nat → Q := λ _, 0%Q.

(** The unsatisfiable example after the decision [x1 = TRUE] and the
    propagation [x2 = TRUE]: the clause [-1 -2 0] is conflicting. *)
Definition conflict_example : dpll_solver_t :=
  snd (assign_variable
         (snd (assign_variable unsatisfiable_example 1 VAR_TRUE true))
         2 VAR_TRUE false).

(** A parser that has read the problem line [p cnf 3 1]. *)
Definition parser_example : cnf_parser_t :=
  mk_parser (mk_info 1 1 0 3) (cnf_create 3) false.

(** ** Vocabulary of the statements about the answers of the solver *)

(** A total assignment [m] that gives every variable assigned in the array
    the value it has there. *)
Definition model_extends (m : variable_t → bool)
    (a : list var_assignment_t) : Prop :=
  ∀ v, (read_assignment a v = VAR_TRUE → m v = true)
       ∧ (read_assignment a v = VAR_FALSE → m v = false).

(** Some satisfying assignment of the formula extends the current partial
    assignment. *)
Definition consistent (s : dpll_solver_t) : Prop :=
  ∃ m, formula_true m (formula s) = true
       ∧ model_extends m (assignment (formula s)).

Definition no_decision (st : assignment_stack_t) : Prop :=
  Forall (λ e, is_decision e = false) (stack st).

(** As long as no decision has been taken, the assignments made so far cost
    no solution: if the formula can be satisfied at all, it can be satisfied
    on top of them. *)
Definition implied (s : dpll_solver_t) : Prop :=
  no_decision (assignments s) →
  (∃ m, formula_true m (formula s) = true) → consistent s.

(** The answers that leave the loop of the driver: never an error code, and
    [SOLVER_UNKNOWN] only with the decision cap reached. *)
Definition regular_answer (r : solver_result_t) (s : dpll_solver_t) : Prop :=
  r ≠ SOLVER_ERROR ∧ r ≠ SOLVER_MEMORY_ERROR
  ∧ (r = SOLVER_UNKNOWN →
     0 < max_decisions (config s)
     ∧ max_decisions (config s) <= decisions (stats s)).

(** The satisfiable example with room for one decision only. *)
Definition capped_example : dpll_solver_t :=
  set_config satisfiable_example
    (mk_config DECISION_FIRST_UNASSIGNED true true true false 1 0%Q 1000 false).

(** What unit propagation and pure-literal elimination do besides what
    [propagation_frame] records: the configuration and the clauses stay, the
    stack gains entries that are not decisions, and a state that some
    satisfying assignment extends is taken to such a state. *)
Definition quiet_step (s s' : dpll_solver_t) : Prop :=
  config s' = config s
  ∧ clauses (formula s') = clauses (formula s)
  ∧ (∃ extra, stack (assignments s') = stack (assignments s) ++ extra
              ∧ Forall (λ e, is_decision e = false) extra)
  ∧ (consistent s → consistent s').

(** The invariant behind the [SOLVER_UNSATISFIABLE] answers: the stack
    invariants, the bounds of the data model ([int32_t] variables, a clause
    count that [size_t] frequencies can hold twice), restarts switched off as
    [main.c] leaves them, and [implied]. *)
Definition refutation_invariant (s : dpll_solver_t) : Prop :=
  search_invariant s
  ∧ literals_in_range (formula s)
  ∧ num_variables (formula s) <= INT32_MAX
  ∧ Z.of_nat (length (clauses (formula s))) < 2 ^ 63
  ∧ enable_restarts (config s) = false
  ∧ implied s.

(** [p cnf 1 2], clauses [1 0], [-1 0]. *)
Definition contradictory_units : cnf_formula_t := formula_of 1 [[1]; [-1]].

(** A state of the search in which a decision is on the stack. *)
Definition decided_state (s : dpll_solver_t) : Prop :=
  refutation_invariant s
  ∧ Exists (λ e, is_decision e = true) (stack (assignments s)).

(** The [double] values that a sum of weights can take: a zero, a positive
    number or [+inf]; no NaN and nothing negative. *)
Definition nonneg_double (x : double) : Prop :=
  match x with
  | S754_zero _ | S754_finite false _ _ | S754_infinity false => True
  | _ => False
  end.

(** ** Strings and lines ([utils.c], [parser.c])

    A C string is a [string] without the character [NUL]; [fgets_lines] cuts
    what it reads from the stream accordingly. *)

Definition NUL : ascii := "000"%char.
Definition newline : ascii := "010"%char.

(** The backward loop of [trim_string], which moves [end] down while it is
    above [str] and points at white space; [end] is an index here. *)
Fixpoint trim_end_loop (str : string) (end_ : nat) : nat :=
  match end_ with
  | O => O
  | S e =>
      match String.get end_ str with
      | Some c => if isspace c then trim_end_loop str e else end_
      | None => end_
      end
  end.

Definition trim_string (str : string) : string :=
  let str := skip_spaces str in
  if string_is_empty str then str
  else
    let end_ := trim_end_loop str (String.length str - 1) in
    substring 0 (end_ + 1) str.

(** [strncmp (s1, s2, n) == 0]. *)
Fixpoint strncmp_eq (s1 s2 : string) (n : nat) : bool :=
  match n with
  | O => true
  | S n' =>
      match s1, s2 with
      | EmptyString, EmptyString => true
      | String c1 r1, String c2 r2 =>
          if Ascii.eqb c1 c2 then strncmp_eq r1 r2 n' else false
      | _, _ => false
      end
  end.

Definition string_starts_with (str prefix : string) : bool :=
  strncmp_eq str prefix (String.length prefix).

Definition string_ends_with (str suffix : string) : bool :=
  let str_len := String.length str in
  let suffix_len := String.length suffix in
  if (str_len <? suffix_len)%nat then false
  else String.eqb (substring (str_len - suffix_len) suffix_len str) suffix.

Definition is_comment_line (line : string) : bool :=
  match line with
  | String c _ => Ascii.eqb c "c"%char
  | EmptyString => false
  end.

Definition is_problem_line (line : string) : bool :=
  string_starts_with line "p ".

Fixpoint is_empty_line (line : string) : bool :=
  match line with
  | EmptyString => true
  | String c rest => if negb (isspace c) then false else is_empty_line rest
  end.

Definition is_clause_line (line : string) : bool :=
  negb (is_comment_line line) && negb (is_problem_line line)
  && negb (is_empty_line line).

(** [parse_long]: [parse_int] without the range check. *)
Definition parse_long (str : string) : option Z :=
  match strtol str with
  | (_, None) => None
  | (value, Some EmptyString) => Some value
  | (_, Some (String _ _)) => None
  end.

(** ** The problem line ([parser.c]) *)

(** The conversion [%15s] of [sscanf]: at most [width] characters, up to the
    first white space. *)
Fixpoint scan_word (width : nat) (s : string) : string * string :=
  match width, s with
  | S width', String c rest =>
      if isspace c then (EmptyString, s)
      else let '(word, rest') := scan_word width' rest in (String c word, rest')
  | _, _ => (EmptyString, s)
  end.

(** The conversion [%d] of [sscanf]: the subject sequence is the one of
    [strtol] in base 10.  C leaves a value that does not fit [int] undefined;
    the embedding follows glibc, which converts as [strtol] does and keeps the
    low 32 bits. *)
Definition int_of_long (v : Z) : Z := (v + 2 ^ 31) mod 2 ^ 32 - 2 ^ 31.

Definition scan_int (s : string) : option (Z * string) :=
  match strtol s with
  | (v, Some rest) => Some (int_of_long v, rest)
  | (_, None) => None
  end.

(** [sscanf (line, "p %15s %d %d %c", format, num_vars, num_clauses, &dummy)]:
    the value returned (the number of conversions made, [-1] for [EOF]) and
    the three results that [parse_problem_line] reads when that value is 3. *)
Definition sscanf_problem_line (line : string) : Z * string * Z * Z :=
  match line with
  | EmptyString => (-1, EmptyString, 0, 0)
  | String c rest =>
      if negb (Ascii.eqb c "p"%char) then (0, EmptyString, 0, 0)
      else
        let '(format, s) := scan_word 15 (skip_spaces rest) in
        if string_is_empty format then (-1, EmptyString, 0, 0)
        else
          match scan_int s with
          | None => (1, format, 0, 0)
          | Some (num_vars, s) =>
              match scan_int s with
              | None => (2, format, num_vars, 0)
              | Some (num_clauses, s) =>
                  if string_is_empty (skip_spaces s)
                  then (3, format, num_vars, num_clauses)
                  else (4, format, num_vars, num_clauses)
              end
          end
  end.

Definition parse_problem_line (line : string) : parse_result_t * Z * Z :=
  let '(parsed, format, num_vars, num_clauses) := sscanf_problem_line line in
  if negb (parsed =? 3)
  then (PARSE_ERROR_INVALID_PROBLEM_LINE, num_vars, num_clauses)
  else if negb (String.eqb format "cnf")
  then (PARSE_ERROR_INVALID_PROBLEM_LINE, num_vars, num_clauses)
  else if (num_vars <=? 0) || (num_clauses <? 0)
  then (PARSE_ERROR_INVALID_PROBLEM_LINE, num_vars, num_clauses)
  else (PARSE_OK, num_vars, num_clauses).

(** ** The stream parser ([parser.c])

    The [int] counters [line_number] and [parsed_clauses] are integers of
    [Z]: they count lines, and no text of fewer than [2^31] lines makes them
    overflow. *)

Definition MAX_LINE_LENGTH : nat := 1024.

(** The successive results of [fgets (line, MAX_LINE_LENGTH, stream)]: a line
    ends after its newline or when [MAX_LINE_LENGTH - 1] characters have been
    stored; [room] is the number of characters that still fit. *)
Fixpoint fgets_loop (stream : string) (line : string) (room : nat)
    : list string :=
  match stream with
  | EmptyString => if string_is_empty line then [] else [line]
  | String c rest =>
      let line := (line ++ String c EmptyString)%string in
      if Ascii.eqb c newline || (room =? 1)%nat
      then line :: fgets_loop rest EmptyString (MAX_LINE_LENGTH - 1)
      else fgets_loop rest line (room - 1)
  end.

Definition fgets_lines (stream : string) : list string :=
  fgets_loop stream EmptyString (MAX_LINE_LENGTH - 1).

(** What the string functions see of a line: it ends at the first [NUL], and
    [parser_parse_stream] cuts it at the first newline. *)
Fixpoint cut_line (line : string) : string :=
  match line with
  | EmptyString => EmptyString
  | String c rest =>
      if Ascii.eqb c NUL || Ascii.eqb c newline then EmptyString
      else String c (cut_line rest)
  end.

Definition parser_create (strict_mode : bool) : cnf_parser_t :=
  mk_parser (mk_info 0 0 0 0) None strict_mode.

Definition parser_reset (p : cnf_parser_t) : cnf_parser_t :=
  mk_parser (mk_info 0 0 0 0) None (strict_mode p).

(** The body of the [while (fgets (...))] loop.  The first component is the
    value returned from [parser_parse_stream], if the function returns at this
    line; the last one is the local [problem_line_found]. *)
Definition parse_stream_line (p : cnf_parser_t) (problem_line_found : bool)
    (line : string) : option parse_result_t * cnf_parser_t * bool :=
  let p := mk_parser
             (mk_info (line_number (info p) + 1) (expected_clauses (info p))
                (parsed_clauses (info p)) (max_variables (info p)))
             (parser_formula p) (strict_mode p) in
  let trimmed_line := trim_string (cut_line line) in
  if is_empty_line trimmed_line then (None, p, problem_line_found)
  else if is_comment_line trimmed_line then (None, p, problem_line_found)
  else if is_problem_line trimmed_line then
    if problem_line_found
    then (Some PARSE_ERROR_INVALID_PROBLEM_LINE, p, problem_line_found)
    else
      let '(result, num_vars, num_clauses) := parse_problem_line trimmed_line in
      if negb (bool_decide (result = PARSE_OK))
      then (Some result, p, problem_line_found)
      else
        let p := mk_parser
                   (mk_info (line_number (info p)) num_clauses
                      (parsed_clauses (info p)) num_vars)
                   (cnf_create num_vars) (strict_mode p) in
        match parser_formula p with
        | None => (Some PARSE_ERROR_MEMORY, p, true)
        | Some _ => (None, p, true)
        end
  else
    let '(r, p) := parse_stream_clause_line p problem_line_found trimmed_line in
    (r, p, problem_line_found).

Fixpoint parse_stream_lines (lines : list string) (p : cnf_parser_t)
    (problem_line_found : bool) : parse_result_t * cnf_parser_t :=
  match lines with
  | [] =>
      if negb problem_line_found then (PARSE_ERROR_NO_PROBLEM_LINE, p)
      else if strict_mode p
              && negb (parsed_clauses (info p) =? expected_clauses (info p))
      then (PARSE_ERROR_INVALID_FORMAT, p)
      else (PARSE_OK, p)
  | line :: rest =>
      match parse_stream_line p problem_line_found line with
      | (Some result, p, _) => (result, p)
      | (None, p, problem_line_found) =>
          parse_stream_lines rest p problem_line_found
      end
  end.

(** The parser once the loop has counted one more line. *)
Definition parser_next_line (p : cnf_parser_t) : cnf_parser_t :=
  mk_parser
    (mk_info (line_number (info p) + 1) (expected_clauses (info p))
       (parsed_clauses (info p)) (max_variables (info p)))
    (parser_formula p) (strict_mode p).

(** The loop alone, on the first lines of a stream: the value returned from
    inside the loop, if any, and otherwise the state in which the next line
    is read. *)
Fixpoint parse_stream_loop (lines : list string) (p : cnf_parser_t)
    (problem_line_found : bool)
    : option parse_result_t * cnf_parser_t * bool :=
  match lines with
  | [] => (None, p, problem_line_found)
  | line :: rest =>
      match parse_stream_line p problem_line_found line with
      | (Some result, p, problem_line_found) =>
          (Some result, p, problem_line_found)
      | (None, p, problem_line_found) =>
          parse_stream_loop rest p problem_line_found
      end
  end.

Definition parser_parse_stream (p : cnf_parser_t) (stream : string)
    : parse_result_t * cnf_parser_t :=
  parse_stream_lines (fgets_lines stream) (parser_reset p) false.

(** [parser_parse_string] writes the text to a temporary file and parses
    that. *)
Definition parser_parse_string (p : cnf_parser_t) (content : string)
    : parse_result_t * cnf_parser_t :=
  parser_parse_stream p content.

(** [parser_validate_string]: the answer and the [info] copied out. *)
Definition parser_validate_string (content : string) : bool * parser_info_t :=
  let '(result, p) := parser_parse_string (parser_create true) content in
  (bool_decide (result = PARSE_OK), info p).

(** ** Vocabulary for the results of the parser *)

(** What [parser_parse_stream] looks at in a line it has read: the text up to
    the newline, trimmed. *)
Definition line_text (line : string) : string := trim_string (cut_line line).

(** The lines that the loop passes over, and the ones it takes for the
    problem line. *)
Definition skipped_line (line : string) : bool :=
  is_empty_line (line_text line) || is_comment_line (line_text line).

Definition problem_line (line : string) : bool :=
  negb (skipped_line line) && is_problem_line (line_text line).

(** The texts on which the [int] arithmetic of the parser is defined: at most
    [INT32_MAX] lines are read, so that [line_number] and [parsed_clauses]
    remain [int]s, and no token of a line is the numeral of [INT32_MIN], which
    [is_valid_literal] would negate. *)
Definition int_safe_text (stream : string) : Prop :=
  Z.of_nat (length (fgets_lines stream)) <= INT32_MAX
  ∧ Forall (λ line,
       Forall (λ token, parse_int token ≠ Some INT32_MIN)
         (strtok_tokens (line_text line)))
      (fgets_lines stream).

(** What is wrong with the tokens of a clause line for [n] variables, and the
    error that names it.  The tokens up to the fault are non-zero literals of
    the variables [1 .. n]; then either the tokens end, and the clause is not
    terminated, or a non-zero literal of a variable beyond [n] comes, or a
    numeral that is no [int]. *)
Definition clause_line_fault (n : Z) (tokens : list string)
    (e : parse_result_t) : Prop :=
  ∃ pre : list string,
    Forall (λ t, token_in_range n t = true) pre
    ∧ ((tokens = pre ∧ e = PARSE_ERROR_CLAUSE_NOT_TERMINATED)
       ∨ ∃ (t : string) (post : list string),
           tokens = pre ++ t :: post
           ∧ ((token_out_of_range n t = true
               ∧ e = PARSE_ERROR_VARIABLE_OUT_OF_RANGE)
              ∨ (token_beyond_int t = true
                 ∧ e = PARSE_ERROR_INVALID_CLAUSE))).

(** Every character of [s] passes the test [P]. *)
Fixpoint string_forallb (P : ascii → bool) (s : string) : bool :=
  match s with
  | EmptyString => true
  | String c rest => P c && string_forallb P rest
  end.

(** The characters that [%d] prints. *)
Definition number_char (c : ascii) : bool := isdigit c || Ascii.eqb c "-".

(** A clause as [parser_parse_stream] adds it to the formula: not empty,
    without repeated literals and not a tautology. *)
Definition clause_well_formed (clause : clause_t) : Prop :=
  clause ≠ [] ∧ NoDup clause ∧ clause_is_tautology clause = false.

(** The formula [cnf] that the parser [p] holds once the problem line has
    been read. *)
Definition parsed_formula (p : cnf_parser_t) (cnf : cnf_formula_t) : Prop :=
  parser_formula p = Some cnf
  ∧ num_variables cnf = max_variables (info p)
  ∧ 0 < num_variables cnf <= INT32_MAX
  ∧ assignment cnf
    = replicate (Z.to_nat (num_variables cnf + 1)) VAR_UNASSIGNED
  ∧ literals_in_range cnf
  ∧ Forall clause_well_formed (clauses cnf)
  ∧ parsed_clauses (info p) = Z.of_nat (length (clauses cnf))
  ∧ Z.of_nat (length (clauses cnf)) <= line_number (info p).

(** ** Writing a formula ([parser.c]) *)

(** The conversions [%d] and [%zu] of [fprintf]. *)
Definition print_int (z : Z) : string := NilZero.string_of_int (Z.to_int z).

Definition write_clause_line (clause : clause_t) : string :=
  (foldr (λ lit out, print_int lit ++ " " ++ out) "0" clause
   ++ String newline EmptyString)%string.

Definition parser_write_cnf_stream (cnf : cnf_formula_t) : string :=
  ("c Arquivo CNF gerado pelo SAT Solver" ++ String newline EmptyString
   ++ "p cnf " ++ print_int (num_variables cnf) ++ " "
   ++ print_int (Z.of_nat (length (clauses cnf))) ++ String newline EmptyString
   ++ foldr (λ clause out, write_clause_line clause ++ out) EmptyString
        (clauses cnf))%string.

(** ** Checking a solution ([structures.c], [solver.c]) *)

(** [cnf_validate_assignment]: the answer, and the number that the message
    names when a clause is found that is not satisfied. *)
Fixpoint validate_loop (cls : list clause_t) (a : list var_assignment_t)
    (i : nat) : bool * option nat :=
  match cls with
  | [] => (true, None)
  | c :: rest =>
      if negb (clause_is_satisfied c a) then (false, Some (i + 1)%nat)
      else validate_loop rest a (S i)
  end.

Definition cnf_validate_assignment (cnf : cnf_formula_t) : bool * option nat :=
  validate_loop (clauses cnf) (assignment cnf) 0.

Definition validate_solution (s : dpll_solver_t) : bool * option nat :=
  cnf_validate_assignment (formula s).

Definition validate_partial_assignment (s : dpll_solver_t) : bool :=
  negb (has_conflict s).

(** ** The command-line driver ([main.c]) *)

(** The fields of [cmd_args_t] that reach the solver; the other ones select
    what is printed besides the result. *)
Record cmd_args_t : Set := mk_args {
  args_verbose : bool;
  args_strategy : decision_strategy_t;
  args_timeout : Q;
  args_max_decisions : Z
}.

(** The word that [main] prints after [s ]. *)
Definition status_str (result : solver_result_t) : string :=
  match result with
  | SOLVER_SATISFIABLE => "SATISFIABLE"
  | SOLVER_UNSATISFIABLE => "UNSATISFIABLE"
  | _ => "UNKNOWN"
  end.

(** The exit status of [main] after the solver has answered. *)
Definition exit_status (result : solver_result_t) : Z :=
  match result with
  | SOLVER_SATISFIABLE => 10
  | SOLVER_UNSATISFIABLE => 20
  | SOLVER_UNKNOWN | SOLVER_TIMEOUT => 0
  | _ => 1
  end.

(** [main] once the arguments have been parsed and validated, on an input
    file with the text [file]: the exit status and, when the solver has run,
    the word printed and the formula from which [print_class_model_line]
    prints the model.  [seed] is the state of the random generator and
    [clock] the clock.

    [solver_create_with_config] asks [assignment_stack_create] for
    [num_variables * 2] entries, a product of [int]s.  From [2 ^ 30] variables
    on the product is no [int]; the size that reaches [malloc] is then beyond
    any allocation, the stack and with it the solver are [NULL], and [main]
    returns 1 without a result line. *)
Definition main (args : cmd_args_t) (seed : Z) (clock : nat → Q)
    (file : string) : option (Z * option (string * cnf_formula_t)) :=
  let '(parse_result, parser) :=
    parser_parse_stream (parser_create false) file in
  if negb (bool_decide (parse_result = PARSE_OK)) then Some (1, None)
  else
    match parser_formula parser with
    | None => Some (1, None)
    | Some cnf =>
        if 2 ^ 30 <=? num_variables cnf then Some (1, None)
        else
        let config :=
          mk_config (args_strategy args) true true true false
            (args_max_decisions args) (args_timeout args) 1000
            (args_verbose args) in
        '(result, solver) ←
          solver_solve clock (solver_create_with_config cnf config seed);
        Some (exit_status result, Some (status_str result, formula solver))
    end.

(** ** Further example inputs *)

(** A DIMACS text with a comment, an empty line, a tautology and trailing
    blanks. *)
Definition dimacs_example : string :=
  ("c example" ++ String newline EmptyString
   ++ "p cnf 3 3" ++ String newline EmptyString
   ++ String newline EmptyString
   ++ "1 -2 0  " ++ String newline EmptyString
   ++ " 2 -2 0" ++ String newline EmptyString
   ++ "-1 3 0")%string.

(** A DIMACS text that the strict mode accepts: two clauses declared, two
    clauses given. *)
Definition dimacs_strict_example : string :=
  ("c strict" ++ String newline EmptyString
   ++ String newline EmptyString
   ++ "p cnf 2 2" ++ String newline EmptyString
   ++ "1 2 0" ++ String newline EmptyString
   ++ "-1 0" ++ String newline EmptyString)%string.

(** [p cnf 55 3], clauses [1 -2 0], [2 -1 0] and [2 3 4 ... 55 0], with the
    Jeroslow-Wang strategy: the exact score of variable 2 exceeds the one of
    variable 1 by [2^-54], which the [double] sum rounds away. *)
Definition rounding_example : dpll_solver_t :=
  solver_create_with_config
    (formula_of 55 [[1; -2]; [2; -1]; 2 :: (Z.of_nat <$> seq 3 53)])
    (cli_config DECISION_JEROSLOW_WANG) 1.

(** [p cnf 4 3], clauses [1 2 0], [1 -3 0], [-2 3 0]: variable 1 occurs
    positively only, and once it is true, variable 2 occurs negatively only
    in the clause that is left. *)
Definition pure_literal_example : dpll_solver_t :=
  solver_create_with_config (formula_of 4 [[1; 2]; [1; -3]; [-2; 3]])
    (cli_config DECISION_FIRST_UNASSIGNED) 1.

(** Texts with a faulty clause line: [1 -2] lacks the terminator, [7] is no
    variable of [p cnf 3 1], [3000000000] is no [int]; and a text whose
    clause line comes without a problem line. *)
Definition unterminated_example : string :=
  ("p cnf 3 1" ++ String newline EmptyString
   ++ "1 -2" ++ String newline EmptyString)%string.

Definition out_of_range_example : string :=
  ("c one clause" ++ String newline EmptyString
   ++ "p cnf 3 1" ++ String newline EmptyString
   ++ "1 -2 7 0" ++ String newline EmptyString)%string.

Definition beyond_int_example : string :=
  ("p cnf 3 1" ++ String newline EmptyString
   ++ "1 3000000000 0" ++ String newline EmptyString)%string.

Definition headless_example : string :=
  ("1 -2 0" ++ String newline EmptyString)%string.

(** * Properties *)

(** ** The embedding at work *)

(** The end-to-end scenarios [p cnf 1 1 / 1 0] and [p cnf 1 2 / 1 0 / -1 0],
    and the three-variable satisfiable one. *)
Example solve_single_unit_clause :
  ∃ s, solver_solve still_clock
         (solver_create_with_config (formula_of 1 [[1]])
            (cli_config DECISION_FIRST_UNASSIGNED) 1)
       = Some (SOLVER_SATISFIABLE, s)
       ∧ model_bit (formula s) 1 = true.
Proof. eexists. split; [vm_compute; reflexivity|reflexivity]. Qed.

Example solve_contradictory_units :
  ∃ s, solver_solve still_clock
         (solver_create_with_config (formula_of 1 [[1]; [-1]])
            (cli_config DECISION_FIRST_UNASSIGNED) 1)
       = Some (SOLVER_UNSATISFIABLE, s).
Proof. eexists. vm_compute. reflexivity. Qed.

Example solve_satisfiable_example :
  ∃ s, solver_solve still_clock satisfiable_example
       = Some (SOLVER_SATISFIABLE, s)
       ∧ model_bit (formula s) <$> [1; 2; 3] = [true; false; true]
       ∧ formula_true (model_bit (formula s)) (formula s) = true.
Proof. eexists. split_and!; [vm_compute; reflexivity|reflexivity|reflexivity]. Qed.

(** A clock that has run past the timeout stops the search at once. *)
Example solve_timed_out :
  ∃ s, solver_solve (λ _, 6%Q) satisfiable_example = Some (SOLVER_TIMEOUT, s).
Proof. eexists. vm_compute. reflexivity. Qed.

(** Clause lines: a well-formed clause is added to the formula, a tautology is
    dropped, a token that is not an integer is an invalid clause. *)
Example parse_clause_accepted :
  ∃ p, parse_stream_clause_line parser_example true "1 -3 0" = (None, p)
       ∧ (clauses <$> parser_formula p) = Some [[1; -3]]
       ∧ parsed_clauses (info p) = 1.
Proof. eexists. split_and!; [vm_compute; reflexivity|reflexivity|reflexivity]. Qed.

Example parse_tautology_dropped :
  parse_stream_clause_line parser_example true "2 -2 3 0"
  = (None, parser_example).
Proof. by vm_compute. Qed.

Example parse_not_an_integer :
  parse_stream_clause_line parser_example true "1 x 0"
  = (Some PARSE_ERROR_INVALID_CLAUSE, parser_example).
Proof. by vm_compute. Qed.

Example parse_int_range :
  parse_int "-2147483648" = Some (-2147483648)
  ∧ parse_int "2147483648" = None
  ∧ parse_int "+7" = Some 7
  ∧ parse_int "7x" = None
  ∧ parse_int "" = None.
Proof. by vm_compute. Qed.

(** ** Reading and writing the assignment array *)

Lemma literal_variable_nonneg (lit : literal_t) : 0 <= literal_variable lit.
Proof. unfold literal_variable. destruct (Z.ltb_spec 0 lit); lia. Qed.

Lemma read_assignment_insert_ne (a : list var_assignment_t) (i : nat)
    (v : var_assignment_t) (var : variable_t) :
  Z.to_nat var ≠ i → read_assignment (<[i:=v]> a) var = read_assignment a var.
Proof.
  intros Hne. unfold read_assignment.
  by rewrite list_lookup_total_insert_ne.
Qed.

Lemma read_assignment_insert_eq (a : list var_assignment_t)
    (v : var_assignment_t) (var : variable_t) :
  (Z.to_nat var < length a)%nat →
  read_assignment (<[Z.to_nat var:=v]> a) var = v.
Proof.
  intros Hlt. unfold read_assignment.
  by rewrite list_lookup_total_insert_eq.
Qed.

(** A write either lands on the cell or, out of range, changes nothing. *)
Lemma read_assignment_insert_cases (a : list var_assignment_t) (i : nat)
    (v : var_assignment_t) (var : variable_t) :
  read_assignment (<[i:=v]> a) var = read_assignment a var
  ∨ (Z.to_nat var = i ∧ read_assignment (<[i:=v]> a) var = v).
Proof.
  destruct (decide (Z.to_nat var = i)) as [<-|Hne].
  - destruct (decide (Z.to_nat var < length a)%nat) as [Hlt|Hge].
    + right. split; [done|]. by apply read_assignment_insert_eq.
    + left. rewrite list_insert_ge; [done|lia].
  - left. by apply read_assignment_insert_ne.
Qed.

(** ** The evaluation predicates, literal by literal *)

Section ClauseEvaluation.

(** The assignment against which the clauses are evaluated. *)
Context (a : list var_assignment_t).

Lemma literal_holds_assigned (p : bool) (v : var_assignment_t) :
  literal_holds p v = true → v ≠ VAR_UNASSIGNED.
Proof. by destruct p, v. Qed.

Lemma clause_is_satisfied_true (clause : clause_t) :
  clause_is_satisfied clause a = true ↔
  ∃ lit, lit ∈ clause ∧
    literal_holds (literal_is_positive lit)
      (read_assignment a (literal_variable lit)) = true.
Proof.
  induction clause as [|l rest IH]; simpl.
  - split; [done|]. intros (lit & Hin & _). by apply elem_of_nil in Hin.
  - destruct (literal_holds _ _) eqn:Hl.
    + split; [|done]. intros _. exists l. split; [left|done].
    + rewrite IH. split.
      * intros (lit & Hin & H). exists lit. split; [by right|done].
      * intros (lit & Hin & H). apply elem_of_cons in Hin as [->|Hin].
        -- congruence.
        -- by exists lit.
Qed.

Lemma clause_is_conflicting_false (clause : clause_t) :
  clause_is_conflicting clause a = false ↔
  ∃ lit, lit ∈ clause ∧
    (read_assignment a (literal_variable lit) = VAR_UNASSIGNED
     ∨ literal_holds (literal_is_positive lit)
         (read_assignment a (literal_variable lit)) = true).
Proof.
  induction clause as [|l rest IH]; simpl.
  - split; [done|]. intros (lit & Hin & _). by apply elem_of_nil in Hin.
  - destruct (bool_decide _ || literal_holds _ _) eqn:Hl.
    + split; [|done]. intros _. exists l. split; [left|].
      apply orb_true_iff in Hl as [Hl|Hl]; [left|by right].
      by apply bool_decide_eq_true in Hl.
    + apply orb_false_iff in Hl as [Hu Hh].
      apply bool_decide_eq_false in Hu.
      rewrite IH. split.
      * intros (lit & Hin & H). exists lit. split; [by right|done].
      * intros (lit & Hin & H). apply elem_of_cons in Hin as [->|Hin].
        -- destruct H; congruence.
        -- by exists lit.
Qed.

Lemma satisfied_not_conflicting (clause : clause_t) :
  clause_is_satisfied clause a = true → clause_is_conflicting clause a = false.
Proof.
  rewrite clause_is_satisfied_true, clause_is_conflicting_false.
  intros (lit & Hin & H). exists lit. auto.
Qed.

Lemma satisfied_not_unit_loop (clause : clause_t)
    (ul : literal_t) (uc : Z) :
  clause_is_satisfied clause a = true → clause_is_unit_loop clause a ul uc = None.
Proof.
  revert ul uc. induction clause as [|l rest IH]; intros ul uc; simpl; [done|].
  destruct (literal_holds _ _); [done|]. intros Hsat.
  destruct (bool_decide _); [destruct (1 <? uc + 1)|]; auto.
Qed.

(** The loop of [clause_is_unit] only ever hands back a literal that it has
    just seen unassigned. *)
Lemma clause_is_unit_loop_unassigned (lits : list literal_t)
    (ul : literal_t) (uc : Z) (lit : literal_t) :
  clause_is_unit_loop lits a ul uc = Some lit →
  (uc = 1 → read_assignment a (literal_variable ul) = VAR_UNASSIGNED) →
  read_assignment a (literal_variable lit) = VAR_UNASSIGNED.
Proof.
  revert ul uc. induction lits as [|l rest IH]; intros ul uc; simpl.
  - destruct (Z.eqb_spec uc 1); [|done]. intros [= ->] H. auto.
  - destruct (literal_holds _ _); [done|].
    destruct (bool_decide _) eqn:Hu.
    + apply bool_decide_eq_true in Hu.
      destruct (1 <? uc + 1); [done|]. intros Hloop _.
      apply (IH _ _ Hloop). auto.
    + intros Hloop H. apply (IH _ _ Hloop H).
Qed.

Lemma clause_is_unit_unassigned (clause : clause_t)
    (lit : literal_t) :
  clause_is_unit clause a = Some lit →
  read_assignment a (literal_variable lit) = VAR_UNASSIGNED.
Proof.
  intros H. apply (clause_is_unit_loop_unassigned _ _ _ _ H). lia.
Qed.

Lemma clause_is_unit_loop_elem (lits : list literal_t)
    (ul : literal_t) (uc : Z) (lit : literal_t) :
  clause_is_unit_loop lits a ul uc = Some lit →
  lit ∈ lits ∨ (lit = ul ∧ uc = 1).
Proof.
  revert ul uc. induction lits as [|l rest IH]; intros ul uc; simpl.
  - destruct (Z.eqb_spec uc 1); [|done]. intros [= ->]. by right.
  - destruct (literal_holds _ _); [done|].
    destruct (bool_decide _).
    + destruct (1 <? uc + 1); [done|]. intros Hloop.
      destruct (IH _ _ Hloop) as [Hin|[-> _]]; left; [by right|left].
    + intros Hloop. destruct (IH _ _ Hloop) as [Hin|[-> ->]]; [|by right].
      left. by right.
Qed.

Lemma clause_is_unit_elem (clause : clause_t)
    (lit : literal_t) :
  clause_is_unit clause a = Some lit → lit ∈ clause.
Proof.
  intros H. destruct (clause_is_unit_loop_elem _ _ _ _ H) as [Hin|[_ ?]];
    [done|lia].
Qed.

End ClauseEvaluation.

(** ** C8: the empty clause, and unit on a satisfied clause *)

(** C8.  Under any assignment the clause with no literal is conflicting, is
    not satisfied and is not unit; and [clause_is_unit] answers false on every
    clause that is satisfied under the assignment. *)
Theorem empty_clause_edge_cases (a : list var_assignment_t) :
  clause_is_conflicting [] a = true
  ∧ clause_is_satisfied [] a = false
  ∧ clause_is_unit [] a = None
  ∧ ∀ clause : clause_t,
      clause_is_satisfied clause a = true → clause_is_unit clause a = None.
Proof.
  repeat split. intros clause. apply satisfied_not_unit_loop.
Qed.

Lemma empty_clause_edge_cases_witness :
  clause_is_satisfied [1; -2] [VAR_UNASSIGNED; VAR_UNASSIGNED; VAR_FALSE] = true
  ∧ clause_is_unit [1; -2] [VAR_UNASSIGNED; VAR_UNASSIGNED; VAR_FALSE] = None.
Proof.
  split; [reflexivity|].
  apply (empty_clause_edge_cases [VAR_UNASSIGNED; VAR_UNASSIGNED; VAR_FALSE]).
  reflexivity.
Defined.

(** ** Frame properties of the elementary steps *)

Lemma same_shape_refl (s : dpll_solver_t) : same_shape s s.
Proof. by repeat split. Qed.

Lemma same_shape_trans (s1 s2 s3 : dpll_solver_t) :
  same_shape s1 s2 → same_shape s2 s3 → same_shape s1 s3.
Proof.
  intros (H1 & H2 & H3) (H4 & H5 & H6).
  repeat split; congruence.
Qed.

Create HintDb frame discriminated.

#[export] Hint Resolve same_shape_refl : frame.

Lemma same_shape_allocated (s s' : dpll_solver_t) :
  same_shape s s' → cnf_allocated (formula s) → cnf_allocated (formula s').
Proof. intros (H1 & H2 & H3). unfold cnf_allocated. congruence. Qed.

Lemma assign_variable_false (s s' : dpll_solver_t) (var : variable_t)
    (v : var_assignment_t) (d : bool) :
  assign_variable s var v d = (false, s') → s' = s.
Proof.
  unfold assign_variable. destruct (_ || _); [|done]. by intros [= <-].
Qed.

Lemma assign_variable_true (s s' : dpll_solver_t) (var : variable_t)
    (v : var_assignment_t) (d : bool) :
  assign_variable s var v d = (true, s') →
  var ≠ 0 ∧ var <= num_variables (formula s)
  ∧ s' = set_assignments
           (set_formula s
              (set_assignment (formula s)
                 (<[Z.to_nat var := v]> (assignment (formula s)))))
           (assignment_stack_push (assignments s) var v d).
Proof.
  unfold assign_variable.
  destruct (Z.eqb_spec var 0); simpl; [done|].
  destruct (Z.ltb_spec (num_variables (formula s)) var); [done|].
  intros [= <-]. repeat split; [done|lia].
Qed.

Lemma assign_variable_shape (s : dpll_solver_t) (var : variable_t)
    (v : var_assignment_t) (d : bool) :
  same_shape s (snd (assign_variable s var v d)).
Proof.
  unfold assign_variable. destruct (_ || _); simpl.
  - auto with frame.
  - repeat split. simpl. by rewrite length_insert.
Qed.

Lemma count_unassigned_insert (l : list var_assignment_t) (i : nat)
    (v : var_assignment_t) :
  l !! i = Some VAR_UNASSIGNED → v ≠ VAR_UNASSIGNED →
  (count_unassigned (<[i:=v]> l) + 1 = count_unassigned l)%nat.
Proof.
  unfold count_unassigned. revert i.
  induction l as [|x l IH]; intros i Hi Hv; [done|].
  destruct i as [|i]; simpl in *.
  - injection Hi as ->. rewrite !filter_cons.
    destruct (decide (v = VAR_UNASSIGNED)); [done|].
    destruct (decide (VAR_UNASSIGNED = VAR_UNASSIGNED)); [|done].
    simpl. lia.
  - rewrite !filter_cons. specialize (IH i Hi Hv).
    destruct (decide (x = VAR_UNASSIGNED)); simpl; lia.
Qed.

Lemma count_unassigned_le (l : list var_assignment_t) :
  (count_unassigned l ≤ length l)%nat.
Proof. apply length_filter. Qed.

Lemma unassigned_count_le (cnf : cnf_formula_t) :
  cnf_allocated cnf → (unassigned_count cnf ≤ Z.to_nat (num_variables cnf))%nat.
Proof.
  unfold cnf_allocated, unassigned_count. intros H.
  pose proof (count_unassigned_le (drop 1 (assignment cnf))) as Hle.
  rewrite length_drop in Hle. lia.
Qed.

(** Reading an unassigned variable of [1 .. num_variables] in an allocated
    array finds a real cell. *)
Lemma read_unassigned_lookup (cnf : cnf_formula_t) (var : variable_t) :
  cnf_allocated cnf → 1 <= var <= num_variables cnf →
  read_assignment (assignment cnf) var = VAR_UNASSIGNED →
  assignment cnf !! Z.to_nat var = Some VAR_UNASSIGNED.
Proof.
  unfold cnf_allocated, read_assignment. intros Hlen Hr Hread.
  rewrite <- Hread. apply list_lookup_lookup_total_lt. lia.
Qed.

(** Assigning a value to an unassigned variable: one more entry on the stack,
    one unassigned variable less. *)
Lemma assign_unassigned_measure (s s' : dpll_solver_t) (var : variable_t)
    (v : var_assignment_t) (d : bool) :
  cnf_allocated (formula s) → 1 <= var →
  read_assignment (assignment (formula s)) var = VAR_UNASSIGNED →
  v ≠ VAR_UNASSIGNED →
  assign_variable s var v d = (true, s') →
  (unassigned_count (formula s') + 1 = unassigned_count (formula s))%nat
  ∧ stack_size (assignments s') = S (stack_size (assignments s)).
Proof.
  intros Hal Hvar Hread Hv Has.
  apply assign_variable_true in Has as (_ & Hle & ->).
  pose proof (read_unassigned_lookup _ _ Hal (conj Hvar Hle) Hread) as Hlk.
  split.
  - unfold unassigned_count. simpl.
    rewrite drop_insert_ge by lia.
    apply count_unassigned_insert; [|done].
    rewrite lookup_drop. rewrite <- Hlk. f_equal. lia.
  - unfold stack_size, assignment_stack_push. simpl.
    rewrite length_app. simpl. lia.
Qed.

Lemma propagation_frame_refl (s : dpll_solver_t) : propagation_frame s s.
Proof. repeat split; auto. Qed.

#[export] Hint Resolve propagation_frame_refl : frame.

Lemma propagation_frame_trans (s1 s2 s3 : dpll_solver_t) :
  propagation_frame s1 s2 → propagation_frame s2 s3 → propagation_frame s1 s3.
Proof.
  intros (Hs & Hc & Hk & Hz & Hp) (Hs' & Hc' & Hk' & Hz' & Hp').
  repeat split; try congruence; try (by destruct Hs, Hs'; intuition congruence).
  - lia.
  - intros Hal. specialize (Hp Hal).
    specialize (Hp' (same_shape_allocated _ _ Hs Hal)). lia.
Qed.

(** The forced assignment of a free variable, as done by both propagation
    rules (the caller then bumps a counter or sets a flag). *)
Lemma forced_assignment_frame (s s1 : dpll_solver_t) (var : variable_t)
    (v : var_assignment_t) :
  0 <= var →
  read_assignment (assignment (formula s)) var = VAR_UNASSIGNED →
  v ≠ VAR_UNASSIGNED →
  assign_variable s var v false = (true, s1) →
  propagation_frame s s1
  ∧ stack_size (assignments s1) = S (stack_size (assignments s)).
Proof.
  intros Hvar Hread Hv Has.
  pose proof (assign_variable_shape s var v false) as Hsh.
  rewrite Has in Hsh. simpl in Hsh.
  pose proof Has as (Hne & Hle & Heq)%assign_variable_true.
  assert (Hsz : stack_size (assignments s1) = S (stack_size (assignments s))).
  { subst s1. unfold stack_size, assignment_stack_push. simpl.
    rewrite length_app. simpl. lia. }
  split; [|done].
  repeat split; try (by destruct Hsh as (? & ? & ?)); try (by subst s1).
  - lia.
  - intros Hal.
    destruct (assign_unassigned_measure s s1 var v false) as [Hm _];
      [done|lia|done|done|done|]. lia.
Qed.

Lemma assign_variable_in_range (s : dpll_solver_t) (var : variable_t)
    (v : var_assignment_t) (d : bool) :
  1 <= var <= num_variables (formula s) →
  fst (assign_variable s var v d) = true.
Proof.
  intros Hr. unfold assign_variable.
  destruct (Z.eqb_spec var 0); [lia|].
  by destruct (Z.ltb_spec (num_variables (formula s)) var); [lia|].
Qed.

Lemma unit_propagation_pass_spec (cls : list clause_t) :
  ∀ (s : dpll_solver_t) (p : bool) r p' s',
    unit_propagation_pass cls s p = (r, p', s') →
    propagation_frame s s'
    ∧ (r = None ∨ r = Some SOLVER_MEMORY_ERROR)
    ∧ (p' = false → s' = s ∧ p = false)
    ∧ (p' = true → p = true
                   ∨ (stack_size (assignments s) < stack_size (assignments s'))%nat)
    ∧ (r = None → p' = false →
       ∀ c, c ∈ cls → clause_is_unit c (assignment (formula s)) = None)
    ∧ ((∀ c lit, c ∈ cls → lit ∈ c →
          1 <= literal_variable lit <= num_variables (formula s)) → r = None).
Proof.
  induction cls as [|clause rest IH]; intros s p r p' s' Hpass; simpl in Hpass.
  - injection Hpass as <- <- <-.
    split_and!; auto with frame.
    intros _ _ c Hc. by apply elem_of_nil in Hc.
  - destruct (clause_is_satisfied clause (assignment (formula s))) eqn:Hsat.
    { destruct (IH _ _ _ _ _ Hpass) as (Hf & Hr & Hpf & Hpt & Hnu & Hrange).
      split_and!; auto.
      - intros Hrn Hp' c [->|Hc]%elem_of_cons; [|by apply Hnu].
        by apply satisfied_not_unit_loop.
      - intros Hall. apply Hrange. intros c lit Hc. apply Hall. by right. }
    destruct (clause_is_unit clause (assignment (formula s)))
      as [unit_literal|] eqn:Hunit.
    2:{ destruct (IH _ _ _ _ _ Hpass) as (Hf & Hr & Hpf & Hpt & Hnu & Hrange).
        split_and!; auto.
        - intros Hrn Hp' c [->|Hc]%elem_of_cons; [done|by apply Hnu].
        - intros Hall. apply Hrange. intros c lit Hc. apply Hall. by right. }
    pose proof (clause_is_unit_unassigned _ _ _ Hunit) as Hfree.
    pose proof (clause_is_unit_elem _ _ _ Hunit) as Hin.
    unfold IS_VARIABLE_ASSIGNED in Hpass. rewrite Hfree in Hpass.
    simpl in Hpass.
    destruct (assign_variable s (literal_variable unit_literal)
                (if literal_is_positive unit_literal then VAR_TRUE else VAR_FALSE)
                false) as [[|] s1] eqn:Has.
    + assert (Hv : (if literal_is_positive unit_literal
                    then VAR_TRUE else VAR_FALSE) ≠ VAR_UNASSIGNED)
        by (by destruct (literal_is_positive unit_literal)).
      destruct (forced_assignment_frame _ _ _ _ (literal_variable_nonneg _)
                  Hfree Hv Has) as [Hf1 Hsz1].
      assert (Hf1' : propagation_frame s
                       (set_formula_modified (incr_propagations s1) true)).
      { destruct Hf1 as (Hs & Hc & Hk & Hz & Hp). by split_and!. }
      destruct (IH _ _ _ _ _ Hpass) as (Hf & Hr & Hpf & Hpt & Hnu & Hrange).
      assert (Hgrow : (stack_size (assignments s)
                       < stack_size (assignments s'))%nat).
      { destruct Hf as (_ & _ & _ & Hz & _). simpl in Hz. lia. }
      split_and!; auto.
      * by eapply propagation_frame_trans.
      * intros Hp'. by destruct (Hpf Hp').
      * intros _ Hp'. by destruct (Hpf Hp').
      * intros Hall. apply Hrange. intros c lit Hc Hl.
        destruct Hf1 as ((_ & Hn & _) & _). simpl. rewrite Hn.
        apply (Hall c lit); [by right|done].
    + pose proof (assign_variable_false _ _ _ _ _ Has) as ->.
      injection Hpass as <- <- <-.
      split_and!; auto with frame.
      * done.
      * intros Hall. exfalso.
        specialize (Hall clause unit_literal ltac:(by left) Hin).
        pose proof (assign_variable_in_range s _
                      (if literal_is_positive unit_literal
                       then VAR_TRUE else VAR_FALSE) false Hall) as Ht.
        rewrite Has in Ht. done.
Qed.

(** ** The propagation loop *)

Lemma literals_in_range_elem (cnf : cnf_formula_t) :
  literals_in_range cnf ↔
  ∀ (clause : clause_t) (lit : literal_t),
    clause ∈ clauses cnf → lit ∈ clause →
    1 <= literal_variable lit <= num_variables cnf.
Proof.
  unfold literals_in_range. rewrite list.Forall_forall.
  split.
  - intros H clause lit Hc. specialize (H clause Hc).
    rewrite list.Forall_forall in H. apply H.
  - intros H clause Hc. rewrite list.Forall_forall. intros lit. by apply H.
Qed.

Lemma literals_in_range_shape (s s' : dpll_solver_t) :
  same_shape s s' → literals_in_range (formula s) → literals_in_range (formula s').
Proof.
  intros (Hc & Hn & _). unfold literals_in_range. by rewrite Hc, Hn.
Qed.

(** Whatever the budget, a run that returns has respected the frame. *)
Lemma unit_propagation_loop_frame (fuel : nat) :
  ∀ (s : dpll_solver_t) r s',
    unit_propagation_loop fuel s = Some (r, s') → propagation_frame s s'.
Proof.
  induction fuel as [|fuel IH]; intros s r s' Hloop; simpl in Hloop; [done|].
  destruct (unit_propagation_pass (clauses (formula s)) s false)
    as [[r0 p'] s1] eqn:Hpass.
  destruct (unit_propagation_pass_spec _ _ _ _ _ _ Hpass) as (Hf & _).
  destruct r0 as [r0|]; [by injection Hloop as <- <-|].
  destruct p'; [|by injection Hloop as <- <-].
  eapply propagation_frame_trans; [done|]. by eapply IH.
Qed.

(** With one unit of budget per unassigned variable, and one more, the loop
    returns; it ends on a pass that found no unit clause unless a literal out
    of range stopped it. *)
Lemma unit_propagation_loop_spec (fuel : nat) :
  ∀ s : dpll_solver_t,
    cnf_allocated (formula s) →
    (unassigned_count (formula s) < fuel)%nat →
    ∃ r s',
      unit_propagation_loop fuel s = Some (r, s')
      ∧ propagation_frame s s'
      ∧ (r ≠ SOLVER_MEMORY_ERROR →
         ∀ c, c ∈ clauses (formula s') →
              clause_is_unit c (assignment (formula s')) = None)
      ∧ (literals_in_range (formula s) → r ≠ SOLVER_MEMORY_ERROR)
      ∧ (propagating_passes fuel s ≤ unassigned_count (formula s))%nat.
Proof.
  induction fuel as [|fuel IH]; intros s Hal Hfuel; [lia|]. simpl.
  destruct (unit_propagation_pass (clauses (formula s)) s false)
    as [[r0 p'] s1] eqn:Hpass.
  destruct (unit_propagation_pass_spec _ _ _ _ _ _ Hpass)
    as (Hf & Hr & Hpf & Hpt & Hnu & Hrange).
  assert (Hdrop : p' = true →
                  (unassigned_count (formula s1) < unassigned_count (formula s))%nat).
  { intros Hp'. destruct (Hpt Hp') as [|Hlt]; [done|].
    destruct Hf as (_ & _ & _ & _ & Hpot). specialize (Hpot Hal). lia. }
  destruct r0 as [r0|].
  - destruct Hr as [|[= ->]]; [done|].
    exists SOLVER_MEMORY_ERROR, s1. split_and!; auto.
    + done.
    + intros Hin Heq. by specialize (Hrange (proj1 (literals_in_range_elem _) Hin)).
    + destruct p'; [|lia]. specialize (Hdrop eq_refl). lia.
  - destruct p'.
    + specialize (Hdrop eq_refl).
      pose proof Hf as (Hsh & _).
      destruct (IH s1) as (r & s' & Hloop & Hf' & Hfix & Hmem & Hpasses);
        [by eapply same_shape_allocated|lia|].
      exists r, s'. split_and!; auto.
      * by eapply propagation_frame_trans.
      * intros Hin. apply Hmem. by eapply literals_in_range_shape.
      * lia.
    + destruct (Hpf eq_refl) as [-> _].
      eexists _, s. split_and!; auto with frame.
      * by destruct (cnf_is_satisfied (formula s)).
      * lia.
Qed.

Lemma pass_budget_enough (s : dpll_solver_t) :
  cnf_allocated (formula s) → (unassigned_count (formula s) < pass_budget s)%nat.
Proof.
  intros Hal. pose proof (unassigned_count_le _ Hal). unfold pass_budget. lia.
Qed.

(** ** C4: the fixed point of unit propagation *)

(** C4.  On a state whose formula is allocated and keeps its literals in
    range, [unit_propagation] returns, and in the state it leaves no clause of
    the formula is unit under the current assignment.  This holds whether or
    not some clause is conflicting, hence in particular when none is. *)
Theorem unit_propagation_fixed_point (s : dpll_solver_t) :
  cnf_allocated (formula s) →
  literals_in_range (formula s) →
  ∃ r s',
    unit_propagation s = Some (r, s')
    ∧ clauses (formula s') = clauses (formula s)
    ∧ ∀ c, c ∈ clauses (formula s') →
           clause_is_unit c (assignment (formula s')) = None.
Proof.
  intros Hal Hin.
  destruct (unit_propagation_loop_spec (pass_budget s) s Hal
              (pass_budget_enough s Hal))
    as (r & s' & Hloop & ((Hc & _) & _) & Hfix & Hmem & _).
  exists r, s'. split_and!; auto.
Qed.

Lemma unit_propagation_fixed_point_witness :
  cnf_allocated (formula unit_chain_example)
  ∧ literals_in_range (formula unit_chain_example)
  ∧ ∃ r s',
      unit_propagation unit_chain_example = Some (r, s')
      ∧ clauses (formula s') = clauses (formula unit_chain_example)
      ∧ ∀ c, c ∈ clauses (formula s') →
             clause_is_unit c (assignment (formula s')) = None.
Proof.
  assert (Hrange : literals_in_range (formula unit_chain_example)).
  { apply (bool_decide_unpack _). vm_compute. exact I. }
  split_and!; [reflexivity|exact Hrange|].
  exact (unit_propagation_fixed_point unit_chain_example eq_refl Hrange).
Defined.

(** ** C7: termination of unit propagation *)

(** C7.  A pass of the outer loop that propagates strictly grows the
    assignment stack (a pass that does not propagate is the last one); on an
    allocated formula the loop returns, and the number of its passes that
    propagate is at most the number of variables. *)
Theorem unit_propagation_terminates (s : dpll_solver_t) :
  cnf_allocated (formula s) →
  (∀ r s', unit_propagation_pass (clauses (formula s)) s false = (r, true, s') →
           (stack_size (assignments s) < stack_size (assignments s'))%nat)
  ∧ (∀ r s', unit_propagation_pass (clauses (formula s)) s false = (r, false, s') →
             s' = s)
  ∧ ∃ r s',
      unit_propagation s = Some (r, s')
      ∧ (propagating_passes (pass_budget s) s
         ≤ Z.to_nat (num_variables (formula s)))%nat.
Proof.
  intros Hal. split_and!.
  - intros r s' Hpass.
    destruct (unit_propagation_pass_spec _ _ _ _ _ _ Hpass)
      as (_ & _ & _ & Hpt & _).
    by destruct (Hpt eq_refl).
  - intros r s' Hpass.
    destruct (unit_propagation_pass_spec _ _ _ _ _ _ Hpass)
      as (_ & _ & Hpf & _).
    by destruct (Hpf eq_refl).
  - destruct (unit_propagation_loop_spec (pass_budget s) s Hal
                (pass_budget_enough s Hal))
      as (r & s' & Hloop & _ & _ & _ & Hpasses).
    exists r, s'. split; [done|].
    pose proof (unassigned_count_le _ Hal). lia.
Qed.

Lemma unit_propagation_terminates_witness :
  cnf_allocated (formula unit_chain_example)
  ∧ ∃ r s',
      unit_propagation unit_chain_example = Some (r, s')
      ∧ (propagating_passes (pass_budget unit_chain_example) unit_chain_example
         ≤ Z.to_nat (num_variables (formula unit_chain_example)))%nat.
Proof.
  split; [reflexivity|].
  apply (unit_propagation_terminates unit_chain_example). reflexivity.
Defined.

(** ** C10: a unit literal is unassigned; no conflict is ever counted *)

(** C10.  The literal handed back by [clause_is_unit] has an unassigned
    variable, so the test [IS_VARIABLE_ASSIGNED] that guards the
    already-assigned branch of [unit_propagation] is false whenever it is
    evaluated; a pass never returns [SOLVER_UNKNOWN] from inside the loop, and
    a run of [unit_propagation] leaves both conflict counters as they were. *)
Theorem unit_literal_is_unassigned :
  (∀ (clause : clause_t) (a : list var_assignment_t) (lit : literal_t),
     clause_is_unit clause a = Some lit →
     read_assignment a (literal_variable lit) = VAR_UNASSIGNED)
  ∧ (∀ (s : dpll_solver_t) (clause : clause_t) (lit : literal_t),
       clause_is_unit clause (assignment (formula s)) = Some lit →
       IS_VARIABLE_ASSIGNED s (literal_variable lit) = false)
  ∧ (∀ (cls : list clause_t) (s : dpll_solver_t) (p : bool) r p' s',
       unit_propagation_pass cls s p = (r, p', s') →
       r ≠ Some SOLVER_UNKNOWN
       ∧ conflicts_since_restart s' = conflicts_since_restart s
       ∧ conflicts (stats s') = conflicts (stats s))
  ∧ (∀ (s : dpll_solver_t) r s',
       unit_propagation s = Some (r, s') →
       conflicts_since_restart s' = conflicts_since_restart s
       ∧ conflicts (stats s') = conflicts (stats s))
  ∧ (∀ s : dpll_solver_t,
       cnf_allocated (formula s) →
       ∃ r s', unit_propagation s = Some (r, s')
               ∧ conflicts_since_restart s' = conflicts_since_restart s
               ∧ conflicts (stats s') = conflicts (stats s)).
Proof.
  split_and!.
  - intros clause a lit. apply clause_is_unit_unassigned.
  - intros s clause lit Hunit. unfold IS_VARIABLE_ASSIGNED.
    by rewrite (clause_is_unit_unassigned _ _ _ Hunit).
  - intros cls s p r p' s' Hpass.
    destruct (unit_propagation_pass_spec _ _ _ _ _ _ Hpass)
      as ((_ & Hc & Hk & _) & Hr & _).
    split_and!; [|done|done]. by destruct Hr as [->| ->].
  - intros s r s' Hrun.
    by destruct (unit_propagation_loop_frame _ _ _ _ Hrun) as (_ & Hc & Hk & _).
  - intros s Hal.
    destruct (unit_propagation_loop_spec (pass_budget s) s Hal
                (pass_budget_enough s Hal))
      as (r & s' & Hloop & (_ & Hc & Hk & _) & _).
    by exists r, s'.
Qed.

Lemma unit_literal_is_unassigned_witness :
  clause_is_unit [1; -2] [VAR_UNASSIGNED; VAR_UNASSIGNED; VAR_TRUE] = Some 1
  ∧ read_assignment [VAR_UNASSIGNED; VAR_UNASSIGNED; VAR_TRUE]
      (literal_variable 1) = VAR_UNASSIGNED.
Proof.
  split; [reflexivity|].
  apply (proj1 unit_literal_is_unassigned [1; -2]). reflexivity.
Defined.

(** ** Pure-literal elimination *)

Lemma some_clause_conflicting_false (cls : list clause_t)
    (a : list var_assignment_t) :
  some_clause_conflicting cls a = false ↔
  ∀ c, c ∈ cls → clause_is_conflicting c a = false.
Proof.
  induction cls as [|c rest IH]; simpl.
  - split; [|done]. intros _ c Hc. by apply elem_of_nil in Hc.
  - destruct (clause_is_conflicting c a) eqn:Hc.
    + split; [done|]. intros H. rewrite <- Hc. apply H. by left.
    + rewrite IH. split.
      * intros H c' [->|Hin]%elem_of_cons; auto.
      * intros H c' Hin. apply H. by right.
Qed.

(** The polarity scan of one clause: a flag that is still down at the end was
    down at the start, and no literal of the variable raised it. *)
Lemma scan_clause_polarity_spec (var : variable_t) (lits : list literal_t) :
  ∀ (p n p' n' : bool),
    scan_clause_polarity var lits p n = (p', n') →
    (n' = false →
     n = false ∧ ∀ l, l ∈ lits → literal_variable l = var →
                      literal_is_positive l = true)
    ∧ (p' = false →
       p = false ∧ ∀ l, l ∈ lits → literal_variable l = var →
                        literal_is_positive l = false).
Proof.
  induction lits as [|l rest IH]; intros p n p' n' Hscan; simpl in Hscan.
  - injection Hscan as <- <-.
    split; (intros ->; split; [done|]); intros l Hl; by apply elem_of_nil in Hl.
  - destruct (Z.eqb_spec (literal_variable l) var) as [Hv|Hv].
    + destruct (literal_is_positive l) eqn:Hpos.
      * destruct n; simpl in Hscan.
        -- injection Hscan as <- <-. split; [done|done].
        -- destruct (IH _ _ _ _ Hscan) as [Hn Hp]. split.
           ++ intros Hn'. destruct (Hn Hn') as [_ Hall]. split; [done|].
              intros l' [->|Hin]%elem_of_cons; auto.
           ++ intros Hp'. by destruct (Hp Hp').
      * destruct p; simpl in Hscan.
        -- injection Hscan as <- <-. split; [done|done].
        -- destruct (IH _ _ _ _ Hscan) as [Hn Hp]. split.
           ++ intros Hn'. by destruct (Hn Hn').
           ++ intros Hp'. destruct (Hp Hp') as [_ Hall]. split; [done|].
              intros l' [->|Hin]%elem_of_cons; auto.
    + destruct (IH _ _ _ _ Hscan) as [Hn Hp]. split.
      * intros Hn'. destruct (Hn Hn') as [-> Hall]. split; [done|].
        intros l' [->|Hin]%elem_of_cons; [done|auto].
      * intros Hp'. destruct (Hp Hp') as [-> Hall]. split; [done|].
        intros l' [->|Hin]%elem_of_cons; [done|auto].
Qed.

Lemma scan_polarity_spec (var : variable_t) (cls : list clause_t)
    (a : list var_assignment_t) :
  ∀ (p n p' n' : bool),
    scan_polarity var cls a p n = (p', n') →
    (n' = false →
     n = false ∧ ∀ c l, c ∈ cls → clause_is_satisfied c a = false → l ∈ c →
                        literal_variable l = var → literal_is_positive l = true)
    ∧ (p' = false →
       p = false ∧ ∀ c l, c ∈ cls → clause_is_satisfied c a = false → l ∈ c →
                          literal_variable l = var → literal_is_positive l = false).
Proof.
  induction cls as [|c rest IH]; intros p n p' n' Hscan; simpl in Hscan.
  - injection Hscan as <- <-.
    split; (intros ->; split; [done|]); intros c l Hc; by apply elem_of_nil in Hc.
  - destruct (clause_is_satisfied c a) eqn:Hsat.
    + destruct (IH _ _ _ _ Hscan) as [Hn Hp]. split.
      * intros Hn'. destruct (Hn Hn') as [-> Hall]. split; [done|].
        intros c' l [->|Hin]%elem_of_cons; [congruence|by apply Hall].
      * intros Hp'. destruct (Hp Hp') as [-> Hall]. split; [done|].
        intros c' l [->|Hin]%elem_of_cons; [congruence|by apply Hall].
    + destruct (scan_clause_polarity var c p n) as [p1 n1] eqn:Hclause.
      destruct (scan_clause_polarity_spec _ _ _ _ _ _ Hclause) as [Hn1 Hp1].
      destruct (p1 && n1) eqn:Hboth.
      * injection Hscan as <- <-.
        apply andb_true_iff in Hboth as [-> ->]. split; done.
      * destruct (IH _ _ _ _ Hscan) as [Hn Hp]. split.
        -- intros Hn'. destruct (Hn Hn') as [-> Hall].
           destruct (Hn1 eq_refl) as [-> Hc]. split; [done|].
           intros c' l [->|Hin]%elem_of_cons; [auto|by apply Hall].
        -- intros Hp'. destruct (Hp Hp') as [-> Hall].
           destruct (Hp1 eq_refl) as [-> Hc]. split; [done|].
           intros c' l [->|Hin]%elem_of_cons; [auto|by apply Hall].
Qed.

(** Giving a free variable the value that satisfies all its occurrences in the
    live clauses falsifies no clause. *)
Lemma pure_assignment_safe (cls : list clause_t) (a : list var_assignment_t)
    (var : variable_t) (v : var_assignment_t) :
  1 <= var →
  read_assignment a var = VAR_UNASSIGNED →
  (∀ c l, c ∈ cls → clause_is_satisfied c a = false → l ∈ c →
          literal_variable l = var →
          literal_holds (literal_is_positive l) v = true) →
  some_clause_conflicting cls a = false →
  some_clause_conflicting cls (<[Z.to_nat var := v]> a) = false.
Proof.
  intros Hvar Hfree Hpure. rewrite !some_clause_conflicting_false.
  intros Hnc c Hc. specialize (Hnc c Hc).
  assert (Hother : ∀ l, read_assignment a (literal_variable l) ≠ VAR_UNASSIGNED →
            read_assignment (<[Z.to_nat var := v]> a) (literal_variable l)
            = read_assignment a (literal_variable l)).
  { intros l Hl. apply read_assignment_insert_ne. intros Heq.
    pose proof (literal_variable_nonneg l).
    assert (literal_variable l = var) as Hlv by lia. congruence. }
  destruct (clause_is_satisfied c a) eqn:Hsat.
  - apply satisfied_not_conflicting.
    apply clause_is_satisfied_true in Hsat as (l & Hl & Hh).
    apply clause_is_satisfied_true. exists l. split; [done|].
    rewrite Hother; [done|]. by eapply literal_holds_assigned.
  - apply clause_is_conflicting_false in Hnc as (l & Hl & Hlive).
    apply clause_is_conflicting_false. exists l. split; [done|].
    destruct Hlive as [Hun|Hh].
    + destruct (read_assignment_insert_cases a (Z.to_nat var) v
                  (literal_variable l)) as [->|[Heq ->]]; [by left|].
      right. apply (Hpure c l Hc Hsat Hl).
      pose proof (literal_variable_nonneg l). lia.
    + exfalso. assert (clause_is_satisfied c a = true); [|congruence].
      apply clause_is_satisfied_true. by exists l.
Qed.

Lemma pure_literal_loop_no_conflict (count : nat) :
  ∀ (var : variable_t) (s : dpll_solver_t) (changed : bool),
    1 <= var →
    has_conflict s = false →
    has_conflict (snd (pure_literal_loop count var s changed)) = false.
Proof.
  induction count as [|count IH]; intros var s changed Hvar Hnc; simpl; [done|].
  destruct (IS_VARIABLE_ASSIGNED s var) eqn:Hassigned.
  { apply IH; [lia|done]. }
  unfold IS_VARIABLE_ASSIGNED in Hassigned.
  apply negb_false_iff, bool_decide_eq_true in Hassigned.
  destruct (scan_polarity var (clauses (formula s)) (assignment (formula s))
              false false) as [pos neg] eqn:Hscan.
  destruct (scan_polarity_spec _ _ _ _ _ _ _ Hscan) as [Hneg Hpos].
  assert (Hstep : ∀ v,
            (∀ c l, c ∈ clauses (formula s) →
                    clause_is_satisfied c (assignment (formula s)) = false →
                    l ∈ c → literal_variable l = var →
                    literal_holds (literal_is_positive l) v = true) →
            has_conflict
              (set_formula_modified (snd (assign_variable s var v false)) true)
            = false).
  { intros v Hpure. unfold assign_variable.
    destruct (_ || _); simpl; [done|].
    unfold has_conflict in *. simpl. by apply pure_assignment_safe. }
  destruct pos, neg; simpl.
  - apply IH; [lia|done].
  - apply IH; [lia|]. apply Hstep. intros c l Hc Hsat Hl Hv.
    destruct (Hneg eq_refl) as [_ Hall]. by rewrite (Hall c l).
  - apply IH; [lia|]. apply Hstep. intros c l Hc Hsat Hl Hv.
    destruct (Hpos eq_refl) as [_ Hall]. by rewrite (Hall c l).
  - apply IH; [lia|done].
Qed.

(** ** C5: pure-literal elimination creates no conflict *)

(** C5.  If no clause of the formula is conflicting before
    [pure_literal_elimination], none is conflicting after it. *)
Theorem pure_literal_elimination_no_conflict (s : dpll_solver_t) :
  cnf_has_conflict (formula s) = false →
  cnf_has_conflict (formula (snd (pure_literal_elimination s))) = false.
Proof.
  intros Hnc. by apply (pure_literal_loop_no_conflict _ 1 s false).
Qed.

(** On [pure_literal_example] the elimination makes two assignments, [x1 =
    TRUE] and then [x2 = FALSE]. *)
Lemma pure_literal_elimination_no_conflict_witness :
  cnf_has_conflict (formula pure_literal_example) = false
  ∧ fst (pure_literal_elimination pure_literal_example) = true
  ∧ assignment (formula (snd (pure_literal_elimination pure_literal_example)))
    = [VAR_UNASSIGNED; VAR_TRUE; VAR_FALSE; VAR_UNASSIGNED; VAR_UNASSIGNED]
  ∧ cnf_has_conflict
      (formula (snd (pure_literal_elimination pure_literal_example))) = false.
Proof.
  split; [reflexivity|]. split; [by vm_compute|]. split; [by vm_compute|].
  apply (pure_literal_elimination_no_conflict pure_literal_example).
  reflexivity.
Defined.

(** The frame of the pure-literal loop: since [var] stays within
    [1 .. num_variables], every assignment it makes is a real one. *)
Lemma pure_literal_loop_frame (count : nat) :
  ∀ (var : variable_t) (s : dpll_solver_t) (changed ch' : bool) s',
    1 <= var →
    var + Z.of_nat count = num_variables (formula s) + 1 →
    pure_literal_loop count var s changed = (ch', s') →
    propagation_frame s s'
    ∧ (ch' = true →
       changed = true
       ∨ (stack_size (assignments s) < stack_size (assignments s'))%nat).
Proof.
  induction count as [|count IH]; intros var s changed ch' s' Hvar Hcount Hloop;
    simpl in Hloop.
  { injection Hloop as <- <-. split; auto with frame. }
  destruct (IS_VARIABLE_ASSIGNED s var) eqn:Hassigned.
  { apply IH in Hloop as [Hf Hch]; [|lia|simpl; lia].
    split; [|done]. eapply propagation_frame_trans; [|done].
    by split_and!. }
  unfold IS_VARIABLE_ASSIGNED in Hassigned.
  apply negb_false_iff, bool_decide_eq_true in Hassigned.
  assert (Hstep : ∀ v, v ≠ VAR_UNASSIGNED →
            propagation_frame s
              (set_formula_modified (snd (assign_variable s var v false)) true)
            ∧ stack_size (assignments (snd (assign_variable s var v false)))
              = S (stack_size (assignments s))).
  { intros v Hv.
    assert (Hok : fst (assign_variable s var v false) = true)
      by (apply assign_variable_in_range; lia).
    destruct (assign_variable s var v false) as [b s1] eqn:Has.
    simpl in Hok. subst b. simpl.
    destruct (forced_assignment_frame s s1 var v) 
      as [(Hs & Hc & Hk & Hz & Hp) Hsz]; [lia|done|done|done|].
    split; [|done]. by split_and!. }
  destruct (scan_polarity var (clauses (formula s)) (assignment (formula s))
              false false) as [pos neg].
  assert (Hnext : ∀ v, v ≠ VAR_UNASSIGNED →
            pure_literal_loop count (var + 1)
              (set_formula_modified (snd (assign_variable s var v false)) true)
              true = (ch', s') →
            propagation_frame s s'
            ∧ (ch' = true →
               changed = true
               ∨ (stack_size (assignments s) < stack_size (assignments s'))%nat)).
  { intros v Hv Hl. destruct (Hstep v Hv) as [Hf1 Hsz1].
    assert (Hn : num_variables
                   (formula (set_formula_modified
                               (snd (assign_variable s var v false)) true))
                 = num_variables (formula s)) by (by destruct Hf1 as ((_ & ? & _) & _)).
    apply IH in Hl as [Hf Hch]; [|lia|rewrite Hn; lia].
    split; [by eapply propagation_frame_trans|].
    intros _. right. destruct Hf as (_ & _ & _ & Hz & _). simpl in Hz. lia. }
  destruct pos, neg; simpl in Hloop.
  - apply IH in Hloop; [done|lia|lia].
  - by apply (Hnext VAR_TRUE).
  - by apply (Hnext VAR_FALSE).
  - apply IH in Hloop; [done|lia|lia].
Qed.

Lemma pure_literal_elimination_frame (s : dpll_solver_t) (ch : bool) s' :
  pure_literal_elimination s = (ch, s') →
  propagation_frame s s'
  ∧ (ch = true →
     (stack_size (assignments s) < stack_size (assignments s'))%nat).
Proof.
  unfold pure_literal_elimination. intros Hrun.
  destruct (Z.le_gt_cases 0 (num_variables (formula s))) as [Hn|Hn].
  - apply pure_literal_loop_frame in Hrun as [Hf Hch]; [|lia|lia].
    split; [done|]. intros ->. by destruct (Hch eq_refl).
  - replace (Z.to_nat (num_variables (formula s))) with O in Hrun by lia.
    injection Hrun as <- <-. split; [auto with frame|done].
Qed.

(** ** Backtracking *)

Lemma find_last_decision_some (upto : nat) (entries : list assignment_entry_t)
    (i : nat) :
  find_last_decision upto entries = Some i →
  (i < upto)%nat
  ∧ (∃ d, entries !! i = Some d ∧ is_decision d = true)
  ∧ ∀ j e, (i < j < upto)%nat → entries !! j = Some e → is_decision e = false.
Proof.
  induction upto as [|n IH]; simpl; [done|].
  destruct (entries !! n) as [e|] eqn:Hn.
  - destruct (is_decision e) eqn:Hd.
    + intros [= <-]. split_and!; [lia|by exists e|]. intros j e' Hj. lia.
    + intros Hfind. destruct (IH Hfind) as (Hlt & Hex & Hab).
      split_and!; [lia|done|]. intros j e' Hj Hlk.
      destruct (decide (j = n)) as [->|Hne]; [congruence|].
      apply (Hab j e'); [lia|done].
  - intros Hfind. destruct (IH Hfind) as (Hlt & Hex & Hab).
    split_and!; [lia|done|]. intros j e' Hj Hlk.
    destruct (decide (j = n)) as [->|Hne]; [congruence|].
    apply (Hab j e'); [lia|done].
Qed.

Lemma find_last_decision_none (upto : nat) (entries : list assignment_entry_t) :
  find_last_decision upto entries = None →
  ∀ j e, (j < upto)%nat → entries !! j = Some e → is_decision e = false.
Proof.
  induction upto as [|n IH]; simpl; [intros _ j e Hj; lia|].
  destruct (entries !! n) as [e|] eqn:Hn.
  - destruct (is_decision e) eqn:Hd; [done|].
    intros Hfind j e' Hj Hlk.
    destruct (decide (j = n)) as [->|Hne]; [congruence|].
    apply (IH Hfind j e'); [lia|done].
  - intros Hfind j e' Hj Hlk.
    destruct (decide (j = n)) as [->|Hne]; [congruence|].
    apply (IH Hfind j e'); [lia|done].
Qed.

(** The reverse scan splits the stack at its last decision. *)
Lemma find_last_decision_split (entries : list assignment_entry_t) :
  Exists (λ e, is_decision e = true) entries →
  ∃ below d above,
    entries = below ++ d :: above
    ∧ is_decision d = true
    ∧ Forall (λ e, is_decision e = false) above
    ∧ find_last_decision (length entries) entries = Some (length below).
Proof.
  intros Hex.
  destruct (find_last_decision (length entries) entries) as [i|] eqn:Hfind.
  - destruct (find_last_decision_some _ _ _ Hfind) as (Hlt & (d & Hd & Hdec) & Hab).
    exists (take i entries), d, (drop (S i) entries).
    split_and!.
    + by rewrite take_drop_middle.
    + done.
    + apply list.Forall_forall. intros e [j Hj]%list_elem_of_lookup.
      rewrite lookup_drop in Hj.
      apply (Hab (S i + j)%nat e); [|done].
      apply lookup_lt_Some in Hj. lia.
    + f_equal. rewrite length_take. lia.
  - exfalso. apply list.Exists_exists in Hex as (e & [j Hj]%list_elem_of_lookup & He).
    pose proof (find_last_decision_none _ _ Hfind j e
                  (lookup_lt_Some _ _ _ Hj) Hj). congruence.
Qed.

Lemma stack_top_snoc (below : list assignment_entry_t) (e : assignment_entry_t)
    (level : Z) :
  stack_top (mk_stack (below ++ [e]) level) = Some e.
Proof.
  unfold stack_top, stack_size. simpl. rewrite length_app. simpl.
  replace (length below + 1 - 1)%nat with (length below + 0)%nat by lia.
  by rewrite lookup_app_r, Nat.add_0_r by lia; rewrite ?Nat.sub_diag.
Qed.

Lemma unwind_top_snoc (s : dpll_solver_t) (below : list assignment_entry_t)
    (e : assignment_entry_t) :
  stack (assignments s) = below ++ [e] →
  unwind_top s
  = set_assignments
      (set_formula s
         (set_assignment (formula s) (unassign_entries [e] (assignment (formula s)))))
      (mk_stack below (decision_level (assignments s))).
Proof.
  intros Hst. unfold unwind_top.
  assert (Htop : stack_top (assignments s) = Some e).
  { destruct (assignments s) as [st lvl]. simpl in Hst. subst st.
    apply stack_top_snoc. }
  rewrite Htop. unfold stack_size. rewrite Hst. simpl.
  rewrite length_app. simpl.
  replace (length below + 1 - 1)%nat with (length below) by lia.
  by rewrite take_app_length.
Qed.

(** Unwinding [length es] entries by hand removes [es] from the top of the
    stack and clears their variables; the level stays. *)
Lemma unwind_above_app (es : list assignment_entry_t) :
  ∀ (s : dpll_solver_t) (below : list assignment_entry_t),
    stack (assignments s) = below ++ es →
    unwind_above (length es) s
    = set_assignments
        (set_formula s
           (set_assignment (formula s) (unassign_entries es (assignment (formula s)))))
        (mk_stack below (decision_level (assignments s))).
Proof.
  induction es as [|e es IH] using rev_ind; intros s below Hst.
  - simpl. rewrite app_nil_r in Hst. destruct s as [f [st lvl] ? ? ? ? ? ?].
    simpl in *. subst st. by destruct f.
  - rewrite length_app. simpl. rewrite Nat.add_1_r. simpl.
    rewrite app_assoc in Hst.
    rewrite (unwind_top_snoc s (below ++ es) e Hst).
    rewrite (IH _ below); [|done]. simpl.
    unfold unassign_entries. by rewrite foldr_app.
Qed.

Lemma read_insert_unassigned_same (a : list var_assignment_t) (w : variable_t) :
  read_assignment (<[Z.to_nat w := VAR_UNASSIGNED]> a) w = VAR_UNASSIGNED.
Proof.
  destruct (decide (Z.to_nat w < length a)%nat) as [Hlt|Hge].
  - by apply read_assignment_insert_eq.
  - unfold read_assignment. rewrite list_insert_ge by lia.
    rewrite list_lookup_total_alt, lookup_ge_None_2; [done|lia].
Qed.

Lemma read_unassign_entries_in (es : list assignment_entry_t)
    (a : list var_assignment_t) (w : variable_t) :
  Exists (λ e, Z.to_nat (variable e) = Z.to_nat w) es →
  read_assignment (unassign_entries es a) w = VAR_UNASSIGNED.
Proof.
  induction es as [|e es IH]; simpl; intros Hex; [by inversion Hex|].
  destruct (decide (Z.to_nat (variable e) = Z.to_nat w)) as [Heq|Hne].
  - rewrite Heq. apply read_insert_unassigned_same.
  - rewrite read_assignment_insert_ne by done. apply IH.
    by inversion Hex.
Qed.

Lemma read_unassign_entries_notin (es : list assignment_entry_t)
    (a : list var_assignment_t) (w : variable_t) :
  Forall (λ e, Z.to_nat (variable e) ≠ Z.to_nat w) es →
  read_assignment (unassign_entries es a) w = read_assignment a w.
Proof.
  induction es as [|e es IH]; simpl; intros Hall; [done|].
  inversion Hall; subst.
  rewrite read_assignment_insert_ne by done. by apply IH.
Qed.

Lemma length_unassign_entries (es : list assignment_entry_t)
    (a : list var_assignment_t) :
  length (unassign_entries es a) = length a.
Proof.
  induction es as [|e es IH]; simpl; [done|]. by rewrite length_insert.
Qed.

(** [backtrack], once the stack is split at its last decision. *)
Lemma backtrack_split (s : dpll_solver_t) (below above : list assignment_entry_t)
    (d : assignment_entry_t) :
  stack (assignments s) = below ++ d :: above →
  is_decision d = true →
  Forall (λ e, is_decision e = false) above →
  backtrack s
  = assign_variable
      (set_assignments
         (set_formula s
            (set_assignment (formula s)
               (unassign_entries (d :: above) (assignment (formula s)))))
         (mk_stack below (decision_level (assignments s))))
      (variable d)
      (if bool_decide (value d = VAR_TRUE) then VAR_FALSE else VAR_TRUE)
      true.
Proof.
  intros Hst Hd Hab.
  destruct (find_last_decision_split (stack (assignments s)))
    as (below' & d' & above' & Hst' & Hd' & Hab' & Hfind).
  { rewrite Hst. apply Exists_app. right. by left. }
  assert (below' = below ∧ d' = d ∧ above' = above) as (-> & -> & ->).
  { rewrite Hst in Hst'. clear -Hst' Hd Hd' Hab Hab'.
    revert below' Hst'. induction below as [|b below IH]; intros below' Hst'.
    - destruct below' as [|b' below']; simpl in Hst'.
      + by injection Hst' as -> ->.
      + injection Hst' as -> ->. exfalso.
        apply Forall_app in Hab as [_ Hab]. inversion Hab; congruence.
    - destruct below' as [|b' below']; simpl in Hst'.
      + injection Hst' as <- <-. exfalso.
        apply Forall_app in Hab' as [_ Hab']. inversion Hab'; congruence.
      + injection Hst' as -> Hst'. destruct (IH _ Hst') as (-> & -> & ->). done. }
  unfold backtrack. unfold stack_size at 1. rewrite Hst.
  rewrite length_app. simpl.
  replace (length below + S (length above) =? 0)%nat with false
    by (symmetry; apply Nat.eqb_neq; lia).
  rewrite <- Hst. unfold stack_size. rewrite Hfind.
  replace (length (stack (assignments s)) - (length below + 1))%nat
    with (length above) by (rewrite Hst, length_app; simpl; lia).
  rewrite (unwind_above_app above s (below ++ [d]))
    by (by rewrite <- app_assoc).
  simpl. rewrite stack_top_snoc.
  erewrite unwind_top_snoc; [|done]. simpl. done.
Qed.

(** ** C2: the postcondition of backtrack *)

Lemma backtrack_true_has_decision (s s' : dpll_solver_t) :
  backtrack s = (true, s') →
  Exists (λ e, is_decision e = true) (stack (assignments s)).
Proof.
  unfold backtrack.
  destruct (stack_size (assignments s) =? 0)%nat; [done|].
  destruct (find_last_decision _ _) as [i|] eqn:Hfind; [|done]. intros _.
  destruct (find_last_decision_some _ _ _ Hfind) as (_ & (d & Hd & Hdec) & _).
  apply list.Exists_exists. exists d. split; [|done].
  apply list_elem_of_lookup. by exists i.
Qed.

Lemma backtrack_returns_true (s : dpll_solver_t) :
  stack_invariant s →
  Exists (λ e, is_decision e = true) (stack (assignments s)) →
  fst (backtrack s) = true.
Proof.
  intros (Hal & Hrange & _) Hex.
  destruct (find_last_decision_split _ Hex)
    as (below & d & above & Hst & Hd & Hab & _).
  rewrite (backtrack_split s below above d Hst Hd Hab).
  apply assign_variable_in_range. simpl.
  unfold stack_variables_in_range in Hrange. rewrite Hst in Hrange.
  apply Forall_app in Hrange as [_ Hrange].
  by apply list.Forall_cons in Hrange as [Hrange _].
Qed.

Lemma backtrack_true_spec (s s' : dpll_solver_t) :
  backtrack s = (true, s') →
  ∃ below d above flipped level,
    stack (assignments s) = below ++ d :: above
    ∧ is_decision d = true
    ∧ Forall (λ e, is_decision e = false) above
    ∧ stack (assignments s')
      = below ++ [mk_entry (variable d) flipped level true]
    ∧ stack_top (assignments s')
      = Some (mk_entry (variable d) flipped level true)
    ∧ flipped ≠ value d
    ∧ flipped ≠ VAR_UNASSIGNED
    ∧ (value d = VAR_TRUE → flipped = VAR_FALSE)
    ∧ (value d = VAR_FALSE → flipped = VAR_TRUE)
    ∧ (stack_invariant s →
       read_assignment (assignment (formula s')) (variable d) = flipped
       ∧ Forall (λ e, read_assignment (assignment (formula s')) (variable e)
                      = VAR_UNASSIGNED) above
       ∧ stack_invariant s').
Proof.
  intros Hbt.
  pose proof (backtrack_true_has_decision _ _ Hbt) as Hex.
  destruct (find_last_decision_split _ Hex)
    as (below & d & above & Hst & Hd & Hab & _).
  rewrite (backtrack_split s below above d Hst Hd Hab) in Hbt.
  set (flipped := if bool_decide (value d = VAR_TRUE) then VAR_FALSE else VAR_TRUE)
    in *.
  apply assign_variable_true in Hbt as (_ & _ & Hs'). simpl in Hs'.
  set (level := size_incr (decision_level (assignments s))).
  set (a2 := unassign_entries (d :: above) (assignment (formula s))) in *.
  assert (Hstack' : stack (assignments s')
                    = below ++ [mk_entry (variable d) flipped level true])
    by (by subst s').
  assert (Ha' : assignment (formula s') = <[Z.to_nat (variable d) := flipped]> a2)
    by (by subst s').
  assert (Hlen2 : length a2 = length (assignment (formula s)))
    by apply length_unassign_entries.
  exists below, d, above, flipped, level.
  split_and!; try done.
  - destruct (assignments s') as [st lvl]. simpl in Hstack'. subst st.
    apply stack_top_snoc.
  - subst flipped. by destruct (value d).
  - subst flipped. by destruct (bool_decide _).
  - intros Hv. subst flipped. by rewrite Hv.
  - intros Hv. subst flipped. by rewrite Hv.
  - intros (Hal & Hrange & Hnd & Hag).
    unfold stack_variables_in_range in Hrange. unfold stack_agrees in Hag.
    rewrite Hst in Hrange, Hnd, Hag.
    apply Forall_app in Hrange as [Hrange_below Hrange_d].
    apply list.Forall_cons in Hrange_d as [Hrange_d Hrange_above].
    apply Forall_app in Hag as [Hag_below Hag_d].
    apply list.Forall_cons in Hag_d as [Hag_d Hag_above].
    rewrite fmap_app, fmap_cons in Hnd.
    apply list.NoDup_app in Hnd as (Hnd_below & Hnd_cross & Hnd_rest).
    apply list.NoDup_cons in Hnd_rest as [Hd_above Hnd_above].
    assert (Hread_d : read_assignment (assignment (formula s')) (variable d)
                      = flipped).
    { rewrite Ha'. apply read_assignment_insert_eq.
      rewrite Hlen2. unfold cnf_allocated in Hal. lia. }
    assert (Hdiff : ∀ e e' : assignment_entry_t,
              1 <= variable e → variable e ≠ variable e' → 1 <= variable e' →
              Z.to_nat (variable e) ≠ Z.to_nat (variable e')) by (intros; lia).
    assert (Hread_above :
              Forall (λ e, read_assignment (assignment (formula s')) (variable e)
                           = VAR_UNASSIGNED) above).
    { apply list.Forall_forall. intros e He.
      rewrite list.Forall_forall in Hrange_above.
      pose proof (Hrange_above e He) as Hre.
      assert (variable e ≠ variable d) as Hne.
      { intros Heq. apply Hd_above. rewrite <- Heq.
        by apply list_elem_of_fmap_2. }
      rewrite Ha', read_assignment_insert_ne by (apply Hdiff; lia).
      apply read_unassign_entries_in. apply Exists_cons. right.
      apply list.Exists_exists. by exists e. }
    assert (Hread_below :
              Forall (λ e, read_assignment (assignment (formula s')) (variable e)
                           = value e) below).
    { apply list.Forall_forall. intros e He.
      rewrite list.Forall_forall in Hrange_below, Hag_below.
      pose proof (Hrange_below e He) as Hre.
      assert (Hfresh : variable e ∉ variable d :: (variable <$> above))
        by (apply Hnd_cross; by apply list_elem_of_fmap_2).
      apply not_elem_of_cons in Hfresh as [Hne Hfresh].
      rewrite Ha', read_assignment_insert_ne by (apply Hdiff; lia).
      unfold a2. rewrite read_unassign_entries_notin; [by apply Hag_below|].
      apply list.Forall_cons. split; [apply Hdiff; lia|].
      apply list.Forall_forall. intros e' He'.
      rewrite list.Forall_forall in Hrange_above.
      pose proof (Hrange_above e' He').
      apply Hdiff; [lia| |lia]. intros Heq. apply Hfresh. rewrite <- Heq.
      by apply list_elem_of_fmap_2. }
    split_and!; [done|done|].
    split_and!.
    + unfold cnf_allocated in *. rewrite Ha', length_insert, Hlen2.
      by subst s'.
    + unfold stack_variables_in_range. rewrite Hstack'.
      replace (num_variables (formula s')) with (num_variables (formula s))
        by (by subst s').
      apply Forall_app. split; [done|]. by apply Forall_singleton.
    + rewrite Hstack', fmap_app. simpl.
      apply list.NoDup_app. split_and!; [done| |apply NoDup_singleton].
      intros x Hx Hx'. apply list_elem_of_singleton in Hx'. subst x.
      apply (Hnd_cross _ Hx). by left.
    + unfold stack_agrees. rewrite Hstack'.
      apply Forall_app. split; [done|]. by apply Forall_singleton.
Qed.

(** C2.  Whenever [backtrack] returns true, the stack held a decision; with
    [d] the most recent decision entry, [below] the entries under it and
    [above] those over it, the new stack is [below] followed by one decision
    entry for the variable of [d], which is the top and carries the value
    opposite to the one of [d].  If moreover the state satisfied the stack
    invariants, then the assignment array holds that opposite value for the
    variable of [d], the variable of every entry of [above] reads
    [VAR_UNASSIGNED], and the stack invariants hold again, so the array agrees
    with every remaining entry.  On a state that satisfies the invariants and
    whose stack holds a decision, [backtrack] does return true. *)
Theorem backtrack_postcondition (s : dpll_solver_t) :
  (stack_invariant s →
   Exists (λ e, is_decision e = true) (stack (assignments s)) →
   fst (backtrack s) = true)
  ∧ ∀ s' : dpll_solver_t,
      backtrack s = (true, s') →
      ∃ below d above flipped level,
        stack (assignments s) = below ++ d :: above
        ∧ is_decision d = true
        ∧ Forall (λ e, is_decision e = false) above
        ∧ stack (assignments s')
          = below ++ [mk_entry (variable d) flipped level true]
        ∧ stack_top (assignments s')
          = Some (mk_entry (variable d) flipped level true)
        ∧ flipped ≠ value d
        ∧ flipped ≠ VAR_UNASSIGNED
        ∧ (value d = VAR_TRUE → flipped = VAR_FALSE)
        ∧ (value d = VAR_FALSE → flipped = VAR_TRUE)
        ∧ (stack_invariant s →
           read_assignment (assignment (formula s')) (variable d) = flipped
           ∧ Forall (λ e, read_assignment (assignment (formula s')) (variable e)
                          = VAR_UNASSIGNED) above
           ∧ stack_invariant s').
Proof.
  split; [apply backtrack_returns_true|apply backtrack_true_spec].
Qed.

Lemma backtrack_postcondition_witness :
  stack_invariant conflict_example
  ∧ Exists (λ e, is_decision e = true) (stack (assignments conflict_example))
  ∧ fst (backtrack conflict_example) = true
  ∧ ∃ below d above flipped level,
      stack (assignments conflict_example) = below ++ d :: above
      ∧ is_decision d = true
      ∧ Forall (λ e, is_decision e = false) above
      ∧ stack (assignments (snd (backtrack conflict_example)))
        = below ++ [mk_entry (variable d) flipped level true]
      ∧ stack_top (assignments (snd (backtrack conflict_example)))
        = Some (mk_entry (variable d) flipped level true)
      ∧ flipped ≠ value d
      ∧ flipped ≠ VAR_UNASSIGNED
      ∧ (value d = VAR_TRUE → flipped = VAR_FALSE)
      ∧ (value d = VAR_FALSE → flipped = VAR_TRUE)
      ∧ (stack_invariant conflict_example →
         read_assignment
           (assignment (formula (snd (backtrack conflict_example))))
           (variable d) = flipped
         ∧ Forall (λ e, read_assignment
                          (assignment
                             (formula (snd (backtrack conflict_example))))
                          (variable e) = VAR_UNASSIGNED) above
         ∧ stack_invariant (snd (backtrack conflict_example))).
Proof.
  assert (Hinv : stack_invariant conflict_example).
  { split_and!; [reflexivity| | |]; apply (bool_decide_unpack _);
      vm_compute; exact I. }
  assert (Hdec : Exists (λ e, is_decision e = true)
                   (stack (assignments conflict_example))).
  { apply (bool_decide_unpack _). vm_compute. exact I. }
  split_and!; [exact Hinv|exact Hdec| |].
  - exact (proj1 (backtrack_postcondition conflict_example) Hinv Hdec).
  - apply (proj2 (backtrack_postcondition conflict_example)
             (snd (backtrack conflict_example))).
    vm_compute. reflexivity.
Defined.

(** ** The driver keeps the shape of the formula *)

Lemma unwind_top_shape (s : dpll_solver_t) : same_shape s (unwind_top s).
Proof.
  unfold unwind_top. destruct (stack_top (assignments s)); simpl.
  - repeat split. simpl. by rewrite length_insert.
  - auto with frame.
Qed.

Lemma unwind_above_shape (count : nat) (s : dpll_solver_t) :
  same_shape s (unwind_above count s).
Proof.
  revert s. induction count as [|count IH]; intros s; simpl.
  - auto with frame.
  - eapply same_shape_trans; [apply unwind_top_shape|apply IH].
Qed.

Lemma backtrack_shape (s : dpll_solver_t) : same_shape s (snd (backtrack s)).
Proof.
  unfold backtrack.
  destruct (stack_size (assignments s) =? 0)%nat; [auto with frame|].
  destruct (find_last_decision _ _) as [i|]; [|auto with frame].
  destruct (stack_top _) as [d|].
  - eapply same_shape_trans; [apply unwind_above_shape|].
    eapply same_shape_trans; [apply unwind_top_shape|].
    apply assign_variable_shape.
  - apply unwind_above_shape.
Qed.

Lemma backtrack_or_unsat_shape (s : dpll_solver_t) :
  same_shape s (snd (backtrack_or_unsat s))
  ∧ fst (backtrack_or_unsat s) ≠ Some SOLVER_SATISFIABLE.
Proof.
  unfold backtrack_or_unsat. pose proof (backtrack_shape s) as Hsh.
  by destruct (backtrack s) as [[|] s'].
Qed.

Lemma length_clear_assignment_loop (count : nat) (var : variable_t)
    (a : list var_assignment_t) :
  length (clear_assignment_loop count var a) = length a.
Proof.
  revert var a. induction count as [|count IH]; intros var a; simpl; [done|].
  by rewrite IH, length_insert.
Qed.

Lemma length_reapply_entries (entries : list assignment_entry_t)
    (a : list var_assignment_t) :
  length (reapply_entries entries a) = length a.
Proof.
  revert a. induction entries as [|e entries IH]; intros a; simpl; [done|].
  by rewrite IH, length_insert.
Qed.

Lemma perform_restart_shape (s : dpll_solver_t) :
  same_shape s (perform_restart s).
Proof.
  repeat split. simpl.
  by rewrite length_reapply_entries, length_clear_assignment_loop.
Qed.

Lemma choose_decision_variable_formula (s : dpll_solver_t) :
  formula (snd (choose_decision_variable s)) = formula s.
Proof.
  unfold choose_decision_variable.
  destruct (decision_strategy (config s)); try done.
  unfold decision_random. destruct (_ =? 0); [done|].
  by destruct (random_int _ _ _).
Qed.

(** The three stages of an iteration: when one of them returns
    [SOLVER_SATISFIABLE], the formula is satisfied in the state it returns. *)
Lemma dpll_decide_sound (s : dpll_solver_t) (progress_made : bool) :
  same_shape s (snd (dpll_decide s progress_made))
  ∧ (fst (dpll_decide s progress_made) = Some SOLVER_SATISFIABLE →
     cnf_is_satisfied (formula (snd (dpll_decide s progress_made))) = true).
Proof.
  unfold dpll_decide.
  pose proof (choose_decision_variable_formula s) as Hf.
  destruct (choose_decision_variable s) as [decision_var s0]. simpl in Hf.
  assert (Hsh0 : same_shape s s0) by (unfold same_shape; by rewrite Hf).
  destruct (decision_var =? 0).
  { simpl. split; [done|]. unfold is_formula_satisfied.
    by destruct (cnf_is_satisfied (formula s0)). }
  pose proof (assign_variable_shape s0 decision_var
                (choose_decision_value s0 decision_var) true) as Hsh1.
  destruct (assign_variable _ _ _ _) as [[|] s1]; simpl in Hsh1;
    [|split; [by eapply same_shape_trans|done]].
  assert (Hsh2 : same_shape s (incr_decisions s1))
    by (by eapply same_shape_trans).
  destruct (_ && _); [done|].
  destruct (_ && _); simpl; [|done].
  split; [|done]. eapply same_shape_trans; [done|].
  apply (perform_restart_shape (incr_decisions s1)).
Qed.

Lemma dpll_pure_stage_sound (s : dpll_solver_t) (progress_made : bool) :
  same_shape s (snd (dpll_pure_stage s progress_made))
  ∧ (fst (dpll_pure_stage s progress_made) = Some SOLVER_SATISFIABLE →
     cnf_is_satisfied (formula (snd (dpll_pure_stage s progress_made))) = true).
Proof.
  unfold dpll_pure_stage.
  destruct (enable_pure_literal (config s)); [|apply dpll_decide_sound].
  destruct (pure_literal_elimination s) as [eliminated s1] eqn:Hpure.
  destruct (pure_literal_elimination_frame _ _ _ Hpure) as [(Hsh & _) _].
  destruct (has_conflict s1).
  - destruct (backtrack_or_unsat_shape s1) as [Hsh1 Hr].
    split; [by eapply same_shape_trans|done].
  - destruct (dpll_decide_sound s1 (eliminated || progress_made)) as [Hsh1 Hr].
    split; [by eapply same_shape_trans|done].
Qed.

Lemma unit_propagation_total (s : dpll_solver_t) :
  cnf_allocated (formula s) →
  ∃ r s', unit_propagation s = Some (r, s') ∧ propagation_frame s s'.
Proof.
  intros Hal.
  destruct (unit_propagation_loop_spec (pass_budget s) s Hal
              (pass_budget_enough s Hal)) as (r & s' & Hloop & Hf & _).
  by exists r, s'.
Qed.

Lemma dpll_iteration_sound (s : dpll_solver_t) :
  cnf_allocated (formula s) →
  ∃ r s',
    dpll_iteration s = Some (r, s')
    ∧ same_shape s s'
    ∧ (r = Some SOLVER_SATISFIABLE → cnf_is_satisfied (formula s') = true).
Proof.
  intros Hal. unfold dpll_iteration.
  destruct (is_formula_satisfied s) eqn:Hsat.
  { exists (Some SOLVER_SATISFIABLE), s. by split_and!; [|auto with frame|]. }
  destruct (has_conflict s).
  { destruct (backtrack_or_unsat_shape s) as [Hsh Hr].
    destruct (backtrack_or_unsat s) as [r s']. by exists r, s'. }
  destruct (enable_unit_propagation (config s)).
  - destruct (unit_propagation_total s Hal) as (r1 & s1 & -> & (Hsh & _)).
    simpl. destruct (has_conflict s1).
    + destruct (backtrack_or_unsat_shape s1) as [Hsh1 Hr].
      destruct (backtrack_or_unsat s1) as [r s']. exists r, s'.
      split_and!; [done|by eapply same_shape_trans|done].
    + set (p := (_ || _)).
      destruct (dpll_pure_stage_sound s1 p) as [Hsh1 Hr].
      destruct (dpll_pure_stage s1 p) as [r s']. exists r, s'.
      split_and!; [done|by eapply same_shape_trans|done].
  - destruct (dpll_pure_stage_sound s false) as [Hsh1 Hr].
    destruct (dpll_pure_stage s false) as [r s']. by exists r, s'.
Qed.

Lemma dpll_loop_sound (remaining : nat) :
  ∀ (iterations : nat) (clock : nat → Q) (s : dpll_solver_t),
    cnf_allocated (formula s) →
    ∃ r s',
      dpll_loop remaining iterations clock s = Some (r, s')
      ∧ same_shape s s'
      ∧ (r = SOLVER_SATISFIABLE → cnf_is_satisfied (formula s') = true).
Proof.
  induction remaining as [|n IH]; intros iterations clock s Hal; simpl.
  { exists SOLVER_TIMEOUT, s. by split_and!; [|auto with frame|]. }
  destruct (solver_is_timeout s (clock (S iterations))).
  { exists SOLVER_TIMEOUT, s. by split_and!; [|auto with frame|]. }
  destruct (dpll_iteration_sound s Hal) as (r0 & s1 & -> & Hsh & Hr). simpl.
  destruct r0 as [r0|].
  - exists r0, s1. split_and!; [done|done|]. intros ->. by apply Hr.
  - destruct (IH (S iterations) clock s1 (same_shape_allocated _ _ Hsh Hal))
      as (r & s' & Hloop & Hsh' & Hr').
    exists r, s'. split_and!; [done|by eapply same_shape_trans|done].
Qed.

(** Preprocessing: a round that changes something uses up an unassigned
    variable, so [num_variables + 1] rounds are enough. *)
Lemma preprocess_loop_total (fuel : nat) :
  ∀ s : dpll_solver_t,
    cnf_allocated (formula s) →
    (unassigned_count (formula s) < fuel)%nat →
    ∃ s', preprocess_loop fuel s = Some (true, s') ∧ same_shape s s'.
Proof.
  induction fuel as [|fuel IH]; intros s Hal Hfuel; [lia|]. simpl.
  destruct (pure_literal_elimination s) as [eliminated s1] eqn:Hpure.
  destruct (pure_literal_elimination_frame _ _ _ Hpure) as [Hf1 Hch].
  pose proof Hf1 as (Hsh1 & _ & _ & Hz1 & Hp1).
  pose proof (same_shape_allocated _ _ Hsh1 Hal) as Hal1.
  destruct (unit_propagation_total s1 Hal1) as (r2 & s2 & -> & Hf2). simpl.
  pose proof Hf2 as (Hsh2 & _ & _ & Hz2 & Hp2).
  assert (Hsh : same_shape s s2) by (by eapply same_shape_trans).
  destruct (has_conflict s2); [by exists s2|].
  destruct (eliminated || negb _) eqn:Hchanged; [|by exists s2].
  assert (stack_size (assignments s) < stack_size (assignments s2))%nat.
  { apply orb_true_iff in Hchanged as [->|Hne].
    - specialize (Hch eq_refl). lia.
    - apply negb_true_iff, Nat.eqb_neq in Hne. lia. }
  specialize (Hp1 Hal). specialize (Hp2 Hal1).
  destruct (IH s2) as (s' & Hloop & Hsh');
    [by eapply same_shape_allocated|lia|].
  exists s'. split; [done|by eapply same_shape_trans].
Qed.

(** A satisfied formula is true under the completed assignment. *)
Lemma satisfied_formula_true (cnf : cnf_formula_t) :
  cnf_is_satisfied cnf = true → formula_true (model_bit cnf) cnf = true.
Proof.
  unfold cnf_is_satisfied, formula_true.
  induction (clauses cnf) as [|c rest IH]; simpl; [done|].
  destruct (clause_is_satisfied c (assignment cnf)) eqn:Hsat; [|done]. simpl.
  intros Hrest. rewrite (IH Hrest), andb_true_r.
  apply clause_is_satisfied_true in Hsat as (lit & Hin & Hh).
  apply existsb_exists. exists lit. split; [by apply list_elem_of_In|].
  unfold literal_true, model_bit.
  destruct (literal_is_positive lit),
    (read_assignment (assignment cnf) (literal_variable lit)); done.
Qed.

(** ** C1: soundness of the solver *)

(** C1.  On an allocated formula [dpll_algorithm] and [solver_solve] return,
    whatever the clock reads, and leave the clauses as they were; when the
    result is [SOLVER_SATISFIABLE], every clause of the formula is true under
    the assignment found in [formula.assignment] with each [VAR_UNASSIGNED]
    read as false. *)
Theorem solver_soundness (clock : nat → Q) (s : dpll_solver_t) :
  cnf_allocated (formula s) →
  (∃ r s',
     dpll_algorithm clock s = Some (r, s')
     ∧ clauses (formula s') = clauses (formula s)
     ∧ (r = SOLVER_SATISFIABLE →
        ∀ c, c ∈ clauses (formula s') →
             clause_true (model_bit (formula s')) c = true))
  ∧ (∃ r s',
       solver_solve clock s = Some (r, s')
       ∧ clauses (formula s') = clauses (formula s)
       ∧ (r = SOLVER_SATISFIABLE →
          ∀ c, c ∈ clauses (formula s') →
               clause_true (model_bit (formula s')) c = true)).
Proof.
  intros Hal.
  assert (Hmodel : ∀ s' : dpll_solver_t,
            cnf_is_satisfied (formula s') = true →
            ∀ c, c ∈ clauses (formula s') →
                 clause_true (model_bit (formula s')) c = true).
  { intros s' Hsat c Hc. apply satisfied_formula_true in Hsat.
    unfold formula_true in Hsat. rewrite forallb_forall in Hsat.
    apply Hsat. by apply list_elem_of_In. }
  assert (Hsearch : ∀ (s0 : dpll_solver_t) (c0 : solver_config_t),
            cnf_allocated (formula s0) →
            ∃ r s',
              dpll_algorithm clock (set_config s0 c0) = Some (r, s')
              ∧ clauses (formula s') = clauses (formula s0)
              ∧ (r = SOLVER_SATISFIABLE →
                 ∀ c, c ∈ clauses (formula s') →
                      clause_true (model_bit (formula s')) c = true)).
  { intros s0 c0 Hal0.
    destruct (dpll_loop_sound max_iterations 0 clock (set_config s0 c0) Hal0)
      as (r & s' & Hrun & (Hc & _) & Hr).
    exists r, s'. split_and!; [done|done|]. intros Hsat. by apply Hmodel, Hr. }
  split.
  - destruct (dpll_loop_sound max_iterations 0 clock s Hal)
      as (r & s' & Hrun & (Hc & _) & Hr).
    exists r, s'. split_and!; [done|done|]. intros Hsat. by apply Hmodel, Hr.
  - unfold solver_solve.
    destruct (enable_preprocessing (config s)); [|by apply Hsearch].
    destruct (preprocess_loop_total (pass_budget s) s Hal
                (pass_budget_enough s Hal)) as (s1 & Hpre & Hsh).
    unfold preprocess_formula. rewrite Hpre. simpl.
    pose proof Hsh as (Hc & _).
    destruct (length (clauses (formula s1)) =? 0)%nat eqn:Hempty.
    { exists SOLVER_SATISFIABLE, s1. split_and!; [done|done|].
      intros _ c Hin. apply Nat.eqb_eq, nil_length_inv in Hempty.
      rewrite Hempty in Hin. by apply elem_of_nil in Hin. }
    destruct (has_conflict s1).
    { exists SOLVER_UNSATISFIABLE, s1. by split_and!. }
    destruct (Hsearch s1 (install_limits (config s1))
                (same_shape_allocated _ _ Hsh Hal)) as (r & s' & Hrun & Hc' & Hr).
    exists r, s'. split_and!; [done|congruence|done].
Qed.

Lemma solver_soundness_witness :
  cnf_allocated (formula satisfiable_example)
  ∧ (∃ r s',
       dpll_algorithm still_clock satisfiable_example = Some (r, s')
       ∧ clauses (formula s') = clauses (formula satisfiable_example)
       ∧ (r = SOLVER_SATISFIABLE →
          ∀ c, c ∈ clauses (formula s') →
               clause_true (model_bit (formula s')) c = true))
  ∧ (∃ r s',
       solver_solve still_clock satisfiable_example = Some (r, s')
       ∧ clauses (formula s') = clauses (formula satisfiable_example)
       ∧ (r = SOLVER_SATISFIABLE →
          ∀ c, c ∈ clauses (formula s') →
               clause_true (model_bit (formula s')) c = true)).
Proof.
  split; [reflexivity|].
  apply (solver_soundness still_clock satisfiable_example). reflexivity.
Defined.

(** ** C3: the level of the stack against its decision entries *)

(** The stack operations of [structures.c] keep the level in step with the
    decision entries: a push raises both by one for a decision and neither for
    a propagation; a pop lowers both by one for a decision and neither for a
    propagation. *)
Lemma assignment_stack_push_counts (st : assignment_stack_t) (var : variable_t)
    (v : var_assignment_t) (d : bool) :
  count_decisions st + 1 < SIZE_MODULUS →
  level_counts_decisions st →
  level_counts_decisions (assignment_stack_push st var v d).
Proof.
  unfold level_counts_decisions, count_decisions, assignment_stack_push.
  intros Hbound Hlevel. simpl. rewrite list.filter_app, length_app.
  rewrite filter_cons, filter_nil. simpl.
  destruct d; simpl.
  - destruct (decide (true = true)); [|done]. simpl.
    unfold size_incr. rewrite Z.mod_small; lia.
  - destruct (decide (false = true)); [done|]. simpl. lia.
Qed.

Lemma assignment_stack_pop_counts (st st' : assignment_stack_t)
    (top : assignment_entry_t) :
  decision_level st < SIZE_MODULUS →
  level_counts_decisions st →
  assignment_stack_pop st = Some (top, st') →
  count_decisions st' = count_decisions st - (if is_decision top then 1 else 0)
  ∧ decision_level st' = decision_level st - (if is_decision top then 1 else 0)
  ∧ level_counts_decisions st'.
Proof.
  unfold level_counts_decisions, count_decisions, assignment_stack_pop, stack_top,
    stack_size.
  intros Hbound Hlevel. destruct (stack st !! _) as [e|] eqn:Htop; [|done].
  intros [= <- <-]. simpl.
  assert (Hsplit : stack st = take (length (stack st) - 1) (stack st) ++ [e]).
  { pose proof (lookup_lt_Some _ _ _ Htop) as Hlt.
    rewrite <- (take_drop_middle _ _ _ Htop) at 1.
    replace (S (length (stack st) - 1)) with (length (stack st)) by lia.
    by rewrite drop_all. }
  assert (Hcount : Z.of_nat (length (filter (λ e, is_decision e = true) (stack st)))
                   = Z.of_nat (length (filter (λ e, is_decision e = true)
                                         (take (length (stack st) - 1) (stack st))))
                     + (if is_decision e then 1 else 0)).
  { rewrite Hsplit at 1. rewrite list.filter_app, length_app, filter_cons, filter_nil.
    destruct (is_decision e); simpl.
    - destruct (decide (true = true)); [|done]. simpl. lia.
    - destruct (decide (false = true)); [done|]. simpl. lia. }
  destruct (is_decision e); simpl.
  - destruct (Z.ltb_spec 0 (decision_level st)); [|lia].
    unfold size_decr. rewrite Z.mod_small; lia.
  - lia.
Qed.

(** C3 (the code departs from the claim).  [backtrack] unwinds the entries by
    hand without lowering the level, then pushes the flipped decision, which
    raises it: after one decision and one backtrack the level is 2 while the
    stack holds a single decision entry.  On the unsatisfiable example the
    driver itself ends with level 1000 and one decision entry. *)
Theorem backtrack_decision_level_drift :
  let s1 := snd (assign_variable unsatisfiable_example 1 VAR_TRUE true) in
  let s2 := snd (backtrack s1) in
  (decision_level (assignments s1) = 1 ∧ count_decisions (assignments s1) = 1)
  ∧ fst (backtrack s1) = true
  ∧ (decision_level (assignments s2) = 2 ∧ count_decisions (assignments s2) = 1)
  ∧ ∃ s, solver_solve still_clock unsatisfiable_example = Some (SOLVER_TIMEOUT, s)
         ∧ decision_level (assignments s) = 1000
         ∧ count_decisions (assignments s) = 1.
Proof.
  split_and!; try (vm_compute; reflexivity).
  eexists. split_and!; [vm_compute; reflexivity|reflexivity|reflexivity].
Qed.

(** ** C6: the most-frequent heuristic *)

(** Splits a conjunction of five parts, leaving range bounds [a <= x < b]
    whole. *)
Ltac split_five := refine (conj _ (conj _ (conj _ (conj _ _)))).

(** In the loops over the variables, a property of the range [var ..] follows
    from the same property of [var + 1 ..] once [var] itself is dealt with. *)
Ltac split_off_first var Hrest :=
  let v := fresh "v" in
  intros v ? ?;
  destruct (decide (v = var)) as [->|?];
  [first [congruence | lia] | apply Hrest; [lia | done]].

(** The loop of [decision_most_frequent]: either no unassigned variable of the
    range beats the running maximum and the running best is returned, or the
    result is the first unassigned variable of the range whose total frequency
    is the largest, and that frequency beats the running maximum. *)
Lemma most_frequent_loop_spec (s : dpll_solver_t) (count : nat) :
  ∀ (var best : variable_t) (maxf : Z),
    let r := most_frequent_loop count var s best maxf in
    (r = best
     ∧ ∀ v, var <= v < var + Z.of_nat count →
            IS_VARIABLE_ASSIGNED s v = false → total_frequency s v <= maxf)
    ∨ (var <= r < var + Z.of_nat count
       ∧ IS_VARIABLE_ASSIGNED s r = false
       ∧ maxf < total_frequency s r
       ∧ (∀ v, var <= v < var + Z.of_nat count →
               IS_VARIABLE_ASSIGNED s v = false →
               total_frequency s v <= total_frequency s r)
       ∧ (∀ v, var <= v < r →
               IS_VARIABLE_ASSIGNED s v = false →
               total_frequency s v < total_frequency s r)).
Proof.
  induction count as [|count IH]; intros var best maxf; simpl.
  { left. split; [done|]. intros v Hv. lia. }
  destruct (IS_VARIABLE_ASSIGNED s var) eqn:Has.
  - destruct (IH (var + 1) best maxf) as [[Hr Hall]|(Hr & Hfree & Hgt & Hmax & Hfirst)].
    + left. split; [done|]. split_off_first var Hall.
    + right. split_five; [lia|done|done| |].
      * split_off_first var Hmax.
      * split_off_first var Hfirst.
  - fold (total_frequency s var).
    destruct (Z.ltb_spec maxf (total_frequency s var)) as [Hlt|Hge].
    + destruct (IH (var + 1) var (total_frequency s var))
        as [[Hr Hall]|(Hr & Hfree & Hgt & Hmax & Hfirst)].
      * right. rewrite Hr. split_five; [lia|done|done| |].
        -- split_off_first var Hall.
        -- intros v Hv. lia.
      * right. split_five; [lia|done|lia| |].
        -- split_off_first var Hmax.
        -- split_off_first var Hfirst.
    + destruct (IH (var + 1) best maxf)
        as [[Hr Hall]|(Hr & Hfree & Hgt & Hmax & Hfirst)].
      * left. split; [done|]. split_off_first var Hall.
      * right. split_five; [lia|done|done| |].
        -- split_off_first var Hmax.
        -- split_off_first var Hfirst.
Qed.

Lemma total_frequency_nonneg (s : dpll_solver_t) (var : variable_t) :
  0 <= total_frequency s var.
Proof. unfold total_frequency, SIZE_MODULUS. apply Z.mod_pos_bound. lia. Qed.

(** What [decision_most_frequent] computes: [0] when every unassigned variable
    has total frequency [0]; otherwise the smallest unassigned variable whose
    total frequency is the largest. *)
Lemma decision_most_frequent_spec (s : dpll_solver_t) :
  let n := num_variables (formula s) in
  let r := decision_most_frequent s in
  (r = 0
   ∧ ∀ v, 1 <= v <= n → IS_VARIABLE_ASSIGNED s v = false →
          total_frequency s v = 0)
  ∨ (1 <= r <= n
     ∧ IS_VARIABLE_ASSIGNED s r = false
     ∧ 0 < total_frequency s r
     ∧ (∀ v, 1 <= v <= n → IS_VARIABLE_ASSIGNED s v = false →
             total_frequency s v <= total_frequency s r)
     ∧ (∀ v, 1 <= v < r → IS_VARIABLE_ASSIGNED s v = false →
             total_frequency s v < total_frequency s r)).
Proof.
  intros n r. subst r. unfold decision_most_frequent.
  destruct (most_frequent_loop_spec s (Z.to_nat n) 1 0 0)
    as [[Hr Hall]|(Hr & Hfree & Hgt & Hmax & Hfirst)]; fold n.
  - left. split; [done|]. intros v Hv Hv'.
    pose proof (total_frequency_nonneg s v).
    specialize (Hall v ltac:(lia) Hv'). lia.
  - right. split_five; [lia|done|done| |done].
    intros v Hv. apply Hmax. lia.
Qed.

(** C6 (the code departs from the claim).  In the state of the idle-variable
    example variable 3 is unassigned, yet [decision_most_frequent] returns [0],
    the value that the driver reads as "every variable is assigned"; the
    first-unassigned, Jeroslow-Wang and random heuristics return variable 3
    there.  The driver reaches this state on the two-clause example and ends
    with variable 3 unassigned. *)
Theorem decision_most_frequent_misses_idle_variable :
  IS_VARIABLE_ASSIGNED idle_variable_example 3 = false
  ∧ total_frequency idle_variable_example 3 = 0
  ∧ decision_most_frequent idle_variable_example = 0
  ∧ decision_first_unassigned idle_variable_example = 3
  ∧ decision_jeroslow_wang idle_variable_example = 3
  ∧ fst (decision_random idle_variable_example) = 3
  ∧ ∃ s, solver_solve still_clock idle_variable_start
         = Some (SOLVER_SATISFIABLE, s)
         ∧ formula s = formula idle_variable_example
         ∧ assignments s = assignments idle_variable_example.
Proof.
  split_and!; try (vm_compute; reflexivity).
  eexists. split_and!; [vm_compute; reflexivity|reflexivity|reflexivity].
Qed.

(** ** The search keeps the stack invariants *)

(** The invariant looks at the formula and at the stack only. *)
Lemma search_invariant_ext (s s' : dpll_solver_t) :
  formula s' = formula s → assignments s' = assignments s →
  search_invariant s → search_invariant s'.
Proof.
  unfold search_invariant, stack_invariant, stack_variables_in_range,
    stack_agrees.
  by intros -> ->.
Qed.

Lemma search_invariant_create (f : cnf_formula_t) (c : solver_config_t)
    (seed : Z) :
  cnf_allocated f → search_invariant (solver_create_with_config f c seed).
Proof.
  intros Hal. split; [|by constructor].
  split_and!; [done|by constructor|by constructor|by constructor].
Qed.

(** Assigning a definite value to a free variable of the formula. *)
Lemma assign_fresh_invariant (s s' : dpll_solver_t) (var : variable_t)
    (v : var_assignment_t) (d : bool) :
  search_invariant s → 1 <= var →
  read_assignment (assignment (formula s)) var = VAR_UNASSIGNED →
  v ≠ VAR_UNASSIGNED →
  assign_variable s var v d = (true, s') →
  search_invariant s'.
Proof.
  intros ((Hal & Hrange & Hnd & Hag) & Hval) Hvar Hfree Hv Has.
  apply assign_variable_true in Has as (_ & Hle & ->).
  unfold search_invariant, stack_invariant, stack_variables_in_range,
    stack_agrees, cnf_allocated in *. simpl.
  rewrite list.Forall_forall in Hrange, Hag, Hval.
  assert (Hfresh : ∀ e, e ∈ stack (assignments s) → variable e ≠ var).
  { intros e He Heq. specialize (Hag e He). specialize (Hval e He). congruence. }
  split_and!.
  - by rewrite length_insert.
  - apply Forall_app. split; [by apply list.Forall_forall|].
    apply Forall_singleton. simpl. lia.
  - rewrite fmap_app. apply list.NoDup_app.
    split_and!; [done| |apply NoDup_singleton].
    intros x [e [-> He]]%list_elem_of_fmap Hx.
    apply list_elem_of_singleton in Hx. by apply (Hfresh e He).
  - apply Forall_app. split.
    + apply list.Forall_forall. intros e He.
      rewrite read_assignment_insert_ne; [by apply Hag|].
      specialize (Hrange e He). specialize (Hfresh e He). lia.
    + apply Forall_singleton. simpl. apply read_assignment_insert_eq. lia.
  - apply Forall_app. split; [by apply list.Forall_forall|].
    by apply Forall_singleton.
Qed.

Lemma unit_propagation_pass_invariant (cls : list clause_t) :
  ∀ (s : dpll_solver_t) (p : bool) r p' s',
    search_invariant s →
    unit_propagation_pass cls s p = (r, p', s') →
    search_invariant s'.
Proof.
  induction cls as [|clause rest IH]; intros s p r p' s' Hinv Hpass;
    simpl in Hpass.
  { by injection Hpass as <- <- <-. }
  destruct (clause_is_satisfied clause (assignment (formula s)));
    [by eapply IH|].
  destruct (clause_is_unit clause (assignment (formula s)))
    as [unit_literal|] eqn:Hunit; [|by eapply IH].
  pose proof (clause_is_unit_unassigned _ _ _ Hunit) as Hfree.
  unfold IS_VARIABLE_ASSIGNED in Hpass. rewrite Hfree in Hpass.
  simpl in Hpass.
  destruct (assign_variable s (literal_variable unit_literal)
              (if literal_is_positive unit_literal then VAR_TRUE else VAR_FALSE)
              false) as [[|] s1] eqn:Has.
  - eapply IH; [|done].
    apply (search_invariant_ext s1); [done|done|].
    pose proof Has as (Hne & _)%assign_variable_true.
    pose proof (literal_variable_nonneg unit_literal).
    apply (assign_fresh_invariant s s1 (literal_variable unit_literal)
             (if literal_is_positive unit_literal then VAR_TRUE else VAR_FALSE)
             false); [done|lia|done| |done].
    by destruct (literal_is_positive unit_literal).
  - apply assign_variable_false in Has as ->. by injection Hpass as <- <- <-.
Qed.

Lemma unit_propagation_invariant (s : dpll_solver_t) r s' :
  search_invariant s → unit_propagation s = Some (r, s') → search_invariant s'.
Proof.
  unfold unit_propagation. generalize (pass_budget s). intros fuel.
  revert s. induction fuel as [|fuel IH]; intros s Hinv; simpl; [done|].
  destruct (unit_propagation_pass (clauses (formula s)) s false)
    as [[r0 p'] s1] eqn:Hpass.
  pose proof (unit_propagation_pass_invariant _ _ _ _ _ _ Hinv Hpass) as Hinv1.
  destruct r0 as [r0|]; [by intros [= _ <-]|].
  destruct p'; [by apply IH|by intros [= _ <-]].
Qed.

Lemma pure_literal_loop_invariant (count : nat) :
  ∀ (var : variable_t) (s : dpll_solver_t) (changed : bool),
    1 <= var → search_invariant s →
    search_invariant (snd (pure_literal_loop count var s changed)).
Proof.
  induction count as [|count IH]; intros var s changed Hvar Hinv; simpl; [done|].
  destruct (IS_VARIABLE_ASSIGNED s var) eqn:Hassigned.
  { apply IH; [lia|]. by apply (search_invariant_ext s). }
  unfold IS_VARIABLE_ASSIGNED in Hassigned.
  apply negb_false_iff, bool_decide_eq_true in Hassigned.
  assert (Hstep : ∀ v, v ≠ VAR_UNASSIGNED →
            search_invariant
              (set_formula_modified (snd (assign_variable s var v false)) true)).
  { intros v Hv.
    destruct (assign_variable s var v false) as [[|] s1] eqn:Has; simpl.
    - apply (search_invariant_ext s1); [done|done|].
      by apply (assign_fresh_invariant s s1 var v false).
    - apply assign_variable_false in Has as ->.
      by apply (search_invariant_ext s). }
  destruct (scan_polarity _ _ _ _ _) as [[|] [|]]; simpl;
    apply IH; try lia; try done; by apply Hstep.
Qed.

Lemma pure_literal_elimination_invariant (s : dpll_solver_t) :
  search_invariant s → search_invariant (snd (pure_literal_elimination s)).
Proof. intros Hinv. by apply pure_literal_loop_invariant. Qed.

Lemma backtrack_invariant (s : dpll_solver_t) :
  search_invariant s → search_invariant (snd (backtrack s)).
Proof.
  intros Hinv. destruct (backtrack s) as [[|] s'] eqn:Hbt; simpl.
  - destruct (backtrack_true_spec _ _ Hbt)
      as (below & d & above & flipped & level & Hst & _ & _ & Hst' & _ & _
          & Hflip & _ & _ & Hpost).
    destruct Hinv as [Hstack Hval].
    destruct (Hpost Hstack) as (_ & _ & Hstack').
    split; [done|]. rewrite Hst'. rewrite Hst in Hval.
    apply Forall_app in Hval as [Hval _].
    apply Forall_app. split; [done|]. by apply Forall_singleton.
  - (* no decision on the stack, or the stack is empty: nothing is touched *)
    revert Hbt. unfold backtrack.
    destruct (stack_size (assignments s) =? 0)%nat; [by intros [= <-]|].
    destruct (find_last_decision _ _) as [i|] eqn:Hfind; [|by intros [= <-]].
    destruct (find_last_decision_some _ _ _ Hfind) as (_ & (d & Hd & Hdec) & _).
    assert (Hex : Exists (λ e, is_decision e = true) (stack (assignments s))).
    { apply list.Exists_exists. exists d. split; [|done].
      apply list_elem_of_lookup. by exists i. }
    pose proof (backtrack_returns_true s (proj1 Hinv) Hex) as Htrue.
    unfold backtrack in Htrue.
    destruct (stack_size (assignments s) =? 0)%nat; [done|].
    rewrite Hfind in Htrue. intros Hbt. rewrite Hbt in Htrue. done.
Qed.

(** Each heuristic answers [0] or a free variable of [1 .. num_variables]. *)
Lemma first_unassigned_loop_free (s : dpll_solver_t) (count : nat) :
  ∀ var : variable_t,
    let r := first_unassigned_loop count var s in
    r = 0 ∨ (var <= r ∧ r < var + Z.of_nat count
             ∧ IS_VARIABLE_ASSIGNED s r = false).
Proof.
  induction count as [|count IH]; intros var; simpl; [by left|].
  destruct (IS_VARIABLE_ASSIGNED s var) eqn:Has; simpl.
  - destruct (IH (var + 1)) as [?|(? & ? & ?)]; [by left|right].
    split_and!; [lia|lia|done].
  - right. split_and!; [lia|lia|done].
Qed.

Lemma jeroslow_wang_var_loop_free (s : dpll_solver_t) (count : nat) :
  ∀ (var best : variable_t) (max_score : double),
    let r := jeroslow_wang_var_loop count var s best max_score in
    r = best ∨ (var <= r ∧ r < var + Z.of_nat count
                ∧ IS_VARIABLE_ASSIGNED s r = false).
Proof.
  induction count as [|count IH]; intros var best max_score; simpl; [by left|].
  destruct (IS_VARIABLE_ASSIGNED s var) eqn:Has.
  - destruct (IH (var + 1) best max_score) as [?|(? & ? & ?)]; [by left|right].
    split_and!; [lia|lia|done].
  - destruct (double_gt _ _).
    + destruct (IH (var + 1) var (calculate_jeroslow_wang_score s var))
        as [Hr|(? & ? & ?)]; right.
      * rewrite Hr. split_and!; [lia|lia|done].
      * split_and!; [lia|lia|done].
    + destruct (IH (var + 1) best max_score) as [?|(? & ? & ?)]; [by left|right].
      split_and!; [lia|lia|done].
Qed.

Lemma collect_unassigned_free (s : dpll_solver_t) (count : nat) :
  ∀ (var : variable_t) (acc : list variable_t) (bound : Z),
    var + Z.of_nat count <= bound →
    Forall (λ v, 1 <= v < bound ∧ IS_VARIABLE_ASSIGNED s v = false) acc →
    1 <= var →
    Forall (λ v, 1 <= v < bound ∧ IS_VARIABLE_ASSIGNED s v = false)
      (collect_unassigned count var s acc).
Proof.
  induction count as [|count IH]; intros var acc bound Hb Hacc Hvar; simpl;
    [done|].
  destruct (IS_VARIABLE_ASSIGNED s var) eqn:Has; simpl.
  - apply IH; [lia|done|lia].
  - apply IH; [lia| |lia]. apply Forall_app. split; [done|].
    apply Forall_singleton. split; [lia|done].
Qed.

Lemma choose_decision_variable_free (s s' : dpll_solver_t) (var : variable_t) :
  choose_decision_variable s = (var, s') →
  formula s' = formula s
  ∧ assignments s' = assignments s
  ∧ (var = 0
     ∨ (1 <= var <= num_variables (formula s)
        ∧ read_assignment (assignment (formula s)) var = VAR_UNASSIGNED)).
Proof.
  assert (Hfree : ∀ v, IS_VARIABLE_ASSIGNED s v = false →
                       read_assignment (assignment (formula s)) v
                       = VAR_UNASSIGNED).
  { intros v Hv. unfold IS_VARIABLE_ASSIGNED in Hv.
    by apply negb_false_iff, bool_decide_eq_true in Hv. }
  unfold choose_decision_variable.
  destruct (decision_strategy (config s)).
  - intros [= <- <-]. split_and!; [done|done|].
    unfold decision_first_unassigned.
    destruct (first_unassigned_loop_free s
                (Z.to_nat (num_variables (formula s))) 1)
      as [?|(? & ? & ?)]; [by left|right].
    split; [lia|by apply Hfree].
  - intros [= <- <-]. split_and!; [done|done|].
    destruct (decision_most_frequent_spec s)
      as [[? _]|(? & ? & _)]; [by left|right].
    split; [done|by apply Hfree].
  - intros [= <- <-]. split_and!; [done|done|].
    unfold decision_jeroslow_wang.
    destruct (jeroslow_wang_var_loop_free s
                (Z.to_nat (num_variables (formula s))) 1 0 double_minus_one)
      as [?|(? & ? & ?)]; [by left|right].
    split; [lia|by apply Hfree].
  - unfold decision_random.
    set (vars := collect_unassigned _ _ _ _).
    assert (Hvars : Forall (λ v, 1 <= v < 1 + Z.of_nat (Z.to_nat
                                                (num_variables (formula s)))
                                 ∧ IS_VARIABLE_ASSIGNED s v = false) vars).
    { apply collect_unassigned_free; [lia|by constructor|lia]. }
    destruct (Z.of_nat (length vars) =? 0).
    { intros [= <- <-]. split_and!; [done|done|by left]. }
    destruct (random_int _ _ _) as [random_index state].
    intros [= <- <-]. split_and!; [done|done|].
    destruct (vars !! Z.to_nat random_index) as [v|] eqn:Hlk.
    + right. simpl.
      rewrite list.Forall_forall in Hvars.
      destruct (Hvars v) as [? ?]; [by eapply list_elem_of_lookup_2|].
      split; [lia|by apply Hfree].
    + by left.
Qed.

(** ** Restarts keep the stack invariants *)

Lemma backtrack_to_level_loop_prefix (fuel : nat) (level : Z) :
  ∀ st : assignment_stack_t,
    ∃ k, stack (backtrack_to_level_loop fuel st level) = take k (stack st).
Proof.
  induction fuel as [|fuel IH]; intros st; simpl.
  { exists (length (stack st)). by rewrite take_ge. }
  unfold assignment_stack_pop.
  destruct (stack_top st) as [top|];
    [|exists (length (stack st)); by rewrite take_ge].
  destruct (level <? entry_decision_level top);
    [|exists (length (stack st)); by rewrite take_ge].
  destruct (IH (mk_stack (take (stack_size st - 1) (stack st))
                  (if is_decision top && (0 <? decision_level st)
                   then size_decr (decision_level st)
                   else decision_level st))) as [k Hk].
  rewrite Hk. simpl. rewrite take_take. by eexists.
Qed.

Lemma read_reapply_entries_notin (es : list assignment_entry_t) :
  ∀ (a : list var_assignment_t) (w : variable_t),
    Forall (λ e, Z.to_nat (variable e) ≠ Z.to_nat w) es →
    read_assignment (reapply_entries es a) w = read_assignment a w.
Proof.
  induction es as [|e es IH]; intros a w Hall; simpl; [done|].
  apply list.Forall_cons in Hall as [Hne Hall].
  rewrite IH by done. by apply read_assignment_insert_ne.
Qed.

Lemma read_reapply_entries_in (es : list assignment_entry_t) :
  ∀ (a : list var_assignment_t) (e : assignment_entry_t),
    NoDup (variable <$> es) →
    Forall (λ e, 1 <= variable e ∧ (Z.to_nat (variable e) < length a)%nat) es →
    e ∈ es →
    read_assignment (reapply_entries es a) (variable e) = value e.
Proof.
  induction es as [|e0 es IH]; intros a e Hnd Hrange He; simpl;
    [by apply elem_of_nil in He|].
  rewrite fmap_cons in Hnd. apply list.NoDup_cons in Hnd as [Hfresh Hnd].
  apply list.Forall_cons in Hrange as [[H0 Hlt0] Hrange].
  apply elem_of_cons in He as [->|He].
  - rewrite read_reapply_entries_notin; [by apply read_assignment_insert_eq|].
    apply list.Forall_forall. intros e' He'.
    rewrite list.Forall_forall in Hrange. destruct (Hrange e' He') as [? _].
    assert (variable e' ≠ variable e0); [|lia].
    intros Heq. apply Hfresh. rewrite <- Heq. by apply list_elem_of_fmap_2.
  - apply IH; [done| |done].
    apply list.Forall_forall. intros e' He'.
    rewrite list.Forall_forall in Hrange. destruct (Hrange e' He') as [? ?].
    split; [done|]. by rewrite length_insert.
Qed.

Lemma perform_restart_invariant (s : dpll_solver_t) :
  search_invariant s → search_invariant (perform_restart s).
Proof.
  intros ((Hal & Hrange & Hnd & Hag) & Hval).
  apply (search_invariant_ext (unassign_until_level s 0)); [done|done|].
  unfold unassign_until_level, assignment_stack_backtrack_to_level.
  destruct (backtrack_to_level_loop_prefix (stack_size (assignments s)) 0
              (assignments s)) as [k Hk].
  unfold search_invariant, stack_invariant, stack_variables_in_range,
    stack_agrees, cnf_allocated in *. simpl. rewrite Hk.
  set (cleared := clear_assignment_loop _ _ _).
  assert (Hlen : length cleared = length (assignment (formula s)))
    by apply length_clear_assignment_loop.
  split_and!.
  - by rewrite length_reapply_entries, Hlen.
  - by apply Forall_take.
  - rewrite fmap_take. eapply sublist_NoDup; [exact Hnd|apply sublist_take].
  - apply list.Forall_forall. intros e He.
    apply read_reapply_entries_in; [| |done].
    + rewrite fmap_take. eapply sublist_NoDup; [exact Hnd|apply sublist_take].
    + apply Forall_take. eapply list.Forall_impl; [exact Hrange|].
      intros e' He'. simpl in He'. split; [lia|]. rewrite Hlen. lia.
  - by apply Forall_take.
Qed.

(** ** Every state of the search satisfies the stack invariants *)

Lemma backtrack_or_unsat_invariant (s : dpll_solver_t) :
  search_invariant s → search_invariant (snd (backtrack_or_unsat s)).
Proof.
  intros Hinv. pose proof (backtrack_invariant s Hinv) as Hinv'.
  unfold backtrack_or_unsat. by destruct (backtrack s) as [[|] s'].
Qed.

Lemma dpll_decide_invariant (s : dpll_solver_t) (progress_made : bool) :
  search_invariant s → search_invariant (snd (dpll_decide s progress_made)).
Proof.
  intros Hinv. unfold dpll_decide.
  destruct (choose_decision_variable s) as [decision_var s0] eqn:Hchoose.
  destruct (choose_decision_variable_free _ _ _ Hchoose) as (Hf & Hst & Hvar).
  assert (Hinv0 : search_invariant s0) by (by apply (search_invariant_ext s)).
  destruct (Z.eqb_spec decision_var 0) as [|Hnz]; [done|].
  destruct Hvar as [|[Hrange Hfree]]; [done|].
  unfold choose_decision_value.
  destruct (Z.eqb_spec decision_var 0) as [|_]; [done|].
  destruct (assign_variable s0 decision_var VAR_TRUE true) as [[|] s1] eqn:Has.
  - assert (Hinv1 : search_invariant (incr_decisions s1)).
    { apply (search_invariant_ext s1); [done|done|].
      apply (assign_fresh_invariant s0 s1 decision_var VAR_TRUE true);
        [done|lia|by rewrite Hf|done|done]. }
    destruct (_ && _); [done|].
    destruct (_ && _); simpl; [|done].
    apply (search_invariant_ext (perform_restart (incr_decisions s1)));
      [done|done|].
    by apply perform_restart_invariant.
  - by apply assign_variable_false in Has as ->.
Qed.

Lemma dpll_pure_stage_invariant (s : dpll_solver_t) (progress_made : bool) :
  search_invariant s → search_invariant (snd (dpll_pure_stage s progress_made)).
Proof.
  intros Hinv. unfold dpll_pure_stage.
  destruct (enable_pure_literal (config s)); [|by apply dpll_decide_invariant].
  pose proof (pure_literal_elimination_invariant s Hinv) as Hinv1.
  destruct (pure_literal_elimination s) as [eliminated s1]. simpl in Hinv1.
  destruct (has_conflict s1);
    [by apply backtrack_or_unsat_invariant|by apply dpll_decide_invariant].
Qed.

Lemma dpll_iteration_invariant (s : dpll_solver_t) r s' :
  search_invariant s → dpll_iteration s = Some (r, s') → search_invariant s'.
Proof.
  intros Hinv. unfold dpll_iteration.
  destruct (is_formula_satisfied s); [by intros [= _ <-]|].
  destruct (has_conflict s).
  { pose proof (backtrack_or_unsat_invariant s Hinv) as Hinv'.
    destruct (backtrack_or_unsat s). by intros [= _ <-]. }
  destruct (enable_unit_propagation (config s)).
  - destruct (unit_propagation s) as [[r1 s1]|] eqn:Hup; [|done]. simpl.
    pose proof (unit_propagation_invariant _ _ _ Hinv Hup) as Hinv1.
    destruct (has_conflict s1).
    + pose proof (backtrack_or_unsat_invariant s1 Hinv1) as Hinv'.
      destruct (backtrack_or_unsat s1). by intros [= _ <-].
    + set (p := (_ || _)).
      pose proof (dpll_pure_stage_invariant s1 p Hinv1) as Hinv'.
      destruct (dpll_pure_stage s1 p). by intros [= _ <-].
  - pose proof (dpll_pure_stage_invariant s false Hinv) as Hinv'.
    destruct (dpll_pure_stage s false). by intros [= _ <-].
Qed.

Lemma dpll_loop_invariant (remaining : nat) :
  ∀ (iterations : nat) (clock : nat → Q) (s : dpll_solver_t) r s',
    search_invariant s →
    dpll_loop remaining iterations clock s = Some (r, s') →
    search_invariant s'.
Proof.
  induction remaining as [|n IH]; intros iterations clock s r s' Hinv; simpl.
  { by intros [= _ <-]. }
  destruct (solver_is_timeout s (clock (S iterations))); [by intros [= _ <-]|].
  destruct (dpll_iteration s) as [[r0 s1]|] eqn:Hit; [|done]. simpl.
  pose proof (dpll_iteration_invariant _ _ _ Hinv Hit) as Hinv1.
  destruct r0; [by intros [= _ <-]|]. by apply IH.
Qed.

Lemma preprocess_loop_invariant (fuel : nat) :
  ∀ (s : dpll_solver_t) ok s',
    search_invariant s → preprocess_loop fuel s = Some (ok, s') →
    search_invariant s'.
Proof.
  induction fuel as [|fuel IH]; intros s ok s' Hinv; simpl; [done|].
  pose proof (pure_literal_elimination_invariant s Hinv) as Hinv1.
  destruct (pure_literal_elimination s) as [eliminated s1]. simpl in Hinv1.
  destruct (unit_propagation s1) as [[r2 s2]|] eqn:Hup; [|done]. simpl.
  pose proof (unit_propagation_invariant _ _ _ Hinv1 Hup) as Hinv2.
  destruct (has_conflict s2); [by intros [= _ <-]|].
  destruct (_ || _); [by apply IH|by intros [= _ <-]].
Qed.

(** From a solver created on an allocated formula, [solver_solve] ends in a
    state where the stack entries name distinct variables of
    [1 .. num_variables], carry definite values, and agree with the assignment
    array ([dpll_loop_invariant] gives the same at every iteration of the
    driver). *)
Theorem solver_solve_invariant (clock : nat → Q) (f : cnf_formula_t)
    (c : solver_config_t) (seed : Z) (r : solver_result_t) (s' : dpll_solver_t) :
  cnf_allocated f →
  solver_solve clock (solver_create_with_config f c seed) = Some (r, s') →
  search_invariant s'.
Proof.
  intros Hal. pose proof (search_invariant_create f c seed Hal) as Hinv.
  revert Hinv. generalize (solver_create_with_config f c seed). intros s Hinv.
  assert (Hsearch : ∀ s0 : dpll_solver_t,
            search_invariant s0 →
            dpll_algorithm clock (set_config s0 (install_limits (config s0)))
            = Some (r, s') →
            search_invariant s').
  { intros s0 Hinv0. apply dpll_loop_invariant.
    by apply (search_invariant_ext s0). }
  unfold solver_solve.
  destruct (enable_preprocessing (config s)); [|by apply Hsearch].
  unfold preprocess_formula.
  destruct (preprocess_loop (pass_budget s) s) as [[ok s1]|] eqn:Hpre; [|done].
  simpl. pose proof (preprocess_loop_invariant _ _ _ _ Hinv Hpre) as Hinv1.
  destruct (negb ok); [by intros [= _ <-]|].
  destruct (length (clauses (formula s1)) =? 0)%nat; [by intros [= _ <-]|].
  destruct (has_conflict s1); [by intros [= _ <-]|]. by apply Hsearch.
Qed.

(** ** C9: the errors of a clause line *)

(** The claim as first stated fails: the only token of the line [4] is not the
    terminator, yet with three variables the result is the variable-out-of-range
    error, not the clause-not-terminated one. *)
Lemma parse_clause_line_claim_counterexample :
  ¬ ((∀ (line : string) (n : Z),
        Forall (λ t, parse_int t ≠ Some 0) (strtok_tokens line) →
        fst (parse_clause_line line [] n) = PARSE_ERROR_CLAUSE_NOT_TERMINATED)
     ∧ (∀ (line : string) (n : Z) (pre post : list string) (t : string),
          strtok_tokens line = pre ++ t :: post →
          Forall (λ t, parse_int t ≠ Some 0) pre →
          token_out_of_range n t = true →
          fst (parse_clause_line line [] n) = PARSE_ERROR_VARIABLE_OUT_OF_RANGE)).
Proof.
  intros [H _]. specialize (H "4"%string 3).
  assert (Htokens : strtok_tokens "4" = ["4"%string]) by reflexivity.
  assert (Hresult : fst (parse_clause_line "4" [] 3)
                    = PARSE_ERROR_VARIABLE_OUT_OF_RANGE) by (by vm_compute).
  rewrite Htokens, Hresult in H.
  assert (Hno : Forall (λ t, parse_int t ≠ Some 0) ["4"%string]).
  { apply Forall_singleton. by vm_compute. }
  by specialize (H Hno).
Qed.

(** ** Where the invariants of the formula come from *)

Lemma cnf_create_invariants (n : variable_t) (cnf : cnf_formula_t) :
  cnf_create n = Some cnf →
  num_variables cnf = n ∧ cnf_allocated cnf ∧ literals_in_range cnf.
Proof.
  unfold cnf_create. destruct (n <=? 0); [done|]. intros [= <-].
  split_and!; [done| |by constructor].
  unfold cnf_allocated. simpl. by rewrite length_replicate.
Qed.

Lemma is_valid_literal_range (lit n : Z) :
  is_valid_literal lit n = true → 1 <= literal_variable lit <= n.
Proof.
  unfold is_valid_literal, is_valid_variable, literal_variable.
  destruct (lit =? 0); [done|].
  destruct (0 <? lit); intros [H1 H2]%andb_true_iff; lia.
Qed.

(** A clause line that parses holds literals of [1 .. max_variables] only. *)
Lemma parse_clause_tokens_in_range (n : Z) (tokens : list string) :
  ∀ clause clause' : clause_t,
    Forall (λ lit, 1 <= literal_variable lit <= n) clause →
    parse_clause_tokens tokens clause n = (PARSE_OK, clause') →
    Forall (λ lit, 1 <= literal_variable lit <= n) clause'.
Proof.
  induction tokens as [|token rest IH]; intros clause clause' Hin; simpl; [done|].
  destruct (parse_int token) as [literal|]; [|done].
  destruct (literal =? 0) eqn:Hz; [by intros [= <-]|].
  destruct (is_valid_literal literal n) eqn:Hvalid; [|done]. simpl.
  unfold clause_add_literal. rewrite Hz.
  destruct (clause_has_literal clause literal); [by apply IH|].
  apply IH. apply Forall_app. split; [done|].
  apply Forall_singleton. by apply is_valid_literal_range.
Qed.

(** Every clause line keeps the invariant of the parser, whether the line is
    accepted, dropped or refused. *)
Lemma parse_stream_clause_line_invariant (p p' : cnf_parser_t)
    (found : bool) (line : string) (r : option parse_result_t) :
  parser_invariant p →
  parse_stream_clause_line p found line = (r, p') →
  parser_invariant p'.
Proof.
  unfold parse_stream_clause_line. intros Hinv.
  destruct (negb found); [by intros [= _ <-]|].
  destruct (parse_clause_line line [] (max_variables (info p)))
    as [result clause] eqn:Hparse.
  destruct (bool_decide (result = PARSE_OK)) eqn:Hok; simpl;
    [|by intros [= _ <-]].
  apply bool_decide_eq_true in Hok. subst result.
  destruct (length clause =? 0)%nat.
  { by destruct (strict_mode p); intros [= _ <-]. }
  destruct (clause_is_tautology clause); [by intros [= _ <-]|].
  unfold parser_invariant in *.
  destruct (parser_formula p) as [cnf|]; [|done].
  destruct Hinv as (Hn & Hal & Hrange). simpl. intros [= _ <-]. simpl.
  split_and!; [done|done|].
  unfold literals_in_range in *. simpl. apply Forall_app. split; [done|].
  apply Forall_singleton. rewrite Hn.
  by apply (parse_clause_tokens_in_range _ _ [] clause (Forall_nil _) Hparse).
Qed.

(** * Further properties of the data structures ([structures.c]) *)

(** ** Building a clause *)

Lemma clause_has_literal_elem (clause : clause_t) (literal : literal_t) :
  clause_has_literal clause literal = true ↔ literal ∈ clause.
Proof.
  induction clause as [|l rest IH]; simpl.
  - split; [done|]. by intros ?%elem_of_nil.
  - destruct (Z.eqb_spec l literal) as [->|Hne].
    + split; [|done]. intros _. by left.
    + rewrite IH. split; [by right|].
      by intros [?|?]%elem_of_cons.
Qed.

(** X1.  [clause_add_literal] refuses the literal [0] and leaves the clause
    alone; any other literal is accepted, is a member of the clause
    afterwards, and is stored at the end only if it was not there yet, so a
    clause without repeated literals stays without repeated literals and
    adding the same literal twice is the same as adding it once. *)
Theorem clause_add_literal_spec (clause : clause_t) (literal : literal_t) :
  (literal = 0 → clause_add_literal clause literal = (false, clause))
  ∧ (literal ≠ 0 →
     ∃ clause',
       clause_add_literal clause literal = (true, clause')
       ∧ literal ∈ clause'
       ∧ (literal ∈ clause → clause' = clause)
       ∧ (literal ∉ clause → clause' = clause ++ [literal])
       ∧ (NoDup clause → NoDup clause')
       ∧ clause_add_literal clause' literal = (true, clause')).
Proof.
  unfold clause_add_literal. split.
  - intros ->. done.
  - intros Hnz. destruct (Z.eqb_spec literal 0) as [|_]; [done|].
    destruct (clause_has_literal clause literal) eqn:Hhas.
    + apply clause_has_literal_elem in Hhas as Hin.
      exists clause. rewrite Hhas. by split_and!.
    + assert (Hnin : literal ∉ clause).
      { intros Hin%clause_has_literal_elem. congruence. }
      assert (Hin' : literal ∈ clause ++ [literal]).
      { apply elem_of_app. right. by apply list_elem_of_singleton. }
      exists (clause ++ [literal]). split_and!; try done.
      * intros Hnd. apply list.NoDup_app. split_and!; [done| |apply NoDup_singleton].
        intros x Hx ->%list_elem_of_singleton. done.
      * apply clause_has_literal_elem in Hin'. by rewrite Hin'.
Qed.

Lemma clause_add_literal_spec_witness :
  (0 = 0 → clause_add_literal [3; -1] 0 = (false, [3; -1]))
  ∧ ((-1) ≠ 0 →
     ∃ clause',
       clause_add_literal [3; -1] (-1) = (true, clause')
       ∧ (-1) ∈ clause'
       ∧ ((-1) ∈ [3; -1] → clause' = [3; -1])
       ∧ ((-1) ∉ [3; -1] → clause' = [3; -1] ++ [-1])
       ∧ (NoDup [3; -1] → NoDup clause')
       ∧ clause_add_literal clause' (-1) = (true, clause')).
Proof.
  split.
  - apply (clause_add_literal_spec [3; -1] 0).
  - apply (clause_add_literal_spec [3; -1] (-1)).
Defined.

(** ** Tautologies *)

Lemma tautology_with_spec (li : literal_t) (later : list literal_t) :
  tautology_with (literal_variable li) (literal_is_positive li) later = true ↔
  ∃ lj, lj ∈ later ∧ lj = - li ∧ li ≠ 0.
Proof.
  induction later as [|l rest IH]; simpl.
  - split; [done|]. intros (lj & Hin & _). by apply elem_of_nil in Hin.
  - destruct (_ && _) eqn:Htest.
    + split; [|done]. intros _. exists l. split; [by left|].
      apply andb_true_iff in Htest as [Hv Hp].
      apply Z.eqb_eq in Hv. apply negb_true_iff, eqb_false_iff in Hp.
      unfold literal_variable, literal_is_positive in *.
      destruct (Z.ltb_spec 0 li), (Z.ltb_spec 0 l); try done; lia.
    + rewrite IH. split.
      * intros (lj & Hin & H). exists lj. split; [by right|done].
      * intros (lj & [->|Hin]%elem_of_cons & -> & Hnz); [|by exists (- li)].
        exfalso. apply andb_false_iff in Htest as [Hv|Hp].
        -- apply Z.eqb_neq in Hv. unfold literal_variable in Hv.
           destruct (Z.ltb_spec 0 li), (Z.ltb_spec 0 (- li)); lia.
        -- apply negb_false_iff, eqb_prop in Hp.
           unfold literal_is_positive in Hp.
           destruct (Z.ltb_spec 0 li), (Z.ltb_spec 0 (- li)); try done; lia.
Qed.

(** X2.  [clause_is_tautology] answers true exactly for the clauses that hold
    a literal together with its negation. *)
Theorem clause_is_tautology_spec (clause : clause_t) :
  clause_is_tautology clause = true ↔
  ∃ lit, 0 < lit ∧ lit ∈ clause ∧ - lit ∈ clause.
Proof.
  induction clause as [|li rest IH]; simpl.
  - split; [done|]. intros (lit & _ & Hin & _). by apply elem_of_nil in Hin.
  - destruct (tautology_with _ _ rest) eqn:Hwith.
    + split; [|done]. intros _.
      apply tautology_with_spec in Hwith as (lj & Hin & -> & Hnz).
      destruct (Z.ltb_spec 0 li).
      * exists li. split_and!; [done|by left|by right].
      * exists (- li). split_and!; [lia|by right|].
        rewrite Z.opp_involutive. by left.
    + rewrite IH. split.
      * intros (lit & Hpos & H1 & H2). exists lit.
        split_and!; [done|by right|by right].
      * intros (lit & Hpos & H1 & H2).
        assert (Hnot : ∀ lj, lj ∈ rest → lj = - li → li ≠ 0 → False).
        { intros lj Hj Heq Hnz.
          assert (tautology_with (literal_variable li)
                    (literal_is_positive li) rest = true); [|congruence].
          apply tautology_with_spec. by exists lj. }
        apply elem_of_cons in H1 as [->|H1], H2 as [Heq|H2].
        -- lia.
        -- exfalso. apply (Hnot (- li)); [done|done|lia].
        -- exfalso. apply (Hnot lit); [done|lia|lia].
        -- by exists lit.
Qed.

(** ** Adding a clause to the formula *)

Lemma mark_variables_used_spec (lits : list literal_t) (n : variable_t) :
  ∀ used : list bool,
    length (mark_variables_used lits n used) = length used
    ∧ (∀ lit, lit ∈ lits → literal_variable lit <= n →
              (Z.to_nat (literal_variable lit) < length used)%nat →
              mark_variables_used lits n used
                !! Z.to_nat (literal_variable lit) = Some true)
    ∧ (∀ i : nat,
         (∀ lit, lit ∈ lits → literal_variable lit <= n →
                 Z.to_nat (literal_variable lit) ≠ i) →
         mark_variables_used lits n used !! i = used !! i)
    ∧ (∀ i : nat, used !! i = Some true →
                  mark_variables_used lits n used !! i = Some true).
Proof.
  induction lits as [|l rest IH]; intros used; simpl.
  { split_and!; try done. intros lit Hin. by apply elem_of_nil in Hin. }
  set (used1 := if literal_variable l <=? n
                then <[Z.to_nat (literal_variable l) := true]> used else used).
  assert (Hlen1 : length used1 = length used).
  { unfold used1. destruct (_ <=? _); [by rewrite length_insert|done]. }
  assert (Hkeep1 : ∀ i, used !! i = Some true → used1 !! i = Some true).
  { intros i Hi. unfold used1. destruct (_ <=? _); [|done].
    destruct (decide (Z.to_nat (literal_variable l) = i)) as [<-|Hne].
    - rewrite list_lookup_insert_eq; [done|]. by eapply lookup_lt_Some.
    - by rewrite list_lookup_insert_ne. }
  destruct (IH used1) as (Hlen & Hmark & Hother & Hkeep).
  split_and!.
  - by rewrite Hlen.
  - intros lit [->|Hin]%elem_of_cons Hle Hlt.
    + apply Hkeep. unfold used1.
      destruct (Z.leb_spec (literal_variable l) n); [|lia].
      by rewrite list_lookup_insert_eq.
    + apply Hmark; [done|done|by rewrite Hlen1].
  - intros i Hi. rewrite Hother.
    + unfold used1. destruct (Z.leb_spec (literal_variable l) n); [|done].
      rewrite list_lookup_insert_ne; [done|]. apply Hi; [by left|done].
    + intros lit Hin. apply Hi. by right.
  - intros i Hi. by apply Hkeep, Hkeep1.
Qed.

(** X3.  [cnf_add_clause] always succeeds and appends the clause as it is,
    whatever its literals; the number of variables and the assignment are
    left alone, and in [variable_used] exactly the cells of the variables of
    the clause that do not exceed [num_variables] are raised, the others
    keeping their value. *)
Theorem cnf_add_clause_spec (cnf : cnf_formula_t) (clause : clause_t) :
  ∃ cnf',
    cnf_add_clause cnf clause = (true, cnf')
    ∧ clauses cnf' = clauses cnf ++ [clause]
    ∧ num_variables cnf' = num_variables cnf
    ∧ assignment cnf' = assignment cnf
    ∧ length (variable_used cnf') = length (variable_used cnf)
    ∧ (∀ lit, lit ∈ clause → literal_variable lit <= num_variables cnf →
              (Z.to_nat (literal_variable lit) < length (variable_used cnf))%nat →
              variable_used cnf' !! Z.to_nat (literal_variable lit) = Some true)
    ∧ (∀ i : nat,
         (∀ lit, lit ∈ clause → literal_variable lit <= num_variables cnf →
                 Z.to_nat (literal_variable lit) ≠ i) →
         variable_used cnf' !! i = variable_used cnf !! i)
    ∧ (∀ i : nat, variable_used cnf !! i = Some true →
                  variable_used cnf' !! i = Some true).
Proof.
  eexists. split; [reflexivity|]. simpl.
  destruct (mark_variables_used_spec clause (num_variables cnf)
              (variable_used cnf)) as (Hlen & Hmark & Hother & Hkeep).
  by split_and!.
Qed.

Lemma cnf_add_clause_spec_witness :
  ∃ cnf',
    cnf_add_clause (formula satisfiable_example) [-3; 7] = (true, cnf')
    ∧ clauses cnf' = clauses (formula satisfiable_example) ++ [[-3; 7]]
    ∧ num_variables cnf' = 3
    ∧ assignment cnf' = assignment (formula satisfiable_example)
    ∧ variable_used cnf' = [false; true; true; true].
Proof.
  destruct (cnf_add_clause_spec (formula satisfiable_example) [-3; 7])
    as (cnf' & Hadd & Hcl & Hn & Ha & _).
  exists cnf'. split_and!; [done|done|done|done|].
  injection Hadd as <-. reflexivity.
Defined.

(** ** The assignment stack *)

(** X4.  A pop undoes a push: it hands back the entry just pushed and the
    stack as it was before.  For a decision entry this needs the level to be
    below the largest [size_t] value; at that value the increment wraps to
    [0] and the pop no longer lowers the level.  Popping the empty stack
    fails. *)
Theorem assignment_stack_push_pop (st : assignment_stack_t) (var : variable_t)
    (v : var_assignment_t) (d : bool) :
  0 <= decision_level st < SIZE_MODULUS - 1 →
  assignment_stack_pop assignment_stack_create = None
  ∧ assignment_stack_pop (assignment_stack_push st var v d)
    = Some (mk_entry var v
              (if d then decision_level st + 1 else decision_level st) d,
            st).
Proof.
  intros Hlevel. split; [done|].
  unfold assignment_stack_pop, assignment_stack_push, stack_top, stack_size.
  destruct st as [entries level]. simpl in *.
  rewrite length_app. simpl.
  replace (length entries + 1 - 1)%nat with (length entries) by lia.
  rewrite lookup_app_r by lia. rewrite Nat.sub_diag. simpl.
  rewrite take_app_length.
  unfold size_incr, size_decr, SIZE_MODULUS in *.
  destruct d; simpl; [|done].
  rewrite (Z.mod_small (level + 1)) by lia.
  destruct (Z.ltb_spec 0 (level + 1)); [|lia].
  do 3 f_equal. rewrite Z.mod_small; lia.
Qed.

Lemma assignment_stack_push_pop_witness :
  0 <= decision_level (assignments conflict_example) < SIZE_MODULUS - 1
  ∧ assignment_stack_pop
      (assignment_stack_push (assignments conflict_example) 3 VAR_FALSE true)
    = Some (mk_entry 3 VAR_FALSE 2 true, assignments conflict_example).
Proof.
  split; [by vm_compute|].
  apply (assignment_stack_push_pop (assignments conflict_example) 3 VAR_FALSE
           true).
  by vm_compute.
Defined.

Lemma backtrack_to_level_loop_spec (fuel : nat) (level : Z) :
  ∀ st : assignment_stack_t,
    (stack_size st ≤ fuel)%nat →
    ∃ k : nat,
      (k ≤ stack_size st)%nat
      ∧ stack (backtrack_to_level_loop fuel st level) = take k (stack st)
      ∧ Forall (λ e, level < entry_decision_level e) (drop k (stack st))
      ∧ (∀ e, take k (stack st) !! (k - 1)%nat = Some e →
              entry_decision_level e <= level).
Proof.
  induction fuel as [|fuel IH]; intros st Hfuel.
  { exists 0%nat. simpl. unfold stack_size in Hfuel.
    assert (stack st = []) as -> by (apply nil_length_inv; lia).
    split_and!; [lia|done|done|done]. }
  simpl. unfold assignment_stack_pop.
  destruct (stack_top st) as [top|] eqn:Htop.
  2:{ unfold stack_top, stack_size in Htop.
      assert (stack st = []) as Hnil.
      { destruct (stack st) as [|e es] eqn:Hst; [done|].
        apply lookup_ge_None in Htop. simpl in Htop. lia. }
      exists 0%nat. rewrite Hnil. by split_and!; [lia|..]. }
  unfold stack_top, stack_size in *.
  destruct (Z.ltb_spec level (entry_decision_level top)) as [Hgt|Hle].
  - assert (Hlen : length (stack st) ≠ 0%nat).
    { intros H0. apply nil_length_inv in H0. by rewrite H0 in Htop. }
    assert (Hsplit : stack st = take (length (stack st) - 1) (stack st) ++ [top]).
    { rewrite <- (take_drop (length (stack st) - 1) (stack st)) at 1.
      f_equal. apply list_eq. intros i. rewrite lookup_drop.
      destruct i as [|i]; simpl.
      - by rewrite Nat.add_0_r.
      - rewrite lookup_ge_None_2; [done|lia]. }
    set (below := take (length (stack st) - 1) (stack st)) in *.
    assert (Hlb : length below = (length (stack st) - 1)%nat).
    { unfold below. rewrite length_take. lia. }
    set (st1 := mk_stack below _).
    destruct (IH st1) as (k & Hk & Hstack & Hdrop & Hlast).
    { unfold stack_size, st1. simpl. lia. }
    unfold stack_size in Hk. simpl in Hk, Hstack, Hdrop, Hlast.
    exists k. split_and!.
    + lia.
    + rewrite Hstack, Hsplit. by rewrite take_app_le.
    + rewrite Hsplit, drop_app_le by lia.
      apply Forall_app. split; [done|]. by apply Forall_singleton.
    + intros e He. apply Hlast. rewrite Hsplit in He.
      by rewrite take_app_le in He.
  - exists (length (stack st)). rewrite take_ge, drop_ge by lia.
    split_and!; [lia|done|done|]. intros e He.
    rewrite Htop in He. by injection He as <-.
Qed.

(** X5.  [assignment_stack_backtrack_to_level] keeps the longest bottom part
    of the stack whose last entry has a level not above the target: the
    entries it removes all lie above the target level, the entry left on top
    does not.  The level of the stack becomes the target, also when the target
    is above every entry. *)
Theorem assignment_stack_backtrack_to_level_spec (st : assignment_stack_t)
    (level : Z) :
  let st' := assignment_stack_backtrack_to_level st level in
  decision_level st' = level
  ∧ ∃ k : nat,
      stack st' = take k (stack st)
      ∧ Forall (λ e, level < entry_decision_level e) (drop k (stack st))
      ∧ (∀ e, stack_top st' = Some e → entry_decision_level e <= level).
Proof.
  simpl. split; [done|].
  destruct (backtrack_to_level_loop_spec (stack_size st) level st (le_n _))
    as (k & Hk & Hstack & Hdrop & Hlast).
  exists k. unfold assignment_stack_backtrack_to_level, stack_top.
  unfold stack_size in *. simpl. rewrite Hstack. split_and!; [done|done|].
  intros e He. apply Hlast. rewrite length_take in He.
  by replace (k `min` length (stack st))%nat with k in He by lia.
Qed.

(** ** Satisfied formulas and conflicts *)

Lemma all_clauses_satisfied_true (cls : list clause_t)
    (a : list var_assignment_t) :
  all_clauses_satisfied cls a = true ↔
  ∀ c, c ∈ cls → clause_is_satisfied c a = true.
Proof.
  induction cls as [|c rest IH]; simpl.
  - split; [|done]. intros _ c Hc. by apply elem_of_nil in Hc.
  - destruct (clause_is_satisfied c a) eqn:Hc; simpl.
    + rewrite IH. split.
      * intros H c' [->|Hin]%elem_of_cons; auto.
      * intros H c' Hin. apply H. by right.
    + split; [done|]. intros H. rewrite <- Hc. apply H. by left.
Qed.

(** When every literal of a clause is on an assigned variable, the clause is
    satisfied or conflicting. *)
Lemma assigned_clause_decided (clause : clause_t) (a : list var_assignment_t) :
  Forall (λ lit, read_assignment a (literal_variable lit) ≠ VAR_UNASSIGNED)
    clause →
  clause_is_satisfied clause a = negb (clause_is_conflicting clause a).
Proof.
  induction clause as [|lit rest IH]; intros Hall; simpl; [done|].
  apply list.Forall_cons in Hall as [Hlit Hall].
  rewrite bool_decide_eq_false_2 by done. simpl.
  destruct (literal_holds _ _); [done|]. by apply IH.
Qed.

Lemma all_assigned_decided (cls : list clause_t) (a : list var_assignment_t) :
  Forall (Forall (λ lit, read_assignment a (literal_variable lit)
                         ≠ VAR_UNASSIGNED)) cls →
  all_clauses_satisfied cls a = negb (some_clause_conflicting cls a).
Proof.
  induction cls as [|c rest IH]; intros Hall; simpl; [done|].
  apply list.Forall_cons in Hall as [Hc Hall].
  rewrite (assigned_clause_decided c _ Hc).
  destruct (clause_is_conflicting c a); simpl; [done|]. by apply IH.
Qed.

(** X6.  A satisfied formula has no conflicting clause; and once every
    variable that occurs in the clauses is assigned, the formula is satisfied
    exactly when it has no conflicting clause. *)
Theorem cnf_satisfied_or_conflict (cnf : cnf_formula_t) :
  (cnf_is_satisfied cnf = true → cnf_has_conflict cnf = false)
  ∧ (Forall (Forall (λ lit, read_assignment (assignment cnf)
                              (literal_variable lit) ≠ VAR_UNASSIGNED))
       (clauses cnf) →
     cnf_is_satisfied cnf = negb (cnf_has_conflict cnf)).
Proof.
  unfold cnf_is_satisfied, cnf_has_conflict. split.
  - rewrite all_clauses_satisfied_true, some_clause_conflicting_false.
    intros H c Hc. by apply satisfied_not_conflicting, H.
  - apply all_assigned_decided.
Qed.

Lemma cnf_satisfied_or_conflict_witness :
  cnf_is_satisfied (formula conflict_example)
  = negb (cnf_has_conflict (formula conflict_example)).
Proof.
  apply (cnf_satisfied_or_conflict (formula conflict_example)).
  apply (bool_decide_unpack _). vm_compute. exact I.
Defined.

(** * Further properties of the branching heuristics ([solver.c]) *)

Lemma unassigned_read (s : dpll_solver_t) (v : variable_t) :
  IS_VARIABLE_ASSIGNED s v = false ↔
  read_assignment (assignment (formula s)) v = VAR_UNASSIGNED.
Proof.
  unfold IS_VARIABLE_ASSIGNED.
  rewrite negb_false_iff. apply bool_decide_eq_true.
Qed.

(** ** First unassigned variable *)

Lemma first_unassigned_loop_spec (s : dpll_solver_t) (count : nat) :
  ∀ var : variable_t,
    let r := first_unassigned_loop count var s in
    (r = 0
     ∧ ∀ v, var <= v < var + Z.of_nat count → IS_VARIABLE_ASSIGNED s v = true)
    ∨ (var <= r < var + Z.of_nat count
       ∧ IS_VARIABLE_ASSIGNED s r = false
       ∧ ∀ v, var <= v < r → IS_VARIABLE_ASSIGNED s v = true).
Proof.
  induction count as [|count IH]; intros var; simpl.
  { left. split; [done|]. intros v Hv. lia. }
  destruct (IS_VARIABLE_ASSIGNED s var) eqn:Has; simpl.
  - destruct (IH (var + 1)) as [[Hr Hall]|(Hr & Hfree & Hfirst)].
    + left. split; [done|]. intros v Hv.
      destruct (decide (v = var)) as [->|?]; [done|]. apply Hall. lia.
    + right. split_and!; [lia|lia|done|]. intros v Hv.
      destruct (decide (v = var)) as [->|?]; [done|]. apply Hfirst. lia.
  - right. split_and!; [lia|lia|done|]. intros v Hv. lia.
Qed.

(** X7.  [decision_first_unassigned] returns the smallest unassigned variable
    of [1 .. num_variables]; it returns [0] exactly when all of them are
    assigned. *)
Theorem decision_first_unassigned_spec (s : dpll_solver_t) :
  let n := num_variables (formula s) in
  let r := decision_first_unassigned s in
  (r = 0 ↔ ∀ v, 1 <= v <= n → IS_VARIABLE_ASSIGNED s v = true)
  ∧ (r ≠ 0 →
     1 <= r <= n
     ∧ IS_VARIABLE_ASSIGNED s r = false
     ∧ ∀ v, 1 <= v < r → IS_VARIABLE_ASSIGNED s v = true).
Proof.
  intros n r. subst r. unfold decision_first_unassigned. fold n.
  destruct (first_unassigned_loop_spec s (Z.to_nat n) 1)
    as [[Hr Hall]|(Hr & Hfree & Hfirst)].
  - split; [|done]. split; [|done]. intros _ v Hv. apply Hall. lia.
  - split.
    + split; [lia|]. intros Hall. rewrite Hall in Hfree; [done|lia].
    + intros _. split_and!; [lia|lia|done|done].
Qed.

Lemma decision_first_unassigned_spec_witness :
  decision_first_unassigned conflict_example ≠ 0
  ∧ 1 <= decision_first_unassigned conflict_example <= 3
  ∧ IS_VARIABLE_ASSIGNED conflict_example
      (decision_first_unassigned conflict_example) = false.
Proof.
  assert (H : decision_first_unassigned conflict_example ≠ 0) by (by vm_compute).
  split; [done|].
  destruct (decision_first_unassigned_spec conflict_example) as [_ Hspec].
  destruct (Hspec H) as (Hr & Hfree & _). by split.
Defined.

(** ** Jeroslow-Wang *)

(** *** A sum of weights is never negative and never a NaN *)

Lemma shr_1_nonneg (mrs : shr_record) :
  0 <= shr_m mrs → 0 <= shr_m (shr_1 mrs).
Proof. destruct mrs as [[|[p|p|]|p] r s0]; simpl; lia. Qed.

Lemma iter_pos_shr_1_nonneg (p : positive) :
  ∀ mrs : shr_record, 0 <= shr_m mrs → 0 <= shr_m (SpecFloat.iter_pos shr_1 p mrs).
Proof.
  induction p as [p IH|p IH|]; intros mrs Hm; simpl.
  - by apply IH, IH, shr_1_nonneg.
  - by apply IH, IH.
  - by apply shr_1_nonneg.
Qed.

Lemma shr_nonneg (mrs : shr_record) (e n : Z) :
  0 <= shr_m mrs → 0 <= shr_m (fst (shr mrs e n)).
Proof.
  intros Hm. destruct n as [|p|p]; simpl; [done| |done].
  by apply iter_pos_shr_1_nonneg.
Qed.

Lemma shr_record_of_loc_nonneg (m : Z) (l : location) :
  0 <= m → 0 <= shr_m (shr_record_of_loc m l).
Proof. by destruct l as [|[]]. Qed.

Lemma round_nearest_even_nonneg (m : Z) (l : location) :
  0 <= m → 0 <= round_nearest_even m l.
Proof.
  intros Hm. destruct l as [|[]]; simpl; try lia.
  destruct (Z.even m); lia.
Qed.

Lemma binary_round_aux_nonneg (mx ex : Z) (lx : location) :
  0 <= mx → nonneg_double (binary_round_aux 53 1024 false mx ex lx).
Proof.
  intros Hm. unfold binary_round_aux, shr_fexp.
  pose proof (shr_nonneg (shr_record_of_loc mx lx) ex
                (fexp 53 1024 (Zdigits2 mx + ex) - ex)
                (shr_record_of_loc_nonneg mx lx Hm)) as H1.
  destruct (shr (shr_record_of_loc mx lx) ex _) as [mrs' e']. simpl in H1.
  set (m1 := round_nearest_even (shr_m mrs') (loc_of_shr_record mrs')).
  assert (Hm1 : 0 <= m1) by (by apply round_nearest_even_nonneg).
  pose proof (shr_nonneg (shr_record_of_loc m1 loc_Exact) e'
                (fexp 53 1024 (Zdigits2 m1 + e') - e')
                (shr_record_of_loc_nonneg m1 loc_Exact Hm1)) as H2.
  destruct (shr (shr_record_of_loc m1 loc_Exact) e' _) as [mrs'' e''].
  simpl in H2. destruct (shr_m mrs'') as [|m|m]; [done| |lia].
  by destruct (e'' <=? 1024 - 53).
Qed.

Lemma binary_normalize_nonneg (m e : Z) :
  0 <= m → nonneg_double (binary_normalize 53 1024 m e false).
Proof.
  intros Hm. destruct m as [|m|m]; [done| |lia]. simpl. unfold binary_round.
  destruct (shl_align m e _) as [mz ez]. by apply binary_round_aux_nonneg.
Qed.

Lemma double_add_nonneg (x y : double) :
  nonneg_double x → nonneg_double y → nonneg_double (double_add x y).
Proof.
  unfold double_add.
  destruct x as [[]|[]| |[] mx ex], y as [[]|[]| |[] my ey]; try done.
  intros _ _. cbn [SFadd cond_Zopp]. by apply binary_normalize_nonneg.
Qed.

Lemma jw_weight_nonneg (clause : clause_t) : nonneg_double (jw_weight clause).
Proof. by apply binary_normalize_nonneg. Qed.

Lemma jeroslow_wang_loop_nonneg (cls : list clause_t)
    (a : list var_assignment_t) (var : variable_t) :
  ∀ score : double,
    nonneg_double score → nonneg_double (jeroslow_wang_loop cls a var score).
Proof.
  induction cls as [|c rest IH]; intros score Hs; simpl; [done|].
  destruct (clause_is_satisfied c a); [by apply IH|].
  destruct (clause_contains_variable c var); [|by apply IH].
  apply IH, double_add_nonneg; [done|apply jw_weight_nonneg].
Qed.

Lemma calculate_jeroslow_wang_score_nonneg (s : dpll_solver_t)
    (var : variable_t) :
  nonneg_double (calculate_jeroslow_wang_score s var).
Proof.
  unfold calculate_jeroslow_wang_score.
  destruct (var =? 0); [done|]. by apply jeroslow_wang_loop_nonneg.
Qed.

(** *** The comparison of [double] values that are not NaN *)

Lemma double_minus_one_below (x : double) :
  nonneg_double x → double_gt x double_minus_one = true.
Proof. by destruct x as [[]|[]| |[] m e]. Qed.

Lemma SFltb_positive (m1 m2 : positive) (e1 e2 : Z) :
  SFltb (S754_finite false m1 e1) (S754_finite false m2 e2) = true
  ↔ e1 < e2 ∨ (e1 = e2 ∧ (m1 < m2)%positive).
Proof.
  unfold SFltb, SFcompare.
  change (PosDef.Pos.compare_cont Eq m1 m2) with (Pos.compare m1 m2).
  destruct (Z.compare_spec e1 e2); [|split; [lia|done]|split; [done|lia]].
  destruct (Pos.compare_spec m1 m2); split; try done; lia.
Qed.

(** [m < x] and [x < y] give [m < y]. *)
Lemma double_lt_trans (m x y : double) :
  m ≠ S754_nan → nonneg_double x → nonneg_double y →
  SFltb m x = true → SFltb x y = true → SFltb m y = true.
Proof.
  intros Hm Hx Hy.
  destruct m as [[]|[]| |[] mm em], x as [[]|[]| |[] mx ex],
    y as [[]|[]| |[] my ey]; try done.
  rewrite !SFltb_positive. lia.
Qed.

(** [x <= m] and [m < y] give [x < y]. *)
Lemma double_le_lt_trans (m x y : double) :
  m ≠ S754_nan → nonneg_double x → nonneg_double y →
  SFltb m x = false → SFltb m y = true → SFltb x y = true.
Proof.
  intros Hm Hx Hy.
  destruct m as [[]|[]| |[] mm em], x as [[]|[]| |[] mx ex],
    y as [[]|[]| |[] my ey]; try done.
  intros Hmx Hmy. apply SFltb_positive. apply SFltb_positive in Hmy.
  apply not_true_iff_false in Hmx. rewrite SFltb_positive in Hmx. lia.
Qed.

Lemma double_lt_asym (x y : double) :
  nonneg_double x → nonneg_double y →
  SFltb x y = true → SFltb y x = false.
Proof.
  intros Hx Hy.
  destruct x as [[]|[]| |[] mx ex], y as [[]|[]| |[] my ey]; try done.
  intros Hxy. apply not_true_iff_false. rewrite SFltb_positive.
  apply SFltb_positive in Hxy. lia.
Qed.

Lemma nonneg_double_not_nan (x : double) : nonneg_double x → x ≠ S754_nan.
Proof. by destruct x. Qed.

(** *** The loop over the variables *)

Lemma jeroslow_wang_var_loop_spec (s : dpll_solver_t) (count : nat) :
  ∀ (var best : variable_t) (max_score : double),
    max_score ≠ S754_nan →
    let score := calculate_jeroslow_wang_score s in
    let r := jeroslow_wang_var_loop count var s best max_score in
    (r = best
     ∧ ∀ v, var <= v < var + Z.of_nat count →
            IS_VARIABLE_ASSIGNED s v = false →
            double_gt (score v) max_score = false)
    ∨ (var <= r < var + Z.of_nat count
       ∧ IS_VARIABLE_ASSIGNED s r = false
       ∧ double_gt (score r) max_score = true
       ∧ (∀ v, var <= v < var + Z.of_nat count →
               IS_VARIABLE_ASSIGNED s v = false →
               double_gt (score v) (score r) = false)
       ∧ (∀ v, var <= v < r →
               IS_VARIABLE_ASSIGNED s v = false →
               double_gt (score r) (score v) = true)).
Proof.
  unfold double_gt.
  induction count as [|count IH]; intros var best max_score Hnan; simpl.
  { left. split; [done|]. intros v Hv. lia. }
  pose proof (calculate_jeroslow_wang_score_nonneg s) as Hnn.
  destruct (IS_VARIABLE_ASSIGNED s var) eqn:Has.
  - destruct (IH (var + 1) best max_score Hnan)
      as [[Hr Hall]|(Hr & Hfree & Hgt & Hmax & Hfirst)].
    + left. split; [done|]. split_off_first var Hall.
    + right. split_five; [lia|done|done| |].
      * split_off_first var Hmax.
      * split_off_first var Hfirst.
  - unfold double_gt.
    destruct (SFltb max_score (calculate_jeroslow_wang_score s var))
      eqn:Hlt.
    + destruct (IH (var + 1) var (calculate_jeroslow_wang_score s var)
                  (nonneg_double_not_nan _ (Hnn var)))
        as [[Hr Hall]|(Hr & Hfree & Hgt & Hmax & Hfirst)].
      * right. rewrite Hr. split_five; [lia|done|done| |].
        -- intros v Hv Hv'. destruct (decide (v = var)) as [->|?].
           ++ destruct (calculate_jeroslow_wang_score s var)
                as [[]|[]| |[] m e] eqn:Hs; try done;
                [by specialize (Hnn var); rewrite Hs in Hnn..|].
              apply not_true_iff_false. rewrite SFltb_positive. lia.
           ++ apply Hall; [lia|done].
        -- intros v Hv. lia.
      * right. split_five; [lia|done| | |].
        -- by apply (double_lt_trans max_score
                       (calculate_jeroslow_wang_score s var)).
        -- intros v Hv Hv'. destruct (decide (v = var)) as [->|?].
           ++ by apply double_lt_asym.
           ++ apply Hmax; [lia|done].
        -- intros v Hv Hv'. destruct (decide (v = var)) as [->|?].
           ++ done.
           ++ apply Hfirst; [lia|done].
    + destruct (IH (var + 1) best max_score Hnan)
        as [[Hr Hall]|(Hr & Hfree & Hgt & Hmax & Hfirst)].
      * left. split; [done|]. intros v Hv Hv'.
        destruct (decide (v = var)) as [->|?]; [done|]. apply Hall; [lia|done].
      * right.
        pose proof (double_le_lt_trans max_score _ _ Hnan (Hnn var) (Hnn _)
                      Hlt Hgt) as Hbelow.
        split_five; [lia|done|done| |].
        -- intros v Hv Hv'. destruct (decide (v = var)) as [->|?].
           ++ by apply double_lt_asym.
           ++ apply Hmax; [lia|done].
        -- intros v Hv Hv'. destruct (decide (v = var)) as [->|?].
           ++ done.
           ++ apply Hfirst; [lia|done].
Qed.

(** X8.  [decision_jeroslow_wang] returns [0] exactly when every variable of
    [1 .. num_variables] is assigned.  Otherwise it returns an unassigned
    variable that none beats: no unassigned variable has a greater score,
    and every unassigned variable before it has a smaller one.  The scores
    are the [double] sums that the code computes, compared as the code
    compares them, so two variables whose exact sums differ by less than the
    rounding of the sum tie, and the first of them is returned. *)
Theorem decision_jeroslow_wang_spec (s : dpll_solver_t) :
  let n := num_variables (formula s) in
  let score := calculate_jeroslow_wang_score s in
  let r := decision_jeroslow_wang s in
  (r = 0 ↔ ∀ v, 1 <= v <= n → IS_VARIABLE_ASSIGNED s v = true)
  ∧ (r ≠ 0 →
     1 <= r <= n
     ∧ IS_VARIABLE_ASSIGNED s r = false
     ∧ (∀ v, 1 <= v <= n → IS_VARIABLE_ASSIGNED s v = false →
             double_gt (score v) (score r) = false)
     ∧ (∀ v, 1 <= v < r → IS_VARIABLE_ASSIGNED s v = false →
             double_gt (score r) (score v) = true)).
Proof.
  intros n score r. subst r score. unfold decision_jeroslow_wang. fold n.
  destruct (jeroslow_wang_var_loop_spec s (Z.to_nat n) 1 0 double_minus_one
              ltac:(done))
    as [[Hr Hall]|(Hr & Hfree & Hgt & Hmax & Hfirst)].
  - split; [|done]. split; [|done]. intros _ v Hv.
    destruct (IS_VARIABLE_ASSIGNED s v) eqn:Hv'; [done|]. exfalso.
    specialize (Hall v ltac:(lia) Hv').
    rewrite double_minus_one_below in Hall; [done|].
    apply calculate_jeroslow_wang_score_nonneg.
  - split.
    + split; [lia|]. intros Hall. rewrite Hall in Hfree; [done|lia].
    + intros _. refine (conj _ (conj _ (conj _ _))); [lia|done| |done].
      intros v Hv. apply Hmax. lia.
Qed.

Lemma decision_jeroslow_wang_spec_witness :
  decision_jeroslow_wang rounding_example = 1
  ∧ calculate_jeroslow_wang_score rounding_example 1
    = calculate_jeroslow_wang_score rounding_example 2
  ∧ IS_VARIABLE_ASSIGNED rounding_example
      (decision_jeroslow_wang rounding_example) = false
  ∧ (∀ v, 1 <= v <= 55 → IS_VARIABLE_ASSIGNED rounding_example v = false →
          double_gt (calculate_jeroslow_wang_score rounding_example v)
            (calculate_jeroslow_wang_score rounding_example
               (decision_jeroslow_wang rounding_example)) = false).
Proof.
  assert (H : decision_jeroslow_wang rounding_example ≠ 0)
    by (by vm_compute).
  split; [by vm_compute|]. split; [by vm_compute|].
  destruct (decision_jeroslow_wang_spec rounding_example) as [_ Hspec].
  destruct (Hspec H) as (Hr & Hfree & Hmax & _). by split.
Defined.

(** ** The random choice *)

(** One draw: the state after a step of the linear congruence, and the value
    that [random_int] derives from it for the bounds [lo <= hi]. *)
Lemma lcg_draw_bounds (state lo hi : Z) :
  0 <= hi - lo < INT32_MAX →
  let state' := (state * 1103515245 + 12345) mod UINT_MODULUS in
  let r := lo + (state' / 65536) mod ((hi - lo + 1) mod UINT_MODULUS) in
  0 <= state' < UINT_MODULUS ∧ lo <= r <= hi ∧ r < lo + 65536.
Proof.
  unfold INT32_MAX, UINT_MODULUS. intros Hrange.
  set (state' := (state * 1103515245 + 12345) mod 2 ^ 32).
  assert (Hstate : 0 <= state' < 2 ^ 32) by (apply Z.mod_pos_bound; lia).
  assert (Hhigh : 0 <= state' / 65536 < 65536).
  { split; [apply Z.div_pos; lia|]. apply Z.div_lt_upper_bound; lia. }
  rewrite (Z.mod_small (hi - lo + 1)) by lia.
  pose proof (Z.mod_pos_bound (state' / 65536) (hi - lo + 1) ltac:(lia)).
  pose proof (Z.mod_le (state' / 65536) (hi - lo + 1) ltac:(lia) ltac:(lia)).
  lia.
Qed.

(** X9.  [random_int] advances the generator by one step of the linear
    congruence modulo [2^32] and answers with a value between the two bounds,
    in whichever order they are given; only the 16 bits above the low 16 of
    the state are used, so the answer is never [65536] or more above the lower
    bound. *)
Theorem random_int_range (state min max : Z) :
  0 <= Z.max min max - Z.min min max < INT32_MAX →
  let '(r, state') := random_int state min max in
  state' = (state * 1103515245 + 12345) mod UINT_MODULUS
  ∧ 0 <= state' < UINT_MODULUS
  ∧ Z.min min max <= r <= Z.max min max
  ∧ r < Z.min min max + 65536.
Proof.
  unfold random_int. intros Hrange.
  destruct (Z.ltb_spec max min) as [Hlt|Hge].
  - rewrite Z.min_r, Z.max_l in * by lia.
    pose proof (lcg_draw_bounds state max min Hrange) as (? & ? & ?).
    by split_and!; [|lia..].
  - rewrite Z.min_l, Z.max_r in * by lia.
    pose proof (lcg_draw_bounds state min max Hrange) as (? & ? & ?).
    by split_and!; [|lia..].
Qed.

Lemma random_int_range_witness :
  0 <= Z.max 7 (-2) - Z.min 7 (-2) < INT32_MAX
  ∧ let '(r, state') := random_int 1 7 (-2) in
    state' = (1 * 1103515245 + 12345) mod UINT_MODULUS
    ∧ 0 <= state' < UINT_MODULUS
    ∧ Z.min 7 (-2) <= r <= Z.max 7 (-2)
    ∧ r < Z.min 7 (-2) + 65536.
Proof.
  split; [by vm_compute|]. apply (random_int_range 1 7 (-2)). by vm_compute.
Defined.

Lemma collect_unassigned_spec (s : dpll_solver_t) (count : nat) :
  ∀ (var : variable_t) (acc : list variable_t) (v : variable_t),
    v ∈ collect_unassigned count var s acc ↔
    v ∈ acc ∨ (var <= v < var + Z.of_nat count
               ∧ IS_VARIABLE_ASSIGNED s v = false).
Proof.
  induction count as [|count IH]; intros var acc v; simpl.
  { split; [by left|]. intros [?|[? _]]; [done|lia]. }
  destruct (IS_VARIABLE_ASSIGNED s var) eqn:Has; simpl; rewrite IH.
  - split.
    + intros [?|[? ?]]; [by left|right]. split; [lia|done].
    + intros [?|[? ?]]; [by left|right].
      destruct (decide (v = var)) as [->|?]; [congruence|]. split; [lia|done].
  - rewrite elem_of_app, list_elem_of_singleton. split.
    + intros [[?| ->]|[? ?]]; [by left|right|right]; split; try lia; done.
    + intros [?|[? ?]]; [by left; left|].
      destruct (decide (v = var)) as [->|?]; [by left; right|right].
      split; [lia|done].
Qed.

Lemma length_collect_unassigned (s : dpll_solver_t) (count : nat) :
  ∀ (var : variable_t) (acc : list variable_t),
    (length (collect_unassigned count var s acc) ≤ length acc + count)%nat.
Proof.
  induction count as [|count IH]; intros var acc; simpl; [lia|].
  destruct (IS_VARIABLE_ASSIGNED s var); simpl.
  - specialize (IH (var + 1) acc). lia.
  - specialize (IH (var + 1) (acc ++ [var])). rewrite length_app in IH.
    simpl in IH. lia.
Qed.

(** [decision_random] either finds nothing to choose from, or hands back one
    of the collected variables and moves the generator on. *)
Lemma decision_random_pick (s : dpll_solver_t) :
  num_variables (formula s) <= INT32_MAX →
  let vars :=
    collect_unassigned (Z.to_nat (num_variables (formula s))) 1 s [] in
  (vars = [] ∧ decision_random s = (0, s))
  ∨ (∃ v, v ∈ vars
          ∧ decision_random s
            = (v, set_random_state s
                    ((random_state s * 1103515245 + 12345) mod UINT_MODULUS))).
Proof.
  intros Hn vars. unfold decision_random. fold vars.
  pose proof (length_collect_unassigned s
                (Z.to_nat (num_variables (formula s))) 1 []) as Hlen.
  fold vars in Hlen. simpl in Hlen.
  destruct (Z.eqb_spec (Z.of_nat (length vars)) 0) as [Hz|Hnz].
  { left. split; [apply nil_length_inv; lia|done]. }
  right. unfold random_int, INT32_MAX in *.
  destruct (Z.ltb_spec (Z.of_nat (length vars) - 1) 0) as [|_]; [lia|].
  pose proof (lcg_draw_bounds (random_state s) 0 (Z.of_nat (length vars) - 1))
    as Hdraw.
  unfold INT32_MAX in Hdraw. simpl in Hdraw.
  destruct Hdraw as (_ & Hidx & _); [lia|].
  rewrite Z.sub_0_r in *.
  set (idx := (_ / 65536) mod _) in *.
  rewrite (Z.add_0_l idx) in Hidx |- *.
  destruct (vars !! Z.to_nat idx) as [v|] eqn:Hv;
    [|exfalso; apply lookup_ge_None in Hv; unfold variable_t in *; lia].
  exists v. split; [by eapply list_elem_of_lookup_2|done].
Qed.

(** X10.  [decision_random] leaves the formula and the stack alone.  When
    every variable of [1 .. num_variables] is assigned it returns [0] without
    drawing a number; otherwise it draws one number and returns an unassigned
    variable of that range. *)
Theorem decision_random_spec (s : dpll_solver_t) :
  num_variables (formula s) <= INT32_MAX →
  let n := num_variables (formula s) in
  let '(r, s') := decision_random s in
  formula s' = formula s
  ∧ assignments s' = assignments s
  ∧ ((∀ v, 1 <= v <= n → IS_VARIABLE_ASSIGNED s v = true) → r = 0 ∧ s' = s)
  ∧ ((∃ v, 1 <= v <= n ∧ IS_VARIABLE_ASSIGNED s v = false) →
     1 <= r <= n
     ∧ IS_VARIABLE_ASSIGNED s r = false
     ∧ random_state s'
       = (random_state s * 1103515245 + 12345) mod UINT_MODULUS).
Proof.
  intros Hn. simpl.
  assert (Hvars : ∀ v,
            v ∈ collect_unassigned (Z.to_nat (num_variables (formula s))) 1 s []
            ↔ 1 <= v <= num_variables (formula s)
              ∧ IS_VARIABLE_ASSIGNED s v = false).
  { intros v. rewrite collect_unassigned_spec. split.
    - intros [?%elem_of_nil|[? ?]]; [done|]. split; [lia|done].
    - intros [? ?]. right. split; [lia|done]. }
  destruct (decision_random_pick s Hn) as [[Hnil ->]|(v & Hin & ->)].
  - split_and!; [done|done|done|].
    intros (v & Hv & Hfree). exfalso.
    assert (Hin : v ∈ collect_unassigned
                        (Z.to_nat (num_variables (formula s))) 1 s [])
      by (by apply Hvars).
    rewrite Hnil in Hin. by apply elem_of_nil in Hin.
  - apply Hvars in Hin as [Hr Hfree].
    split_and!; [done|done| |by intros _].
    intros Hall. rewrite Hall in Hfree; done.
Qed.

Lemma decision_random_spec_witness :
  num_variables (formula idle_variable_example) <= INT32_MAX
  ∧ let '(r, s') := decision_random idle_variable_example in
    formula s' = formula idle_variable_example
    ∧ assignments s' = assignments idle_variable_example
    ∧ ((∀ v, 1 <= v <= 3 → IS_VARIABLE_ASSIGNED idle_variable_example v = true) →
       r = 0 ∧ s' = idle_variable_example)
    ∧ ((∃ v, 1 <= v <= 3 ∧ IS_VARIABLE_ASSIGNED idle_variable_example v = false) →
       1 <= r <= 3
       ∧ IS_VARIABLE_ASSIGNED idle_variable_example r = false
       ∧ random_state s'
         = (random_state idle_variable_example * 1103515245 + 12345)
           mod UINT_MODULUS).
Proof.
  split; [by vm_compute|].
  apply (decision_random_spec idle_variable_example). by vm_compute.
Defined.

(** ** Most frequent variable *)

(** X11.  [decision_most_frequent] returns [0] exactly when no unassigned
    variable of [1 .. num_variables] occurs in a clause that is not yet
    satisfied (their total frequencies are all [0]); otherwise it returns the
    smallest unassigned variable whose total frequency is the largest. *)
Theorem decision_most_frequent_result (s : dpll_solver_t) :
  let n := num_variables (formula s) in
  let r := decision_most_frequent s in
  (r = 0 ↔ ∀ v, 1 <= v <= n → IS_VARIABLE_ASSIGNED s v = false →
                total_frequency s v = 0)
  ∧ (r ≠ 0 →
     1 <= r <= n
     ∧ IS_VARIABLE_ASSIGNED s r = false
     ∧ (∀ v, 1 <= v <= n → IS_VARIABLE_ASSIGNED s v = false →
             total_frequency s v <= total_frequency s r)
     ∧ (∀ v, 1 <= v < r → IS_VARIABLE_ASSIGNED s v = false →
             total_frequency s v < total_frequency s r)).
Proof.
  intros n r. subst n r.
  destruct (decision_most_frequent_spec s)
    as [[Hr Hall]|(Hr & Hfree & Hpos & Hmax & Hfirst)].
  - split; [|done]. by split.
  - split.
    + split; [lia|]. intros Hall. rewrite Hall in Hpos; [lia|done|done].
    + intros _. by refine (conj _ (conj _ (conj _ _))).
Qed.

Lemma decision_most_frequent_result_witness :
  decision_most_frequent satisfiable_example ≠ 0
  ∧ 1 <= decision_most_frequent satisfiable_example <= 3
  ∧ IS_VARIABLE_ASSIGNED satisfiable_example
      (decision_most_frequent satisfiable_example) = false.
Proof.
  assert (H : decision_most_frequent satisfiable_example ≠ 0)
    by (by vm_compute).
  split; [done|].
  destruct (decision_most_frequent_result satisfiable_example) as [_ Hspec].
  destruct (Hspec H) as (Hr & Hfree & _). by split.
Defined.

(** * Restarts ([solver.c]) *)

Lemma read_clear_assignment_loop_keep (count : nat) :
  ∀ (var : variable_t) (a : list var_assignment_t) (v : variable_t),
    read_assignment a v = VAR_UNASSIGNED →
    read_assignment (clear_assignment_loop count var a) v = VAR_UNASSIGNED.
Proof.
  induction count as [|count IH]; intros var a v Hv; simpl; [done|].
  apply IH.
  by destruct (read_assignment_insert_cases a (Z.to_nat var) VAR_UNASSIGNED v)
    as [->|[_ ->]].
Qed.

Lemma read_clear_assignment_loop (count : nat) :
  ∀ (var : variable_t) (a : list var_assignment_t) (v : variable_t),
    var <= v < var + Z.of_nat count →
    read_assignment (clear_assignment_loop count var a) v = VAR_UNASSIGNED.
Proof.
  induction count as [|count IH]; intros var a v Hv; simpl; [lia|].
  destruct (decide (v = var)) as [->|Hne]; [|apply IH; lia].
  apply read_clear_assignment_loop_keep.
  destruct (read_assignment_insert_cases a (Z.to_nat var) VAR_UNASSIGNED var)
    as [Heq|[_ ->]]; [|done].
  rewrite Heq. unfold read_assignment in *.
  destruct (decide (Z.to_nat var < length a)%nat) as [Hlt|Hge].
  - rewrite list_lookup_total_insert_eq in Heq by done. by rewrite <- Heq.
  - rewrite list_lookup_total_alt, lookup_ge_None_2; [done|lia].
Qed.

(** X12.  [unassign_until_level] cuts the stack as
    [assignment_stack_backtrack_to_level] does and rebuilds the assignment
    array from what is left: the clauses and the size of the array are
    untouched, every variable of [1 .. num_variables] that has no entry on the
    remaining stack is unassigned, and the stack invariants (the entries name
    distinct variables in range and the array holds their values) carry over. *)
Theorem unassign_until_level_spec (s : dpll_solver_t) (level : Z) :
  let s' := unassign_until_level s level in
  assignments s' = assignment_stack_backtrack_to_level (assignments s) level
  ∧ same_shape s s'
  ∧ (∀ v, 1 <= v <= num_variables (formula s) →
          v ∉ variable <$> stack (assignments s') →
          read_assignment (assignment (formula s')) v = VAR_UNASSIGNED)
  ∧ (stack_invariant s → stack_invariant s').
Proof.
  simpl. split; [done|].
  split. { repeat split. simpl.
           by rewrite length_reapply_entries, length_clear_assignment_loop. }
  unfold unassign_until_level, assignment_stack_backtrack_to_level.
  destruct (backtrack_to_level_loop_prefix (stack_size (assignments s)) level
              (assignments s)) as [k Hk].
  simpl. rewrite Hk.
  set (cleared := clear_assignment_loop _ _ _).
  assert (Hlen : length cleared = length (assignment (formula s)))
    by apply length_clear_assignment_loop.
  split.
  - intros v Hv Hnin. rewrite read_reapply_entries_notin.
    + apply read_clear_assignment_loop. lia.
    + apply list.Forall_forall. intros e He Heq. apply Hnin.
      apply list_elem_of_fmap. exists e. split; [|done].
      destruct (Z.le_gt_cases (variable e) 0); lia.
  - intros (Hal & Hrange & Hnd & Hag).
    unfold stack_invariant, stack_variables_in_range, stack_agrees,
      cnf_allocated in *. simpl.
    split_and!.
    + by rewrite length_reapply_entries, Hlen.
    + by apply Forall_take.
    + rewrite fmap_take. eapply sublist_NoDup; [exact Hnd|apply sublist_take].
    + apply list.Forall_forall. intros e He.
      apply read_reapply_entries_in; [| |done].
      * rewrite fmap_take. eapply sublist_NoDup; [exact Hnd|apply sublist_take].
      * apply Forall_take. eapply list.Forall_impl; [exact Hrange|].
        intros e' He'. simpl in He'. split; [lia|]. rewrite Hlen. lia.
Qed.

Lemma unassign_until_level_spec_witness :
  stack_invariant conflict_example
  ∧ stack (assignments (unassign_until_level conflict_example 0)) = []
  ∧ stack_invariant (unassign_until_level conflict_example 0).
Proof.
  assert (H : stack_invariant conflict_example).
  { split_and!.
    - reflexivity.
    - apply (bool_decide_unpack _). vm_compute. exact I.
    - apply (bool_decide_unpack _). vm_compute. exact I.
    - apply (bool_decide_unpack _). vm_compute. exact I. }
  split; [done|]. split; [by vm_compute|].
  by apply (unassign_until_level_spec conflict_example 0).
Defined.

(** * The answers of the solver ([solver.c]) *)

(** ** No error code, and the meaning of [SOLVER_UNKNOWN] *)

Lemma backtrack_or_unsat_result (s : dpll_solver_t) :
  fst (backtrack_or_unsat s) = None
  ∨ fst (backtrack_or_unsat s) = Some SOLVER_UNSATISFIABLE.
Proof.
  unfold backtrack_or_unsat. destruct (backtrack s) as [[|] s']; auto.
Qed.

Lemma dpll_decide_result (s : dpll_solver_t) (progress_made : bool) r s' :
  dpll_decide s progress_made = (Some r, s') →
  r ≠ SOLVER_TIMEOUT ∧ regular_answer r s'.
Proof.
  unfold dpll_decide, regular_answer.
  destruct (choose_decision_variable s) as [decision_var s0] eqn:Hchoose.
  destruct (choose_decision_variable_free _ _ _ Hchoose) as (Hf & _ & Hvar).
  destruct (Z.eqb_spec decision_var 0) as [|Hnz].
  { intros [= <- <-]. by destruct (is_formula_satisfied s0). }
  destruct Hvar as [|[Hrange _]]; [done|].
  pose proof (assign_variable_in_range s0 decision_var
                (choose_decision_value s0 decision_var) true
                ltac:(by rewrite Hf)) as Hok.
  destruct (assign_variable _ _ _ _) as [[|] s1]; [|done].
  destruct ((0 <? _) && _) eqn:Hcap.
  - intros [= <- <-]. split_and!; try done. intros _.
    apply andb_true_iff in Hcap as [H1%Z.ltb_lt H2%Z.leb_le]. by split.
  - destruct (enable_restarts _ && _); simpl; done.
Qed.

Lemma dpll_pure_stage_result (s : dpll_solver_t) (progress_made : bool) r s' :
  dpll_pure_stage s progress_made = (Some r, s') →
  r ≠ SOLVER_TIMEOUT ∧ regular_answer r s'.
Proof.
  unfold dpll_pure_stage.
  destruct (enable_pure_literal (config s)); [|apply dpll_decide_result].
  destruct (pure_literal_elimination s) as [eliminated s1].
  destruct (has_conflict s1); [|apply dpll_decide_result].
  intros H. destruct (backtrack_or_unsat_result s1) as [Hr|Hr];
    rewrite H in Hr; [done|]. injection Hr as ->. by unfold regular_answer.
Qed.

Lemma dpll_iteration_result (s : dpll_solver_t) r s' :
  dpll_iteration s = Some (Some r, s') →
  r ≠ SOLVER_TIMEOUT ∧ regular_answer r s'.
Proof.
  assert (Hbt : ∀ s0, backtrack_or_unsat s0 = (Some r, s') →
            r ≠ SOLVER_TIMEOUT ∧ regular_answer r s').
  { intros s0 H. destruct (backtrack_or_unsat_result s0) as [Hr|Hr];
      rewrite H in Hr; [done|]. injection Hr as ->. by unfold regular_answer. }
  unfold dpll_iteration.
  destruct (is_formula_satisfied s).
  { intros [= <- <-]. by unfold regular_answer. }
  destruct (has_conflict s); [intros [= H]; by eapply Hbt|].
  destruct (enable_unit_propagation (config s)).
  - destruct (unit_propagation s) as [[r1 s1]|]; [|done]. simpl.
    destruct (has_conflict s1); [intros [= H]; by eapply Hbt|].
    intros [= H]. by eapply dpll_pure_stage_result.
  - intros [= H]. by eapply dpll_pure_stage_result.
Qed.

Lemma dpll_loop_result (remaining : nat) :
  ∀ (iterations : nat) (clock : nat → Q) (s : dpll_solver_t) r s',
    dpll_loop remaining iterations clock s = Some (r, s') →
    regular_answer r s'.
Proof.
  induction remaining as [|n IH]; intros iterations clock s r s'; simpl.
  { intros [= <- <-]. by unfold regular_answer. }
  destruct (solver_is_timeout s (clock (S iterations))).
  { intros [= <- <-]. by unfold regular_answer. }
  destruct (dpll_iteration s) as [[[r0|] s1]|] eqn:Hit; simpl; [| |done].
  - intros [= <- <-]. by apply dpll_iteration_result in Hit as [_ ?].
  - apply IH.
Qed.

Lemma preprocess_loop_ok (fuel : nat) :
  ∀ (s : dpll_solver_t) ok s',
    preprocess_loop fuel s = Some (ok, s') → ok = true.
Proof.
  induction fuel as [|fuel IH]; intros s ok s'; simpl; [done|].
  destruct (pure_literal_elimination s) as [eliminated s1].
  destruct (unit_propagation s1) as [[r2 s2]|]; [|done]. simpl.
  destruct (has_conflict s2); [by intros [= <- _]|].
  destruct (_ || _); [apply IH|by intros [= <- _]].
Qed.

Lemma solver_solve_result (clock : nat → Q) (s : dpll_solver_t) r s' :
  solver_solve clock s = Some (r, s') → regular_answer r s'.
Proof.
  assert (Hsearch : ∀ s0, dpll_algorithm clock s0 = Some (r, s') →
            regular_answer r s') by (intros s0; apply dpll_loop_result).
  unfold solver_solve.
  destruct (enable_preprocessing (config s)); [|apply Hsearch].
  unfold preprocess_formula.
  destruct (preprocess_loop (pass_budget s) s) as [[ok s1]|] eqn:Hpre; [|done].
  apply preprocess_loop_ok in Hpre as ->. simpl.
  destruct (length (clauses (formula s1)) =? 0)%nat.
  { intros [= <- <-]. by unfold regular_answer. }
  destruct (has_conflict s1).
  { intros [= <- <-]. by unfold regular_answer. }
  apply Hsearch.
Qed.

Lemma solver_solve_total (clock : nat → Q) (s : dpll_solver_t) :
  cnf_allocated (formula s) → ∃ r s', solver_solve clock s = Some (r, s').
Proof.
  intros Hal.
  assert (Hsearch : ∀ s0 c0, cnf_allocated (formula s0) →
            ∃ r s', dpll_algorithm clock (set_config s0 c0) = Some (r, s')).
  { intros s0 c0 Hal0.
    destruct (dpll_loop_sound max_iterations 0 clock (set_config s0 c0) Hal0)
      as (r & s' & Hrun & _). by exists r, s'. }
  unfold solver_solve.
  destruct (enable_preprocessing (config s)); [|by apply Hsearch].
  destruct (preprocess_loop_total (pass_budget s) s Hal
              (pass_budget_enough s Hal)) as (s1 & Hpre & Hsh).
  unfold preprocess_formula. rewrite Hpre. simpl.
  destruct (length (clauses (formula s1)) =? 0)%nat; [by eexists _, _|].
  destruct (has_conflict s1); [by eexists _, _|].
  apply Hsearch. by eapply same_shape_allocated.
Qed.

(** X13.  On an allocated formula [solver_solve] returns one of
    [SOLVER_SATISFIABLE], [SOLVER_UNSATISFIABLE], [SOLVER_UNKNOWN] and
    [SOLVER_TIMEOUT]: the heuristics only propose variables that
    [assign_variable] accepts, and preprocessing never reports a failure, so
    neither [SOLVER_ERROR] nor [SOLVER_MEMORY_ERROR] is ever the answer. *)
Theorem solver_solve_no_error (clock : nat → Q) (s : dpll_solver_t) :
  cnf_allocated (formula s) →
  ∃ r s',
    solver_solve clock s = Some (r, s')
    ∧ (r = SOLVER_SATISFIABLE ∨ r = SOLVER_UNSATISFIABLE
       ∨ r = SOLVER_UNKNOWN ∨ r = SOLVER_TIMEOUT).
Proof.
  intros Hal. destruct (solver_solve_total clock s Hal) as (r & s' & Hrun).
  exists r, s'. split; [done|].
  apply solver_solve_result in Hrun as (He & Hm & _).
  destruct r; auto; done.
Qed.

Lemma solver_solve_no_error_witness :
  cnf_allocated (formula unsatisfiable_example)
  ∧ ∃ r s',
      solver_solve still_clock unsatisfiable_example = Some (r, s')
      ∧ (r = SOLVER_SATISFIABLE ∨ r = SOLVER_UNSATISFIABLE
         ∨ r = SOLVER_UNKNOWN ∨ r = SOLVER_TIMEOUT).
Proof.
  split; [reflexivity|].
  apply (solver_solve_no_error still_clock unsatisfiable_example). reflexivity.
Defined.

(** X14.  [solver_solve] answers [SOLVER_UNKNOWN] only when the number of
    decisions has reached the cap [max_decisions]: the guard against rounds
    without progress never fires, since every round that gets as far as the
    guard has taken a decision. *)
Theorem solver_unknown_is_decision_cap (clock : nat → Q) (s s' : dpll_solver_t) :
  solver_solve clock s = Some (SOLVER_UNKNOWN, s') →
  0 < max_decisions (config s')
  ∧ max_decisions (config s') <= decisions (stats s').
Proof.
  intros Hrun. apply solver_solve_result in Hrun as (_ & _ & Hcap). by apply Hcap.
Qed.

Lemma solver_unknown_is_decision_cap_witness :
  ∃ s',
    solver_solve still_clock capped_example = Some (SOLVER_UNKNOWN, s')
    ∧ 0 < max_decisions (config s')
    ∧ max_decisions (config s') <= decisions (stats s').
Proof.
  eexists. split; [vm_compute; reflexivity|].
  eapply (solver_unknown_is_decision_cap still_clock capped_example).
  vm_compute. reflexivity.
Defined.

(** ** Models and the partial assignment *)

Lemma formula_true_clauses (m : variable_t → bool) (f f' : cnf_formula_t) :
  clauses f' = clauses f → formula_true m f' = formula_true m f.
Proof. unfold formula_true. by intros ->. Qed.

Lemma literal_true_holds (m : variable_t → bool) (a : list var_assignment_t)
    (lit : literal_t) :
  model_extends m a →
  read_assignment a (literal_variable lit) ≠ VAR_UNASSIGNED →
  literal_true m lit
  = literal_holds (literal_is_positive lit)
      (read_assignment a (literal_variable lit)).
Proof.
  intros Hext Has. destruct (Hext (literal_variable lit)) as [Ht Hf].
  unfold literal_true, literal_holds.
  destruct (read_assignment a (literal_variable lit)); [done| |].
  - rewrite Ht by done. by destruct (literal_is_positive lit).
  - rewrite Hf by done. by destruct (literal_is_positive lit).
Qed.

Lemma clause_true_elem (m : variable_t → bool) (clause : clause_t) :
  clause_true m clause = true ↔ ∃ lit, lit ∈ clause ∧ literal_true m lit = true.
Proof.
  unfold clause_true. rewrite existsb_exists. split.
  - intros (l & Hin & H). exists l. split; [by apply list_elem_of_In|done].
  - intros (l & Hin & H). exists l. split; [by apply list_elem_of_In|done].
Qed.

Lemma formula_true_elem (m : variable_t → bool) (cnf : cnf_formula_t) :
  formula_true m cnf = true ↔ ∀ c, c ∈ clauses cnf → clause_true m c = true.
Proof.
  unfold formula_true. rewrite forallb_forall. split.
  - intros H c Hc. by apply H, list_elem_of_In.
  - intros H c Hc. by apply H, list_elem_of_In.
Qed.

Lemma conflicting_clause_false (m : variable_t → bool)
    (a : list var_assignment_t) (clause : clause_t) :
  model_extends m a → clause_is_conflicting clause a = true →
  clause_true m clause = false.
Proof.
  intros Hext. induction clause as [|l rest IH]; simpl; [done|].
  destruct (bool_decide _) eqn:Hu; [done|]. simpl.
  apply bool_decide_eq_false in Hu.
  destruct (literal_holds _ _) eqn:Hh; [done|]. intros Hrest.
  rewrite (literal_true_holds m a l Hext Hu), Hh. simpl. by apply IH.
Qed.

(** A state that a satisfying assignment extends has no conflicting clause. *)
Lemma consistent_no_conflict (s : dpll_solver_t) :
  consistent s → has_conflict s = false.
Proof.
  intros (m & Hsat & Hext). unfold has_conflict.
  apply some_clause_conflicting_false. intros c Hc.
  destruct (clause_is_conflicting c (assignment (formula s))) eqn:Hconf; [|done].
  rewrite formula_true_elem in Hsat. specialize (Hsat c Hc).
  by rewrite (conflicting_clause_false m _ c Hext Hconf) in Hsat.
Qed.

Lemma model_extends_insert (m : variable_t → bool) (a : list var_assignment_t)
    (var : variable_t) (v : var_assignment_t) :
  1 <= var → model_extends m a →
  (v = VAR_TRUE → m var = true) → (v = VAR_FALSE → m var = false) →
  model_extends m (<[Z.to_nat var := v]> a).
Proof.
  intros Hvar Hext Ht Hf w.
  destruct (read_assignment_insert_cases a (Z.to_nat var) v w)
    as [->|[Heq ->]]; [apply Hext|].
  assert (w = var) as -> by lia. by split.
Qed.

(** The literals of a unit clause other than the unit literal are assigned
    and false. *)
Lemma clause_is_unit_loop_others (a : list var_assignment_t)
    (lits : list literal_t) :
  ∀ (ul0 : literal_t) (uc : Z) (ul : literal_t),
    clause_is_unit_loop lits a ul0 uc = Some ul →
    uc = 0 ∨ uc = 1 →
    (uc = 1 → ul = ul0)
    ∧ ∀ l, l ∈ lits →
           (read_assignment a (literal_variable l) ≠ VAR_UNASSIGNED
            ∧ literal_holds (literal_is_positive l)
                (read_assignment a (literal_variable l)) = false)
           ∨ (uc = 0 ∧ l = ul).
Proof.
  induction lits as [|l1 rest IH]; intros ul0 uc ul; simpl.
  - destruct (Z.eqb_spec uc 1); [|done]. intros [= ->] _.
    split; [done|]. intros l Hl. by apply elem_of_nil in Hl.
  - destruct (literal_holds _ _) eqn:Hh; [done|].
    destruct (bool_decide _) eqn:Hu.
    + destruct (Z.ltb_spec 1 (uc + 1)); [done|]. intros Hloop Huc.
      assert (uc = 0) as -> by lia.
      destruct (IH _ _ _ Hloop ltac:(by right)) as [Hul Hrest].
      specialize (Hul eq_refl) as ->.
      split; [done|]. intros l [->|Hin]%elem_of_cons; [by right|].
      destruct (Hrest l Hin) as [?|[? _]]; [by left|done].
    + apply bool_decide_eq_false in Hu. intros Hloop Huc.
      destruct (IH _ _ _ Hloop Huc) as [Hul Hrest].
      split; [done|]. intros l [->|Hin]%elem_of_cons; [by left|by apply Hrest].
Qed.

Lemma unit_literal_forced (m : variable_t → bool) (a : list var_assignment_t)
    (clause : clause_t) (ul : literal_t) :
  clause_is_unit clause a = Some ul → model_extends m a →
  clause_true m clause = true → literal_true m ul = true.
Proof.
  intros Hunit Hext (l & Hin & Hl)%clause_true_elem.
  destruct (clause_is_unit_loop_others a clause 0 0 ul Hunit ltac:(by left))
    as [_ Hothers].
  destruct (Hothers l Hin) as [[Has Hh]|[_ ->]]; [|done].
  rewrite (literal_true_holds m a l Hext Has) in Hl. congruence.
Qed.

(** ** Steps that take no decision *)

Lemma quiet_step_refl (s : dpll_solver_t) : quiet_step s s.
Proof.
  split_and!; [done|done| |done]. exists []. by rewrite app_nil_r.
Qed.

Lemma quiet_step_trans (s1 s2 s3 : dpll_solver_t) :
  quiet_step s1 s2 → quiet_step s2 s3 → quiet_step s1 s3.
Proof.
  intros (Hc1 & Hf1 & (e1 & Hs1 & He1) & Hm1) (Hc2 & Hf2 & (e2 & Hs2 & He2) & Hm2).
  split_and!; [congruence|congruence| |auto].
  exists (e1 ++ e2). split; [by rewrite Hs2, Hs1, app_assoc|].
  by apply Forall_app.
Qed.

Lemma quiet_step_ext (s s1 s' : dpll_solver_t) :
  quiet_step s s1 →
  config s' = config s1 → formula s' = formula s1 →
  assignments s' = assignments s1 →
  quiet_step s s'.
Proof.
  intros (Hc & Hf & Hst & Hm) Hc' Hf' Ha'. unfold quiet_step, consistent in *.
  rewrite Hc', Hf', Ha'. done.
Qed.

(** A forced assignment: every satisfying assignment that extends the array
    gives the variable this value. *)
Lemma forced_assignment_quiet (s s' : dpll_solver_t) (var : variable_t)
    (v : var_assignment_t) :
  1 <= var →
  (∀ m, formula_true m (formula s) = true →
        model_extends m (assignment (formula s)) →
        ∃ m', formula_true m' (formula s) = true
              ∧ model_extends m' (assignment (formula s))
              ∧ (v = VAR_TRUE → m' var = true)
              ∧ (v = VAR_FALSE → m' var = false)) →
  assign_variable s var v false = (true, s') →
  quiet_step s s'.
Proof.
  intros Hvar Hforced Has.
  apply assign_variable_true in Has as (_ & _ & ->).
  split_and!; [done|done| |].
  - eexists. split; [reflexivity|]. by apply Forall_singleton.
  - intros (m & Hsat & Hext).
    destruct (Hforced m Hsat Hext) as (m' & Hsat' & Hext' & Ht & Hf).
    exists m'. split; [done|]. simpl. by apply model_extends_insert.
Qed.

Lemma unit_propagation_pass_quiet (cls : list clause_t) :
  ∀ (s : dpll_solver_t) (p : bool) r p' s',
    (∀ c, c ∈ cls → c ∈ clauses (formula s)) →
    unit_propagation_pass cls s p = (r, p', s') →
    quiet_step s s'.
Proof.
  induction cls as [|clause rest IH]; intros s p r p' s' Hsub Hpass;
    simpl in Hpass.
  { injection Hpass as <- <- <-. apply quiet_step_refl. }
  assert (Hrest : ∀ c, c ∈ rest → c ∈ clauses (formula s)).
  { intros c Hc. apply Hsub. by right. }
  destruct (clause_is_satisfied clause (assignment (formula s)));
    [by eapply IH|].
  destruct (clause_is_unit clause (assignment (formula s)))
    as [unit_literal|] eqn:Hunit; [|by eapply IH].
  pose proof (clause_is_unit_unassigned _ _ _ Hunit) as Hfree.
  unfold IS_VARIABLE_ASSIGNED in Hpass. rewrite Hfree in Hpass.
  simpl in Hpass.
  set (v := if literal_is_positive unit_literal then VAR_TRUE else VAR_FALSE)
    in *.
  destruct (assign_variable s (literal_variable unit_literal) v false)
    as [[|] s1] eqn:Has.
  - assert (Hq : quiet_step s s1).
    { pose proof Has as (Hne & _)%assign_variable_true.
      pose proof (literal_variable_nonneg unit_literal).
      apply (forced_assignment_quiet s s1 (literal_variable unit_literal) v);
        [lia| |done].
      intros m Hsat Hext. exists m. split_and!; [done|done| |].
      - intros Hv.
        assert (literal_true m unit_literal = true) as Hl.
        { eapply unit_literal_forced; [done|done|].
          rewrite formula_true_elem in Hsat. apply Hsat, Hsub. by left. }
        unfold literal_true, v in *.
        by destruct (literal_is_positive unit_literal).
      - intros Hv.
        assert (literal_true m unit_literal = true) as Hl.
        { eapply unit_literal_forced; [done|done|].
          rewrite formula_true_elem in Hsat. apply Hsat, Hsub. by left. }
        unfold literal_true, v in *.
        destruct (literal_is_positive unit_literal); [done|].
        by apply negb_true_iff. }
    assert (Hq' : quiet_step s
                    (set_formula_modified (incr_propagations s1) true))
      by (by apply (quiet_step_ext s s1)).
    eapply quiet_step_trans; [exact Hq'|].
    eapply IH; [|exact Hpass].
    intros c Hc. simpl. destruct Hq as (_ & -> & _). by apply Hrest.
  - apply assign_variable_false in Has as ->. injection Hpass as <- <- <-.
    apply (quiet_step_ext s s); [apply quiet_step_refl|done|done|done].
Qed.

Lemma unit_propagation_quiet (s : dpll_solver_t) r s' :
  unit_propagation s = Some (r, s') → quiet_step s s'.
Proof.
  unfold unit_propagation. generalize (pass_budget s). intros fuel.
  revert s. induction fuel as [|fuel IH]; intros s; simpl; [done|].
  destruct (unit_propagation_pass (clauses (formula s)) s false)
    as [[r0 p'] s1] eqn:Hpass.
  pose proof (unit_propagation_pass_quiet _ _ _ _ _ _ (λ c Hc, Hc) Hpass) as Hq.
  destruct r0 as [r0|]; [by intros [= _ <-]|].
  destruct p'; [|by intros [= _ <-]].
  intros Hloop. eapply quiet_step_trans; [exact Hq|by apply IH].
Qed.

(** Giving a free variable the polarity of all its occurrences in the live
    clauses turns a satisfying assignment into a satisfying assignment. *)
Lemma pure_assignment_model (cnf : cnf_formula_t) (m : variable_t → bool)
    (var : variable_t) (b : bool) :
  read_assignment (assignment cnf) var = VAR_UNASSIGNED →
  (∀ c l, c ∈ clauses cnf → clause_is_satisfied c (assignment cnf) = false →
          l ∈ c → literal_variable l = var → literal_is_positive l = b) →
  formula_true m cnf = true → model_extends m (assignment cnf) →
  let m' := λ v, if v =? var then b else m v in
  formula_true m' cnf = true ∧ model_extends m' (assignment cnf) ∧ m' var = b.
Proof.
  intros Hfree Hpure Hsat Hext m'.
  assert (Hother : ∀ l, literal_variable l ≠ var →
            literal_true m' l = literal_true m l).
  { intros l Hl. unfold literal_true, m'.
    by destruct (Z.eqb_spec (literal_variable l) var). }
  split_and!.
  - apply formula_true_elem. intros c Hc.
    rewrite formula_true_elem in Hsat. specialize (Hsat c Hc).
    apply clause_true_elem. apply clause_true_elem in Hsat as (l & Hl & Hlt).
    destruct (clause_is_satisfied c (assignment cnf)) eqn:Hcs.
    + apply clause_is_satisfied_true in Hcs as (l' & Hl' & Hh).
      exists l'. split; [done|].
      pose proof (literal_holds_assigned _ _ Hh) as Has.
      rewrite Hother by congruence.
      by rewrite (literal_true_holds m _ l' Hext Has).
    + exists l. split; [done|].
      destruct (decide (literal_variable l = var)) as [Hv|Hv];
        [|by rewrite Hother].
      specialize (Hpure c l Hc Hcs Hl Hv).
      unfold literal_true, m'. rewrite Hpure, Hv, Z.eqb_refl.
      by destruct b.
  - intros w. unfold m'. destruct (Z.eqb_spec w var) as [->|_]; [|apply Hext].
    rewrite Hfree. by split.
  - unfold m'. by rewrite Z.eqb_refl.
Qed.

Lemma pure_literal_loop_quiet (count : nat) :
  ∀ (var : variable_t) (s : dpll_solver_t) (changed : bool),
    1 <= var → quiet_step s (snd (pure_literal_loop count var s changed)).
Proof.
  induction count as [|count IH]; intros var s changed Hvar; simpl.
  { apply quiet_step_refl. }
  destruct (IS_VARIABLE_ASSIGNED s var) eqn:Hassigned.
  { eapply quiet_step_trans; [|apply IH; lia].
    apply (quiet_step_ext s s); [apply quiet_step_refl|done|done|done]. }
  apply unassigned_read in Hassigned.
  assert (Hstep : ∀ (v : var_assignment_t) (b : bool),
            (v = VAR_TRUE → b = true) → (v = VAR_FALSE → b = false) →
            (∀ c l, c ∈ clauses (formula s) →
                    clause_is_satisfied c (assignment (formula s)) = false →
                    l ∈ c → literal_variable l = var →
                    literal_is_positive l = b) →
            quiet_step s
              (set_formula_modified (snd (assign_variable s var v false)) true)).
  { intros v b Ht Hf Hpure.
    destruct (assign_variable s var v false) as [[|] s1] eqn:Has; simpl.
    - apply (quiet_step_ext s s1); [|done|done|done].
      apply (forced_assignment_quiet s s1 var v); [done| |done].
      intros m Hsat Hext.
      destruct (pure_assignment_model (formula s) m var b Hassigned Hpure
                  Hsat Hext) as (Hsat' & Hext' & Hb).
      eexists. split_and!; [exact Hsat'|exact Hext'| |].
      + intros Hv. simpl. rewrite Hb. by apply Ht.
      + intros Hv. simpl. rewrite Hb. by apply Hf.
    - apply assign_variable_false in Has as ->.
      apply (quiet_step_ext s s); [apply quiet_step_refl|done|done|done]. }
  destruct (scan_polarity var (clauses (formula s)) (assignment (formula s))
              false false) as [p n] eqn:Hscan.
  destruct (scan_polarity_spec _ _ _ _ _ _ _ Hscan) as [Hn Hp].
  destruct p, n; simpl.
  - by apply IH; [lia].
  - eapply quiet_step_trans; [|apply IH; lia].
    apply (Hstep VAR_TRUE true); [done|done|]. by destruct (Hn eq_refl).
  - eapply quiet_step_trans; [|apply IH; lia].
    apply (Hstep VAR_FALSE false); [done|done|]. by destruct (Hp eq_refl).
  - by apply IH; [lia].
Qed.

Lemma pure_literal_elimination_quiet (s : dpll_solver_t) :
  quiet_step s (snd (pure_literal_elimination s)).
Proof. by apply pure_literal_loop_quiet. Qed.

(** ** When the heuristic has nothing to propose *)

Lemma literal_frequency_loop_bounds (cls : list clause_t)
    (a : list var_assignment_t) (literal : literal_t) :
  ∀ frequency : Z,
    0 <= frequency →
    frequency + Z.of_nat (length cls) < SIZE_MODULUS →
    let r := literal_frequency_loop cls a literal frequency in
    frequency <= r <= frequency + Z.of_nat (length cls)
    ∧ ((∃ c, c ∈ cls ∧ clause_is_satisfied c a = false ∧ literal ∈ c) →
       frequency < r).
Proof.
  induction cls as [|c rest IH]; intros frequency Hf Hbound; simpl.
  { split; [lia|]. intros (c & Hc & _). by apply elem_of_nil in Hc. }
  simpl in Hbound.
  destruct (clause_is_satisfied c a) eqn:Hsat.
  - destruct (IH frequency) as [Hr Hex]; [lia|lia|]. split; [lia|].
    intros (c' & [->|Hin]%elem_of_cons & Hc' & Hl); [congruence|].
    apply Hex. by exists c'.
  - destruct (clause_has_literal c literal) eqn:Hhas.
    + unfold size_incr. rewrite Z.mod_small by lia.
      destruct (IH (frequency + 1)) as [Hr _]; [lia|lia|]. split; [lia|].
      intros _. lia.
    + destruct (IH frequency) as [Hr Hex]; [lia|lia|]. split; [lia|].
      intros (c' & [->|Hin]%elem_of_cons & Hc' & Hl).
      * apply clause_has_literal_elem in Hl. congruence.
      * apply Hex. by exists c'.
Qed.

(** A variable that occurs in a clause not yet satisfied has a positive total
    frequency. *)
Lemma total_frequency_pos (s : dpll_solver_t) (c : clause_t) (l : literal_t) :
  Z.of_nat (length (clauses (formula s))) < 2 ^ 63 →
  c ∈ clauses (formula s) →
  clause_is_satisfied c (assignment (formula s)) = false →
  l ∈ c →
  0 < total_frequency s (literal_variable l).
Proof.
  intros Hbound Hc Hsat Hl.
  unfold total_frequency, calculate_literal_frequency.
  set (cls := clauses (formula s)) in *.
  set (a := assignment (formula s)) in *.
  set (v := literal_variable l).
  unfold SIZE_MODULUS in *.
  destruct (literal_frequency_loop_bounds cls a v 0) as [Hp Hpx];
    [lia|unfold SIZE_MODULUS; lia|].
  destruct (literal_frequency_loop_bounds cls a (- v) 0) as [Hn Hnx];
    [lia|unfold SIZE_MODULUS; lia|].
  rewrite Z.mod_small by lia.
  assert (l = v ∨ l = - v) as [Hv|Hv].
  { unfold v, literal_variable. destruct (Z.ltb_spec 0 l); lia. }
  - assert (0 < literal_frequency_loop cls a v 0); [|lia].
    apply Hpx. exists c. by rewrite <- Hv.
  - assert (0 < literal_frequency_loop cls a (- v) 0); [|lia].
    apply Hnx. exists c. by rewrite <- Hv.
Qed.

Lemma assigned_variables_satisfied (s : dpll_solver_t) :
  literals_in_range (formula s) →
  (∀ v, 1 <= v <= num_variables (formula s) →
        IS_VARIABLE_ASSIGNED s v = true) →
  has_conflict s = false →
  cnf_is_satisfied (formula s) = true.
Proof.
  intros Hrange Hall Hnc. unfold cnf_is_satisfied, has_conflict in *.
  rewrite all_assigned_decided; [by rewrite Hnc|].
  eapply list.Forall_impl; [exact Hrange|]. intros c Hc. simpl in Hc.
  eapply list.Forall_impl; [exact Hc|]. intros l Hl. simpl in Hl.
  specialize (Hall _ Hl). unfold IS_VARIABLE_ASSIGNED in Hall.
  by apply negb_true_iff, bool_decide_eq_false in Hall.
Qed.

Lemma idle_variables_satisfied (s : dpll_solver_t) :
  literals_in_range (formula s) →
  Z.of_nat (length (clauses (formula s))) < 2 ^ 63 →
  (∀ v, 1 <= v <= num_variables (formula s) →
        IS_VARIABLE_ASSIGNED s v = false → total_frequency s v = 0) →
  has_conflict s = false →
  cnf_is_satisfied (formula s) = true.
Proof.
  intros Hrange Hbound Hidle Hnc. unfold cnf_is_satisfied.
  apply all_clauses_satisfied_true. intros c Hc.
  destruct (clause_is_satisfied c (assignment (formula s))) eqn:Hsat; [done|].
  exfalso. unfold has_conflict in Hnc.
  rewrite some_clause_conflicting_false in Hnc.
  pose proof (Hnc c Hc) as Hlive. apply clause_is_conflicting_false in Hlive.
  destruct Hlive as (l & Hl & [Hfree|Hh]).
  - pose proof (total_frequency_pos s c l Hbound Hc Hsat Hl) as Hpos.
    rewrite Hidle in Hpos; [lia| |by apply unassigned_read].
    by apply (proj1 (literals_in_range_elem (formula s)) Hrange c l).
  - assert (clause_is_satisfied c (assignment (formula s)) = true);
      [|congruence].
    apply clause_is_satisfied_true. by exists l.
Qed.

Lemma exhausted_choice_satisfied (s s0 : dpll_solver_t) :
  literals_in_range (formula s) →
  num_variables (formula s) <= INT32_MAX →
  Z.of_nat (length (clauses (formula s))) < 2 ^ 63 →
  has_conflict s = false →
  choose_decision_variable s = (0, s0) →
  cnf_is_satisfied (formula s) = true.
Proof.
  intros Hrange Hn Hbound Hnc. unfold choose_decision_variable.
  set (n := num_variables (formula s)) in *.
  destruct (decision_strategy (config s)).
  - intros [= Hr _]. apply assigned_variables_satisfied; [done| |done].
    unfold decision_first_unassigned in Hr. fold n in Hr |- *.
    destruct (first_unassigned_loop_spec s (Z.to_nat n) 1)
      as [[_ Hall]|(Hlo & _)]; [|lia].
    intros v Hv. apply Hall. lia.
  - intros [= Hr _]. apply idle_variables_satisfied; [done|done| |done].
    destruct (decision_most_frequent_spec s) as [[_ Hall]|(Hlo & _)]; [done|lia].
  - intros [= Hr _]. apply assigned_variables_satisfied; [done| |done].
    unfold decision_jeroslow_wang in Hr. fold n in Hr |- *.
    destruct (jeroslow_wang_var_loop_spec s (Z.to_nat n) 1 0 double_minus_one
                ltac:(done))
      as [[_ Hall]|(Hlo & _)]; [|lia].
    intros v Hv. destruct (IS_VARIABLE_ASSIGNED s v) eqn:Hv'; [done|].
    exfalso. specialize (Hall v ltac:(lia) Hv').
    rewrite double_minus_one_below in Hall; [done|].
    apply calculate_jeroslow_wang_score_nonneg.
  - intros Hrand. apply assigned_variables_satisfied; [done| |done].
    intros v Hv. destruct (IS_VARIABLE_ASSIGNED s v) eqn:Hv'; [done|].
    exfalso.
    assert (Hin : v ∈ collect_unassigned (Z.to_nat n) 1 s []).
    { apply collect_unassigned_spec. right. split; [lia|done]. }
    destruct (decision_random_pick s Hn) as [[Hnil _]|(w & Hw & Hpick)].
    + fold n in Hnil. rewrite Hnil in Hin. by apply elem_of_nil in Hin.
    + rewrite Hpick in Hrand. injection Hrand as -> _.
      fold n in Hw. apply collect_unassigned_spec in Hw
        as [?%elem_of_nil|[? _]]; [done|lia].
Qed.

Lemma dpll_decide_not_unsat (s : dpll_solver_t) (progress_made : bool) :
  literals_in_range (formula s) →
  num_variables (formula s) <= INT32_MAX →
  Z.of_nat (length (clauses (formula s))) < 2 ^ 63 →
  has_conflict s = false →
  fst (dpll_decide s progress_made) ≠ Some SOLVER_UNSATISFIABLE.
Proof.
  intros Hrange Hn Hbound Hnc. unfold dpll_decide.
  destruct (choose_decision_variable s) as [var s0] eqn:Hchoose.
  destruct (Z.eqb_spec var 0) as [->|Hnz].
  { simpl. unfold is_formula_satisfied.
    pose proof (choose_decision_variable_formula s) as Hf.
    rewrite Hchoose in Hf. simpl in Hf. rewrite Hf.
    by rewrite (exhausted_choice_satisfied s s0). }
  destruct (assign_variable _ _ _ _) as [[|] s1]; [|done].
  destruct ((0 <? _) && _); [done|].
  destruct (enable_restarts _ && _); simpl; done.
Qed.

(** X15.  The driver asks the heuristic for a variable only in states without
    a conflicting clause.  When the heuristic then answers [0], every clause
    is satisfied: the branch of the driver that reports
    [SOLVER_UNSATISFIABLE] for "no free variable, formula not satisfied" is
    never taken.  This holds for the four strategies, the most-frequent one
    included, which may answer [0] while variables are still unassigned. *)
Theorem exhausted_choice_is_satisfied (s : dpll_solver_t)
    (progress_made : bool) :
  literals_in_range (formula s) →
  num_variables (formula s) <= INT32_MAX →
  Z.of_nat (length (clauses (formula s))) < 2 ^ 63 →
  has_conflict s = false →
  (fst (choose_decision_variable s) = 0 → is_formula_satisfied s = true)
  ∧ fst (dpll_decide s progress_made) ≠ Some SOLVER_UNSATISFIABLE.
Proof.
  intros Hrange Hn Hbound Hnc. split.
  - destruct (choose_decision_variable s) as [var s0] eqn:Hchoose. simpl.
    intros ->. unfold is_formula_satisfied.
    by eapply exhausted_choice_satisfied.
  - by apply dpll_decide_not_unsat.
Qed.

Lemma exhausted_choice_is_satisfied_witness :
  literals_in_range (formula idle_variable_example)
  ∧ fst (choose_decision_variable idle_variable_example) = 0
  ∧ is_formula_satisfied idle_variable_example = true
  ∧ fst (dpll_decide idle_variable_example false)
    ≠ Some SOLVER_UNSATISFIABLE.
Proof.
  assert (H1 : literals_in_range (formula idle_variable_example)).
  { apply (bool_decide_unpack _). vm_compute. exact I. }
  assert (H2 : fst (choose_decision_variable idle_variable_example) = 0)
    by (by vm_compute).
  destruct (exhausted_choice_is_satisfied idle_variable_example false)
    as [Hsat Hdec]; [done|by vm_compute|by vm_compute|by vm_compute|].
  split_and!; [done|done|by apply Hsat|done].
Defined.

(** ** The answer [SOLVER_UNSATISFIABLE] *)

Lemma assign_variable_config (s : dpll_solver_t) (var : variable_t)
    (v : var_assignment_t) (d : bool) :
  config (snd (assign_variable s var v d)) = config s.
Proof. unfold assign_variable. by destruct (_ || _). Qed.

Lemma unwind_top_config (s : dpll_solver_t) : config (unwind_top s) = config s.
Proof. unfold unwind_top. by destruct (stack_top (assignments s)). Qed.

Lemma unwind_above_config (count : nat) (s : dpll_solver_t) :
  config (unwind_above count s) = config s.
Proof.
  revert s. induction count as [|count IH]; intros s; simpl; [done|].
  by rewrite IH, unwind_top_config.
Qed.

Lemma backtrack_config (s : dpll_solver_t) :
  config (snd (backtrack s)) = config s.
Proof.
  unfold backtrack.
  destruct (stack_size (assignments s) =? 0)%nat; [done|].
  destruct (find_last_decision _ _) as [i|]; [|done].
  destruct (stack_top _) as [d|]; simpl.
  - by rewrite assign_variable_config, unwind_top_config, unwind_above_config.
  - by rewrite unwind_above_config.
Qed.

Lemma choose_decision_variable_config (s : dpll_solver_t) :
  config (snd (choose_decision_variable s)) = config s.
Proof.
  unfold choose_decision_variable.
  destruct (decision_strategy (config s)); try done.
  unfold decision_random. destruct (_ =? 0); [done|].
  by destruct (random_int _ _ _).
Qed.

Lemma refutation_invariant_ext (s s' : dpll_solver_t) :
  formula s' = formula s → assignments s' = assignments s →
  enable_restarts (config s') = enable_restarts (config s) →
  refutation_invariant s → refutation_invariant s'.
Proof.
  intros Hf Ha Hc (Hinv & Hrange & Hn & Hb & Hr & Himp).
  unfold refutation_invariant, implied, consistent in *.
  rewrite Hf, Ha, Hc.
  split_and!; try done. by apply (search_invariant_ext s).
Qed.

(** After a step that takes no decision. *)
Lemma quiet_refutation (s s' : dpll_solver_t) :
  refutation_invariant s → same_shape s s' → search_invariant s' →
  quiet_step s s' → refutation_invariant s'.
Proof.
  intros (Hinv & Hrange & Hn & Hb & Hr & Himp) Hsh Hinv'
    (Hc & Hcl & (extra & Hst & Hextra) & Hcons).
  pose proof Hsh as (_ & Hnum & _).
  split_and!; [done|by eapply literals_in_range_shape|by rewrite Hnum
               |by rewrite Hcl|by rewrite Hc|].
  intros Hnd (m & Hsat). apply Hcons, Himp.
  - unfold no_decision in *. rewrite Hst in Hnd.
    by apply Forall_app in Hnd as [? _].
  - exists m. by rewrite <- (formula_true_clauses m (formula s) (formula s')).
Qed.

(** With a decision on the stack. *)
Lemma decided_refutation (s s' : dpll_solver_t) :
  refutation_invariant s → same_shape s s' → search_invariant s' →
  enable_restarts (config s') = false →
  Exists (λ e, is_decision e = true) (stack (assignments s')) →
  refutation_invariant s'.
Proof.
  intros (Hinv & Hrange & Hn & Hb & Hr & Himp) Hsh Hinv' Hc Hex.
  pose proof Hsh as (Hcl & Hnum & _).
  split_and!; [done|by eapply literals_in_range_shape|by rewrite Hnum
               |by rewrite Hcl|done|].
  intros Hnd. exfalso.
  apply list.Exists_exists in Hex as (e & He & Hd).
  unfold no_decision in Hnd. rewrite list.Forall_forall in Hnd.
  specialize (Hnd e He). congruence.
Qed.

Lemma backtrack_false (s s' : dpll_solver_t) :
  search_invariant s → backtrack s = (false, s') →
  s' = s ∧ no_decision (assignments s).
Proof.
  intros Hinv. unfold backtrack.
  destruct (stack_size (assignments s) =? 0)%nat eqn:Hsize.
  { intros [= <-]. split; [done|]. apply Nat.eqb_eq in Hsize.
    unfold no_decision, stack_size in *.
    apply nil_length_inv in Hsize. by rewrite Hsize. }
  destruct (find_last_decision _ _) as [i|] eqn:Hfind.
  - destruct (find_last_decision_some _ _ _ Hfind) as (_ & (d & Hd & Hdec) & _).
    assert (Hex : Exists (λ e, is_decision e = true) (stack (assignments s))).
    { apply list.Exists_exists. exists d. split; [|done].
      apply list_elem_of_lookup. by exists i. }
    pose proof (backtrack_returns_true s (proj1 Hinv) Hex) as Htrue.
    unfold backtrack in Htrue. rewrite Hsize, Hfind in Htrue.
    intros Hbt. rewrite Hbt in Htrue. done.
  - intros [= <-]. split; [done|].
    apply list.Forall_forall. intros e [j Hj]%list_elem_of_lookup.
    apply (find_last_decision_none _ _ Hfind j e); [|done].
    by eapply lookup_lt_Some.
Qed.

(** A conflict in a state without decisions refutes the formula. *)
Lemma conflict_refutes (s : dpll_solver_t) :
  implied s → no_decision (assignments s) → has_conflict s = true →
  ∀ m, formula_true m (formula s) = false.
Proof.
  intros Himp Hnd Hconf m.
  destruct (formula_true m (formula s)) eqn:Hsat; [|done].
  assert (consistent s) as Hcons by (apply Himp; [done|by exists m]).
  apply consistent_no_conflict in Hcons. congruence.
Qed.

Lemma backtrack_or_unsat_refutation (s : dpll_solver_t) :
  refutation_invariant s → has_conflict s = true →
  refutation_invariant (snd (backtrack_or_unsat s))
  ∧ (fst (backtrack_or_unsat s) = Some SOLVER_UNSATISFIABLE →
     ∀ m, formula_true m (formula s) = false).
Proof.
  intros Href Hconf. pose proof Href as (Hinv & _ & _ & _ & Hr & Himp).
  pose proof (backtrack_shape s) as Hsh.
  pose proof (backtrack_invariant s Hinv) as Hinv'.
  pose proof (backtrack_config s) as Hc.
  unfold backtrack_or_unsat.
  destruct (backtrack s) as [[|] s'] eqn:Hbt; simpl in *.
  - split; [|done].
    apply (decided_refutation s); [done|done|done|by rewrite Hc|].
    destruct (backtrack_true_spec _ _ Hbt)
      as (below & d & above & flipped & level & _ & _ & _ & Hst' & _).
    rewrite Hst'. apply Exists_app. right. by left.
  - destruct (backtrack_false s s' Hinv Hbt) as [-> Hnd].
    split; [done|]. intros _. by apply conflict_refutes.
Qed.

Lemma dpll_decide_refutation (s : dpll_solver_t) (progress_made : bool) :
  refutation_invariant s → has_conflict s = false →
  refutation_invariant (snd (dpll_decide s progress_made))
  ∧ fst (dpll_decide s progress_made) ≠ Some SOLVER_UNSATISFIABLE.
Proof.
  intros Href Hnc. pose proof Href as (Hinv & Hrange & Hn & Hb & Hr & Himp).
  split; [|by apply dpll_decide_not_unsat].
  destruct (dpll_decide_sound s progress_made) as [Hsh _].
  pose proof (dpll_decide_invariant s progress_made Hinv) as Hinv'.
  unfold dpll_decide in *.
  pose proof (choose_decision_variable_config s) as Hc0.
  destruct (choose_decision_variable s) as [var s0] eqn:Hchoose.
  destruct (choose_decision_variable_free _ _ _ Hchoose) as (Hf0 & Ha0 & _).
  simpl in Hc0.
  destruct (Z.eqb_spec var 0) as [->|Hnz].
  { simpl. apply (refutation_invariant_ext s); [done|done|by rewrite Hc0|done]. }
  pose proof (assign_variable_config s0 var (choose_decision_value s0 var) true)
    as Hc1.
  destruct (assign_variable s0 var (choose_decision_value s0 var) true)
    as [[|] s1] eqn:Has; simpl in *.
  - assert (Hex : Exists (λ e, is_decision e = true)
                    (stack (assignments s1))).
    { apply assign_variable_true in Has as (_ & _ & ->). simpl.
      apply Exists_app. right. by left. }
    rewrite Hc1, Hc0, Hr in *. simpl in *.
    destruct ((0 <? _) && _); simpl in *;
      by apply (decided_refutation s); [| | |simpl; congruence|].
  - apply assign_variable_false in Has as ->.
    apply (refutation_invariant_ext s); [done|done|by rewrite Hc0|done].
Qed.

Lemma dpll_pure_stage_refutation (s : dpll_solver_t) (progress_made : bool) :
  refutation_invariant s → has_conflict s = false →
  refutation_invariant (snd (dpll_pure_stage s progress_made))
  ∧ (fst (dpll_pure_stage s progress_made) = Some SOLVER_UNSATISFIABLE →
     ∀ m, formula_true m (formula s) = false).
Proof.
  intros Href Hnc. unfold dpll_pure_stage.
  destruct (enable_pure_literal (config s)).
  2:{ destruct (dpll_decide_refutation s progress_made Href Hnc) as [? ?].
      by split. }
  pose proof (pure_literal_elimination_quiet s) as Hq.
  pose proof (pure_literal_elimination_invariant s (proj1 Href)) as Hinv1.
  destruct (pure_literal_elimination s) as [eliminated s1] eqn:Hpure.
  destruct (pure_literal_elimination_frame _ _ _ Hpure) as [(Hsh & _) _].
  simpl in *.
  pose proof (quiet_refutation s s1 Href Hsh Hinv1 Hq) as Href1.
  destruct (has_conflict s1) eqn:Hconf.
  - destruct (backtrack_or_unsat_refutation s1 Href1 Hconf) as [? Hun].
    split; [done|]. intros Hr m.
    rewrite <- (formula_true_clauses m (formula s) (formula s1)); [by apply Hun|].
    by destruct Hsh.
  - destruct (dpll_decide_refutation s1 (eliminated || progress_made)
                Href1 Hconf) as [? ?]. by split.
Qed.

Lemma dpll_iteration_refutation (s : dpll_solver_t) r s' :
  refutation_invariant s → dpll_iteration s = Some (r, s') →
  refutation_invariant s'
  ∧ (r = Some SOLVER_UNSATISFIABLE → ∀ m, formula_true m (formula s) = false).
Proof.
  intros Href. unfold dpll_iteration.
  destruct (is_formula_satisfied s); [by intros [= <- <-]|].
  destruct (has_conflict s) eqn:Hconf.
  { destruct (backtrack_or_unsat_refutation s Href Hconf) as [? ?].
    destruct (backtrack_or_unsat s). by intros [= <- <-]. }
  destruct (enable_unit_propagation (config s)).
  - destruct (unit_propagation s) as [[r1 s1]|] eqn:Hup; [|done]. simpl.
    pose proof (unit_propagation_quiet _ _ _ Hup) as Hq.
    pose proof (unit_propagation_invariant _ _ _ (proj1 Href) Hup) as Hinv1.
    destruct (unit_propagation_total s (proj1 (proj1 (proj1 Href))))
      as (r1' & s1' & Hup' & (Hsh & _)).
    rewrite Hup in Hup'. injection Hup' as <- <-.
    pose proof (quiet_refutation s s1 Href Hsh Hinv1 Hq) as Href1.
    assert (Hmove : (∀ m, formula_true m (formula s1) = false) →
              ∀ m, formula_true m (formula s) = false).
    { intros Hun m.
      rewrite <- (formula_true_clauses m (formula s) (formula s1));
        [done|by destruct Hsh]. }
    destruct (has_conflict s1) eqn:Hconf1.
    + destruct (backtrack_or_unsat_refutation s1 Href1 Hconf1) as [? ?].
      destruct (backtrack_or_unsat s1). intros [= <- <-]. split; [done|].
      intros Hr. by apply Hmove; auto.
    + set (p := (_ || _)).
      destruct (dpll_pure_stage_refutation s1 p Href1 Hconf1) as [? ?].
      destruct (dpll_pure_stage s1 p). intros [= <- <-]. split; [done|].
      intros Hr. by apply Hmove; auto.
  - destruct (dpll_pure_stage_refutation s false Href Hconf) as [? ?].
    destruct (dpll_pure_stage s false). by intros [= <- <-].
Qed.

Lemma dpll_loop_refutation (remaining : nat) :
  ∀ (iterations : nat) (clock : nat → Q) (s : dpll_solver_t) s',
    refutation_invariant s →
    dpll_loop remaining iterations clock s = Some (SOLVER_UNSATISFIABLE, s') →
    ∀ m, formula_true m (formula s) = false.
Proof.
  induction remaining as [|n IH]; intros iterations clock s s' Href; simpl;
    [done|].
  destruct (solver_is_timeout s (clock (S iterations))); [done|].
  destruct (dpll_iteration s) as [[r0 s1]|] eqn:Hit; [|done]. simpl.
  destruct (dpll_iteration_refutation _ _ _ Href Hit) as [Href1 Hun].
  destruct r0 as [r0|].
  - intros [= -> <-]. by apply Hun.
  - intros Hloop m.
    destruct (dpll_iteration_sound s (proj1 (proj1 (proj1 Href))))
      as (r0' & s1' & Hit' & (Hcl & _) & _).
    rewrite Hit in Hit'. injection Hit' as <- <-.
    rewrite <- (formula_true_clauses m (formula s) (formula s1)) by done.
    by eapply IH.
Qed.

Lemma preprocess_loop_refutation (fuel : nat) :
  ∀ (s : dpll_solver_t) ok s',
    refutation_invariant s → no_decision (assignments s) →
    preprocess_loop fuel s = Some (ok, s') →
    refutation_invariant s' ∧ no_decision (assignments s')
    ∧ clauses (formula s') = clauses (formula s).
Proof.
  induction fuel as [|fuel IH]; intros s ok s' Href Hnd; simpl; [done|].
  pose proof (pure_literal_elimination_quiet s) as Hq1.
  pose proof (pure_literal_elimination_invariant s (proj1 Href)) as Hinv1.
  destruct (pure_literal_elimination s) as [eliminated s1] eqn:Hpure.
  destruct (pure_literal_elimination_frame _ _ _ Hpure) as [(Hsh1 & _) _].
  simpl in *.
  pose proof (quiet_refutation s s1 Href Hsh1 Hinv1 Hq1) as Href1.
  destruct (unit_propagation s1) as [[r2 s2]|] eqn:Hup; [|done]. simpl.
  pose proof (unit_propagation_quiet _ _ _ Hup) as Hq2.
  pose proof (unit_propagation_invariant _ _ _ Hinv1 Hup) as Hinv2.
  destruct (unit_propagation_total s1 (proj1 (proj1 Hinv1)))
    as (r2' & s2' & Hup' & (Hsh2 & _)).
  rewrite Hup in Hup'. injection Hup' as <- <-.
  pose proof (quiet_refutation s1 s2 Href1 Hsh2 Hinv2 Hq2) as Href2.
  assert (Hnd2 : no_decision (assignments s2)).
  { destruct Hq1 as (_ & _ & (e1 & Hs1 & He1) & _).
    destruct Hq2 as (_ & _ & (e2 & Hs2 & He2) & _).
    unfold no_decision in *. rewrite Hs2, Hs1.
    by repeat (apply Forall_app; split). }
  assert (Hcl : clauses (formula s2) = clauses (formula s)).
  { destruct Hsh1 as (H1 & _), Hsh2 as (H2 & _). congruence. }
  destruct (has_conflict s2); [by intros [= _ <-]|].
  destruct (_ || _); [|by intros [= _ <-]].
  intros Hloop. destruct (IH _ _ _ Href2 Hnd2 Hloop) as (? & ? & Hcl').
  split_and!; [done|done|congruence].
Qed.

Lemma read_fresh_assignment (a : list var_assignment_t) (v : variable_t) :
  Forall (λ x, x = VAR_UNASSIGNED) a → read_assignment a v = VAR_UNASSIGNED.
Proof.
  intros Hall. unfold read_assignment. rewrite list_lookup_total_alt.
  destruct (a !! Z.to_nat v) as [x|] eqn:Hx; [|done]. simpl.
  rewrite list.Forall_forall in Hall. apply Hall.
  by eapply list_elem_of_lookup_2.
Qed.

Lemma refutation_invariant_create (f : cnf_formula_t) (c : solver_config_t)
    (seed : Z) :
  cnf_allocated f → literals_in_range f →
  Forall (λ x, x = VAR_UNASSIGNED) (assignment f) →
  num_variables f <= INT32_MAX →
  Z.of_nat (length (clauses f)) < 2 ^ 63 →
  enable_restarts c = false →
  refutation_invariant (solver_create_with_config f c seed).
Proof.
  intros Hal Hrange Hfresh Hn Hb Hr.
  split_and!; [by apply search_invariant_create|done|done|done|done|].
  intros _ (m & Hsat). exists m. split; [done|]. intros v. simpl.
  by rewrite (read_fresh_assignment _ v Hfresh).
Qed.

(** The answer [SOLVER_UNSATISFIABLE] from a state without decisions. *)
Lemma solver_solve_refutation (clock : nat → Q) (s s' : dpll_solver_t) :
  refutation_invariant s →
  no_decision (assignments s) →
  solver_solve clock s = Some (SOLVER_UNSATISFIABLE, s') →
  ∀ m, formula_true m (formula s) = false.
Proof.
  intros Href Hnd.
  assert (Hsearch : ∀ s0 : dpll_solver_t,
            refutation_invariant s0 →
            dpll_algorithm clock (set_config s0 (install_limits (config s0)))
            = Some (SOLVER_UNSATISFIABLE, s') →
            ∀ m, formula_true m (formula s0) = false).
  { intros s0 Href0 Hrun.
    apply (dpll_loop_refutation max_iterations 0 clock
             (set_config s0 (install_limits (config s0))) s'); [|done].
    by apply (refutation_invariant_ext s0). }
  unfold solver_solve.
  destruct (enable_preprocessing (config s)); [|by apply Hsearch].
  unfold preprocess_formula.
  destruct (preprocess_loop (pass_budget s) s) as [[ok s1]|] eqn:Hpre; [|done].
  destruct (preprocess_loop_refutation _ _ _ _ Href Hnd Hpre)
    as (Href1 & Hnd1 & Hcl).
  assert (Hmove : (∀ m, formula_true m (formula s1) = false) →
            ∀ m, formula_true m (formula s) = false).
  { intros Hun m.
    by rewrite <- (formula_true_clauses m (formula s) (formula s1)). }
  simpl. destruct (negb ok); [done|].
  destruct (length (clauses (formula s1)) =? 0)%nat; [done|].
  destruct (has_conflict s1) eqn:Hconf.
  - intros _. apply Hmove. apply conflict_refutes; [|done|done].
    by destruct Href1 as (_ & _ & _ & _ & _ & ?).
  - intros Hrun. by apply Hmove, Hsearch.
Qed.

(** X16.  [SOLVER_UNSATISFIABLE] is a sound answer.  For a formula as the
    parser delivers it (allocated, literals in range, nothing assigned yet)
    and a configuration without restarts, which is what [main.c] passes, an
    answer [SOLVER_UNSATISFIABLE] of [solver_solve] means that no assignment
    of the variables makes every clause true. *)
Theorem solver_unsat_sound (clock : nat → Q) (f : cnf_formula_t)
    (c : solver_config_t) (seed : Z) (s' : dpll_solver_t) :
  cnf_allocated f → literals_in_range f →
  Forall (λ x, x = VAR_UNASSIGNED) (assignment f) →
  num_variables f <= INT32_MAX →
  Z.of_nat (length (clauses f)) < 2 ^ 63 →
  enable_restarts c = false →
  solver_solve clock (solver_create_with_config f c seed)
  = Some (SOLVER_UNSATISFIABLE, s') →
  ∀ m, formula_true m f = false.
Proof.
  intros Hal Hrange Hfresh Hn Hb Hr Hrun.
  apply (solver_solve_refutation clock (solver_create_with_config f c seed) s');
    [|constructor|done].
  by apply refutation_invariant_create.
Qed.

Lemma solver_unsat_sound_witness :
  solver_solve still_clock
    (solver_create_with_config contradictory_units
       (cli_config DECISION_FIRST_UNASSIGNED) 1)
  = Some (SOLVER_UNSATISFIABLE,
          mk_solver
            (set_assignment contradictory_units [VAR_UNASSIGNED; VAR_TRUE])
            (mk_stack [mk_entry 1 VAR_TRUE 0 false] 0)
            (mk_stats 0 1 0 0) (cli_config DECISION_FIRST_UNASSIGNED)
            [false; false] true 0 1)
  ∧ ∀ m, formula_true m contradictory_units = false.
Proof.
  assert (Hrun : solver_solve still_clock
                   (solver_create_with_config contradictory_units
                      (cli_config DECISION_FIRST_UNASSIGNED) 1)
                 = Some (SOLVER_UNSATISFIABLE,
                         mk_solver
                           (set_assignment contradictory_units
                              [VAR_UNASSIGNED; VAR_TRUE])
                           (mk_stack [mk_entry 1 VAR_TRUE 0 false] 0)
                           (mk_stats 0 1 0 0)
                           (cli_config DECISION_FIRST_UNASSIGNED)
                           [false; false] true 0 1))
    by (by vm_compute).
  split; [done|].
  eapply (solver_unsat_sound still_clock contradictory_units
            (cli_config DECISION_FIRST_UNASSIGNED) 1); [| | | | | |exact Hrun].
  - reflexivity.
  - apply (bool_decide_unpack _). vm_compute. exact I.
  - apply (bool_decide_unpack _). vm_compute. exact I.
  - by vm_compute.
  - by vm_compute.
  - reflexivity.
Defined.

(** ** No refutation once a decision has been taken *)

Lemma quiet_decided (s s' : dpll_solver_t) :
  decided_state s → same_shape s s' → search_invariant s' →
  quiet_step s s' → decided_state s'.
Proof.
  intros [Href Hex] Hsh Hinv Hq. split; [by eapply quiet_refutation|].
  destruct Hq as (_ & _ & (extra & -> & _) & _). apply Exists_app. by left.
Qed.

Lemma backtrack_or_unsat_decided (s : dpll_solver_t) :
  decided_state s →
  decided_state (snd (backtrack_or_unsat s))
  ∧ fst (backtrack_or_unsat s) = None.
Proof.
  intros [Href Hex]. pose proof Href as (Hinv & _ & _ & _ & Hr & _).
  pose proof (backtrack_returns_true s (proj1 Hinv) Hex) as Htrue.
  pose proof (backtrack_shape s) as Hsh.
  pose proof (backtrack_invariant s Hinv) as Hinv'.
  pose proof (backtrack_config s) as Hc.
  unfold backtrack_or_unsat.
  destruct (backtrack s) as [[|] s'] eqn:Hbt; [|done]. simpl in *.
  split; [|done].
  assert (Hex' : Exists (λ e, is_decision e = true) (stack (assignments s'))).
  { destruct (backtrack_true_spec _ _ Hbt)
      as (below & d & above & flipped & level & _ & _ & _ & Hst' & _).
    rewrite Hst'. apply Exists_app. right. by left. }
  split; [|done]. apply (decided_refutation s); [done|done|done|by rewrite Hc|done].
Qed.

Lemma dpll_decide_decided (s : dpll_solver_t) (progress_made : bool) :
  decided_state s → has_conflict s = false →
  decided_state (snd (dpll_decide s progress_made))
  ∧ fst (dpll_decide s progress_made) ≠ Some SOLVER_UNSATISFIABLE.
Proof.
  intros [Href Hex] Hnc.
  destruct (dpll_decide_refutation s progress_made Href Hnc) as [Href' Hr].
  split; [|done]. split; [done|].
  pose proof Href as (_ & _ & _ & _ & Hoff & _).
  clear Href' Hr. unfold dpll_decide.
  pose proof (choose_decision_variable_config s) as Hc0.
  destruct (choose_decision_variable s) as [var s0] eqn:Hchoose.
  destruct (choose_decision_variable_free _ _ _ Hchoose) as (_ & Ha0 & _).
  simpl in Hc0.
  destruct (var =? 0); [simpl; by rewrite Ha0|].
  pose proof (assign_variable_config s0 var (choose_decision_value s0 var) true)
    as Hc1.
  destruct (assign_variable s0 var (choose_decision_value s0 var) true)
    as [[|] s1] eqn:Has; simpl in *.
  - assert (Hex1 : Exists (λ e, is_decision e = true)
                     (stack (assignments s1))).
    { apply assign_variable_true in Has as (_ & _ & ->). simpl.
      apply Exists_app. right. by left. }
    rewrite Hc1, Hc0, Hoff. simpl. by destruct ((0 <? _) && _).
  - apply assign_variable_false in Has as ->. by rewrite Ha0.
Qed.

Lemma dpll_pure_stage_decided (s : dpll_solver_t) (progress_made : bool) :
  decided_state s → has_conflict s = false →
  decided_state (snd (dpll_pure_stage s progress_made))
  ∧ fst (dpll_pure_stage s progress_made) ≠ Some SOLVER_UNSATISFIABLE.
Proof.
  intros Hdec Hnc. unfold dpll_pure_stage.
  destruct (enable_pure_literal (config s));
    [|by apply dpll_decide_decided].
  pose proof (pure_literal_elimination_quiet s) as Hq.
  pose proof (pure_literal_elimination_invariant s (proj1 (proj1 Hdec)))
    as Hinv1.
  destruct (pure_literal_elimination s) as [eliminated s1] eqn:Hpure.
  destruct (pure_literal_elimination_frame _ _ _ Hpure) as [(Hsh & _) _].
  simpl in *.
  pose proof (quiet_decided s s1 Hdec Hsh Hinv1 Hq) as Hdec1.
  destruct (has_conflict s1) eqn:Hconf.
  - destruct (backtrack_or_unsat_decided s1 Hdec1) as [? Hr].
    split; [done|]. by rewrite Hr.
  - by apply dpll_decide_decided.
Qed.

Lemma dpll_iteration_decided (s : dpll_solver_t) r s' :
  decided_state s → dpll_iteration s = Some (r, s') →
  decided_state s' ∧ r ≠ Some SOLVER_UNSATISFIABLE.
Proof.
  intros Hdec. unfold dpll_iteration.
  destruct (is_formula_satisfied s); [by intros [= <- <-]|].
  destruct (has_conflict s) eqn:Hconf.
  { destruct (backtrack_or_unsat_decided s Hdec) as [? Hr].
    destruct (backtrack_or_unsat s). simpl in Hr. subst. by intros [= <- <-]. }
  destruct (enable_unit_propagation (config s)).
  - destruct (unit_propagation s) as [[r1 s1]|] eqn:Hup; [|done]. simpl.
    pose proof (unit_propagation_quiet _ _ _ Hup) as Hq.
    pose proof (unit_propagation_invariant _ _ _ (proj1 (proj1 Hdec)) Hup)
      as Hinv1.
    destruct (unit_propagation_total s (proj1 (proj1 (proj1 (proj1 Hdec)))))
      as (r1' & s1' & Hup' & (Hsh & _)).
    rewrite Hup in Hup'. injection Hup' as <- <-.
    pose proof (quiet_decided s s1 Hdec Hsh Hinv1 Hq) as Hdec1.
    destruct (has_conflict s1) eqn:Hconf1.
    + destruct (backtrack_or_unsat_decided s1 Hdec1) as [? Hr].
      destruct (backtrack_or_unsat s1). simpl in Hr. subst.
      by intros [= <- <-].
    + set (p := (_ || _)).
      destruct (dpll_pure_stage_decided s1 p Hdec1 Hconf1) as [? ?].
      destruct (dpll_pure_stage s1 p). by intros [= <- <-].
  - destruct (dpll_pure_stage_decided s false Hdec Hconf) as [? ?].
    destruct (dpll_pure_stage s false). by intros [= <- <-].
Qed.

Lemma dpll_loop_decided (remaining : nat) :
  ∀ (iterations : nat) (clock : nat → Q) (s : dpll_solver_t) r s',
    decided_state s →
    dpll_loop remaining iterations clock s = Some (r, s') →
    r ≠ SOLVER_UNSATISFIABLE.
Proof.
  induction remaining as [|n IH]; intros iterations clock s r s' Hdec; simpl.
  { by intros [= <- _]. }
  destruct (solver_is_timeout s (clock (S iterations)));
    [by intros [= <- _]|].
  destruct (dpll_iteration s) as [[r0 s1]|] eqn:Hit; [|done]. simpl.
  destruct (dpll_iteration_decided _ _ _ Hdec Hit) as [Hdec1 Hr].
  destruct r0 as [r0|]; [|by apply IH].
  intros [= <- _]. congruence.
Qed.

(** X17.  Once a decision is on the stack the driver never answers
    [SOLVER_UNSATISFIABLE] (restarts being off): [backtrack] puts the flipped
    decision back as a decision, so the stack never runs out of decisions,
    and the search of an unsatisfiable formula that needed a decision goes on
    until the iteration limit, the decision cap or the timeout stops it. *)
Theorem no_refutation_after_decision (clock : nat → Q) (s : dpll_solver_t)
    (r : solver_result_t) (s' : dpll_solver_t) :
  search_invariant s →
  literals_in_range (formula s) →
  num_variables (formula s) <= INT32_MAX →
  Z.of_nat (length (clauses (formula s))) < 2 ^ 63 →
  enable_restarts (config s) = false →
  Exists (λ e, is_decision e = true) (stack (assignments s)) →
  dpll_algorithm clock s = Some (r, s') →
  r ≠ SOLVER_UNSATISFIABLE.
Proof.
  intros Hinv Hrange Hn Hb Hr Hex.
  apply dpll_loop_decided. split; [|done].
  split_and!; try done. intros Hnd. exfalso.
  apply list.Exists_exists in Hex as (e & He & Hd).
  unfold no_decision in Hnd. rewrite list.Forall_forall in Hnd.
  specialize (Hnd e He). congruence.
Qed.

Lemma no_refutation_after_decision_witness :
  Exists (λ e, is_decision e = true) (stack (assignments conflict_example))
  ∧ (∀ m, formula_true m (formula conflict_example) = false)
  ∧ ∃ s', dpll_algorithm still_clock conflict_example
          = Some (SOLVER_TIMEOUT, s')
          ∧ SOLVER_TIMEOUT ≠ SOLVER_UNSATISFIABLE.
Proof.
  assert (Hex : Exists (λ e, is_decision e = true)
                  (stack (assignments conflict_example))).
  { apply (bool_decide_unpack _). vm_compute. exact I. }
  split; [done|]. split.
  { intros m. vm_compute. by destruct (m 1), (m 2). }
  destruct (dpll_algorithm still_clock conflict_example) as [[r s']|] eqn:Hrun;
    [|by vm_compute in Hrun].
  assert (r = SOLVER_TIMEOUT) as ->.
  { assert (fst <$> dpll_algorithm still_clock conflict_example
            = Some SOLVER_TIMEOUT) as H by (by vm_compute).
    rewrite Hrun in H. by injection H. }
  exists s'. split; [done|].
  apply (no_refutation_after_decision still_clock conflict_example
           SOLVER_TIMEOUT s'); [| | | | |done|done].
  - split; [split_and!|].
    + reflexivity.
    + apply (bool_decide_unpack _). vm_compute. exact I.
    + apply (bool_decide_unpack _). vm_compute. exact I.
    + apply (bool_decide_unpack _). vm_compute. exact I.
    + apply (bool_decide_unpack _). vm_compute. exact I.
  - apply (bool_decide_unpack _). vm_compute. exact I.
  - by vm_compute.
  - by vm_compute.
  - reflexivity.
Defined.

(** ** Checking the answer [SOLVER_SATISFIABLE] *)

Lemma validate_loop_spec (cls : list clause_t) (a : list var_assignment_t) :
  ∀ i : nat,
    (all_clauses_satisfied cls a = true ∧ validate_loop cls a i = (true, None))
    ∨ (∃ k c,
         all_clauses_satisfied cls a = false
         ∧ validate_loop cls a i = (false, Some (i + k + 1)%nat)
         ∧ cls !! k = Some c
         ∧ clause_is_satisfied c a = false
         ∧ ∀ j c', (j < k)%nat → cls !! j = Some c' →
                   clause_is_satisfied c' a = true).
Proof.
  induction cls as [|c rest IH]; intros i; simpl; [by left|].
  destruct (clause_is_satisfied c a) eqn:Hc; simpl.
  - destruct (IH (S i)) as [[Hall Hv]|(k & c' & Hall & Hv & Hk & Hc' & Hfirst)].
    + by left.
    + right. exists (S k), c'. split_and!; [done| |done|done|].
      * rewrite Hv. do 2 f_equal. lia.
      * intros [|j] c'' Hj Hlk; simpl in Hlk; [congruence|].
        apply (Hfirst j); [lia|done].
  - right. exists 0%nat, c. split_and!; [done| |done|done|].
    + do 2 f_equal. lia.
    + intros j c' Hj. lia.
Qed.

Lemma solver_solve_sat_satisfied (clock : nat → Q) (s s' : dpll_solver_t) :
  cnf_allocated (formula s) →
  solver_solve clock s = Some (SOLVER_SATISFIABLE, s') →
  cnf_is_satisfied (formula s') = true.
Proof.
  intros Hal.
  assert (Hsearch : ∀ s0 : dpll_solver_t,
            cnf_allocated (formula s0) →
            dpll_algorithm clock s0 = Some (SOLVER_SATISFIABLE, s') →
            cnf_is_satisfied (formula s') = true).
  { intros s0 Hal0 Hrun.
    destruct (dpll_loop_sound max_iterations 0 clock s0 Hal0)
      as (r & s1 & Hrun' & _ & Hr).
    unfold dpll_algorithm in Hrun. rewrite Hrun in Hrun'.
    injection Hrun' as <- <-. by apply Hr. }
  unfold solver_solve.
  destruct (enable_preprocessing (config s)); [|by apply Hsearch].
  destruct (preprocess_loop_total (pass_budget s) s Hal
              (pass_budget_enough s Hal)) as (s1 & Hpre & Hsh).
  unfold preprocess_formula. rewrite Hpre. simpl.
  destruct (length (clauses (formula s1)) =? 0)%nat eqn:Hempty.
  { intros [= <-]. apply Nat.eqb_eq, nil_length_inv in Hempty.
    unfold cnf_is_satisfied. by rewrite Hempty. }
  destruct (has_conflict s1); [done|].
  apply Hsearch. simpl. by eapply same_shape_allocated.
Qed.

(** X18.  [cnf_validate_assignment] accepts exactly the satisfied formulas,
    and otherwise names the first clause (counted from 1) that is not
    satisfied.  After an answer [SOLVER_SATISFIABLE] of [solver_solve],
    [validate_solution] accepts the assignment found and prints nothing. *)
Theorem validate_solution_spec (clock : nat → Q) (s s' : dpll_solver_t) :
  (∀ cnf : cnf_formula_t,
     (cnf_is_satisfied cnf = true ∧ cnf_validate_assignment cnf = (true, None))
     ∨ (∃ k c,
          cnf_is_satisfied cnf = false
          ∧ cnf_validate_assignment cnf = (false, Some (k + 1)%nat)
          ∧ clauses cnf !! k = Some c
          ∧ clause_is_satisfied c (assignment cnf) = false
          ∧ ∀ j c', (j < k)%nat → clauses cnf !! j = Some c' →
                    clause_is_satisfied c' (assignment cnf) = true))
  ∧ (cnf_allocated (formula s) →
     solver_solve clock s = Some (SOLVER_SATISFIABLE, s') →
     validate_solution s' = (true, None)).
Proof.
  split.
  - intros cnf. unfold cnf_is_satisfied, cnf_validate_assignment.
    destruct (validate_loop_spec (clauses cnf) (assignment cnf) 0)
      as [?|(k & c & H)]; [by left|right]. by exists k, c.
  - intros Hal Hrun.
    pose proof (solver_solve_sat_satisfied clock s s' Hal Hrun) as Hsat.
    unfold validate_solution, cnf_validate_assignment, cnf_is_satisfied in *.
    destruct (validate_loop_spec (clauses (formula s')) (assignment (formula s'))
                0) as [[_ ?]|(k & c & Hall & _)]; [done|congruence].
Qed.

Lemma validate_solution_spec_witness :
  cnf_allocated (formula satisfiable_example)
  ∧ ∃ s', solver_solve still_clock satisfiable_example
          = Some (SOLVER_SATISFIABLE, s')
          ∧ validate_solution s' = (true, None).
Proof.
  split; [reflexivity|].
  destruct (solver_solve still_clock satisfiable_example) as [[r s']|] eqn:Hrun;
    [|by vm_compute in Hrun].
  assert (r = SOLVER_SATISFIABLE) as ->.
  { assert (fst <$> solver_solve still_clock satisfiable_example
            = Some SOLVER_SATISFIABLE) as H by (by vm_compute).
    rewrite Hrun in H. by injection H. }
  exists s'. split; [done|].
  apply (validate_solution_spec still_clock satisfiable_example s');
    [reflexivity|done].
Defined.

(** * Strings and lines ([utils.c], [parser.c]) *)

(** ** Pieces of a string *)

Lemma substring_0_length (s : string) : substring 0 (String.length s) s = s.
Proof. induction s as [|c s IH]; simpl; [done|by rewrite IH]. Qed.

Lemma length_substring_0 (s : string) :
  ∀ k : nat, (k ≤ String.length s)%nat → String.length (substring 0 k s) = k.
Proof.
  induction s as [|c s IH]; intros [|k] Hk; simpl in *; try done; try lia.
  rewrite IH; [done|lia].
Qed.

Lemma get_substring_0 (s : string) :
  ∀ k j : nat, (j < k)%nat → String.get j (substring 0 k s) = String.get j s.
Proof.
  induction s as [|c s IH]; intros [|k] j Hj; simpl; try done; try lia.
  destruct j as [|j]; [done|]. apply IH. lia.
Qed.

Lemma substring_split (s : string) :
  ∀ k : nat,
    (k ≤ String.length s)%nat →
    s = (substring 0 k s ++ substring k (String.length s - k) s)%string.
Proof.
  induction s as [|c s IH]; intros [|k] Hk; simpl in *; try done; try lia.
  - by rewrite substring_0_length.
  - f_equal. apply IH. lia.
Qed.

Lemma get_substring (s : string) :
  ∀ n m p : nat,
    (p < m)%nat → String.get p (substring n m s) = String.get (p + n) s.
Proof. intros n m p Hp. by apply substring_correct1, Nat.lt_nge, Nat.nle_gt. Qed.

Lemma length_append (s t : string) :
  String.length (s ++ t) = (String.length s + String.length t)%nat.
Proof. induction s as [|c s IH]; simpl; [done|by rewrite IH]. Qed.

Lemma get_length (s : string) :
  ∀ j c, String.get j s = Some c → (j < String.length s)%nat.
Proof.
  induction s as [|c0 s IH]; intros [|j] c Hj; simpl in *; try done; try lia.
  apply IH in Hj. lia.
Qed.

(** ** Blank lines and white space *)

Lemma is_empty_line_get (s : string) :
  is_empty_line s = true ↔ ∀ j c, String.get j s = Some c → isspace c = true.
Proof.
  induction s as [|c0 s IH]; simpl.
  - split; [|done]. by intros _ [|j] c.
  - destruct (isspace c0) eqn:Hc; simpl.
    + rewrite IH. split.
      * intros H [|j] c Hj; simpl in Hj; [congruence|by eapply H].
      * intros H j c Hj. by apply (H (S j)).
    + split; [done|]. intros H. specialize (H 0%nat c0 eq_refl). congruence.
Qed.

Lemma is_empty_line_append (s t : string) :
  is_empty_line (s ++ t) = is_empty_line s && is_empty_line t.
Proof.
  induction s as [|c s IH]; simpl; [done|]. by destruct (isspace c).
Qed.

Lemma skip_spaces_split (s : string) :
  ∃ pre, s = (pre ++ skip_spaces s)%string ∧ is_empty_line pre = true.
Proof.
  induction s as [|c s (pre & Hs & Hpre)]; simpl.
  - by exists EmptyString.
  - destruct (isspace c) eqn:Hc.
    + exists (String c pre). simpl. rewrite Hc. simpl. split; [by f_equal|done].
    + by exists EmptyString.
Qed.

Lemma skip_spaces_head (s : string) (c : ascii) (r : string) :
  skip_spaces s = String c r → isspace c = false.
Proof.
  induction s as [|c0 s IH]; simpl; [done|].
  destruct (isspace c0) eqn:Hc; [done|]. by intros [= <- _].
Qed.

Lemma skip_spaces_fixed (c : ascii) (r : string) :
  isspace c = false → skip_spaces (String c r) = String c r.
Proof. simpl. by intros ->. Qed.

Lemma skip_spaces_blank (s : string) :
  is_empty_line s = true ↔ skip_spaces s = EmptyString.
Proof.
  induction s as [|c s IH]; simpl; [done|].
  destruct (isspace c); simpl; [done|]. split; done.
Qed.

(** ** [trim_string] *)

Lemma trim_end_loop_spec (c : ascii) (r : string) :
  ∀ n : nat,
    (n ≤ String.length r)%nat →
    let k := trim_end_loop (String c r) n in
    (k ≤ n)%nat
    ∧ (∀ j ch, (k ≤ j < n)%nat → String.get j r = Some ch → isspace ch = true)
    ∧ (∀ ch, (0 < k)%nat → String.get (k - 1) r = Some ch → isspace ch = false).
Proof.
  induction n as [|n IH]; intros Hn; simpl.
  { split_and!; [done| |]; intros; lia. }
  destruct (String.get n r) as [ch|] eqn:Hget.
  - destruct (isspace ch) eqn:Hch.
    + destruct IH as (Hk & Hsp & Hlast); [lia|]. split_and!; [lia| |done].
      intros j ch' Hj Hj'. destruct (decide (j = n)) as [->|?]; [congruence|].
      apply (Hsp j); [lia|done].
    + split_and!; [done| |].
      * intros j ch' Hj. lia.
      * intros ch' _. simpl. rewrite Nat.sub_0_r, Hget. by intros [= <-].
  - split_and!; [done| |].
    + intros j ch' Hj. lia.
    + intros ch' _. simpl. rewrite Nat.sub_0_r, Hget. done.
Qed.

(** A string that starts and ends with a character that is not white space
    is left as it is. *)
Lemma trim_string_fixed (s : string) :
  (∀ c, String.get 0 s = Some c → isspace c = false) →
  (∀ c, String.get (String.length s - 1) s = Some c → isspace c = false) →
  trim_string s = s.
Proof.
  destruct s as [|c r]; [done|]. intros Hfirst Hlast.
  unfold trim_string. rewrite skip_spaces_fixed by (by apply Hfirst).
  simpl string_is_empty. cbv iota.
  replace (String.length (String c r) - 1)%nat with (String.length r)
    by (simpl; lia).
  assert (trim_end_loop (String c r) (String.length r) = String.length r)
    as ->.
  { destruct (String.length r) as [|n] eqn:Hlen; [done|]. simpl.
    simpl in Hlast. rewrite Hlen in Hlast. simpl in Hlast.
    destruct (String.get n r) as [ch|]; [|done].
    by rewrite (Hlast ch eq_refl). }
  replace (String.length r + 1)%nat with (String.length (String c r))
    by (simpl; lia).
  apply substring_0_length.
Qed.

(** X19.  [trim_string] removes white space from both ends and nothing else:
    the text is the result with blank text before and after it, the result
    neither starts nor ends with white space, and trimming it again changes
    nothing.  In particular the result is blank only when it is empty. *)
Theorem trim_string_spec (str : string) :
  (∃ pre post,
     str = (pre ++ trim_string str ++ post)%string
     ∧ is_empty_line pre = true ∧ is_empty_line post = true)
  ∧ (∀ c, String.get 0 (trim_string str) = Some c → isspace c = false)
  ∧ (∀ c, String.get (String.length (trim_string str) - 1) (trim_string str)
          = Some c → isspace c = false)
  ∧ trim_string (trim_string str) = trim_string str
  ∧ (is_empty_line (trim_string str) = true ↔ trim_string str = EmptyString)
  ∧ is_empty_line (trim_string str) = is_empty_line str.
Proof.
  assert (Hcore : (∃ pre post,
                     str = (pre ++ trim_string str ++ post)%string
                     ∧ is_empty_line pre = true ∧ is_empty_line post = true)
                  ∧ (∀ c, String.get 0 (trim_string str) = Some c →
                          isspace c = false)
                  ∧ (∀ c, String.get (String.length (trim_string str) - 1)
                            (trim_string str) = Some c → isspace c = false)).
  { destruct (skip_spaces_split str) as (pre & Hstr & Hpre).
    unfold trim_string.
    destruct (skip_spaces str) as [|c r] eqn:Hskip; simpl string_is_empty;
      cbv iota.
    { split_and!; [|done|done]. exists pre, EmptyString. by rewrite Hstr at 1. }
    pose proof (skip_spaces_head _ _ _ Hskip) as Hc.
    replace (String.length (String c r) - 1)%nat with (String.length r)
      by (simpl; lia).
    destruct (trim_end_loop_spec c r (String.length r) (le_n _))
      as (Hk & Hsp & Hlast).
    set (k := trim_end_loop (String c r) (String.length r)) in *.
    replace (k + 1)%nat with (S k) by lia. simpl substring.
    split_and!.
    - exists pre, (substring k (String.length r - k) r). split_and!; [|done|].
      + rewrite Hstr at 1. f_equal. simpl. f_equal. by apply substring_split.
      + apply is_empty_line_get. intros j ch Hj.
        destruct (decide (j < String.length r - k)%nat) as [Hlt|Hge].
        * rewrite get_substring in Hj by done. apply (Hsp (j + k)%nat); [lia|done].
        * rewrite substring_correct2 in Hj by lia. done.
    - simpl. by intros c' [= <-].
    - simpl. rewrite length_substring_0 by done. rewrite Nat.sub_0_r.
      destruct k as [|k']; simpl; [by intros c' [= <-]|].
      intros c' Hget. rewrite get_substring_0 in Hget by lia.
      apply (Hlast c'); [lia|]. simpl. by rewrite Nat.sub_0_r. }
  destruct Hcore as ((pre & post & Hstr & Hpre & Hpost) & Hfirst & Hlast).
  split_and!; [by exists pre, post|done|done|by apply trim_string_fixed| |].
  - split; [|by intros ->].
    destruct (trim_string str) as [|c r]; [done|]. simpl.
    by rewrite (Hfirst c eq_refl).
  - rewrite Hstr at 2. rewrite !is_empty_line_append, Hpre, Hpost. simpl.
    by rewrite andb_true_r.
Qed.

(** ** Prefixes and suffixes *)

Lemma strncmp_eq_prefix (prefix : string) :
  ∀ str : string,
    strncmp_eq str prefix (String.length prefix) = true ↔
    ∃ rest, str = (prefix ++ rest)%string.
Proof.
  induction prefix as [|c p IH]; intros [|c' s]; simpl.
  - split; [|done]. intros _. by exists EmptyString.
  - split; [|done]. intros _. by exists (String c' s).
  - split; [done|]. by intros (rest & ?).
  - destruct (Ascii.eqb_spec c' c) as [->|Hne].
    + rewrite IH. split.
      * intros (rest & ->). by exists rest.
      * intros (rest & [= ->]). by exists rest.
    + split; [done|]. intros (rest & [= ? _]). done.
Qed.

Lemma substring_append (start suffix : string) :
  substring (String.length start) (String.length suffix)
    (start ++ suffix) = suffix.
Proof.
  induction start as [|c s IH]; simpl; [apply substring_0_length|done].
Qed.

(** X20.  [string_starts_with] and [string_ends_with] answer true exactly
    when the second text is a prefix, respectively a suffix, of the first. *)
Theorem string_starts_ends_with_spec (str affix : string) :
  (string_starts_with str affix = true ↔ ∃ rest, str = (affix ++ rest)%string)
  ∧ (string_ends_with str affix = true ↔
     ∃ start, str = (start ++ affix)%string).
Proof.
  split; [apply strncmp_eq_prefix|].
  unfold string_ends_with.
  destruct (Nat.ltb_spec (String.length str) (String.length affix))
    as [Hlt|Hge].
  - split; [done|]. intros (start & ->). rewrite length_append in Hlt. lia.
  - rewrite String.eqb_eq. split.
    + intros Hsub.
      exists (substring 0 (String.length str - String.length affix) str).
      pose proof (substring_split str
                    (String.length str - String.length affix) ltac:(lia))
        as Hsplit.
      replace (String.length str
               - (String.length str - String.length affix))%nat
        with (String.length affix) in Hsplit by lia.
      by rewrite Hsub in Hsplit.
    + intros (start & ->). rewrite length_append.
      replace (String.length start + String.length affix
               - String.length affix)%nat with (String.length start) by lia.
      apply substring_append.
Qed.

(** * Numbers in text ([utils.c]) *)

Lemma read_digits_uint_acc (d : Decimal.uint) :
  ∀ (acc : positive) (any : bool) (rest : string),
    (∀ c r, rest = String c r → isdigit c = false) →
    read_digits (NilEmpty.string_of_uint d ++ rest) (Z.pos acc) any
    = (Z.pos (Pos.of_uint_acc d acc),
       any || match d with Decimal.Nil => false | _ => true end, rest).
Proof.
  induction d as [|d IH|d IH|d IH|d IH|d IH|d IH|d IH|d IH|d IH|d IH];
    intros acc any rest Hrest; simpl.
  1:{ rewrite orb_false_r. destruct rest as [|c r]; [done|]. simpl.
      by rewrite (Hrest c r). }
  all: rewrite orb_true_r.
  all: match goal with
       | |- read_digits _ ?z _ = (Z.pos (Pos.of_uint_acc _ ?p), _, _) =>
           replace z with (Z.pos p)
             by (match goal with
                 | |- context [digit_value ?c] =>
                     let v := eval vm_compute in (digit_value c) in
                     change (digit_value c) with v
                 end; lia)
       end.
  all: rewrite IH by done; by rewrite orb_true_l.
Qed.

Lemma read_digits_uint (d : Decimal.uint) :
  ∀ (any : bool) (rest : string),
    (∀ c r, rest = String c r → isdigit c = false) →
    read_digits (NilEmpty.string_of_uint d ++ rest) 0 any
    = (Z.of_N (Pos.of_uint d),
       any || match d with Decimal.Nil => false | _ => true end, rest).
Proof.
  induction d as [|d IH|d IH|d IH|d IH|d IH|d IH|d IH|d IH|d IH|d IH];
    intros any rest Hrest; simpl.
  1:{ rewrite orb_false_r. destruct rest as [|c r]; [done|]. simpl.
      by rewrite (Hrest c r). }
  1:{ rewrite orb_true_r. change (0 * 10 + digit_value "0") with 0.
      rewrite IH by done. by rewrite orb_true_l. }
  all: rewrite orb_true_r.
  all: match goal with
       | |- read_digits _ ?z _ = _ =>
           let v := eval vm_compute in z in change z with v
       end.
  all: rewrite read_digits_uint_acc by done; by rewrite orb_true_l.
Qed.

Lemma read_digits_stop (rest : string) (acc : Z) (any : bool) :
  (∀ c r, rest = String c r → isdigit c = false) →
  read_digits rest acc any = (acc, any, rest).
Proof.
  intros Hrest. destruct rest as [|c r]; [done|].
  cbn [read_digits]. by rewrite (Hrest c r).
Qed.

Lemma append_empty_r (s : string) : (s ++ EmptyString)%string = s.
Proof. induction s as [|c s IH]; simpl; [done|by rewrite IH]. Qed.

Lemma string_of_uint_head (d : Decimal.uint) :
  d ≠ Decimal.Nil →
  ∃ c s, NilEmpty.string_of_uint d = String c s ∧ isdigit c = true.
Proof. destruct d; try done; intros _; simpl; by eexists _, _. Qed.

Lemma isdigit_plain (c : ascii) :
  isdigit c = true →
  isspace c = false ∧ is_delimiter c = false
  ∧ c ≠ "-"%char ∧ c ≠ "+"%char ∧ c ≠ NUL ∧ c ≠ newline
  ∧ c ≠ "c"%char ∧ c ≠ "p"%char.
Proof.
  destruct c as [[] [] [] [] [] [] [] []]; intros H; try discriminate H;
    by vm_compute.
Qed.

(** [strtol] on a text that starts with a digit. *)
Lemma strtol_digits (c : ascii) (s : string) :
  isdigit c = true →
  strtol (String c s)
  = (let '(magnitude, any, rest) := read_digits (String c s) 0 false in
     if any then (Z.max LONG_MIN (Z.min LONG_MAX magnitude), Some rest)
     else (0, None)).
Proof.
  destruct c as [[] [] [] [] [] [] [] []]; intros H; try discriminate H;
    reflexivity.
Qed.

Lemma strtol_print_int (z : Z) (rest : string) :
  (∀ c r, rest = String c r → isdigit c = false) →
  strtol (print_int z ++ rest)
  = (Z.max LONG_MIN (Z.min LONG_MAX z), Some rest).
Proof.
  intros Hrest. unfold print_int.
  assert (Hpos : ∀ p,
            read_digits (NilEmpty.string_of_uint (Pos.to_uint p) ++ rest) 0 false
            = (Z.pos p, true, rest)).
  { intros p. rewrite read_digits_uint by done.
    rewrite Unsigned.of_to. pose proof (Unsigned.to_uint_nonnil p).
    by destruct (Pos.to_uint p). }
  assert (Hnz : ∀ p, NilZero.string_of_uint (Pos.to_uint p)
                     = NilEmpty.string_of_uint (Pos.to_uint p)).
  { intros p. pose proof (Unsigned.to_uint_nonnil p).
    by destruct (Pos.to_uint p). }
  destruct z as [|p|p]; simpl Z.to_int; simpl NilZero.string_of_int.
  - change (("0" ++ rest)%string) with (String "0" rest).
    rewrite strtol_digits by done. cbn [read_digits].
    change (isdigit "0") with true. cbn iota.
    change (0 * 10 + digit_value "0") with 0.
    by rewrite read_digits_stop.
  - rewrite Hnz.
    destruct (string_of_uint_head (Pos.to_uint p) (Unsigned.to_uint_nonnil p))
      as (c & s & Hs & Hc).
    specialize (Hpos p). rewrite Hs in *. simpl append in *.
    rewrite strtol_digits by done. by rewrite Hpos.
  - rewrite Hnz. unfold strtol. simpl. by rewrite Hpos.
Qed.

Lemma strtol_print_int_end (z : Z) :
  strtol (print_int z) = (Z.max LONG_MIN (Z.min LONG_MAX z), Some EmptyString).
Proof.
  rewrite <- (append_empty_r (print_int z)). by apply strtol_print_int.
Qed.

Lemma parse_int_print_int (z : Z) :
  INT32_MIN <= z <= INT32_MAX → parse_int (print_int z) = Some z.
Proof.
  intros Hz. unfold parse_int. rewrite strtol_print_int_end.
  unfold INT32_MIN, INT32_MAX, LONG_MIN, LONG_MAX in *.
  rewrite Z.min_r, Z.max_r by lia.
  destruct (Z.ltb_spec z (- 2 ^ 31)), (Z.ltb_spec (2 ^ 31 - 1) z);
    simpl; try done; lia.
Qed.

(** X21.  [parse_int] only answers with values of the [int32_t] range and
    [parse_long] with values of the range of [long]; the two agree wherever
    [parse_int] answers.  Both read back the decimal text of a number of
    their range.  [strtol] clamps what lies beyond the range of [long] and
    the code does not look at [errno], so [parse_long] turns the text of a
    larger number into [LONG_MAX], while [parse_int] refuses it. *)
Theorem parse_int_spec :
  (∀ str v, parse_int str = Some v →
            INT32_MIN <= v <= INT32_MAX ∧ parse_long str = Some v)
  ∧ (∀ str v, parse_long str = Some v →
              LONG_MIN <= v <= LONG_MAX
              ∧ (INT32_MIN <= v <= INT32_MAX → parse_int str = Some v))
  ∧ (∀ z, INT32_MIN <= z <= INT32_MAX → parse_int (print_int z) = Some z)
  ∧ (∀ z, LONG_MIN <= z <= LONG_MAX → parse_long (print_int z) = Some z)
  ∧ (∀ z, LONG_MAX < z →
          parse_long (print_int z) = Some LONG_MAX
          ∧ parse_int (print_int z) = None).
Proof.
  assert (Hclamp : ∀ str v rest, strtol str = (v, Some rest) →
            LONG_MIN <= v <= LONG_MAX).
  { intros str v rest. unfold strtol.
    destruct (match skip_spaces str with
              | String "-"%char rest => (true, rest)
              | String "+"%char rest => (false, rest)
              | _ => (false, skip_spaces str)
              end) as [negative s].
    destruct (read_digits s 0 false) as [[magnitude any] rest'].
    destruct any; [|done]. intros [= <- _]. unfold LONG_MIN, LONG_MAX. lia. }
  pose proof strtol_print_int_end as Hprint.
  split_and!; [| |apply parse_int_print_int| |];
    unfold parse_int, parse_long.
  - intros str v. destruct (strtol str) as [value [[|c r]|]]; try done.
    destruct (Z.ltb_spec value INT32_MIN), (Z.ltb_spec INT32_MAX value);
      simpl; try done. intros [= <-]. split; [lia|done].
  - intros str v. destruct (strtol str) as [value [[|c r]|]] eqn:Hs; try done.
    intros [= <-]. split; [by eapply Hclamp|]. intros Hr.
    destruct (Z.ltb_spec value INT32_MIN), (Z.ltb_spec INT32_MAX value);
      simpl; try done; lia.
  - intros z Hz. rewrite Hprint. unfold LONG_MIN, LONG_MAX in *.
    by rewrite Z.min_r, Z.max_r by lia.
  - intros z Hz. rewrite Hprint. unfold INT32_MIN, INT32_MAX, LONG_MIN,
      LONG_MAX in *.
    rewrite Z.min_l, Z.max_r by lia. split; [done|].
    by vm_compute.
Qed.

(** ** The problem line ([parser.c]) *)

Lemma strtol_skip_space (c : ascii) (s : string) :
  isspace c = true → strtol (String c s) = strtol s.
Proof. intros Hc. unfold strtol. simpl. by rewrite Hc. Qed.

Lemma int_of_long_range (v : Z) : INT32_MIN <= int_of_long v <= INT32_MAX.
Proof.
  unfold int_of_long, INT32_MIN, INT32_MAX.
  pose proof (Z.mod_pos_bound (v + 2 ^ 31) (2 ^ 32)). lia.
Qed.

Lemma int_of_long_fixed (v : Z) :
  INT32_MIN <= v <= INT32_MAX →
  int_of_long (Z.max LONG_MIN (Z.min LONG_MAX v)) = v.
Proof.
  unfold int_of_long, INT32_MIN, INT32_MAX, LONG_MIN, LONG_MAX. intros Hv.
  rewrite Z.min_r, Z.max_r by lia. rewrite Z.mod_small by lia. lia.
Qed.

(** [%d] reads back a printed [int], whatever follows it, if that does not
    start with a digit; white space before the number is skipped. *)
Lemma scan_int_print_int (z : Z) (rest : string) :
  INT32_MIN <= z <= INT32_MAX →
  (∀ c r, rest = String c r → isdigit c = false) →
  scan_int (String " " (print_int z ++ rest)) = Some (z, rest).
Proof.
  intros Hz Hrest. unfold scan_int.
  rewrite strtol_skip_space by done. rewrite strtol_print_int by done.
  by rewrite int_of_long_fixed.
Qed.

Lemma scan_word_cnf (s : string) :
  scan_word 15
    (skip_spaces (String " " (String "c" (String "n" (String "f"
       (String " " s))))))
  = ("cnf"%string, String " " s).
Proof. reflexivity. Qed.

Lemma sscanf_problem_line_header (v c : Z) (rest : string) :
  INT32_MIN <= v <= INT32_MAX →
  INT32_MIN <= c <= INT32_MAX →
  (∀ ch r, rest = String ch r → isdigit ch = false) →
  sscanf_problem_line ("p cnf " ++ print_int v ++ " " ++ print_int c ++ rest)
  = (if string_is_empty (skip_spaces rest) then 3 else 4, "cnf"%string, v, c).
Proof.
  intros Hv Hc Hrest.
  change ("p cnf " ++ print_int v ++ " " ++ print_int c ++ rest)%string
    with (String "p" (String " " (String "c" (String "n" (String "f"
            (String " " (print_int v ++ String " " (print_int c ++ rest)))))))).
  unfold sscanf_problem_line.
  change (negb (Ascii.eqb "p" "p")) with false. cbn iota.
  rewrite scan_word_cnf. cbn [string_is_empty].
  rewrite scan_int_print_int; [|done|by intros ch r [= <- _]].
  rewrite scan_int_print_int by done.
  by destruct (string_is_empty (skip_spaces rest)).
Qed.

Lemma parse_problem_line_ok (line : string) (v c : Z) :
  parse_problem_line line = (PARSE_OK, v, c) →
  0 < v <= INT32_MAX ∧ 0 <= c <= INT32_MAX.
Proof.
  unfold parse_problem_line.
  destruct (sscanf_problem_line line) as [[[parsed format] num_vars] num_clauses]
    eqn:Hscan.
  destruct (negb (parsed =? 3)); [done|].
  destruct (negb (String.eqb format "cnf")); [done|].
  destruct (Z.leb_spec num_vars 0), (Z.ltb_spec num_clauses 0); simpl;
    try done.
  intros [= <- <-].
  assert (Hrange : INT32_MIN <= num_vars <= INT32_MAX
                   ∧ INT32_MIN <= num_clauses <= INT32_MAX).
  { revert Hscan. unfold sscanf_problem_line.
    destruct line as [|ch rest]; [intros [= <- <- <- <-]; by vm_compute|].
    destruct (negb (Ascii.eqb ch "p")); [intros [= <- <- <- <-]; by vm_compute|].
    destruct (scan_word 15 (skip_spaces rest)) as [word s].
    destruct (string_is_empty word); [intros [= <- <- <- <-]; by vm_compute|].
    unfold scan_int.
    destruct (strtol s) as [v1 [s1|]];
      [|intros [= <- <- <- <-]; by vm_compute].
    destruct (strtol s1) as [v2 [s2|]].
    - destruct (string_is_empty (skip_spaces s2));
        intros [= <- <- <- <-]; split; apply int_of_long_range.
    - intros [= <- <- <- <-]. split; [apply int_of_long_range|by vm_compute]. }
  lia.
Qed.

Lemma parse_problem_line_answers (line : string) :
  fst (fst (parse_problem_line line)) = PARSE_OK
  ∨ fst (fst (parse_problem_line line)) = PARSE_ERROR_INVALID_PROBLEM_LINE.
Proof.
  unfold parse_problem_line.
  destruct (sscanf_problem_line line) as [[[parsed format] num_vars] num_clauses].
  destruct (negb (parsed =? 3)); [by right|].
  destruct (negb (String.eqb format "cnf")); [by right|].
  destruct ((num_vars <=? 0) || (num_clauses <? 0)); [by right|by left].
Qed.

Lemma parse_problem_line_header (v c : Z) (rest : string) :
  0 < v <= INT32_MAX → 0 <= c <= INT32_MAX →
  (∀ ch r, rest = String ch r → isdigit ch = false) →
  parse_problem_line ("p cnf " ++ print_int v ++ " " ++ print_int c ++ rest)
  = (if is_empty_line rest then PARSE_OK
     else PARSE_ERROR_INVALID_PROBLEM_LINE, v, c).
Proof.
  intros Hv Hc Hrest. unfold parse_problem_line.
  unfold INT32_MIN, INT32_MAX in *.
  rewrite sscanf_problem_line_header
    by (done || unfold INT32_MIN, INT32_MAX; lia).
  destruct (is_empty_line rest) eqn:Hempty.
  - apply skip_spaces_blank in Hempty. rewrite Hempty. simpl.
    destruct (Z.leb_spec v 0), (Z.ltb_spec c 0); simpl; try done; lia.
  - destruct (skip_spaces rest) eqn:Hskip.
    + apply skip_spaces_blank in Hskip. congruence.
    + done.
Qed.

(** X22.  [parse_problem_line] answers [PARSE_OK] only with a positive number
    of variables and a number of clauses that is not negative, and
    [PARSE_ERROR_INVALID_PROBLEM_LINE] otherwise; it reads back the header
    that [parser_write_cnf_stream] prints for such numbers, also with blanks
    after it, and refuses that header when anything else follows it. *)
Theorem parse_problem_line_spec :
  (∀ line v c, parse_problem_line line = (PARSE_OK, v, c) →
               0 < v <= INT32_MAX ∧ 0 <= c <= INT32_MAX)
  ∧ (∀ line, fst (fst (parse_problem_line line)) = PARSE_OK
             ∨ fst (fst (parse_problem_line line))
               = PARSE_ERROR_INVALID_PROBLEM_LINE)
  ∧ (∀ v c rest,
       0 < v <= INT32_MAX → 0 <= c <= INT32_MAX →
       (∀ ch r, rest = String ch r → isdigit ch = false) →
       parse_problem_line
         ("p cnf " ++ print_int v ++ " " ++ print_int c ++ rest)
       = (if is_empty_line rest then PARSE_OK
          else PARSE_ERROR_INVALID_PROBLEM_LINE, v, c)).
Proof.
  split_and!.
  - apply parse_problem_line_ok.
  - apply parse_problem_line_answers.
  - apply parse_problem_line_header.
Qed.

(** ** The stream parser ([parser.c]) *)

Lemma clause_add_literal_nodup (clause clause' : clause_t) (literal : literal_t) :
  NoDup clause →
  clause_add_literal clause literal = (true, clause') → NoDup clause'.
Proof.
  unfold clause_add_literal. intros Hnd.
  destruct (literal =? 0); [done|].
  destruct (clause_has_literal clause literal) eqn:Hhas; intros [= <-]; [done|].
  apply list.NoDup_app. split_and!; [done| |apply NoDup_singleton].
  intros x Hx ->%list_elem_of_singleton.
  apply clause_has_literal_elem in Hx. congruence.
Qed.

(** The answers of [parse_clause_line], and what an accepted line leaves in
    the clause. *)
Lemma parse_clause_tokens_result (n : Z) (tokens : list string) :
  ∀ (clause clause' : clause_t) (result : parse_result_t),
    NoDup clause →
    parse_clause_tokens tokens clause n = (result, clause') →
    (result = PARSE_OK ∧ NoDup clause')
    ∨ result = PARSE_ERROR_INVALID_CLAUSE
    ∨ result = PARSE_ERROR_VARIABLE_OUT_OF_RANGE
    ∨ result = PARSE_ERROR_CLAUSE_NOT_TERMINATED.
Proof.
  induction tokens as [|token rest IH]; intros clause clause' result Hnd; simpl.
  { intros [= <- _]. auto. }
  destruct (parse_int token) as [literal|]; [|intros [= <- _]; auto].
  destruct (literal =? 0) eqn:Hz; [intros [= <- <-]; auto|].
  destruct (is_valid_literal literal n); simpl; [|intros [= <- _]; auto].
  destruct (clause_add_literal clause literal) as [[] clause1] eqn:Hadd.
  - apply IH. by eapply clause_add_literal_nodup.
  - unfold clause_add_literal in Hadd. rewrite Hz in Hadd.
    by destruct (clause_has_literal clause literal).
Qed.

(** A line read before the problem line. *)
Lemma parse_stream_line_before (p p' : cnf_parser_t) (line : string)
    (r : option parse_result_t) (found' : bool) :
  parser_formula p = None →
  parsed_clauses (info p) = 0 →
  0 <= line_number (info p) →
  parse_stream_line p false line = (r, p', found') →
  strict_mode p' = strict_mode p
  ∧ line_number (info p') = line_number (info p) + 1
  ∧ match r with
    | Some e =>
        (e = PARSE_ERROR_NO_PROBLEM_LINE
         ∧ skipped_line line = false ∧ problem_line line = false)
        ∨ (e = PARSE_ERROR_INVALID_PROBLEM_LINE ∧ problem_line line = true)
    | None =>
        if found'
        then problem_line line = true
             ∧ parse_problem_line (line_text line)
               = (PARSE_OK, max_variables (info p'),
                  expected_clauses (info p'))
             ∧ ∃ cnf, parsed_formula p' cnf ∧ clauses cnf = []
        else skipped_line line = true
             ∧ parser_formula p' = None ∧ parsed_clauses (info p') = 0
    end.
Proof.
  intros Hnone Hzero Hln. unfold parse_stream_line, problem_line, skipped_line,
    line_text.
  set (trimmed := trim_string (cut_line line)).
  destruct (is_empty_line trimmed); [by intros [= <- <- <-]|].
  destruct (is_comment_line trimmed); [by intros [= <- <- <-]|].
  destruct (is_problem_line trimmed); simpl.
  - destruct (parse_problem_line trimmed) as [[result num_vars] num_clauses]
      eqn:Hparse.
    destruct (bool_decide (result = PARSE_OK)) eqn:Hok; simpl.
    + apply bool_decide_eq_true in Hok. subst result.
      destruct (parse_problem_line_ok _ _ _ Hparse) as [Hv Hc].
      unfold cnf_create. destruct (Z.leb_spec num_vars 0); [lia|].
      intros [= <- <- <-]. simpl. split_and!; try done.
      exists (mk_cnf [] num_vars
                (replicate (Z.to_nat (num_vars + 1)) VAR_UNASSIGNED)
                (replicate (Z.to_nat (num_vars + 1)) false)).
      split; [|done]. unfold parsed_formula. simpl.
      split_and!; try done; try lia; by constructor.
    + apply bool_decide_eq_false in Hok. intros [= <- <- <-]. simpl.
      split_and!; try done. right. split; [|done].
      destruct (parse_problem_line_answers trimmed) as [H|H];
        rewrite Hparse in H; simpl in H; [done|by subst].
  - intros [= <- <- <-]. simpl. split_and!; try done. by left.
Qed.

(** A line read after the problem line. *)
Lemma parse_stream_line_after (p p' : cnf_parser_t) (cnf : cnf_formula_t)
    (line : string) (r : option parse_result_t) (found' : bool) :
  parsed_formula p cnf →
  parse_stream_line p true line = (r, p', found') →
  found' = true
  ∧ strict_mode p' = strict_mode p
  ∧ line_number (info p') = line_number (info p) + 1
  ∧ max_variables (info p') = max_variables (info p)
  ∧ expected_clauses (info p') = expected_clauses (info p)
  ∧ match r with
    | Some e =>
        (e = PARSE_ERROR_INVALID_PROBLEM_LINE ∧ problem_line line = true)
        ∨ (problem_line line = false
           ∧ (e = PARSE_ERROR_INVALID_CLAUSE
              ∨ e = PARSE_ERROR_VARIABLE_OUT_OF_RANGE
              ∨ e = PARSE_ERROR_CLAUSE_NOT_TERMINATED))
    | None => problem_line line = false ∧ ∃ cnf', parsed_formula p' cnf'
    end.
Proof.
  intros (Hf & Hn & Hpos & Hfresh & Hrange & Hwf & Hcount & Hln).
  unfold parse_stream_line, problem_line, skipped_line, line_text.
  set (trimmed := trim_string (cut_line line)).
  assert (Hkeep : parsed_formula
            (mk_parser
               (mk_info (line_number (info p) + 1) (expected_clauses (info p))
                  (parsed_clauses (info p)) (max_variables (info p)))
               (parser_formula p) (strict_mode p)) cnf).
  { unfold parsed_formula. simpl. split_and!; try done; lia. }
  destruct (is_empty_line trimmed).
  { intros [= <- <- <-]. simpl. split_and!; try done. by exists cnf. }
  destruct (is_comment_line trimmed).
  { intros [= <- <- <-]. simpl. split_and!; try done. by exists cnf. }
  destruct (is_problem_line trimmed); simpl.
  { intros [= <- <- <-]. simpl. split_and!; try done. by left. }
  unfold parse_stream_clause_line. simpl.
  destruct (parse_clause_line trimmed [] (max_variables (info p)))
    as [result clause] eqn:Hparse.
  unfold parse_clause_line in Hparse.
  pose proof (parse_clause_tokens_result _ _ _ _ _ (NoDup_nil_2) Hparse)
    as Hres.
  destruct (bool_decide (result = PARSE_OK)) eqn:Hok; simpl.
  2:{ apply bool_decide_eq_false in Hok. intros [= <- <- <-]. simpl.
      split_and!; try done. right. split; [done|].
      destruct Hres as [[? _]|Hres]; [done|done]. }
  apply bool_decide_eq_true in Hok. subst result.
  destruct Hres as [[_ Hnd]|[?|[?|?]]]; try done.
  destruct (length clause =? 0)%nat eqn:Hlen.
  { destruct (strict_mode p); intros [= <- <- <-]; simpl;
      split_and!; try done; [by right; auto|by exists cnf]. }
  destruct (clause_is_tautology clause) eqn:Htaut.
  { intros [= <- <- <-]. simpl. split_and!; try done. by exists cnf. }
  rewrite Hf. simpl. intros [= <- <- <-]. simpl. split_and!; try done.
  eexists. unfold parsed_formula. simpl. split; [reflexivity|]. simpl.
  split; [done|]. split; [done|]. split; [done|].
  split; [|split]; [| |rewrite length_app; simpl; lia].
  - unfold literals_in_range in *. simpl. apply Forall_app. split; [done|].
    apply Forall_singleton. rewrite Hn.
    by apply (parse_clause_tokens_in_range _ _ [] clause (Forall_nil _) Hparse).
  - apply Forall_app. split; [done|]. apply Forall_singleton.
    split; [|done]. intros ->. done.
Qed.

(** The loop, once the problem line has been read. *)
Lemma parse_stream_lines_after (lines : list string) :
  ∀ (p p' : cnf_parser_t) (cnf : cnf_formula_t) (r : parse_result_t),
    parsed_formula p cnf →
    parse_stream_lines lines p true = (r, p') →
    strict_mode p' = strict_mode p
    ∧ max_variables (info p') = max_variables (info p)
    ∧ expected_clauses (info p') = expected_clauses (info p)
    ∧ (r = PARSE_OK →
       (∃ cnf', parsed_formula p' cnf')
       ∧ Forall (λ l, problem_line l = false) lines
       ∧ line_number (info p')
         = line_number (info p) + Z.of_nat (length lines)
       ∧ (strict_mode p = true →
          parsed_clauses (info p') = expected_clauses (info p')))
    ∧ r ≠ PARSE_ERROR_FILE_NOT_FOUND ∧ r ≠ PARSE_ERROR_EMPTY_FILE
    ∧ r ≠ PARSE_ERROR_NO_PROBLEM_LINE
    ∧ (r = PARSE_ERROR_INVALID_FORMAT →
       strict_mode p = true
       ∧ parsed_clauses (info p') ≠ expected_clauses (info p')).
Proof.
  induction lines as [|line rest IH]; intros p p' cnf r Hp; simpl.
  - destruct (strict_mode p) eqn:Hstrict; simpl.
    + destruct (Z.eqb_spec (parsed_clauses (info p)) (expected_clauses (info p)));
        simpl; intros [= <- <-]; split_and!; try done.
      intros _. split_and!; [by exists cnf|constructor|lia|done].
    + intros [= <- <-]. split_and!; try done.
      intros _. split_and!; [by exists cnf|constructor|lia|done].
  - destruct (parse_stream_line p true line) as [[[e|] p1] found'] eqn:Hline;
      destruct (parse_stream_line_after _ _ _ _ _ _ Hp Hline)
        as (-> & Hs & Hl & Hm & He & Hr).
    + intros [= <- <-]. split_and!; try done.
      * intros ->. by destruct Hr as [[? _]|[_ [?|[?|?]]]].
      * intros ->. by destruct Hr as [[? _]|[_ [?|[?|?]]]].
      * intros ->. by destruct Hr as [[? _]|[_ [?|[?|?]]]].
      * intros ->. by destruct Hr as [[? _]|[_ [?|[?|?]]]].
      * intros ->. by destruct Hr as [[? _]|[_ [?|[?|?]]]].
    + destruct Hr as (Hnp & cnf1 & Hp1). intros Hrest.
      destruct (IH _ _ _ _ Hp1 Hrest)
        as (Hs' & Hm' & He' & Hok & H1 & H2 & H3 & H4).
      split_and!; try done; try congruence.
      * intros Hr. destruct (Hok Hr) as (Hcnf & Hall & Hcount & Hstrict).
        split_and!; [done|by constructor|lia|].
        intros Hst. apply Hstrict. congruence.
      * intros Hr. destruct (H4 Hr). split; congruence.
Qed.

(** The loop from the start of the stream. *)
Lemma parse_stream_lines_before (lines : list string) :
  ∀ (p p' : cnf_parser_t) (r : parse_result_t),
    parser_formula p = None →
    parsed_clauses (info p) = 0 →
    0 <= line_number (info p) →
    parse_stream_lines lines p false = (r, p') →
    strict_mode p' = strict_mode p
    ∧ (r = PARSE_OK →
       (∃ cnf, parsed_formula p' cnf)
       ∧ (∃ before line after,
            lines = before ++ line :: after
            ∧ Forall (λ l, skipped_line l = true) before
            ∧ problem_line line = true
            ∧ parse_problem_line (line_text line)
              = (PARSE_OK, max_variables (info p'),
                 expected_clauses (info p'))
            ∧ Forall (λ l, problem_line l = false) after)
       ∧ line_number (info p')
         = line_number (info p) + Z.of_nat (length lines)
       ∧ (strict_mode p = true →
          parsed_clauses (info p') = expected_clauses (info p')))
    ∧ r ≠ PARSE_ERROR_FILE_NOT_FOUND ∧ r ≠ PARSE_ERROR_EMPTY_FILE
    ∧ (r = PARSE_ERROR_INVALID_FORMAT →
       strict_mode p = true
       ∧ parsed_clauses (info p') ≠ expected_clauses (info p'))
    ∧ (Forall (λ l, problem_line l = false) lines →
       r = PARSE_ERROR_NO_PROBLEM_LINE).
Proof.
  induction lines as [|line rest IH]; intros p p' r Hnone Hzero Hln; simpl.
  { intros [= <- <-]. by split_and!. }
  destruct (parse_stream_line p false line) as [[[e|] p1] found'] eqn:Hline;
    destruct (parse_stream_line_before _ _ _ _ _ Hnone Hzero Hln Hline)
      as (Hs & Hl & Hr).
  - intros [= <- <-]. split_and!; try done.
    + intros ->. by destruct Hr as [[? _]|[? _]].
    + intros ->. by destruct Hr as [[? _]|[? _]].
    + intros ->. by destruct Hr as [[? _]|[? _]].
    + intros ->. by destruct Hr as [[? _]|[? _]].
    + intros Hall. destruct Hr as [[? _]|[_ Hpl]]; [done|].
      apply list.Forall_cons in Hall as [Hnp _]. congruence.
  - destruct found'.
    + destruct Hr as (Hpl & Hparse & cnf & Hp1 & _). intros Hrest.
      destruct (parse_stream_lines_after _ _ _ _ _ Hp1 Hrest)
        as (Hs' & Hm' & He' & Hok & H1 & H2 & H3 & H4).
      split_and!; try done; try congruence.
      * intros Hr. destruct (Hok Hr) as (Hcnf & Hall & Hcount & Hstrict).
        split_and!; [done| |rewrite Hcount, Hl; simpl length; lia|].
        -- exists [], line, rest. split_and!; try done.
           by rewrite Hm', He'.
        -- intros Hst. apply Hstrict. congruence.
      * intros Hr. destruct (H4 Hr). split; congruence.
      * intros Hall. apply list.Forall_cons in Hall as [Hnp _]. congruence.
    + destruct Hr as (Hsk & Hnone1 & Hzero1). intros Hrest.
      destruct (IH _ _ _ Hnone1 Hzero1 ltac:(lia) Hrest)
        as (Hs' & Hok & H1 & H2 & H4 & H5).
      split_and!; try done; try congruence.
      * intros Hr. destruct (Hok Hr)
          as (Hcnf & (before & pl & after & -> & Hb & Hpl & Hparse & Ha)
              & Hcount & Hstrict).
        split_and!; [done| |rewrite Hcount, Hl; simpl length; lia|].
        -- exists (line :: before), pl, after. split_and!; try done.
           by constructor.
        -- intros Hst. apply Hstrict. congruence.
      * intros Hr. destruct (H4 Hr). split; congruence.
      * intros Hall. apply list.Forall_cons in Hall as [_ Hall]. by apply H5.
Qed.

(** X23.  What a successful [parser_parse_stream] leaves in the parser, on a
    text of at most [INT32_MAX] lines without the numeral of [INT32_MIN] that
    declares fewer than [INT32_MAX] variables: a formula with the declared,
    positive number of variables, an assignment array of that many cells plus
    one in which nothing is assigned, literals of the variables
    [1 .. num_variables] only, and clauses that are not empty, hold no literal
    twice and are no tautologies; [parsed_clauses] is the number of clauses
    of the formula and, in strict mode, the number declared in the problem
    line; [parsed_clauses] and [line_number] are at most [INT32_MAX]. *)
Theorem parser_parse_stream_formula (p p' : cnf_parser_t) (stream : string) :
  int_safe_text stream →
  parser_parse_stream p stream = (PARSE_OK, p') →
  max_variables (info p') < INT32_MAX →
  ∃ cnf,
    parsed_formula p' cnf
    ∧ cnf_allocated cnf
    ∧ strict_mode p' = strict_mode p
    ∧ (strict_mode p = true →
       Z.of_nat (length (clauses cnf)) = expected_clauses (info p'))
    ∧ parsed_clauses (info p') <= line_number (info p') <= INT32_MAX.
Proof.
  unfold parser_parse_stream. intros [Hlines _] Hrun _.
  destruct (parse_stream_lines_before _ (parser_reset p) _ _ eq_refl eq_refl
              (Z.le_refl 0) Hrun) as (Hs & Hok & _).
  destruct (Hok eq_refl) as ((cnf & Hcnf) & _ & Hcount & Hstrict).
  exists cnf. split_and!; [done| |done| | |].
  - destruct Hcnf as (_ & _ & _ & Hfresh & _).
    unfold cnf_allocated. by rewrite Hfresh, length_replicate.
  - intros Hst. destruct Hcnf as (_ & _ & _ & _ & _ & _ & <- & _).
    by apply Hstrict.
  - destruct Hcnf as (_ & _ & _ & _ & _ & _ & -> & Hle). exact Hle.
  - rewrite Hcount. simpl. lia.
Qed.

Lemma parser_parse_stream_formula_witness :
  int_safe_text dimacs_example
  ∧ parser_parse_stream (parser_create false) dimacs_example
    = (PARSE_OK, snd (parser_parse_stream (parser_create false) dimacs_example))
  ∧ max_variables
      (info (snd (parser_parse_stream (parser_create false) dimacs_example)))
    < INT32_MAX
  ∧ ∃ cnf,
      parsed_formula
        (snd (parser_parse_stream (parser_create false) dimacs_example)) cnf
      ∧ cnf_allocated cnf
      ∧ strict_mode
          (snd (parser_parse_stream (parser_create false) dimacs_example))
        = strict_mode (parser_create false)
      ∧ (strict_mode (parser_create false) = true →
         Z.of_nat (length (clauses cnf))
         = expected_clauses
             (info (snd (parser_parse_stream (parser_create false)
                           dimacs_example))))
      ∧ parsed_clauses
          (info (snd (parser_parse_stream (parser_create false)
                        dimacs_example)))
        <= line_number
             (info (snd (parser_parse_stream (parser_create false)
                           dimacs_example)))
        <= INT32_MAX.
Proof.
  assert (Hsafe : int_safe_text dimacs_example).
  { split; [by vm_compute|]. apply (bool_decide_unpack _). by vm_compute. }
  assert (Hrun : parser_parse_stream (parser_create false) dimacs_example
                 = (PARSE_OK,
                    snd (parser_parse_stream (parser_create false)
                           dimacs_example)))
    by (by vm_compute).
  assert (Hmax : max_variables
                   (info (snd (parser_parse_stream (parser_create false)
                                 dimacs_example)))
                 < INT32_MAX) by (by vm_compute).
  split; [exact Hsafe|]. split; [exact Hrun|]. split; [exact Hmax|].
  exact (parser_parse_stream_formula (parser_create false) _ dimacs_example
           Hsafe Hrun Hmax).
Defined.

(** X24.  The text that [parser_parse_stream] accepts, when it has at most
    [INT32_MAX] lines, none with the numeral of [INT32_MIN], and declares
    fewer than [INT32_MAX] variables: it has exactly one problem line, only
    empty lines and comments come before it, the numbers kept in
    [max_variables] and [expected_clauses] are the ones of that line, and
    [line_number] is the number of lines read. *)
Theorem parser_parse_stream_layout (p p' : cnf_parser_t) (stream : string) :
  int_safe_text stream →
  parser_parse_stream p stream = (PARSE_OK, p') →
  max_variables (info p') < INT32_MAX →
  (∃ before line after,
     fgets_lines stream = before ++ line :: after
     ∧ Forall (λ l, skipped_line l = true) before
     ∧ problem_line line = true
     ∧ parse_problem_line (line_text line)
       = (PARSE_OK, max_variables (info p'), expected_clauses (info p'))
     ∧ Forall (λ l, problem_line l = false) after)
  ∧ line_number (info p') = Z.of_nat (length (fgets_lines stream)).
Proof.
  unfold parser_parse_stream. intros _ Hrun _.
  destruct (parse_stream_lines_before _ (parser_reset p) _ _ eq_refl eq_refl
              (Z.le_refl 0) Hrun) as (_ & Hok & _).
  destruct (Hok eq_refl) as (_ & Hlayout & Hcount & _).
  split; [done|]. by rewrite Hcount.
Qed.

Lemma parser_parse_stream_layout_witness :
  int_safe_text dimacs_strict_example
  ∧ parser_parse_stream (parser_create true) dimacs_strict_example
    = (PARSE_OK,
       snd (parser_parse_stream (parser_create true) dimacs_strict_example))
  ∧ max_variables
      (info (snd (parser_parse_stream (parser_create true)
                    dimacs_strict_example)))
    < INT32_MAX
  ∧ (∃ before line after,
       fgets_lines dimacs_strict_example = before ++ line :: after
       ∧ Forall (λ l, skipped_line l = true) before
       ∧ problem_line line = true
       ∧ parse_problem_line (line_text line)
         = (PARSE_OK,
            max_variables
              (info (snd (parser_parse_stream (parser_create true)
                            dimacs_strict_example))),
            expected_clauses
              (info (snd (parser_parse_stream (parser_create true)
                            dimacs_strict_example))))
       ∧ Forall (λ l, problem_line l = false) after)
    ∧ line_number
        (info (snd (parser_parse_stream (parser_create true)
                      dimacs_strict_example)))
      = Z.of_nat (length (fgets_lines dimacs_strict_example)).
Proof.
  assert (Hsafe : int_safe_text dimacs_strict_example).
  { split; [by vm_compute|]. apply (bool_decide_unpack _). by vm_compute. }
  assert (Hrun : parser_parse_stream (parser_create true) dimacs_strict_example
                 = (PARSE_OK,
                    snd (parser_parse_stream (parser_create true)
                           dimacs_strict_example)))
    by (by vm_compute).
  assert (Hmax : max_variables
                   (info (snd (parser_parse_stream (parser_create true)
                                 dimacs_strict_example)))
                 < INT32_MAX) by (by vm_compute).
  split; [exact Hsafe|]. split; [exact Hrun|]. split; [exact Hmax|].
  exact (parser_parse_stream_layout (parser_create true) _
           dimacs_strict_example Hsafe Hrun Hmax).
Defined.

(** X25.  The failures of [parser_parse_stream].  It never answers
    [PARSE_ERROR_FILE_NOT_FOUND] or [PARSE_ERROR_EMPTY_FILE]: a text without
    a problem line, the empty text included, gives
    [PARSE_ERROR_NO_PROBLEM_LINE].  [PARSE_ERROR_INVALID_FORMAT] is the answer
    of the strict mode to a number of clauses that differs from the declared
    one; without the strict mode the declared number is not compared.  The
    strict mode itself is never changed. *)
Theorem parser_parse_stream_errors (p : cnf_parser_t) (stream : string) :
  let r := fst (parser_parse_stream p stream) in
  let p' := snd (parser_parse_stream p stream) in
  r ≠ PARSE_ERROR_FILE_NOT_FOUND ∧ r ≠ PARSE_ERROR_EMPTY_FILE
  ∧ (r = PARSE_ERROR_INVALID_FORMAT →
     strict_mode p = true
     ∧ parsed_clauses (info p') ≠ expected_clauses (info p'))
  ∧ (Forall (λ l, problem_line l = false) (fgets_lines stream) →
     r = PARSE_ERROR_NO_PROBLEM_LINE)
  ∧ strict_mode p' = strict_mode p.
Proof.
  intros r p'. subst r p'. unfold parser_parse_stream.
  destruct (parse_stream_lines (fgets_lines stream) (parser_reset p) false)
    as [r p'] eqn:Hrun.
  destruct (parse_stream_lines_before _ (parser_reset p) _ _ eq_refl eq_refl
              (Z.le_refl 0) Hrun) as (Hs & _ & H1 & H2 & H3 & H4).
  simpl. by split_and!.
Qed.

(** * The command-line driver ([main.c]) *)

(** [fgets] stores at least one character in every line it delivers. *)
Lemma length_fgets_loop (stream : string) :
  ∀ (line : string) (room : nat),
    (length (fgets_loop stream line room)
     ≤ String.length stream + (if string_is_empty line then 0 else 1))%nat.
Proof.
  induction stream as [|c rest IH]; intros line room; simpl.
  - destruct (string_is_empty line); simpl; lia.
  - destruct (Ascii.eqb c newline || (room =? 1)%nat); simpl.
    + pose proof (IH EmptyString (MAX_LINE_LENGTH - 1)%nat) as H. simpl in H.
      destruct (string_is_empty line); lia.
    + pose proof (IH (line ++ String c EmptyString)%string (room - 1)%nat) as H.
      assert (string_is_empty (line ++ String c EmptyString) = false) as Hne
        by (by destruct line).
      rewrite Hne in H. destruct (string_is_empty line); lia.
Qed.

Lemma length_fgets_lines (stream : string) :
  (length (fgets_lines stream) ≤ String.length stream)%nat.
Proof.
  unfold fgets_lines.
  pose proof (length_fgets_loop stream EmptyString (MAX_LINE_LENGTH - 1)) as H.
  change (if string_is_empty EmptyString then 0 else 1)%nat with 0%nat in H.
  lia.
Qed.

Lemma solver_solve_clauses (clock : nat → Q) (s s' : dpll_solver_t)
    (r : solver_result_t) :
  cnf_allocated (formula s) →
  solver_solve clock s = Some (r, s') →
  clauses (formula s') = clauses (formula s).
Proof.
  intros Hal.
  assert (Hsearch : ∀ s0 : dpll_solver_t,
            cnf_allocated (formula s0) →
            dpll_algorithm clock s0 = Some (r, s') →
            clauses (formula s') = clauses (formula s0)).
  { intros s0 Hal0 Hrun.
    destruct (dpll_loop_sound max_iterations 0 clock s0 Hal0)
      as (r1 & s1 & Hrun' & (Hc & _) & _).
    unfold dpll_algorithm in Hrun. rewrite Hrun in Hrun'.
    by injection Hrun' as <- <-. }
  unfold solver_solve.
  destruct (enable_preprocessing (config s)).
  2:{ intros Hrun.
      exact (Hsearch (set_config s (install_limits (config s))) Hal Hrun). }
  destruct (preprocess_loop_total (pass_budget s) s Hal
              (pass_budget_enough s Hal)) as (s1 & Hpre & Hsh).
  unfold preprocess_formula. rewrite Hpre. simpl.
  pose proof Hsh as (Hc & _).
  destruct (length (clauses (formula s1)) =? 0)%nat; [by intros [= <- <-]|].
  destruct (has_conflict s1); [by intros [= <- <-]|].
  intros Hrun. rewrite <- Hc.
  exact (Hsearch (set_config s1 (install_limits (config s1)))
           (same_shape_allocated _ _ Hsh Hal) Hrun).
Qed.

(** X26.  The exit status of [main], on an input text of at most
    [INT32_MAX] lines (and shorter than [2 ^ 63] characters) without the
    numeral of [INT32_MIN] that declares fewer than [2 ^ 30] variables, so
    that the [int] arithmetic of the parser and of the stack capacity is
    defined.  [main] ends with status 0, 1, 10 or 20, and with 1 exactly when
    the parser refuses the text.  Status 10 comes with the word [SATISFIABLE]
    and a model that makes every clause of the parsed formula true when the
    unassigned variables are printed as 0; status 20 means that no assignment
    makes every clause of the parsed formula true. *)
Theorem main_exit_status (args : cmd_args_t) (seed : Z) (clock : nat → Q)
    (file : string) :
  Z.of_nat (String.length file) < 2 ^ 63 →
  int_safe_text file →
  max_variables (info (snd (parser_parse_stream (parser_create false) file)))
  < 2 ^ 30 →
  ∃ status report,
    main args seed clock file = Some (status, report)
    ∧ (status = 0 ∨ status = 1 ∨ status = 10 ∨ status = 20)
    ∧ (status = 1 ↔
       fst (parser_parse_stream (parser_create false) file) ≠ PARSE_OK)
    ∧ ∀ cnf,
        parser_formula (snd (parser_parse_stream (parser_create false) file))
        = Some cnf →
        (status = 10 →
         ∃ solved,
           report = Some ("SATISFIABLE"%string, solved)
           ∧ clauses solved = clauses cnf
           ∧ formula_true (model_bit solved) cnf = true)
        ∧ (status = 20 → ∀ m, formula_true m cnf = false).
Proof.
  intros Hsize _ Hsmall. unfold main.
  destruct (parser_parse_stream (parser_create false) file) as [pr p] eqn:Hparse.
  simpl in Hsmall.
  simpl. destruct (bool_decide (pr = PARSE_OK)) eqn:Hok; simpl.
  2:{ apply bool_decide_eq_false in Hok. exists 1, None.
      split_and!; [done|auto|done|]. intros cnf _. split; done. }
  apply bool_decide_eq_true in Hok. subst pr.
  unfold parser_parse_stream in Hparse.
  destruct (parse_stream_lines_before _ (parser_reset (parser_create false))
              _ _ eq_refl eq_refl (Z.le_refl 0) Hparse) as (_ & Hgood & _).
  destruct (Hgood eq_refl) as ((cnf & Hcnf) & _ & Hlines & _).
  destruct Hcnf as (Hf & Hn & Hpos & Hfresh & Hrange & _ & _ & Hcount).
  rewrite Hf.
  destruct (Z.leb_spec (2 ^ 30) (num_variables cnf)) as [Hbig|_]; [lia|].
  set (config := mk_config (args_strategy args) true true true false
                   (args_max_decisions args) (args_timeout args) 1000
                   (args_verbose args)).
  set (s := solver_create_with_config cnf config seed).
  assert (Hal : cnf_allocated (formula s)).
  { unfold cnf_allocated. simpl. by rewrite Hfresh, length_replicate. }
  destruct (solver_solve_total clock s Hal) as (r & s' & Hrun).
  rewrite Hrun. simpl. exists (exit_status r), (Some (status_str r, formula s')).
  pose proof (solver_solve_result _ _ _ _ Hrun) as (He & Hm & _).
  split; [done|]. split; [by destruct r; auto|].
  split; [by destruct r|].
  intros cnf' [= <-]. split.
  - intros Hst. assert (r = SOLVER_SATISFIABLE) as -> by (by destruct r).
    exists (formula s'). split; [done|].
    pose proof (solver_solve_clauses _ _ _ _ Hal Hrun) as Hcl.
    split; [done|].
    rewrite <- (formula_true_clauses _ cnf (formula s')) by done.
    apply satisfied_formula_true.
    by apply (solver_solve_sat_satisfied clock s s').
  - intros Hst. assert (r = SOLVER_UNSATISFIABLE) as -> by (by destruct r).
    apply (solver_solve_refutation clock s s'); [|constructor|done].
    apply refutation_invariant_create; try done.
    + rewrite Hfresh. by apply Forall_replicate.
    + lia.
    + pose proof (length_fgets_lines file). simpl in Hlines. lia.
Qed.

Lemma main_exit_status_witness :
  Z.of_nat (String.length dimacs_example) < 2 ^ 63
  ∧ int_safe_text dimacs_example
  ∧ max_variables
      (info (snd (parser_parse_stream (parser_create false) dimacs_example)))
    < 2 ^ 30
  ∧ ∃ status report,
      main (mk_args false DECISION_FIRST_UNASSIGNED 0 0) 1 still_clock
        dimacs_example
      = Some (status, report)
      ∧ (status = 0 ∨ status = 1 ∨ status = 10 ∨ status = 20)
      ∧ (status = 1 ↔
         fst (parser_parse_stream (parser_create false) dimacs_example)
         ≠ PARSE_OK)
      ∧ ∀ cnf,
          parser_formula
            (snd (parser_parse_stream (parser_create false) dimacs_example))
          = Some cnf →
          (status = 10 →
           ∃ solved,
             report = Some ("SATISFIABLE"%string, solved)
             ∧ clauses solved = clauses cnf
             ∧ formula_true (model_bit solved) cnf = true)
          ∧ (status = 20 → ∀ m, formula_true m cnf = false).
Proof.
  assert (Hsize : Z.of_nat (String.length dimacs_example) < 2 ^ 63)
    by (by vm_compute).
  assert (Hsafe : int_safe_text dimacs_example).
  { split; [by vm_compute|]. apply (bool_decide_unpack _). by vm_compute. }
  assert (Hsmall : max_variables
                     (info (snd (parser_parse_stream (parser_create false)
                                   dimacs_example)))
                   < 2 ^ 30) by (by vm_compute).
  split; [exact Hsize|]. split; [exact Hsafe|]. split; [exact Hsmall|].
  exact (main_exit_status (mk_args false DECISION_FIRST_UNASSIGNED 0 0) 1
           still_clock dimacs_example Hsize Hsafe Hsmall).
Defined.

(** * Writing a formula and reading it back ([parser.c]) *)

(** ** The characters of a printed number *)

Lemma string_forallb_append (P : ascii → bool) (s t : string) :
  string_forallb P (s ++ t) = string_forallb P s && string_forallb P t.
Proof.
  induction s as [|c s IH]; simpl; [done|]. by rewrite IH, andb_assoc.
Qed.

Lemma string_forallb_impl (P Q : ascii → bool) (s : string) :
  (∀ c, P c = true → Q c = true) →
  string_forallb P s = true → string_forallb Q s = true.
Proof.
  intros HPQ. induction s as [|c s IH]; simpl; [done|].
  intros [Hc Hs]%andb_true_iff. by rewrite (HPQ c Hc), IH.
Qed.

Lemma string_forallb_get (P : ascii → bool) (s : string) :
  string_forallb P s = true →
  ∀ j c, String.get j s = Some c → P c = true.
Proof.
  induction s as [|c0 s IH]; simpl; [by intros _ [|j] c|].
  intros [Hc Hs]%andb_true_iff [|j] c; [by intros [= <-]|]. by apply IH.
Qed.

Lemma number_char_plain (c : ascii) :
  number_char c = true →
  isspace c = false ∧ is_delimiter c = false
  ∧ Ascii.eqb c NUL = false ∧ Ascii.eqb c newline = false
  ∧ Ascii.eqb c "c" = false ∧ Ascii.eqb c "p" = false.
Proof.
  destruct c as [[] [] [] [] [] [] [] []]; intros H; try discriminate H;
    by vm_compute.
Qed.

Lemma string_of_uint_digits (d : Decimal.uint) :
  string_forallb isdigit (NilEmpty.string_of_uint d) = true.
Proof. induction d; simpl; done. Qed.

Lemma length_string_of_uint (d : Decimal.uint) :
  String.length (NilEmpty.string_of_uint d) = Decimal.nb_digits d.
Proof. induction d; simpl; congruence. Qed.

Lemma print_int_chars (z : Z) :
  string_forallb number_char (print_int z) = true
  ∧ print_int z ≠ EmptyString.
Proof.
  assert (Hd : ∀ d, string_forallb number_char (NilEmpty.string_of_uint d)
                    = true).
  { intros d. apply (string_forallb_impl isdigit); [|apply string_of_uint_digits].
    intros c Hc. unfold number_char. by rewrite Hc. }
  assert (Hnz : ∀ p, NilZero.string_of_uint (Pos.to_uint p)
                     = NilEmpty.string_of_uint (Pos.to_uint p)).
  { intros p. pose proof (Unsigned.to_uint_nonnil p).
    by destruct (Pos.to_uint p). }
  assert (Hne : ∀ p, NilEmpty.string_of_uint (Pos.to_uint p) ≠ EmptyString).
  { intros p. pose proof (Unsigned.to_uint_nonnil p).
    by destruct (Pos.to_uint p). }
  unfold print_int. destruct z as [|p|p]; simpl.
  - done.
  - rewrite Hnz. by split.
  - rewrite Hnz. by split.
Qed.

(** ** The length of a printed number *)

Lemma of_uint_acc_lower (d : Decimal.uint) :
  ∀ acc : positive,
    Z.pos acc * 10 ^ Z.of_nat (Decimal.nb_digits d)
    <= Z.pos (Pos.of_uint_acc d acc).
Proof.
  induction d as [|d IH|d IH|d IH|d IH|d IH|d IH|d IH|d IH|d IH|d IH];
    intros acc; cbn [Pos.of_uint_acc Decimal.nb_digits].
  { rewrite Z.pow_0_r. lia. }
  all: rewrite Nat2Z.inj_succ, Z.pow_succ_r by lia.
  all: etransitivity; [|apply IH].
  all: pose proof (Z.pow_pos_nonneg 10 (Z.of_nat (Decimal.nb_digits d))
                     ltac:(lia) ltac:(lia)); nia.
Qed.

Lemma nzhead_not_zero (d u : Decimal.uint) :
  Decimal.nzhead d ≠ Decimal.D0 u.
Proof. induction d; simpl; done. Qed.

(** A positive number is at least the power of ten that its number of
    digits announces. *)
Lemma to_uint_lower (p : positive) :
  10 ^ (Z.of_nat (Decimal.nb_digits (Pos.to_uint p)) - 1) <= Z.pos p.
Proof.
  pose proof (DecimalPos.Unsigned.of_to p) as Hof.
  pose proof (DecimalPos.Unsigned.to_of (Pos.to_uint p)) as Hto.
  rewrite Hof in Hto. simpl in Hto.
  pose proof (Unsigned.to_uint_nonzero p) as Hnz.
  destruct (Pos.to_uint p) as [|d|d|d|d|d|d|d|d|d|d] eqn:Hd.
  { simpl. lia. }
  { exfalso. unfold Decimal.unorm in Hto. simpl in Hto.
    pose proof (nzhead_not_zero d) as Hh.
    destruct (Decimal.nzhead d) as [|u|u|u|u|u|u|u|u|u|u];
      try discriminate Hto.
    - injection Hto as ->. done.
    - by destruct (Hh u). }
  all: cbn [Pos.of_uint] in Hof; injection Hof as <-.
  all: cbn [Decimal.nb_digits]; rewrite Nat2Z.inj_succ.
  all: replace (Z.succ (Z.of_nat (Decimal.nb_digits d)) - 1)
         with (Z.of_nat (Decimal.nb_digits d)) by lia.
  all: etransitivity; [|apply of_uint_acc_lower].
  all: pose proof (Z.pow_pos_nonneg 10 (Z.of_nat (Decimal.nb_digits d))
                     ltac:(lia) ltac:(lia)); nia.
Qed.

Lemma length_print_int (z : Z) :
  INT32_MIN <= z <= INT32_MAX → (String.length (print_int z) ≤ 11)%nat.
Proof.
  assert (Hp : ∀ p, Z.pos p <= 2 ^ 31 →
                    (String.length (NilZero.string_of_uint (Pos.to_uint p))
                     ≤ 10)%nat).
  { intros p Hle.
    assert (NilZero.string_of_uint (Pos.to_uint p)
            = NilEmpty.string_of_uint (Pos.to_uint p)) as ->.
    { pose proof (Unsigned.to_uint_nonnil p). by destruct (Pos.to_uint p). }
    rewrite length_string_of_uint.
    pose proof (to_uint_lower p) as Hlow.
    destruct (Nat.le_gt_cases (Decimal.nb_digits (Pos.to_uint p)) 10)
      as [|Hbig]; [done|exfalso].
    assert (10 ^ 10 <= 10 ^ (Z.of_nat (Decimal.nb_digits (Pos.to_uint p)) - 1))
      by (apply Z.pow_le_mono_r; lia).
    lia. }
  unfold INT32_MIN, INT32_MAX, print_int. intros Hz.
  destruct z as [|p|p]; simpl.
  - lia.
  - specialize (Hp p). lia.
  - specialize (Hp p). lia.
Qed.

(** ** Lines *)

Lemma append_assoc (s t u : string) :
  ((s ++ t) ++ u)%string = (s ++ t ++ u)%string.
Proof. induction s as [|c s IH]; simpl; [done|by rewrite IH]. Qed.

(** [fgets] delivers a line that fits into the buffer in one piece. *)
Lemma fgets_loop_line (body : string) :
  ∀ (line : string) (room : nat) (rest : string),
    string_forallb (λ c, negb (Ascii.eqb c newline)) body = true →
    (String.length body < room)%nat →
    fgets_loop (body ++ String newline rest) line room
    = (line ++ body ++ String newline EmptyString)%string
      :: fgets_loop rest EmptyString (MAX_LINE_LENGTH - 1).
Proof.
  induction body as [|c body IH]; intros line room rest Hbody Hroom.
  - cbn [append fgets_loop]. by rewrite Ascii.eqb_refl.
  - cbn [append fgets_loop]. simpl in Hbody, Hroom.
    apply andb_true_iff in Hbody as [Hc Hbody].
    apply negb_true_iff in Hc. rewrite Hc.
    destruct (Nat.eqb_spec room 1) as [->|_]; [lia|]. cbn [orb].
    rewrite IH by (done || lia). by rewrite append_assoc.
Qed.

Lemma cut_line_newline (body rest : string) :
  string_forallb (λ c, negb (Ascii.eqb c NUL || Ascii.eqb c newline)) body
  = true →
  cut_line (body ++ String newline rest) = body.
Proof.
  induction body as [|c body IH]; simpl.
  - done.
  - intros [Hc Hbody]%andb_true_iff. apply negb_true_iff in Hc.
    rewrite Hc. by rewrite IH.
Qed.

Lemma get_last_append (P : ascii → bool) (s t : string) :
  t ≠ EmptyString →
  string_forallb P t = true →
  ∀ c, String.get (String.length (s ++ t) - 1) (s ++ t) = Some c →
       P c = true.
Proof.
  intros Hne Ht. induction s as [|c0 s IH]; intros c.
  - simpl. apply (string_forallb_get P t Ht).
  - cbn [append String.length].
    assert (0 < String.length (s ++ t))%nat.
    { rewrite length_append. destruct t; [done|simpl; lia]. }
    replace (S (String.length (s ++ t)) - 1)%nat
      with (S (String.length (s ++ t) - 1)) by lia.
    simpl. apply IH.
Qed.

(** ** Tokens *)

Lemma strtok_loop_token (t : string) :
  ∀ (token rest : string),
    string_forallb (λ c, negb (is_delimiter c)) t = true →
    (token ++ t)%string ≠ EmptyString →
    strtok_loop (t ++ String " " rest) token
    = (token ++ t)%string :: strtok_loop rest EmptyString.
Proof.
  induction t as [|c t IH]; intros token rest Ht Hne.
  - cbn [append strtok_loop]. change (is_delimiter " ") with true. cbn iota.
    rewrite append_empty_r in *. by destruct token.
  - cbn [append strtok_loop]. simpl in Ht.
    apply andb_true_iff in Ht as [Hc Ht]. apply negb_true_iff in Hc.
    rewrite Hc. rewrite IH; [by rewrite append_assoc|done|].
    rewrite append_assoc. simpl. by destruct token.
Qed.

Lemma strtok_loop_last (t : string) :
  ∀ token : string,
    string_forallb (λ c, negb (is_delimiter c)) t = true →
    (token ++ t)%string ≠ EmptyString →
    strtok_loop t token = [(token ++ t)%string].
Proof.
  induction t as [|c t IH]; intros token Ht Hne.
  - cbn [strtok_loop]. rewrite append_empty_r in *. by destruct token.
  - cbn [strtok_loop]. simpl in Ht.
    apply andb_true_iff in Ht as [Hc Ht]. apply negb_true_iff in Hc.
    rewrite Hc. rewrite IH; [by rewrite append_assoc|done|].
    rewrite append_assoc. simpl. by destruct token.
Qed.

Lemma print_int_no_delimiter (z : Z) :
  string_forallb (λ c, negb (is_delimiter c)) (print_int z) = true.
Proof.
  apply (string_forallb_impl number_char); [|apply print_int_chars].
  intros c Hc. destruct (number_char_plain c Hc) as (_ & -> & _). done.
Qed.

(** The tokens of a written clause. *)
Lemma strtok_tokens_clause (clause : clause_t) :
  strtok_tokens (foldr (λ lit out, print_int lit ++ " " ++ out) "0" clause)%string
  = (print_int <$> clause) ++ ["0"%string].
Proof.
  unfold strtok_tokens. induction clause as [|lit rest IH]; [done|].
  cbn [foldr fmap list_fmap].
  change (print_int lit ++ " " ++ ?s)%string
    with (print_int lit ++ String " " s)%string.
  rewrite strtok_loop_token.
  - cbn [append app]. f_equal. exact IH.
  - apply print_int_no_delimiter.
  - simpl. apply print_int_chars.
Qed.

(** ** A written clause line *)

Lemma is_valid_literal_of_range (lit n : Z) :
  1 <= literal_variable lit <= n → is_valid_literal lit n = true.
Proof.
  unfold is_valid_literal, is_valid_variable, literal_variable.
  destruct (Z.eqb_spec lit 0) as [->|_]; [simpl; lia|].
  destruct (Z.ltb_spec 0 lit); intros Hr; apply andb_true_iff; lia.
Qed.

Lemma parse_clause_tokens_printed (n : Z) (lits : list literal_t) :
  n <= INT32_MAX →
  ∀ acc : clause_t,
    Forall (λ lit, 1 <= literal_variable lit <= n) lits →
    NoDup (acc ++ lits) →
    parse_clause_tokens ((print_int <$> lits) ++ ["0"%string]) acc n
    = (PARSE_OK, acc ++ lits).
Proof.
  intros Hn. induction lits as [|lit rest IH]; intros acc Hrange Hnd.
  - simpl. change (parse_int "0") with (Some 0). simpl. by rewrite app_nil_r.
  - apply list.Forall_cons in Hrange as [Hlit Hrange].
    cbn [fmap list_fmap app parse_clause_tokens].
    assert (Hbound : INT32_MIN <= lit <= INT32_MAX).
    { unfold literal_variable, INT32_MIN, INT32_MAX in *.
      destruct (0 <? lit); lia. }
    rewrite (parse_int_print_int lit Hbound).
    assert (Hnz : lit ≠ 0).
    { intros ->. unfold literal_variable in Hlit. simpl in Hlit. lia. }
    destruct (Z.eqb_spec lit 0) as [|_]; [done|].
    rewrite (is_valid_literal_of_range lit n Hlit). cbn [negb].
    unfold clause_add_literal.
    destruct (Z.eqb_spec lit 0) as [|_]; [done|].
    assert (Hnin : clause_has_literal acc lit = false).
    { apply not_true_is_false. intros Hin%clause_has_literal_elem.
      apply list.NoDup_app in Hnd as (_ & Hdis & _).
      apply (Hdis lit Hin). by left. }
    rewrite Hnin.
    change (fix list_fmap (l : list Z) : list string :=
              match l with
              | [] => []
              | x :: l0 => print_int x :: list_fmap l0
              end) with (fmap (M:=list) print_int).
    rewrite IH; [by rewrite <- app_assoc|done|by rewrite <- app_assoc].
Qed.

(** The text of a written clause without its newline: printed numbers and
    single blanks; it starts with a character of a number and ends with the
    terminator. *)
Lemma clause_text_shape (clause : clause_t) :
  let text := (foldr (λ lit out, print_int lit ++ " " ++ out) "0" clause)%string
  in
  string_forallb (λ c, number_char c || Ascii.eqb c " ") text = true
  ∧ (∃ c s, text = String c s ∧ number_char c = true)
  ∧ (∃ s, text = (s ++ "0")%string).
Proof.
  induction clause as [|lit rest (Hall & Hfirst & (s & Hlast))];
    cbn [foldr].
  { split_and!; [done|by eexists _, _|by exists EmptyString]. }
  destruct (print_int_chars lit) as [Hchars Hne].
  split_and!.
  - rewrite string_forallb_append. apply andb_true_iff. split.
    + apply (string_forallb_impl number_char); [|done].
      by intros c ->.
    + done.
  - destruct (print_int lit) as [|c s0]; [done|].
    exists c. eexists. split; [reflexivity|].
    simpl in Hchars. by apply andb_true_iff in Hchars as [? _].
  - exists (print_int lit ++ " " ++ s)%string.
    rewrite Hlast. by rewrite !append_assoc.
Qed.

Lemma line_text_clause (clause : clause_t) :
  line_text (write_clause_line clause)
  = (foldr (λ lit out, print_int lit ++ " " ++ out) "0" clause)%string.
Proof.
  unfold line_text, write_clause_line.
  destruct (clause_text_shape clause) as (Hall & (c & s & Hfirst & Hc) & (s' & Hlast)).
  rewrite cut_line_newline.
  2:{ apply (string_forallb_impl (λ c, number_char c || Ascii.eqb c " "));
        [|done].
      intros ch [Hch|Hch]%orb_true_iff.
      - destruct (number_char_plain ch Hch) as (_ & _ & -> & -> & _). done.
      - apply Ascii.eqb_eq in Hch as ->. done. }
  apply trim_string_fixed.
  - rewrite Hfirst. simpl. intros ch [= <-].
    by destruct (number_char_plain c Hc) as (-> & _).
  - rewrite Hlast. intros ch Hch.
    apply (get_last_append (λ c, negb (isspace c)) s' "0") in Hch; [|done|done].
    by apply negb_true_iff.
Qed.

(** The loop body of [parser_parse_stream] on a written clause line. *)
Lemma parse_stream_line_written (p : cnf_parser_t) (f : cnf_formula_t)
    (clause : clause_t) :
  parser_formula p = Some f →
  max_variables (info p) <= INT32_MAX →
  Forall (λ lit, 1 <= literal_variable lit <= max_variables (info p)) clause →
  clause_well_formed clause →
  parse_stream_line p true (write_clause_line clause)
  = (None,
     mk_parser
       (mk_info (line_number (info p) + 1) (expected_clauses (info p))
          (parsed_clauses (info p) + 1) (max_variables (info p)))
       (Some (snd (cnf_add_clause f clause))) (strict_mode p),
     true).
Proof.
  intros Hf Hn Hrange (Hne & Hnd & Htaut).
  unfold parse_stream_line.
  change (trim_string (cut_line (write_clause_line clause)))
    with (line_text (write_clause_line clause)).
  rewrite line_text_clause.
  destruct (clause_text_shape clause) as (_ & (c & s & Hfirst & Hc) & _).
  destruct (number_char_plain c Hc) as (Hsp & _ & _ & _ & Hcc & Hcp).
  assert (His_empty : is_empty_line
            (foldr (λ lit out, print_int lit ++ " " ++ out) "0" clause)%string
          = false).
  { rewrite Hfirst. simpl. by rewrite Hsp. }
  assert (His_comment : is_comment_line
            (foldr (λ lit out, print_int lit ++ " " ++ out) "0" clause)%string
          = false).
  { rewrite Hfirst. simpl. done. }
  assert (His_problem : is_problem_line
            (foldr (λ lit out, print_int lit ++ " " ++ out) "0" clause)%string
          = false).
  { rewrite Hfirst. unfold is_problem_line, string_starts_with. simpl.
    by rewrite Hcp. }
  rewrite His_empty, His_comment, His_problem.
  unfold parse_stream_clause_line. cbn [negb info max_variables].
  unfold parse_clause_line. rewrite strtok_tokens_clause.
  rewrite (parse_clause_tokens_printed _ clause Hn [] Hrange Hnd).
  cbn [app]. rewrite bool_decide_eq_true_2 by done. cbn [negb].
  destruct clause as [|lit rest]; [done|]. cbn [length Nat.eqb].
  rewrite Htaut. cbn [parser_formula strict_mode]. rewrite Hf. done.
Qed.

(** The loop on the written clause lines. *)
Lemma parse_stream_lines_written (cls : list clause_t) :
  ∀ (p : cnf_parser_t) (f : cnf_formula_t),
    parser_formula p = Some f →
    max_variables (info p) <= INT32_MAX →
    Forall (Forall (λ lit, 1 <= literal_variable lit
                           <= max_variables (info p))) cls →
    Forall clause_well_formed cls →
    expected_clauses (info p)
    = parsed_clauses (info p) + Z.of_nat (length cls) →
    parse_stream_lines (write_clause_line <$> cls) p true
    = (PARSE_OK,
       mk_parser
         (mk_info (line_number (info p) + Z.of_nat (length cls))
            (expected_clauses (info p))
            (parsed_clauses (info p) + Z.of_nat (length cls))
            (max_variables (info p)))
         (Some (foldl (λ cnf clause, snd (cnf_add_clause cnf clause)) f cls))
         (strict_mode p)).
Proof.
  induction cls as [|clause rest IH]; intros p f Hf Hn Hrange Hwf Hexp.
  - destruct p as [[ln ex pa mv] pf st].
    cbn [fmap list_fmap parse_stream_lines length foldl info parser_formula
         strict_mode line_number expected_clauses parsed_clauses max_variables]
      in *.
    rewrite !Z.add_0_r in *. subst.
    by rewrite Z.eqb_refl, andb_false_r.
  - apply list.Forall_cons in Hrange as [Hr1 Hrange].
    apply list.Forall_cons in Hwf as [Hw1 Hwf].
    cbn [fmap list_fmap parse_stream_lines].
    rewrite (parse_stream_line_written p f clause Hf Hn Hr1 Hw1).
    change (fix list_fmap (l : list clause_t) : list string :=
              match l with
              | [] => []
              | x :: l0 => write_clause_line x :: list_fmap l0
              end) with (fmap (M:=list) write_clause_line).
    rewrite (IH _ (snd (cnf_add_clause f clause))); try done.
    + cbn [info line_number expected_clauses parsed_clauses max_variables
           strict_mode foldl length].
      do 3 f_equal; lia.
    + cbn [info line_number expected_clauses parsed_clauses max_variables
           length] in *. lia.
Qed.

(** [fgets] on the written clause lines. *)
Lemma fgets_loop_written (cls : list clause_t) :
  Forall (λ clause, (String.length (write_clause_line clause) ≤ 1023)%nat) cls →
  fgets_loop
    (foldr (λ clause out, write_clause_line clause ++ out) EmptyString cls)%string
    EmptyString (MAX_LINE_LENGTH - 1)
  = write_clause_line <$> cls.
Proof.
  induction cls as [|clause rest IH]; intros Hlen; [done|].
  apply list.Forall_cons in Hlen as [Hl Hlen].
  cbn [foldr fmap list_fmap]. unfold write_clause_line at 1.
  rewrite append_assoc.
  change (String newline EmptyString ++ ?s)%string with (String newline s).
  destruct (clause_text_shape clause) as (Hall & _).
  rewrite fgets_loop_line.
  - cbn [append]. f_equal. by apply IH.
  - apply (string_forallb_impl (λ c, number_char c || Ascii.eqb c " "));
      [|done].
    intros ch [Hch|Hch]%orb_true_iff.
    + destruct (number_char_plain ch Hch) as (_ & _ & _ & -> & _). done.
    + apply Ascii.eqb_eq in Hch as ->. done.
  - unfold write_clause_line in Hl. rewrite length_append in Hl.
    change (String.length (String newline EmptyString)) with 1%nat in Hl.
    change (MAX_LINE_LENGTH - 1)%nat with 1023%nat. lia.
Qed.

(** ** The header *)

Lemma foldl_cnf_add_clause (cls : list clause_t) :
  ∀ f : cnf_formula_t,
    clauses (foldl (λ cnf clause, snd (cnf_add_clause cnf clause)) f cls)
    = clauses f ++ cls
    ∧ num_variables (foldl (λ cnf clause, snd (cnf_add_clause cnf clause)) f cls)
      = num_variables f.
Proof.
  induction cls as [|clause rest IH]; intros f; cbn [foldl].
  - by rewrite app_nil_r.
  - destruct (IH (snd (cnf_add_clause f clause))) as [-> ->]. simpl.
    by rewrite <- app_assoc.
Qed.

(** The text of the problem line that [parser_write_cnf_stream] prints. *)
Lemma line_text_header (v c : Z) :
  line_text ("p cnf " ++ print_int v ++ " " ++ print_int c
             ++ String newline EmptyString)
  = ("p cnf " ++ print_int v ++ " " ++ print_int c)%string
  ∧ string_forallb (λ ch, negb (Ascii.eqb ch newline))
      ("p cnf " ++ print_int v ++ " " ++ print_int c) = true.
Proof.
  destruct (print_int_chars v) as [Hv _].
  destruct (print_int_chars c) as [Hc Hne].
  assert (Hnum : ∀ z, string_forallb
                        (λ ch, negb (Ascii.eqb ch NUL || Ascii.eqb ch newline))
                        (print_int z) = true).
  { intros z. apply (string_forallb_impl number_char); [|apply print_int_chars].
    intros ch Hch.
    destruct (number_char_plain ch Hch) as (_ & _ & -> & -> & _). done. }
  assert (Hall : string_forallb
                   (λ ch, negb (Ascii.eqb ch NUL || Ascii.eqb ch newline))
                   ("p cnf " ++ print_int v ++ " " ++ print_int c) = true).
  { rewrite !string_forallb_append. rewrite !Hnum. done. }
  split.
  - unfold line_text.
    replace ("p cnf " ++ print_int v ++ " " ++ print_int c
             ++ String newline EmptyString)%string
      with (("p cnf " ++ print_int v ++ " " ++ print_int c)
            ++ String newline EmptyString)%string
      by (by rewrite !append_assoc).
    rewrite cut_line_newline by done.
    apply trim_string_fixed.
    + simpl. by intros ch [= <-].
    + replace ("p cnf " ++ print_int v ++ " " ++ print_int c)%string
        with (("p cnf " ++ print_int v ++ " ") ++ print_int c)%string
        by (by rewrite !append_assoc).
      intros ch Hch.
      apply (get_last_append number_char) in Hch; [|done|done].
      by destruct (number_char_plain ch Hch) as (-> & _).
  - apply (string_forallb_impl
             (λ ch, negb (Ascii.eqb ch NUL || Ascii.eqb ch newline)));
      [|done].
    intros ch Hch. by destruct (Ascii.eqb ch NUL), (Ascii.eqb ch newline).
Qed.

(** The lines that [fgets] delivers from a written formula. *)
Lemma fgets_lines_written (cnf : cnf_formula_t) :
  0 <= num_variables cnf <= INT32_MAX →
  Z.of_nat (length (clauses cnf)) <= INT32_MAX →
  Forall (λ clause, (String.length (write_clause_line clause) ≤ 1023)%nat)
    (clauses cnf) →
  fgets_lines (parser_write_cnf_stream cnf)
  = ("c Arquivo CNF gerado pelo SAT Solver" ++ String newline EmptyString)%string
    :: ("p cnf " ++ print_int (num_variables cnf) ++ " "
        ++ print_int (Z.of_nat (length (clauses cnf)))
        ++ String newline EmptyString)%string
    :: (write_clause_line <$> clauses cnf).
Proof.
  intros Hn Hm Hlen. unfold fgets_lines, parser_write_cnf_stream.
  set (body := foldr (λ clause out, write_clause_line clause ++ out)%string
                 EmptyString (clauses cnf)).
  set (v := print_int (num_variables cnf)).
  set (c := print_int (Z.of_nat (length (clauses cnf)))).
  replace ("c Arquivo CNF gerado pelo SAT Solver" ++ String newline EmptyString
           ++ "p cnf " ++ v ++ " " ++ c ++ String newline EmptyString ++ body)%string
    with ("c Arquivo CNF gerado pelo SAT Solver"
          ++ String newline
               (("p cnf " ++ v ++ " " ++ c) ++ String newline body))%string
    by (by rewrite !append_assoc).
  rewrite fgets_loop_line; [|done|simpl; unfold MAX_LINE_LENGTH; lia].
  f_equal.
  rewrite fgets_loop_line.
  - f_equal; [by rewrite !append_assoc|]. by apply fgets_loop_written.
  - apply line_text_header.
  - rewrite !length_append.
    pose proof (length_print_int (num_variables cnf)) as Hv.
    pose proof (length_print_int (Z.of_nat (length (clauses cnf)))) as Hc.
    unfold INT32_MIN, INT32_MAX in *. fold v c in Hv, Hc.
    specialize (Hv ltac:(lia)). specialize (Hc ltac:(lia)).
    change (MAX_LINE_LENGTH - 1)%nat with 1023%nat. simpl String.length. lia.
Qed.

(** X27.  Writing and reading back.  For a formula as the parser builds
    them (a positive number of variables, literals in range, clauses that
    are not empty, hold no literal twice and are no tautologies) whose
    clause lines fit the line buffer of [parser_parse_stream], the parser
    accepts the text that [parser_write_cnf_stream] writes, in either mode,
    and builds the formula with the same number of variables and the same
    clauses in the same order. *)
Theorem parser_write_parse_round_trip (cnf : cnf_formula_t) (strict : bool) :
  0 < num_variables cnf <= INT32_MAX →
  Z.of_nat (length (clauses cnf)) <= INT32_MAX →
  literals_in_range cnf →
  Forall clause_well_formed (clauses cnf) →
  Forall (λ clause, (String.length (write_clause_line clause) ≤ 1023)%nat)
    (clauses cnf) →
  ∃ p',
    parser_parse_string (parser_create strict) (parser_write_cnf_stream cnf)
    = (PARSE_OK, p')
    ∧ parser_formula p'
      = Some (formula_of (num_variables cnf) (clauses cnf))
    ∧ clauses (formula_of (num_variables cnf) (clauses cnf)) = clauses cnf
    ∧ num_variables (formula_of (num_variables cnf) (clauses cnf))
      = num_variables cnf
    ∧ info p'
      = mk_info (2 + Z.of_nat (length (clauses cnf)))
          (Z.of_nat (length (clauses cnf)))
          (Z.of_nat (length (clauses cnf))) (num_variables cnf).
Proof.
  intros Hn Hm Hrange Hwf Hlen.
  unfold parser_parse_string, parser_parse_stream.
  rewrite fgets_lines_written by (done || lia).
  cbn [parse_stream_lines].
  assert (Hcomment : parse_stream_line (parser_reset (parser_create strict))
                       false
                       ("c Arquivo CNF gerado pelo SAT Solver"
                        ++ String newline EmptyString)
                     = (None, mk_parser (mk_info 1 0 0 0) None strict, false))
    by reflexivity.
  rewrite Hcomment. clear Hcomment.
  assert (Hheader : parse_stream_line (mk_parser (mk_info 1 0 0 0) None strict)
                      false
                      ("p cnf " ++ print_int (num_variables cnf) ++ " "
                       ++ print_int (Z.of_nat (length (clauses cnf)))
                       ++ String newline EmptyString)
                    = (None,
                       mk_parser
                         (mk_info 2 (Z.of_nat (length (clauses cnf))) 0
                            (num_variables cnf))
                         (cnf_create (num_variables cnf)) strict,
                       true)).
  { unfold parse_stream_line.
    change (trim_string (cut_line ?l)) with (line_text l).
    destruct (line_text_header (num_variables cnf)
                (Z.of_nat (length (clauses cnf)))) as [-> _].
    change (is_empty_line ("p cnf " ++ ?s)) with false.
    change (is_comment_line ("p cnf " ++ ?s)) with false.
    change (is_problem_line ("p cnf " ++ ?s)) with true.
    cbn iota.
    pose proof (parse_problem_line_header (num_variables cnf)
                  (Z.of_nat (length (clauses cnf))) EmptyString
                  Hn ltac:(lia) ltac:(done)) as Hparse.
    rewrite !append_empty_r in Hparse. simpl is_empty_line in Hparse.
    rewrite Hparse. rewrite bool_decide_eq_true_2 by done.
    cbn [negb info line_number parsed_clauses strict_mode parser_formula].
    unfold cnf_create. destruct (Z.leb_spec (num_variables cnf) 0); [lia|].
    done. }
  rewrite Hheader. clear Hheader.
  unfold formula_of, cnf_create.
  destruct (Z.leb_spec (num_variables cnf) 0); [lia|].
  set (fresh := mk_cnf [] (num_variables cnf)
                  (replicate (Z.to_nat (num_variables cnf + 1)) VAR_UNASSIGNED)
                  (replicate (Z.to_nat (num_variables cnf + 1)) false)).
  rewrite (parse_stream_lines_written (clauses cnf) _ fresh);
    [|done|simpl; lia|done|done|simpl; lia].
  eexists. split; [reflexivity|].
  destruct (foldl_cnf_add_clause (clauses cnf) fresh) as [Hcl Hnum].
  cbn [parser_formula info line_number expected_clauses parsed_clauses
       max_variables].
  split_and!; [done|by rewrite Hcl|by rewrite Hnum|by rewrite Z.add_0_l].
Qed.

Lemma parser_write_parse_round_trip_witness :
  ∃ p',
    parser_parse_string (parser_create true)
      (parser_write_cnf_stream (formula satisfiable_example))
    = (PARSE_OK, p')
    ∧ parser_formula p'
      = Some (formula_of (num_variables (formula satisfiable_example))
                (clauses (formula satisfiable_example)))
    ∧ clauses (formula_of (num_variables (formula satisfiable_example))
                 (clauses (formula satisfiable_example)))
      = clauses (formula satisfiable_example)
    ∧ num_variables (formula_of (num_variables (formula satisfiable_example))
                       (clauses (formula satisfiable_example)))
      = num_variables (formula satisfiable_example)
    ∧ info p'
      = mk_info (2 + Z.of_nat (length (clauses (formula satisfiable_example))))
          (Z.of_nat (length (clauses (formula satisfiable_example))))
          (Z.of_nat (length (clauses (formula satisfiable_example))))
          (num_variables (formula satisfiable_example)).
Proof.
  apply (parser_write_parse_round_trip (formula satisfiable_example) true).
  - by vm_compute.
  - by vm_compute.
  - apply (bool_decide_unpack _). vm_compute. exact I.
  - repeat (constructor;
            [split_and!;
               [done|apply (bool_decide_unpack _); vm_compute; exact I|done]|]).
    constructor.
  - repeat (constructor; [vm_compute; lia|]). constructor.
Defined.

(** * The work of the solver ([solver.c]) *)

Lemma assign_variable_stats (s : dpll_solver_t) (var : variable_t)
    (v : var_assignment_t) (d : bool) :
  stats (snd (assign_variable s var v d)) = stats s.
Proof. unfold assign_variable. by destruct (_ || _). Qed.

Lemma unit_propagation_pass_decisions (cls : list clause_t) :
  ∀ (s : dpll_solver_t) (propagated : bool),
    decisions (stats (snd (unit_propagation_pass cls s propagated)))
    = decisions (stats s).
Proof.
  induction cls as [|clause rest IH]; intros s propagated; simpl; [done|].
  destruct (clause_is_satisfied clause (assignment (formula s))); [apply IH|].
  destruct (clause_is_unit clause (assignment (formula s)))
    as [unit_literal|]; [|apply IH].
  destruct (IS_VARIABLE_ASSIGNED s (literal_variable unit_literal)).
  { destruct (negb _); [done|apply IH]. }
  pose proof (assign_variable_stats s (literal_variable unit_literal)
                (if literal_is_positive unit_literal
                 then VAR_TRUE else VAR_FALSE) false) as Hst.
  destruct (assign_variable s _ _ false) as [[] s1]; simpl in Hst.
  - rewrite IH. simpl. by rewrite Hst.
  - simpl. by rewrite Hst.
Qed.

Lemma unit_propagation_decisions (s s' : dpll_solver_t) (r : solver_result_t) :
  unit_propagation s = Some (r, s') →
  decisions (stats s') = decisions (stats s).
Proof.
  unfold unit_propagation. generalize (pass_budget s). intros fuel.
  revert s. induction fuel as [|fuel IH]; intros s; simpl; [done|].
  pose proof (unit_propagation_pass_decisions (clauses (formula s)) s false)
    as Hpass.
  destruct (unit_propagation_pass (clauses (formula s)) s false)
    as [[r0 p'] s1]. simpl in Hpass.
  destruct r0 as [r0|]; [by intros [= _ <-]|].
  destruct p'; [|by intros [= _ <-]].
  intros Hloop. by rewrite (IH _ Hloop).
Qed.

Lemma pure_literal_loop_decisions (count : nat) :
  ∀ (var : variable_t) (s : dpll_solver_t) (changed : bool),
    decisions (stats (snd (pure_literal_loop count var s changed)))
    = decisions (stats s).
Proof.
  induction count as [|count IH]; intros var s changed; simpl; [done|].
  destruct (IS_VARIABLE_ASSIGNED s var); [by rewrite IH|].
  destruct (scan_polarity _ _ _ _ _) as [pos neg].
  destruct (pos && negb neg).
  { rewrite IH. simpl. by rewrite assign_variable_stats. }
  destruct (neg && negb pos).
  { rewrite IH. simpl. by rewrite assign_variable_stats. }
  apply IH.
Qed.

Lemma unwind_above_stats (count : nat) (s : dpll_solver_t) :
  stats (unwind_above count s) = stats s.
Proof.
  revert s. induction count as [|count IH]; intros s; simpl; [done|].
  rewrite IH. unfold unwind_top. by destruct (stack_top (assignments s)).
Qed.

Lemma backtrack_stats (s : dpll_solver_t) :
  stats (snd (backtrack s)) = stats s.
Proof.
  unfold backtrack.
  destruct (stack_size (assignments s) =? 0)%nat; [done|].
  destruct (find_last_decision _ _) as [i|]; [|done].
  destruct (stack_top _) as [d|] eqn:Htop; simpl.
  - rewrite assign_variable_stats. unfold unwind_top. rewrite Htop. simpl.
    by rewrite unwind_above_stats.
  - by rewrite unwind_above_stats.
Qed.

Lemma backtrack_or_unsat_work (s s' : dpll_solver_t)
    (r : option solver_result_t) :
  backtrack_or_unsat s = (r, s') →
  config s' = config s ∧ stats s' = stats s.
Proof.
  unfold backtrack_or_unsat.
  pose proof (backtrack_config s) as Hc. pose proof (backtrack_stats s) as Hs.
  destruct (backtrack s) as [[] s1]; by intros [= _ <-].
Qed.

Lemma choose_decision_variable_stats (s : dpll_solver_t) :
  stats (snd (choose_decision_variable s)) = stats s.
Proof.
  unfold choose_decision_variable.
  destruct (decision_strategy (config s)); try done.
  unfold decision_random. destruct (_ =? 0); [done|].
  by destruct (random_int _ _ _).
Qed.

(** One decision at most, and none beyond the cap. *)
Lemma dpll_decide_work (s s' : dpll_solver_t) (progress_made : bool)
    (r : option solver_result_t) (i : Z) :
  dpll_decide s progress_made = (r, s') →
  0 <= decisions (stats s) <= i → i < 1000 →
  (0 < max_decisions (config s) →
   decisions (stats s) < max_decisions (config s)) →
  config s' = config s
  ∧ 0 <= decisions (stats s') <= i + 1
  ∧ (0 < max_decisions (config s) →
     decisions (stats s') <= max_decisions (config s)
     ∧ (r = None → decisions (stats s') < max_decisions (config s))).
Proof.
  unfold dpll_decide. intros Hrun Hd Hi Hcap.
  pose proof (choose_decision_variable_config s) as Hc1.
  pose proof (choose_decision_variable_stats s) as Hs1.
  destruct (choose_decision_variable s) as [decision_var s1].
  simpl in Hc1, Hs1.
  destruct (decision_var =? 0).
  { injection Hrun as <- <-. rewrite Hc1, Hs1.
    split_and!; [done|lia|lia|]. intros Hpos. split; [|done].
    specialize (Hcap Hpos). lia. }
  pose proof (assign_variable_config s1 decision_var
                (choose_decision_value s1 decision_var) true) as Hc2.
  pose proof (assign_variable_stats s1 decision_var
                (choose_decision_value s1 decision_var) true) as Hs2.
  destruct (assign_variable s1 decision_var _ true) as [[] s2];
    simpl in Hc2, Hs2.
  2:{ injection Hrun as <- <-. rewrite Hc2, Hc1, Hs2, Hs1.
      split_and!; [done|lia|lia|]. intros Hpos. split; [|done].
      specialize (Hcap Hpos). lia. }
  assert (Hincr : decisions (stats (incr_decisions s2))
                  = decisions (stats s) + 1).
  { simpl. rewrite Hs2, Hs1. unfold size_incr, SIZE_MODULUS.
    rewrite Z.mod_small; lia. }
  assert (Hcfg : config (incr_decisions s2) = config s)
    by (simpl; congruence).
  revert Hrun. generalize dependent (incr_decisions s2). intros s3 Hincr Hcfg.
  rewrite Hcfg.
  destruct (Z.ltb_spec 0 (max_decisions (config s))) as [Hpos|Hnone];
    cbn [andb].
  - destruct (Z.leb_spec (max_decisions (config s)) (decisions (stats s3)))
      as [Hreached|Hbelow].
    + intros [= <- <-]. split_and!; [done|lia|lia|].
      intros _. specialize (Hcap Hpos). split; [lia|done].
    + destruct (enable_restarts (config s) && should_restart s3);
        cbn [negb]; intros [= <- <-]; simpl; rewrite ?Hcfg;
        split_and!; try done; try lia; intros _; split; try lia;
        intros _; lia.
  - destruct (enable_restarts (config s) && should_restart s3);
      cbn [negb]; intros [= <- <-]; simpl; rewrite ?Hcfg;
      split_and!; try done; lia.
Qed.

Lemma dpll_pure_stage_work (s s' : dpll_solver_t) (progress_made : bool)
    (r : option solver_result_t) (i : Z) :
  dpll_pure_stage s progress_made = (r, s') →
  0 <= decisions (stats s) <= i → i < 1000 →
  (0 < max_decisions (config s) →
   decisions (stats s) < max_decisions (config s)) →
  config s' = config s
  ∧ 0 <= decisions (stats s') <= i + 1
  ∧ (0 < max_decisions (config s) →
     decisions (stats s') <= max_decisions (config s)
     ∧ (r = None → decisions (stats s') < max_decisions (config s))).
Proof.
  unfold dpll_pure_stage. intros Hrun Hd Hi Hcap.
  destruct (enable_pure_literal (config s)); [|by eapply dpll_decide_work].
  pose proof (pure_literal_elimination_quiet s) as (Hc1 & _).
  pose proof (pure_literal_loop_decisions
                (Z.to_nat (num_variables (formula s))) 1 s false) as Hd1.
  fold (pure_literal_elimination s) in Hd1.
  destruct (pure_literal_elimination s) as [eliminated s1].
  simpl in Hc1, Hd1.
  destruct (has_conflict s1).
  - apply backtrack_or_unsat_work in Hrun as [Hc2 Hs2].
    rewrite Hs2, Hd1, Hc2, Hc1. split_and!; [done|lia|lia|].
    intros Hpos. specialize (Hcap Hpos). split; [lia|done].
  - rewrite <- Hc1, <- Hd1 in *. by eapply dpll_decide_work.
Qed.

Lemma dpll_iteration_work (s s' : dpll_solver_t)
    (r : option solver_result_t) (i : Z) :
  dpll_iteration s = Some (r, s') →
  0 <= decisions (stats s) <= i → i < 1000 →
  (0 < max_decisions (config s) →
   decisions (stats s) < max_decisions (config s)) →
  config s' = config s
  ∧ 0 <= decisions (stats s') <= i + 1
  ∧ (0 < max_decisions (config s) →
     decisions (stats s') <= max_decisions (config s)
     ∧ (r = None → decisions (stats s') < max_decisions (config s))).
Proof.
  unfold dpll_iteration. intros Hrun Hd Hi Hcap.
  assert (Hstay : ∀ r0 s0, config s0 = config s → stats s0 = stats s →
            config s0 = config s
            ∧ 0 <= decisions (stats s0) <= i + 1
            ∧ (0 < max_decisions (config s) →
               decisions (stats s0) <= max_decisions (config s)
               ∧ (r0 = (None : option solver_result_t) →
                  decisions (stats s0) < max_decisions (config s)))).
  { intros r0 s0 Hc Hs. rewrite Hs. split_and!; [done|lia|lia|].
    intros Hpos. specialize (Hcap Hpos). split; [lia|done]. }
  destruct (is_formula_satisfied s).
  { injection Hrun as <- <-. by apply Hstay. }
  destruct (has_conflict s).
  { injection Hrun as Hrun. apply backtrack_or_unsat_work in Hrun as [? ?].
    by apply Hstay. }
  destruct (enable_unit_propagation (config s)).
  2:{ injection Hrun as Hrun. by eapply dpll_pure_stage_work. }
  destruct (unit_propagation s) as [[r1 s1]|] eqn:Hup; [|done].
  simpl in Hrun.
  pose proof (unit_propagation_quiet _ _ _ Hup) as (Hc1 & _).
  pose proof (unit_propagation_decisions _ _ _ Hup) as Hd1.
  destruct (has_conflict s1).
  - injection Hrun as Hrun. apply backtrack_or_unsat_work in Hrun as [Hc2 Hs2].
    rewrite Hs2, Hd1, Hc2, Hc1. split_and!; [done|lia|lia|].
    intros Hpos. specialize (Hcap Hpos). split; [lia|done].
  - injection Hrun as Hrun. rewrite <- Hc1, <- Hd1 in *.
    by eapply dpll_pure_stage_work.
Qed.

Lemma dpll_loop_work (remaining : nat) :
  ∀ (iterations : nat) (clock : nat → Q) (s s' : dpll_solver_t)
    (r : solver_result_t),
    dpll_loop remaining iterations clock s = Some (r, s') →
    (iterations + remaining ≤ 1000)%nat →
    0 <= decisions (stats s) <= Z.of_nat iterations →
    (0 < max_decisions (config s) →
     decisions (stats s) < max_decisions (config s)) →
    0 <= decisions (stats s') <= 1000
    ∧ (0 < max_decisions (config s) →
       decisions (stats s') <= max_decisions (config s)).
Proof.
  induction remaining as [|n IH]; intros iterations clock s s' r Hrun Hsum Hd Hcap;
    simpl in Hrun.
  { injection Hrun as <- <-. split; [lia|]. intros Hpos.
    specialize (Hcap Hpos). lia. }
  destruct (solver_is_timeout s (clock (S iterations))).
  { injection Hrun as <- <-. split; [lia|]. intros Hpos.
    specialize (Hcap Hpos). lia. }
  destruct (dpll_iteration s) as [[r0 s1]|] eqn:Hit; [|done]. simpl in Hrun.
  destruct (dpll_iteration_work _ _ _ (Z.of_nat iterations) Hit Hd
              ltac:(lia) Hcap) as (Hc & Hd1 & Hcap1).
  destruct r0 as [r0|].
  - injection Hrun as <- <-. split; [lia|]. intros Hpos.
    by destruct (Hcap1 Hpos).
  - rewrite <- Hc. apply (IH (S iterations) clock s1 s' r Hrun); [lia|lia|].
    rewrite Hc. intros Hpos. by apply Hcap1.
Qed.

Lemma preprocess_loop_work (fuel : nat) :
  ∀ (s s' : dpll_solver_t) (ok : bool),
    preprocess_loop fuel s = Some (ok, s') →
    config s' = config s ∧ decisions (stats s') = decisions (stats s).
Proof.
  induction fuel as [|fuel IH]; intros s s' ok; simpl; [done|].
  pose proof (pure_literal_elimination_quiet s) as (Hc1 & _).
  pose proof (pure_literal_loop_decisions
                (Z.to_nat (num_variables (formula s))) 1 s false) as Hd1.
  fold (pure_literal_elimination s) in Hd1.
  destruct (pure_literal_elimination s) as [eliminated s1].
  simpl in Hc1, Hd1.
  destruct (unit_propagation s1) as [[r2 s2]|] eqn:Hup; [|done]. simpl.
  pose proof (unit_propagation_quiet _ _ _ Hup) as (Hc2 & _).
  pose proof (unit_propagation_decisions _ _ _ Hup) as Hd2.
  destruct (has_conflict s2); [intros [= _ <-]; split; congruence|].
  destruct (eliminated || negb _).
  - intros Hrest. destruct (IH _ _ _ Hrest) as [Hc3 Hd3]. split; congruence.
  - intros [= _ <-]. split; congruence.
Qed.

(** X28.  The work of a run.  A freshly created solver takes at most 1000
    decisions in [solver_solve], because the main loop counts 1000 iterations
    and decides once per iteration at most; and it never takes more
    decisions than a positive [max_decisions] allows. *)
Theorem solver_solve_work (clock : nat → Q) (f : cnf_formula_t)
    (c : solver_config_t) (seed : Z) (r : solver_result_t)
    (s' : dpll_solver_t) :
  solver_solve clock (solver_create_with_config f c seed) = Some (r, s') →
  0 <= decisions (stats s') <= 1000
  ∧ (0 < max_decisions c → decisions (stats s') <= max_decisions c).
Proof.
  assert (Hsearch : ∀ s0 : dpll_solver_t,
            config s0 = c → decisions (stats s0) = 0 →
            dpll_algorithm clock (set_config s0 (install_limits (config s0)))
            = Some (r, s') →
            0 <= decisions (stats s') <= 1000
            ∧ (0 < max_decisions c → decisions (stats s') <= max_decisions c)).
  { intros s0 Hc Hd Hrun. unfold dpll_algorithm in Hrun.
    apply dpll_loop_work in Hrun as [Hbound Hcap].
    - split; [done|]. intros Hpos. simpl in Hcap. rewrite Hc in Hcap.
      destruct (Z.eqb_spec (max_decisions c) 0); [lia|]. by apply Hcap.
    - unfold max_iterations. lia.
    - simpl. lia.
    - simpl. rewrite Hd. destruct (max_decisions (config s0) =? 0); lia. }
  unfold solver_solve.
  set (s := solver_create_with_config f c seed).
  destruct (enable_preprocessing (config s)); [|by apply Hsearch].
  unfold preprocess_formula.
  destruct (preprocess_loop (pass_budget s) s) as [[ok s1]|] eqn:Hpre; [|done].
  apply preprocess_loop_work in Hpre as [Hc Hd]. simpl in Hc, Hd |- *.
  destruct (negb ok); [intros [= _ <-]; rewrite Hd; lia|].
  destruct (length (clauses (formula s1)) =? 0)%nat;
    [intros [= _ <-]; rewrite Hd; lia|].
  destruct (has_conflict s1); [intros [= _ <-]; rewrite Hd; lia|].
  by apply Hsearch.
Qed.

Lemma solver_solve_work_witness :
  ∃ s',
    solver_solve still_clock
      (solver_create_with_config (formula capped_example)
         (config capped_example) 1)
    = Some (SOLVER_UNKNOWN, s')
    ∧ 0 <= decisions (stats s') <= 1000
    ∧ (0 < max_decisions (config capped_example) →
       decisions (stats s') <= max_decisions (config capped_example)).
Proof.
  eexists. split; [vm_compute; reflexivity|].
  eapply (solver_solve_work still_clock (formula capped_example)
            (config capped_example) 1).
  vm_compute. reflexivity.
Defined.
(** ** C9: the errors of a clause line ([parser.c], [utils.c]) *)

(** *** Numerals and [parse_int] *)

Lemma read_digits_all (s : string) :
  ∀ (acc : Z) (any : bool) (v : Z),
    digits_value s acc = Some v →
    read_digits s acc any
    = (v, any || negb (string_is_empty s), EmptyString).
Proof.
  induction s as [|c s IH]; intros acc any v; simpl.
  - intros [= <-]. by rewrite orb_false_r.
  - destruct (isdigit c); [|done]. intros Hv.
    rewrite (IH _ true _ Hv). by rewrite orb_true_r.
Qed.

Lemma strtol_numeral (token : string) (l : Z) :
  numeral_value token = Some l →
  strtol token = (Z.max LONG_MIN (Z.min LONG_MAX l), Some EmptyString).
Proof.
  destruct token as [|c rest]; [done|]. unfold numeral_value.
  destruct (Ascii.eqb_spec c "-") as [->|Hminus].
  { destruct rest as [|d rest]; [done|]. simpl string_is_empty. cbv iota.
    destruct (digits_value (String d rest) 0) as [v|] eqn:Hv; [|done].
    intros [= <-]. unfold strtol.
    change (skip_spaces (String "-" (String d rest)))
      with (String "-" (String d rest)).
    cbv iota beta. by rewrite (read_digits_all _ _ false _ Hv). }
  destruct (Ascii.eqb_spec c "+") as [->|Hplus].
  { destruct rest as [|d rest]; [done|]. simpl string_is_empty. cbv iota.
    intros Hv. unfold strtol.
    change (skip_spaces (String "+" (String d rest)))
      with (String "+" (String d rest)).
    cbv iota beta. by rewrite (read_digits_all _ _ false _ Hv). }
  intros Hv.
  assert (Hc : isdigit c = true).
  { simpl in Hv. by destruct (isdigit c). }
  rewrite (strtol_digits _ _ Hc). by rewrite (read_digits_all _ _ false _ Hv).
Qed.

Lemma parse_int_numeral (token : string) (l : Z) :
  numeral_value token = Some l →
  parse_int token
  = if (l <? INT32_MIN) || (INT32_MAX <? l) then None else Some l.
Proof.
  intros Hl. unfold parse_int. rewrite (strtol_numeral _ _ Hl).
  unfold LONG_MIN, LONG_MAX, INT32_MIN, INT32_MAX.
  destruct (Z.ltb_spec l (- 2 ^ 31)); simpl.
  { replace (_ <? _) with true; [done|]. symmetry. apply Z.ltb_lt. lia. }
  destruct (Z.ltb_spec (2 ^ 31 - 1) l); simpl.
  { replace (_ <? _) with false by (symmetry; apply Z.ltb_ge; lia); simpl.
    replace (_ <? _) with true; [done|]. symmetry. apply Z.ltb_lt. lia. }
  replace (Z.max _ _) with l by lia.
  replace (l <? _) with false by (symmetry; apply Z.ltb_ge; lia).
  replace (_ <? l) with false by (symmetry; apply Z.ltb_ge; lia). done.
Qed.

Lemma token_in_range_valid (n : Z) (token : string) :
  n <= INT32_MAX →
  token_in_range n token = true →
  ∃ l, parse_int token = Some l ∧ l ≠ 0 ∧ is_valid_literal l n = true.
Proof.
  intros Hn. unfold token_in_range.
  destruct (numeral_value token) as [l|] eqn:Hl; [|done].
  intros [Hnz Hle]%andb_true_iff. exists l.
  apply negb_true_iff, Z.eqb_neq in Hnz. apply Z.leb_le in Hle.
  split_and!; [|done|].
  - rewrite (parse_int_numeral _ _ Hl).
    unfold INT32_MIN, INT32_MAX in *.
    replace (l <? _) with false by (symmetry; apply Z.ltb_ge; lia).
    by replace (_ <? l) with false by (symmetry; apply Z.ltb_ge; lia).
  - unfold is_valid_literal, is_valid_variable.
    destruct (Z.eqb_spec l 0); [done|].
    destruct (Z.ltb_spec 0 l); apply andb_true_iff;
      split; (apply Z.leb_le; lia).
Qed.

Lemma token_out_of_range_invalid (n : Z) (token : string) :
  token_out_of_range n token = true →
  ∃ l, parse_int token = Some l ∧ l ≠ 0 ∧ is_valid_literal l n = false.
Proof.
  unfold token_out_of_range.
  destruct (numeral_value token) as [l|] eqn:Hl; [|done].
  intros [[Hnz Hlt]%andb_true_iff Hint]%andb_true_iff. exists l.
  apply negb_true_iff, Z.eqb_neq in Hnz. apply Z.ltb_lt in Hlt.
  apply Z.leb_le in Hint.
  split_and!; [|done|].
  - rewrite (parse_int_numeral _ _ Hl).
    unfold INT32_MIN, INT32_MAX in *.
    replace (l <? _) with false by (symmetry; apply Z.ltb_ge; lia).
    by replace (_ <? l) with false by (symmetry; apply Z.ltb_ge; lia).
  - unfold is_valid_literal, is_valid_variable.
    destruct (Z.eqb_spec l 0); [done|].
    destruct (Z.ltb_spec 0 l); apply andb_false_iff;
      right; (apply Z.leb_gt; lia).
Qed.

Lemma token_beyond_int_rejected (token : string) :
  token_beyond_int token = true → parse_int token = None.
Proof.
  unfold token_beyond_int.
  destruct (numeral_value token) as [l|] eqn:Hl; [|done].
  intros Hout. by rewrite (parse_int_numeral _ _ Hl), Hout.
Qed.

(** The token loop walks over a prefix of in-range literals without
    returning. *)
Lemma parse_clause_tokens_prefix (n : Z) (pre : list string) :
  ∀ (rest : list string) (clause : clause_t),
    n <= INT32_MAX →
    Forall (λ t, token_in_range n t = true) pre →
    ∃ clause',
      parse_clause_tokens (pre ++ rest) clause n
      = parse_clause_tokens rest clause' n.
Proof.
  induction pre as [|t pre IH]; intros rest clause Hn Hpre; simpl.
  - by exists clause.
  - apply list.Forall_cons in Hpre as [Ht Hpre].
    destruct (token_in_range_valid _ _ Hn Ht) as (l & -> & Hnz & Hvalid).
    apply Z.eqb_neq in Hnz. rewrite Hnz, Hvalid. simpl.
    unfold clause_add_literal. rewrite Hnz.
    destruct (clause_has_literal clause l); by apply IH.
Qed.

(** The three answers of [parse_clause_line] to a line whose tokens start
    with in-range literals. *)
Lemma parse_clause_line_answers (line : string) (n : Z) (pre : list string) :
  n <= INT32_MAX →
  Forall (λ t, token_in_range n t = true) pre →
  (strtok_tokens line = pre →
   fst (parse_clause_line line [] n) = PARSE_ERROR_CLAUSE_NOT_TERMINATED)
  ∧ (∀ (t : string) (post : list string),
       strtok_tokens line = pre ++ t :: post →
       (token_out_of_range n t = true →
        fst (parse_clause_line line [] n) = PARSE_ERROR_VARIABLE_OUT_OF_RANGE)
       ∧ (token_beyond_int t = true →
          fst (parse_clause_line line [] n) = PARSE_ERROR_INVALID_CLAUSE)).
Proof.
  intros Hn Hpre. unfold parse_clause_line. split.
  - intros ->.
    destruct (parse_clause_tokens_prefix _ pre [] [] Hn Hpre) as [clause' Heq].
    rewrite app_nil_r in Heq. by rewrite Heq.
  - intros t post ->.
    destruct (parse_clause_tokens_prefix _ pre (t :: post) [] Hn Hpre)
      as [clause' ->]. simpl. split.
    + intros Hout.
      destruct (token_out_of_range_invalid _ _ Hout) as (l & -> & Hnz & Hinv).
      apply Z.eqb_neq in Hnz. by rewrite Hnz, Hinv.
    + intros Hout. by rewrite (token_beyond_int_rejected _ Hout).
Qed.

(** Whatever error [parse_clause_line] reports, the loop body returns it at
    once and leaves the parser as it is. *)
Lemma parse_stream_clause_line_error (p : cnf_parser_t) (line : string)
    (r : parse_result_t) :
  fst (parse_clause_line line [] (max_variables (info p))) = r →
  r ≠ PARSE_OK →
  parse_stream_clause_line p true line = (Some r, p).
Proof.
  intros Hr Hne. unfold parse_stream_clause_line. simpl.
  destruct (parse_clause_line line [] (max_variables (info p))) as [r' clause].
  simpl in Hr. subst r'. by rewrite bool_decide_eq_false_2.
Qed.

(** *** The lines that reach [parse_clause_line] *)

Lemma trim_string_head (s : string) :
  trim_string s = EmptyString
  ∨ ∃ c r, trim_string s = String c r ∧ isspace c = false.
Proof.
  unfold trim_string. destruct (skip_spaces s) as [|c r] eqn:Hs; [by left|].
  right. simpl string_is_empty. cbv iota.
  rewrite Nat.add_1_r. simpl substring.
  eexists _, _. split; [reflexivity|]. by eapply skip_spaces_head.
Qed.

Lemma is_delimiter_isspace (c : ascii) :
  isspace c = false → is_delimiter c = false.
Proof.
  destruct c as [[] [] [] [] [] [] [] []]; intros H; try discriminate H;
    reflexivity.
Qed.

Lemma strtok_loop_head (s : string) :
  ∀ token : string,
    token ≠ EmptyString →
    ∃ u ts, strtok_loop s token = (token ++ u)%string :: ts.
Proof.
  induction s as [|c s IH]; intros token Htoken; simpl.
  - destruct token; [done|]. simpl. exists EmptyString, [].
    by rewrite append_empty_r.
  - destruct (is_delimiter c).
    + destruct token; [done|]. simpl. exists EmptyString. eexists.
      by rewrite append_empty_r.
    + destruct (IH (token ++ String c EmptyString)%string) as (u & ts & ->).
      { by destruct token. }
      exists (String c u), ts. f_equal.
      clear. induction token as [|d token IH]; simpl; [done|by rewrite IH].
Qed.

Lemma strtok_tokens_head (c : ascii) (r t : string) (ts : list string) :
  is_delimiter c = false →
  strtok_tokens (String c r) = t :: ts → ∃ u, t = String c u.
Proof.
  intros Hc. unfold strtok_tokens. simpl. rewrite Hc.
  destruct (strtok_loop_head r (String c EmptyString)) as (u & ts' & ->);
    [done|].
  intros [= <- _]. by exists u.
Qed.

Lemma numeral_value_head (c : ascii) (s : string) (l : Z) :
  numeral_value (String c s) = Some l →
  Ascii.eqb c "c" = false ∧ Ascii.eqb c "p" = false.
Proof.
  unfold numeral_value.
  destruct (Ascii.eqb_spec c "-") as [->|_]; [done|].
  destruct (Ascii.eqb_spec c "+") as [->|_]; [done|].
  simpl. destruct (isdigit c) eqn:Hc; [|done]. intros _.
  destruct (isdigit_plain _ Hc) as (_ & _ & _ & _ & _ & _ & H1 & H2).
  split; by apply Ascii.eqb_neq.
Qed.

(** A line whose first token is a numeral is neither skipped nor taken for
    a problem line: the loop body hands it to [parse_clause_line]. *)
Lemma parse_stream_line_clause (p : cnf_parser_t) (found : bool)
    (line t : string) (ts : list string) :
  strtok_tokens (line_text line) = t :: ts →
  is_Some (numeral_value t) →
  parse_stream_line p found line
  = (let '(r, p') :=
       parse_stream_clause_line (parser_next_line p) found (line_text line) in
     (r, p', found)).
Proof.
  unfold parse_stream_line, line_text, parser_next_line.
  set (trimmed := trim_string (cut_line line)).
  destruct (trim_string_head (cut_line line)) as [Hnil|(c & r & Hcons & Hc)];
    fold trimmed in Hnil || fold trimmed in Hcons.
  { rewrite Hnil. done. }
  rewrite Hcons. intros Htokens [l Hl].
  destruct (strtok_tokens_head _ _ _ _ (is_delimiter_isspace _ Hc) Htokens)
    as [u ->].
  destruct (numeral_value_head _ _ _ Hl) as [Hcc Hcp].
  cbn [is_empty_line is_comment_line]. rewrite Hc, Hcc. simpl negb. cbv iota.
  unfold is_problem_line, string_starts_with. simpl. by rewrite Hcp.
Qed.

(** *** The loop up to the line *)

Lemma parse_stream_lines_app (l1 l2 : list string) :
  ∀ (p : cnf_parser_t) (found : bool),
    parse_stream_lines (l1 ++ l2) p found
    = match parse_stream_loop l1 p found with
      | (Some r, p', _) => (r, p')
      | (None, p', found') => parse_stream_lines l2 p' found'
      end.
Proof.
  induction l1 as [|line l1 IH]; intros p found; simpl; [done|].
  destruct (parse_stream_line p found line) as [[[r|] p'] found']; [done|].
  apply IH.
Qed.

Lemma parse_stream_loop_after (lines : list string) :
  ∀ (p p1 : cnf_parser_t) (cnf : cnf_formula_t) (found1 : bool),
    parsed_formula p cnf →
    parse_stream_loop lines p true = (None, p1, found1) →
    found1 = true
    ∧ (∃ cnf1, parsed_formula p1 cnf1)
    ∧ line_number (info p1) = line_number (info p) + Z.of_nat (length lines).
Proof.
  induction lines as [|line rest IH]; intros p p1 cnf found1 Hp; simpl.
  { intros [= <- <-]. split_and!; [done|by exists cnf|lia]. }
  destruct (parse_stream_line p true line) as [[[e|] p2] found2] eqn:Hline;
    [done|].
  destruct (parse_stream_line_after _ _ _ _ _ _ Hp Hline)
    as (-> & _ & Hl & _ & _ & _ & cnf2 & Hp2).
  intros Hrest. destruct (IH _ _ _ _ Hp2 Hrest) as (-> & Hcnf & Hcount).
  split_and!; [done|done|lia].
Qed.

Lemma parse_stream_loop_before (lines : list string) :
  ∀ (p p1 : cnf_parser_t) (found1 : bool),
    parser_formula p = None →
    parsed_clauses (info p) = 0 →
    0 <= line_number (info p) →
    parse_stream_loop lines p false = (None, p1, found1) →
    line_number (info p1) = line_number (info p) + Z.of_nat (length lines)
    ∧ (if found1 then ∃ cnf1, parsed_formula p1 cnf1
       else parser_formula p1 = None).
Proof.
  induction lines as [|line rest IH]; intros p p1 found1 Hnone Hzero Hln; simpl.
  { intros [= <- <-]. split; [lia|done]. }
  destruct (parse_stream_line p false line) as [[[e|] p2] found2] eqn:Hline;
    [done|].
  destruct (parse_stream_line_before _ _ _ _ _ Hnone Hzero Hln Hline)
    as (_ & Hl & Hr).
  destruct found2.
  - destruct Hr as (_ & _ & cnf2 & Hp2 & _). intros Hrest.
    destruct (parse_stream_loop_after _ _ _ _ _ Hp2 Hrest)
      as (-> & Hcnf & Hcount).
    split; [lia|done].
  - destruct Hr as (_ & Hnone2 & Hzero2). intros Hrest.
    destruct (IH _ _ _ Hnone2 Hzero2 ltac:(lia) Hrest) as [Hcount Hcnf].
    split; [lia|done].
Qed.

Lemma clause_line_fault_answer (line : string) (n : Z) (e : parse_result_t) :
  n <= INT32_MAX →
  clause_line_fault n (strtok_tokens line) e →
  fst (parse_clause_line line [] n) = e ∧ e ≠ PARSE_OK.
Proof.
  intros Hn (pre & Hpre & Hfault).
  destruct (parse_clause_line_answers line n pre Hn Hpre) as [Hend Hbad].
  destruct Hfault as [[Htokens ->]|(t & post & Htokens & Hfault)].
  { split; [by apply Hend|done]. }
  destruct (Hbad t post Htokens) as [Hrange Hint].
  destruct Hfault as [[Ht ->]|[Ht ->]]; (split; [auto|done]).
Qed.

Lemma clause_line_fault_numeral (n : Z) (t : string) (ts : list string)
    (e : parse_result_t) :
  clause_line_fault n (t :: ts) e → is_Some (numeral_value t).
Proof.
  intros (pre & Hpre & Hfault).
  assert (Hin : ∀ u, token_in_range n u = true → is_Some (numeral_value u)).
  { intros u. unfold token_in_range. by destruct (numeral_value u). }
  destruct Hfault as [[<- _]|(u & post & Htokens & Hfault)].
  { apply list.Forall_cons in Hpre as [Ht _]. by apply Hin. }
  destruct pre as [|t' pre]; simpl in Htokens; injection Htokens as <- _.
  - unfold token_out_of_range, token_beyond_int in Hfault.
    destruct (numeral_value t); [done|]. by destruct Hfault as [[? _]|[? _]].
  - apply list.Forall_cons in Hpre as [Ht _]. by apply Hin.
Qed.

(** C9, as amended.  [parse_clause_line] reads the tokens of the line in
    order and returns at the first one that is not a non-zero literal of a
    variable of [1 .. N].  When the tokens end before such a token has come,
    the result is the clause-not-terminated error; when the token is a
    non-zero integer of magnitude above [N] and at most [INT32_MAX], it is the
    variable-out-of-range error; when the token is a numeral outside the range
    of [int], it is the invalid-clause error.  [parser_parse_stream], on a
    text of at most [INT32_MAX] lines that declares fewer than [INT32_MAX]
    variables, returns that error when it reads such a line with at least one
    token after the problem line, and the formula and [parsed_clauses] are
    what they were before the line: no clause is added.
    Before the problem line it returns the no-problem-line error for a line
    that starts with a numeral, and there is no formula. *)
Theorem parse_clause_line_errors :
  (∀ (line : string) (n : Z) (e : parse_result_t),
     n <= INT32_MAX →
     clause_line_fault n (strtok_tokens line) e →
     fst (parse_clause_line line [] n) = e)
  ∧ (∀ (p p1 : cnf_parser_t) (stream line : string)
       (before rest : list string) (e : parse_result_t),
       fgets_lines stream = before ++ line :: rest →
       Z.of_nat (length before) < INT32_MAX →
       parse_stream_loop before (parser_reset p) false = (None, p1, true) →
       max_variables (info p1) < INT32_MAX →
       strtok_tokens (line_text line) ≠ [] →
       clause_line_fault (max_variables (info p1))
         (strtok_tokens (line_text line)) e →
       ∃ p',
         parser_parse_stream p stream = (e, p')
         ∧ fst (parse_clause_line (line_text line) []
                  (max_variables (info p1))) = e
         ∧ parser_formula p' = parser_formula p1
         ∧ parsed_clauses (info p') = parsed_clauses (info p1)
         ∧ line_number (info p') = Z.of_nat (length before) + 1)
  ∧ (∀ (p p1 : cnf_parser_t) (stream line t : string)
       (before rest ts : list string),
       fgets_lines stream = before ++ line :: rest →
       Z.of_nat (length before) < INT32_MAX →
       parse_stream_loop before (parser_reset p) false = (None, p1, false) →
       strtok_tokens (line_text line) = t :: ts →
       is_Some (numeral_value t) →
       ∃ p',
         parser_parse_stream p stream = (PARSE_ERROR_NO_PROBLEM_LINE, p')
         ∧ parser_formula p' = None
         ∧ line_number (info p') = Z.of_nat (length before) + 1).
Proof.
  split; [|split].
  - intros line n e Hn Hfault.
    by destruct (clause_line_fault_answer line n e Hn Hfault).
  - intros p p1 stream line before rest e Hlines _ Hloop _ Htokens Hfault.
    destruct (parse_stream_loop_before _ (parser_reset p) _ _ eq_refl eq_refl
                (Z.le_refl 0) Hloop) as [Hcount Hcnf].
    destruct Hcnf as (cnf & _ & Hn & Hpos & _).
    assert (Hmax : max_variables (info p1) <= INT32_MAX) by lia.
    destruct (clause_line_fault_answer _ _ _ Hmax Hfault) as [Hanswer Herr].
    destruct (strtok_tokens (line_text line)) as [|t ts] eqn:Ht; [done|].
    pose proof (clause_line_fault_numeral _ _ _ _ Hfault) as Hnum.
    exists (parser_next_line p1). unfold parser_parse_stream.
    rewrite Hlines, parse_stream_lines_app, Hloop.
    cbn [parse_stream_lines].
    rewrite (parse_stream_line_clause p1 true line t ts Ht Hnum).
    rewrite (parse_stream_clause_line_error (parser_next_line p1) _ e);
      [|exact Hanswer|exact Herr].
    split_and!; try done. simpl. simpl in Hcount. lia.
  - intros p p1 stream line t before rest ts Hlines _ Hloop Ht Hnum.
    destruct (parse_stream_loop_before _ (parser_reset p) _ _ eq_refl eq_refl
                (Z.le_refl 0) Hloop) as [Hcount Hnone].
    exists (parser_next_line p1). unfold parser_parse_stream.
    rewrite Hlines, parse_stream_lines_app, Hloop.
    cbn [parse_stream_lines].
    rewrite (parse_stream_line_clause p1 false line t ts Ht Hnum).
    unfold parse_stream_clause_line. simpl. simpl in Hcount.
    split_and!; [done|done|lia].
Qed.

Lemma parse_clause_line_errors_witness :
  fst (parse_clause_line "1 -2" [] 3) = PARSE_ERROR_CLAUSE_NOT_TERMINATED
  ∧ (∃ p',
       parser_parse_stream (parser_create false) unterminated_example
       = (PARSE_ERROR_CLAUSE_NOT_TERMINATED, p')
       ∧ parsed_clauses (info p') = 0 ∧ line_number (info p') = 2)
  ∧ (∃ p',
       parser_parse_stream (parser_create false) out_of_range_example
       = (PARSE_ERROR_VARIABLE_OUT_OF_RANGE, p')
       ∧ parsed_clauses (info p') = 0 ∧ line_number (info p') = 3)
  ∧ (∃ p',
       parser_parse_stream (parser_create false) beyond_int_example
       = (PARSE_ERROR_INVALID_CLAUSE, p')
       ∧ parsed_clauses (info p') = 0 ∧ line_number (info p') = 2)
  ∧ (∃ p',
       parser_parse_stream (parser_create false) headless_example
       = (PARSE_ERROR_NO_PROBLEM_LINE, p')
       ∧ parser_formula p' = None ∧ line_number (info p') = 1).
Proof.
  destruct parse_clause_line_errors as (Hline & Hstream & Hhead).
  assert (Hpre : Forall (λ t, token_in_range 3 t = true)
                   ["1"%string; "-2"%string]) by (by repeat constructor).
  assert (Hone : Forall (λ t, token_in_range 3 t = true) ["1"%string])
    by (by repeat constructor).
  split_and!.
  - apply Hline; [by vm_compute|]. exists ["1"%string; "-2"%string].
    split; [exact Hpre|]. left. by vm_compute.
  - destruct (Hstream (parser_create false)
                (snd (fst (parse_stream_loop
                             [("p cnf 3 1" ++ String newline EmptyString)%string]
                             (parser_reset (parser_create false)) false)))
                unterminated_example
                ("1 -2" ++ String newline EmptyString)%string
                [("p cnf 3 1" ++ String newline EmptyString)%string] []
                PARSE_ERROR_CLAUSE_NOT_TERMINATED)
      as (p' & Hrun & _ & _ & Hparsed & Hnumber);
      [by vm_compute|by vm_compute|by vm_compute|by vm_compute|by vm_compute| |].
    { exists ["1"%string; "-2"%string]. split; [exact Hpre|]. left.
      by vm_compute. }
    exists p'. split_and!; [exact Hrun|rewrite Hparsed; by vm_compute|rewrite Hnumber; by vm_compute].
  - destruct (Hstream (parser_create false)
                (snd (fst (parse_stream_loop
                             [("c one clause" ++ String newline EmptyString)%string;
                              ("p cnf 3 1" ++ String newline EmptyString)%string]
                             (parser_reset (parser_create false)) false)))
                out_of_range_example
                ("1 -2 7 0" ++ String newline EmptyString)%string
                [("c one clause" ++ String newline EmptyString)%string;
                 ("p cnf 3 1" ++ String newline EmptyString)%string] []
                PARSE_ERROR_VARIABLE_OUT_OF_RANGE)
      as (p' & Hrun & _ & _ & Hparsed & Hnumber);
      [by vm_compute|by vm_compute|by vm_compute|by vm_compute|by vm_compute| |].
    { exists ["1"%string; "-2"%string]. split; [exact Hpre|]. right.
      exists "7"%string, ["0"%string]. split; [by vm_compute|]. by left. }
    exists p'. split_and!; [exact Hrun|rewrite Hparsed; by vm_compute|rewrite Hnumber; by vm_compute].
  - destruct (Hstream (parser_create false)
                (snd (fst (parse_stream_loop
                             [("p cnf 3 1" ++ String newline EmptyString)%string]
                             (parser_reset (parser_create false)) false)))
                beyond_int_example
                ("1 3000000000 0" ++ String newline EmptyString)%string
                [("p cnf 3 1" ++ String newline EmptyString)%string] []
                PARSE_ERROR_INVALID_CLAUSE)
      as (p' & Hrun & _ & _ & Hparsed & Hnumber);
      [by vm_compute|by vm_compute|by vm_compute|by vm_compute|by vm_compute| |].
    { exists ["1"%string]. split; [exact Hone|]. right.
      exists "3000000000"%string, ["0"%string]. split; [by vm_compute|].
      by right. }
    exists p'. split_and!; [exact Hrun|rewrite Hparsed; by vm_compute|rewrite Hnumber; by vm_compute].
  - destruct (Hhead (parser_create false) (parser_reset (parser_create false))
                headless_example
                ("1 -2 0" ++ String newline EmptyString)%string "1"%string
                [] [] ["-2"%string; "0"%string])
      as (p' & Hrun & Hnone & Hnumber);
      [by vm_compute|by vm_compute|by vm_compute|by vm_compute|by eexists|].
    exists p'. by split_and!.
Defined.
